(** * libDAI: factor algebra (factor.h) and belief propagation (bp.cpp)

    A shallow embedding of [TFactor<Real>] and of the [BP] engine.

    - [Real] (a C++ double) is read as an exact real number of [R];
      [log] of a strictly positive number is [ln]. The C++ [log] of 0 is
      minus infinity, which is no real number: taking it is the error
      [NOT_REAL], and the model follows a run as far as its values are real
      numbers.
    - Vectors ([TProb<Real>], [std::vector]) are lists. A read or a write
      outside the bounds of a vector, undefined behaviour in C++, is the
      error [OUT_OF_BOUNDS]; a failed [assert] or a violated precondition is
      the error [PRECONDITION]; normalizing a zero vector is the error
      [NONNORMALIZABLE].
    - Methods that mutate [*this] return the new object; loops are
      [for_each] over the list they walk, threading the mutated state.
    - Of the headers that factor.h and bp.cpp include, var.h, varset.h,
      index.h, prob.h, factorgraph.h and bp.h lie outside the two files
      modelled here: what factor.h and bp.cpp use of them is modelled from
      the specification and marked so. *)

From Stdlib Require Import Reals List Arith Bool Lia Lra Sorted.
Import ListNotations.

(* ===================================================================== *)
(** * Errors and the error monad *)
(* ===================================================================== *)

Inductive error : Type :=
| PRECONDITION
| NONNORMALIZABLE
| OUT_OF_BOUNDS
| NOT_REAL.

Inductive result (A : Type) : Type :=
| Ok (a : A)
| Err (e : error).

Arguments Ok {A} a.
Arguments Err {A} e.

Definition bind {A B : Type} (m : result A) (k : A -> result B) : result B :=
  match m with
  | Ok a => k a
  | Err e => Err e
  end.

Notation "x <- m ;; k" := (bind m (fun x => k))
  (at level 61, m at next level, right associativity).
Notation "' pat <- m ;; k" := (bind m (fun x => match x with pat => k end))
  (at level 61, pat pattern, m at next level, right associativity).

(** [assert( c )] *)
Definition assert (c : bool) : result unit :=
  if c then Ok tt else Err PRECONDITION.

(** [v[i]] on a [std::vector]: defined inside the bounds only. *)
Definition get {A : Type} (v : list A) (i : nat) : result A :=
  match nth_error v i with
  | Some a => Ok a
  | None => Err OUT_OF_BOUNDS
  end.

(** Replaces entry [i] of [v]; the list is unchanged when [i] is out of
    range ([modify] checks the bound first). *)
Fixpoint upd {A : Type} (v : list A) (i : nat) (a : A) : list A :=
  match v, i with
  | [], _ => []
  | _ :: v', O => a :: v'
  | b :: v', S i' => b :: upd v' i' a
  end.

(** [v[i] = f(v[i])], the shape of [v[i] += x] and of a method call on
    [v[i]]. *)
Definition modify {A : Type} (v : list A) (i : nat) (f : A -> result A)
  : result (list A) :=
  a <- get v i ;;
  a' <- f a ;;
  Ok (upd v i a').

(** [for( x in l ) body], threading the mutated state [s]. *)
Fixpoint for_each {A S : Type} (l : list A) (body : A -> S -> result S)
  (s : S) : result S :=
  match l with
  | [] => Ok s
  | a :: l' => s' <- body a s ;; for_each l' body s'
  end.

(** [for( size_t i = 0; i < n; ++i ) body] *)
Definition for_range {S : Type} (n : nat) (body : nat -> S -> result S)
  (s : S) : result S :=
  for_each (seq 0 n) body s.

(* ===================================================================== *)
(** * Var and VarSet (var.h, varset.h) *)
(* ===================================================================== *)

(** Modelled from the spec: var.h is missing. A variable has an integer
    label and a state count; two variables compare by label. *)
Record Var : Type := mkVar { label : nat; states : nat }.

Definition var_eqb (a b : Var) : bool := label a =? label b.
Definition var_ltb (a b : Var) : bool := label a <? label b.

(** Modelled from the spec: varset.h is missing. A VarSet is the sequence
    of its variables in label order. *)
Definition VarSet : Type := list Var.

Definition labels (V : VarSet) : list nat := map label V.

(** The class invariant of a VarSet: strictly increasing labels. *)
Definition vs_sorted (V : VarSet) : Prop := StronglySorted lt (labels V).

(** Modelled from the spec: [a == b] of varset.h, the same labels in the
    same order. *)
Fixpoint vs_eqb (a b : VarSet) : bool :=
  match a, b with
  | [], [] => true
  | x :: a', y :: b' => var_eqb x y && vs_eqb a' b'
  | _, _ => false
  end.

Definition vs_mem (v : Var) (V : VarSet) : bool := existsb (var_eqb v) V.

(** Modelled from the spec: [a | b] of varset.h; union merges. *)
Fixpoint vs_union (a : VarSet) : VarSet -> VarSet :=
  fix merge (b : VarSet) : VarSet :=
    match a, b with
    | [], _ => b
    | _, [] => a
    | x :: a', y :: b' =>
        if var_ltb x y then x :: vs_union a' b
        else if var_ltb y x then y :: merge b'
        else x :: vs_union a' b'
    end.

(** Modelled from the spec: [a & b] of varset.h; intersection keeps the
    common labels. *)
Definition vs_inter (a b : VarSet) : VarSet :=
  filter (fun v => vs_mem v b) a.

(** Modelled from the spec: [a / b] of varset.h; difference drops the
    labels of [b]. *)
Definition vs_diff (a b : VarSet) : VarSet :=
  filter (fun v => negb (vs_mem v b)) a.

(** Modelled from the spec: [a >> b] of varset.h; [a] is a superset of
    [b]. *)
Definition vs_superset (a b : VarSet) : bool :=
  forallb (fun v => vs_mem v a) b.

(** Modelled from the spec: [nrStates()] of varset.h; the joint state
    count, 1 for the empty set. *)
Fixpoint nrStates (V : VarSet) : nat :=
  match V with
  | [] => 1
  | v :: V' => states v * nrStates V'
  end.

(** A joint state assigns a state to every label. *)
Definition assignment : Type := nat -> nat.

Definition valid_on (V : VarSet) (x : assignment) : Prop :=
  forall v, In v V -> x (label v) < states v.

(** Modelled from the spec: [calcState] of varset.h; the linear encoding
    sigma of a joint state, whose least significant digit is the
    lowest-labelled variable. *)
Fixpoint calcState (V : VarSet) (x : assignment) : nat :=
  match V with
  | [] => 0
  | v :: V' => x (label v) + states v * calcState V' x
  end.

(** Modelled from the spec: [calcStates] of varset.h; the inverse of
    [calcState], by division and modulo over the digits. *)
Fixpoint calcStates (V : VarSet) (k : nat) : assignment :=
  match V with
  | [] => fun _ => 0
  | v :: V' => fun l =>
      if l =? label v then k mod states v
      else calcStates V' (k / states v) l
  end.

(* ===================================================================== *)
(** * IndexFor (index.h) *)
(* ===================================================================== *)

(** Modelled from the spec: index.h is missing. [IndexFor inner outer] is
    the sequence, of length [nrStates outer], whose entry [k] is the linear
    index in [inner] of the joint state that [k] encodes in [outer]. The
    C++ object is advanced with [++] next to a counter; the value of the
    object after [k] increments is entry [k], and past the last entry the
    object holds the sentinel -1, which is no valid position. *)
Definition IndexFor (inner outer : VarSet) : list nat :=
  map (fun k => calcState inner (calcStates outer k)) (seq 0 (nrStates outer)).

(* ===================================================================== *)
(** * Prob = TProb<Real> (prob.h) *)
(* ===================================================================== *)

Local Open Scope R_scope.

(** Modelled from the spec: prob.h is missing. A ProbVector is a dense
    array of real scalars; its operations below follow the spec's list of
    them (ProbVector, section 4.C). *)
Definition Prob : Type := list R.

Inductive NormType : Type := NORMPROB | NORMLINF.

Inductive DistType : Type := DISTL1 | DISTLINF | DISTTV | DISTKL | DISTHEL.

(** [Prob( n, c )]: [n] entries equal to [c]. *)
Definition Prob_const (n : nat) (c : R) : Prob := repeat c n.

(** [a.fill( c )] *)
Definition Prob_fill (a : Prob) (c : R) : Prob := map (fun _ => c) a.

(** Modelled from the spec: pointwise arithmetic of prob.h against an
    equal-length vector. *)
Definition pointwise (op : R -> R -> R) (a b : Prob) : result Prob :=
  if (length a =? length b)%nat
  then Ok (map (fun xy => op (fst xy) (snd xy)) (combine a b))
  else Err PRECONDITION.

(** [a *= b] and [a += b] *)
Definition Prob_mul : Prob -> Prob -> result Prob := pointwise Rmult.
Definition Prob_add : Prob -> Prob -> result Prob := pointwise Rplus.

(** [a -= c] for a scalar [c] *)
Definition Prob_sub_scalar (a : Prob) (c : R) : Prob := map (fun x => x - c) a.

(** Whether every entry is strictly positive. *)
Definition Prob_positive (a : Prob) : bool :=
  forallb (fun x => if Rlt_dec 0 x then true else false) a.

(** Modelled from the spec: [a.takeLog()] and [a.log()] of prob.h as
    bp.cpp calls them (without [keepZero]), the logarithm of every entry,
    where [log(0)] is minus infinity. Minus infinity is no real number: on
    a vector with an entry that is not strictly positive the C++ run goes
    on with that value, and the model stops with [NOT_REAL]. *)
Definition Prob_log (a : Prob) : result Prob :=
  if Prob_positive a then Ok (map ln a) else Err NOT_REAL.

(** [a.takeExp()] *)
Definition Prob_exp (a : Prob) : Prob := map exp a.

(** Modelled from the spec: [a.max()] of prob.h, the largest entry
    ([maxVal] in factor.h). *)
Definition Prob_max (a : Prob) : result R :=
  match a with
  | [] => Err OUT_OF_BOUNDS
  | x :: a' => Ok (fold_left Rmax a' x)
  end.

(** Modelled from the spec: [a.totalSum()] of prob.h. *)
Definition Prob_totalSum (a : Prob) : R := fold_left Rplus a 0.

(** [a.maxAbs()] *)
Definition Prob_maxAbs (a : Prob) : R :=
  fold_left (fun m x => Rmax m (Rabs x)) a 0.

(** Modelled from the spec: [a.normalize( norm )] of prob.h; divides by the
    total sum (PROB) or by the largest absolute value (LINF), fails when
    that divisor is 0, and returns the normalized vector with the
    divisor. *)
Definition Prob_normalize (a : Prob) (norm : NormType) : result (Prob * R) :=
  let Z := match norm with
           | NORMPROB => Prob_totalSum a
           | NORMLINF => Prob_maxAbs a
           end in
  if Req_dec_T Z 0 then Err NONNORMALIZABLE
  else Ok (map (fun x => x / Z) a, Z).

(** Modelled from the spec: [a.entropy()] of prob.h; the sum of
    [- x log x] over the nonzero entries. *)
Definition Prob_entropy (a : Prob) : R :=
  fold_left (fun s x => if Req_dec_T x 0 then s else s - x * ln x) a 0.

(** Modelled from the spec: [dist( a, b, dt )] of prob.h on two vectors,
    of kind L1, LINF, TV (half of L1), KL (the sum of [a log(a/b)], with
    [0 log 0 = 0]) or HELLINGER (the spec names this kind only; it is taken
    as the sum of [(sqrt a - sqrt b)^2]). *)
Definition dist_Prob (a b : Prob) (dt : DistType) : R :=
  let ab := combine a b in
  match dt with
  | DISTL1 =>
      fold_left (fun s xy => s + Rabs (fst xy - snd xy)) ab 0
  | DISTLINF =>
      fold_left (fun m xy => Rmax m (Rabs (fst xy - snd xy))) ab 0
  | DISTTV =>
      fold_left (fun s xy => s + Rabs (fst xy - snd xy)) ab 0 / 2
  | DISTKL =>
      fold_left (fun s xy => if Req_dec_T (fst xy) 0 then s
                             else s + fst xy * ln (fst xy / snd xy)) ab 0
  | DISTHEL =>
      fold_left (fun s xy => s + (sqrt (fst xy) - sqrt (snd xy))
                                 * (sqrt (fst xy) - sqrt (snd xy))) ab 0
  end.

(** Modelled from the spec: the free functions [min( a, b )] and
    [max( a, b )] of prob.h on two vectors, the pointwise minimum and
    maximum. *)
Definition min_Prob (a b : Prob) : result Prob := pointwise Rmin a b.
Definition max_Prob (a b : Prob) : result Prob := pointwise Rmax a b.

(* ===================================================================== *)
(** * Factor = TFactor<Real> (factor.h) *)
(* ===================================================================== *)

Record Factor : Type := mkFactor { vars : VarSet; p : Prob }.

(** The class invariant asserted by the constructor under DAI_DEBUG. *)
Definition wf_factor (f : Factor) : Prop :=
  length (p f) = nrStates (vars f).

(** [TFactor( ns, c )] *)
Definition Factor_const (ns : VarSet) (c : R) : Factor :=
  mkFactor ns (Prob_const (nrStates ns) c).

(** [TFactor( n )] and [Factor( var, prob )] *)
Definition Factor_var (n : Var) (a : Prob) : Factor := mkFactor [n] a.

(** [f.totalSum()], [f.entropy()] *)
Definition totalSum (f : Factor) : R := Prob_totalSum (p f).
Definition entropy (f : Factor) : R := Prob_entropy (p f).

(** [f.normalize( norm )] on a factor: normalizes the value vector. *)
Definition Factor_normalize (f : Factor) (norm : NormType) : result Factor :=
  ' (a, _) <- Prob_normalize (p f) norm ;;
  Ok (mkFactor (vars f) a).

(** [res._p[k] += x] *)
Definition add_at (a : Prob) (k : nat) (x : R) : result Prob :=
  modify a k (fun y => Ok (y + x)).

(** [TFactor<T>::marginal( ns, normed )], factor.h lines 405-418. *)
Definition marginal (f : Factor) (ns : VarSet) (normed : bool)
  : result Factor :=
  let res_ns := vs_inter ns (vars f) in
  let res := Factor_const res_ns 0 in
  let i_res := IndexFor res_ns (vars f) in
  res_p <- for_range (length (p f))
             (fun i acc =>
                k <- get i_res i ;;
                x <- get (p f) i ;;
                add_at acc k x)
             (p res) ;;
  if normed
  then Factor_normalize (mkFactor res_ns res_p) NORMPROB
  else Ok (mkFactor res_ns res_p).

(** [TFactor<T>::operator*( f )], factor.h lines 421-437; [this] is [g]. *)
Definition Factor_mul (g f : Factor) : result Factor :=
  if vs_eqb (vars f) (vars g) then
    a <- Prob_mul (p g) (p f) ;;
    Ok (mkFactor (vars g) a)
  else
    let prod := Factor_const (vs_union (vars g) (vars f)) 0 in
    let i1 := IndexFor (vars g) (vars prod) in
    let i2 := IndexFor (vars f) (vars prod) in
    a <- for_range (length (p prod))
           (fun i acc =>
              k1 <- get i1 i ;;
              k2 <- get i2 i ;;
              x <- get (p g) k1 ;;
              y <- get (p f) k2 ;;
              add_at acc i (x * y))
           (p prod) ;;
    Ok (mkFactor (vars prod) a).

(** [TFactor<T>::slice( ns, nsState )], factor.h lines 347-360; [ns << _vs]
    is [_vs >> ns]. When the counter is past the last entry of the index
    maps, [i_ns] holds the sentinel, which is no state index, and the
    comparison fails. *)
Definition Factor_slice (f : Factor) (ns : VarSet) (nsState : nat)
  : result Factor :=
  _ <- assert (vs_superset (vars f) ns) ;;
  let nsrem := vs_diff (vars f) ns in
  let res := Factor_const nsrem 0 in
  let i_ns := IndexFor ns (vars f) in
  let i_nsrem := IndexFor nsrem (vars f) in
  res_p <- for_range (length (p f))
             (fun i acc =>
                match nth_error i_ns i with
                | Some k =>
                    if (k =? nsState)%nat then
                      j <- get i_nsrem i ;;
                      x <- get (p f) i ;;
                      modify acc j (fun _ => Ok x)
                    else Ok acc
                | None => Ok acc
                end)
             (p res) ;;
  Ok (mkFactor nsrem res_p).

(** [TFactor<T>::embed( ns )], factor.h lines 371-377. *)
Definition Factor_embed (f : Factor) (ns : VarSet) : result Factor :=
  _ <- assert (vs_superset ns (vars f)) ;;
  if vs_eqb (vars f) ns then Ok f
  else Factor_mul f (Factor_const (vs_diff ns (vars f)) 1).

(** [dist( f, g, dt )], factor.h lines 501-515, documented with the
    precondition [f.vars() == g.vars()]. The test for an empty VarSet comes
    first. [debug] tells whether the build defines [DAI_DEBUG]: such a
    build asserts the precondition before it calls the distance of the two
    value vectors, the other build calls it unchecked. *)
Definition dist (debug : bool) (f g : Factor) (dt : DistType) : result R :=
  if (match vars f with [] => true | _ => false end)
     || (match vars g with [] => true | _ => false end)
  then Ok (-1)
  else
    _ <- (if debug then assert (vs_eqb (vars f) (vars g)) else Ok tt) ;;
    Ok (dist_Prob (p f) (p g) dt).

(** [max( f, g )], factor.h lines 522-525: it calls [min] on the value
    vectors. *)
Definition max_Factor (f g : Factor) : result Factor :=
  _ <- assert (vs_eqb (vars f) (vars g)) ;;
  a <- min_Prob (p f) (p g) ;;
  Ok (mkFactor (vars f) a).

(** [min( f, g )], factor.h lines 532-535: it calls [max] on the value
    vectors. *)
Definition min_Factor (f g : Factor) : result Factor :=
  _ <- assert (vs_eqb (vars f) (vars g)) ;;
  a <- max_Prob (p f) (p g) ;;
  Ok (mkFactor (vars f) a).

(* ===================================================================== *)
(** * The factor graph and the BP state (factorgraph.h, bp.h) *)
(* ===================================================================== *)

(** Modelled from the spec: factorgraph.h is missing. A neighbor record
    carries [iter], its slot in the neighbor list it belongs to, [node], the
    index of the neighboring node (what the record converts to when used as
    a [size_t]), and [dual], the reciprocal slot in that node's list. *)
Record Neighbor : Type := mkNeighbor { iter : nat; node : nat; dual : nat }.

(** Modelled from the spec: the factor-graph view, with its accessors
    [nrVars], [nrFactors], [var], [factor], [nbV], [nbF], [findVar] below. *)
Record FactorGraph : Type := mkFactorGraph {
  fg_vars : list Var;
  fg_factors : list Factor;
  fg_nbV : list (list Neighbor);
  fg_nbF : list (list Neighbor)
}.

(** Modelled from the spec: [BP::EdgeProp] of bp.h, the edge property kept
    for each (variable, neighbor slot). *)
Record EdgeProp : Type := mkEdgeProp {
  index : list nat;
  message : Prob;
  newMessage : Prob;
  residual : R
}.

(** Modelled from the spec: the [BP] object of bp.h; the factor graph it
    inherits from, the edge table [edges], the flag [logDomain] that
    [checkProperties] reads from the property "logdomain", and the norm
    [_normtype] of the messages. *)
Record BP : Type := mkBP {
  fg : FactorGraph;
  edges : list (list EdgeProp);
  logDomain : bool;
  normtype : NormType
}.

(** Modelled from the spec: the accessors of the factor-graph view;
    [var( i )], [factor( I )], [nbV( i )] and [nbF( I )] index a vector. *)
Definition nrVars (bp : BP) : nat := length (fg_vars (fg bp)).
Definition nrFactors (bp : BP) : nat := length (fg_factors (fg bp)).
Definition var (bp : BP) (i : nat) : result Var := get (fg_vars (fg bp)) i.
Definition factor (bp : BP) (I : nat) : result Factor :=
  get (fg_factors (fg bp)) I.
Definition nbV (bp : BP) (i : nat) : result (list Neighbor) :=
  get (fg_nbV (fg bp)) i.
Definition nbF (bp : BP) (I : nat) : result (list Neighbor) :=
  get (fg_nbF (fg bp)) I.

(** Modelled from the spec: [nrEdges()], the number of (variable, factor)
    pairs. *)
Definition nrEdges (bp : BP) : nat :=
  fold_left (fun n nb => (n + length nb)%nat) (fg_nbV (fg bp)) 0%nat.

(** Modelled from the spec: [findVar( n )] of factorgraph.h; the position
    of [n] among the variables of the graph; it fails when [n] is not one
    of them. *)
Fixpoint find_from (vs : list Var) (n : Var) (i : nat) : result nat :=
  match vs with
  | [] => Err PRECONDITION
  | v :: vs' => if var_eqb v n then Ok i else find_from vs' n (S i)
  end.

Definition findVar (bp : BP) (n : Var) : result nat :=
  find_from (fg_vars (fg bp)) n 0.

(** The neighbor lists of a factor graph number their slots: the neighbor
    at slot [k] has [iter = k]. *)
Definition wf_nbV (bp : BP) : Prop :=
  forall j nb, nth_error (fg_nbV (fg bp)) j = Some nb ->
    map iter nb = seq 0 (length nb).

(** The edge table has the shape [create] gives it: one row per variable,
    one entry per neighbor of the variable. *)
Definition edges_shape (bp : BP) : Prop :=
  length (fg_nbV (fg bp)) = nrVars bp /\
  map (@length EdgeProp) (edges bp) = map (@length Neighbor) (fg_nbV (fg bp)).

(** ** Access to the edge table: [index(i,_I)], [message(i,_I)],
    [newMessage(i,_I)], [residual(i,_I)] read [edges[i][_I]]. *)

Definition edge (bp : BP) (i _I : nat) : result EdgeProp :=
  row <- get (edges bp) i ;;
  get row _I.

Definition BP_index (bp : BP) (i _I : nat) : result (list nat) :=
  e <- edge bp i _I ;; Ok (index e).
Definition BP_message (bp : BP) (i _I : nat) : result Prob :=
  e <- edge bp i _I ;; Ok (message e).
Definition BP_newMessage (bp : BP) (i _I : nat) : result Prob :=
  e <- edge bp i _I ;; Ok (newMessage e).
Definition BP_residual (bp : BP) (i _I : nat) : result R :=
  e <- edge bp i _I ;; Ok (residual e).

Definition with_message (a : Prob) (e : EdgeProp) : EdgeProp :=
  mkEdgeProp (index e) a (newMessage e) (residual e).
Definition with_newMessage (a : Prob) (e : EdgeProp) : EdgeProp :=
  mkEdgeProp (index e) (message e) a (residual e).
Definition with_residual (r : R) (e : EdgeProp) : EdgeProp :=
  mkEdgeProp (index e) (message e) (newMessage e) r.

Definition with_edges (bp : BP) (es : list (list EdgeProp)) : BP :=
  mkBP (fg bp) es (logDomain bp) (normtype bp).

(** A write through one of the references above:
    [edges[i][_I] = f(edges[i][_I])]. *)
Definition update_edge (bp : BP) (i _I : nat) (f : EdgeProp -> EdgeProp)
  : result BP :=
  es <- modify (edges bp) i
          (fun row => modify row _I (fun e => Ok (f e))) ;;
  Ok (with_edges bp es).

(** [Prob( n )]: the uniform distribution on [n] states. *)
Definition Prob_uniform (n : nat) : Prob := Prob_const n (1 / INR n).

(** [BP::create], bp.cpp lines 65-85. *)
Definition BP_create (bp : BP) : result BP :=
  es <- for_range (nrVars bp)
          (fun i es =>
             nb <- nbV bp i ;;
             row <- for_each nb
                      (fun I row =>
                         v <- var bp i ;;
                         f <- factor bp (node I) ;;
                         let newEP :=
                           mkEdgeProp (IndexFor [v] (vars f))
                                      (Prob_uniform (states v))
                                      (Prob_uniform (states v))
                                      0 in
                         Ok (row ++ [newEP]))
                      [] ;;
             Ok (es ++ [row]))
          [] ;;
  Ok (with_edges bp es).

(** [BP::init()], bp.cpp lines 88-101. The assertion on
    [checkProperties()], which parses the property map and sets
    [logDomain], is outside the model: [logDomain] is a field of the
    state. *)
Definition BP_init (bp : BP) : result BP :=
  for_range (nrVars bp)
    (fun i bp =>
       nb <- nbV bp i ;;
       for_each nb
         (fun I bp =>
            if logDomain bp then
              bp1 <- update_edge bp i (iter I)
                       (fun e => with_message (Prob_fill (message e) 0) e) ;;
              update_edge bp1 i (iter I)
                (fun e => with_newMessage (Prob_fill (newMessage e) 0) e)
            else
              bp1 <- update_edge bp i (iter I)
                       (fun e => with_message (Prob_fill (message e) 1) e) ;;
              update_edge bp1 i (iter I)
                (fun e => with_newMessage (Prob_fill (newMessage e) 1) e))
         bp)
    bp.

(** [BP::init( ns )], bp.cpp lines 411-417. *)
Definition BP_init_ns (bp : BP) (ns : VarSet) : result BP :=
  for_each ns
    (fun n bp =>
       ni <- findVar bp n ;;
       nb <- nbV bp ni ;;
       for_each nb
         (fun I bp =>
            update_edge bp ni (iter I)
              (fun e => with_message
                          (Prob_fill (message e)
                                     (if logDomain bp then 0 else 1)) e))
         bp)
    bp.

(** [BP::findMaxResidual], bp.cpp lines 104-115; the state of the scan is
    [(i, _I, maxres)]. *)
Definition BP_findMaxResidual (bp : BP) : result (nat * nat) :=
  let i := 0%nat in
  let _I := 0%nat in
  maxres <- BP_residual bp i _I ;;
  ' (i, _I, _) <-
    for_range (nrVars bp)
      (fun j acc =>
         nb <- nbV bp j ;;
         for_each nb
           (fun I acc =>
              let '(_, _, maxres) := acc in
              r <- BP_residual bp j (iter I) ;;
              if Rlt_dec maxres r then
                let i := j in
                let _I := iter I in
                maxres <- BP_residual bp i _I ;;
                Ok (i, _I, maxres)
              else Ok acc)
           acc)
      (i, _I, maxres) ;;
  Ok (i, _I).

(** [BP::calcNewMessage( i, _I )], bp.cpp lines 118-180. *)
Definition BP_calcNewMessage (bp : BP) (i _I : nat) : result BP :=
  nbi <- nbV bp i ;;
  nI <- get nbi _I ;;
  let I := node nI in
  fI <- factor bp I ;;
  let prod := p fI in
  prod <- (if logDomain bp then Prob_log prod else Ok prod) ;;
  (* product of the incoming messages and of factor I *)
  nbI <- nbF bp I ;;
  prod <- for_each nbI
            (fun j prod =>
               if negb (node j =? i)%nat then
                 let _I := dual j in
                 ind <- BP_index bp (node j) _I ;;
                 vj <- var bp (node j) ;;
                 let prod_j :=
                   Prob_const (states vj) (if logDomain bp then 0 else 1) in
                 nbj <- nbV bp (node j) ;;
                 prod_j <- for_each nbj
                             (fun J prod_j =>
                                if negb (node J =? I)%nat then
                                  m <- BP_message bp (node j) (iter J) ;;
                                  if logDomain bp
                                  then Prob_add prod_j m
                                  else Prob_mul prod_j m
                                else Ok prod_j)
                             prod_j ;;
                 for_range (length prod)
                   (fun r prod =>
                      k <- get ind r ;;
                      y <- get prod_j k ;;
                      if logDomain bp
                      then modify prod r (fun x => Ok (x + y))
                      else modify prod r (fun x => Ok (x * y)))
                   prod
               else Ok prod)
            prod ;;
  prod <- (if logDomain bp then
             m <- Prob_max prod ;;
             Ok (Prob_exp (Prob_sub_scalar prod m))
           else Ok prod) ;;
  (* marginalize onto i *)
  vi <- var bp i ;;
  let marg := Prob_const (states vi) 0 in
  ind <- BP_index bp i _I ;;
  marg <- for_range (length prod)
            (fun r marg =>
               k <- get ind r ;;
               x <- get prod r ;;
               add_at marg k x)
            marg ;;
  ' (marg, _) <- Prob_normalize marg (normtype bp) ;;
  (* store the result *)
  if logDomain bp
  then
    marg <- Prob_log marg ;;
    update_edge bp i _I (with_newMessage marg)
  else update_edge bp i _I (with_newMessage marg).

(** [BP::beliefV( i )], bp.cpp lines 296-310. *)
Definition BP_beliefV (bp : BP) (i : nat) : result Factor :=
  vi <- var bp i ;;
  let prod := Prob_const (states vi) (if logDomain bp then 0 else 1) in
  nbi <- nbV bp i ;;
  prod <- for_each nbi
            (fun I prod =>
               m <- BP_newMessage bp i (iter I) ;;
               if logDomain bp then Prob_add prod m else Prob_mul prod m)
            prod ;;
  prod <- (if logDomain bp then
             m <- Prob_max prod ;;
             Ok (Prob_exp (Prob_sub_scalar prod m))
           else Ok prod) ;;
  ' (prod, _) <- Prob_normalize prod NORMPROB ;;
  Ok (Factor_var vi prod).

(** [BP::belief( n )] for a variable, bp.cpp lines 313-315. *)
Definition BP_belief_var (bp : BP) (n : Var) : result Factor :=
  i <- findVar bp n ;;
  BP_beliefV bp i.

(** [BP::beliefF( I )], bp.cpp lines 342-381. *)
Definition BP_beliefF (bp : BP) (I : nat) : result Factor :=
  fI <- factor bp I ;;
  let prod := p fI in
  prod <- (if logDomain bp then Prob_log prod else Ok prod) ;;
  nbI <- nbF bp I ;;
  prod <- for_each nbI
            (fun j prod =>
               let _I := dual j in
               ind <- BP_index bp (node j) _I ;;
               vj <- var bp (node j) ;;
               let prod_j :=
                 Prob_const (states vj) (if logDomain bp then 0 else 1) in
               nbj <- nbV bp (node j) ;;
               prod_j <- for_each nbj
                           (fun J prod_j =>
                              if negb (node J =? I)%nat then
                                m <- BP_newMessage bp (node j) (iter J) ;;
                                if logDomain bp
                                then Prob_add prod_j m
                                else Prob_mul prod_j m
                              else Ok prod_j)
                           prod_j ;;
               for_range (length prod)
                 (fun r prod =>
                    k <- get ind r ;;
                    y <- get prod_j k ;;
                    if logDomain bp
                    then modify prod r (fun x => Ok (x + y))
                    else modify prod r (fun x => Ok (x * y)))
                 prod)
            prod ;;
  prod <- (if logDomain bp then
             m <- Prob_max prod ;;
             Ok (Prob_exp (Prob_sub_scalar prod m))
           else Ok prod) ;;
  Factor_normalize (mkFactor (vars fI) prod) NORMPROB.

(** [BP::beliefs()], bp.cpp lines 318-325. *)
Definition BP_beliefs (bp : BP) : result (list Factor) :=
  result <- for_range (nrVars bp)
              (fun i result => b <- BP_beliefV bp i ;; Ok (result ++ [b]))
              [] ;;
  for_range (nrFactors bp)
    (fun I result => b <- BP_beliefF bp I ;; Ok (result ++ [b]))
    result.

(** The search loop of [BP::belief( ns )]: the first [I >= I0] whose factor
    has a variable set that is a superset of [ns], or the index one past the
    last factor. *)
Fixpoint first_superset (fs : list Factor) (ns : VarSet) (I0 : nat) : nat :=
  match fs with
  | [] => I0
  | f :: fs' =>
      if vs_superset (vars f) ns then I0 else first_superset fs' ns (S I0)
  end.

(** [BP::belief( ns )] for a VarSet, bp.cpp lines 328-339. *)
Definition BP_belief (bp : BP) (ns : VarSet) : result Factor :=
  if (length ns =? 1)%nat then
    n <- get ns 0 ;;
    BP_belief_var bp n
  else
    let I := first_superset (fg_factors (fg bp)) ns 0 in
    _ <- assert (negb (I =? nrFactors bp)%nat) ;;
    b <- BP_beliefF bp I ;;
    marginal b ns true.

(** [Complex] = [std::complex<double>], with the operations [logZ] uses. *)
Record Complex : Type := mkComplex { Re : R; Im : R }.

Definition Complex_of_real (x : R) : Complex := mkComplex x 0.
Definition Cadd (a b : Complex) : Complex :=
  mkComplex (Re a + Re b) (Im a + Im b).
Definition Csub (a b : Complex) : Complex :=
  mkComplex (Re a - Re b) (Im a - Im b).
(** [Complex * Real] *)
Definition Cscale (a : Complex) (x : R) : Complex :=
  mkComplex (Re a * x) (Im a * x).

(** [BP::logZ], bp.cpp lines 394-401. [KL_dist] on two factors is declared
    outside factor.h and bp.cpp and is a parameter. *)
Definition BP_logZ (KL_dist : Factor -> Factor -> Complex) (bp : BP)
  : result Complex :=
  let sum := Complex_of_real 0 in
  sum <- for_range (nrVars bp)
           (fun i sum =>
              nbi <- nbV bp i ;;
              b <- BP_beliefV bp i ;;
              Ok (Cadd sum (Cscale (Complex_of_real (1 - INR (length nbi)))
                                   (entropy b))))
           sum ;;
  for_range (nrFactors bp)
    (fun I sum =>
       b <- BP_beliefF bp I ;;
       fI <- factor bp I ;;
       Ok (Csub sum (KL_dist b fI)))
    sum.

(** One step of the SEQMAX schedule, the body of the loop over [t] in
    [BP::run], bp.cpp lines 228-245. It returns the selected edge next to
    the new state. *)
Definition BP_seqmax_step (bp : BP) : result (nat * nat * BP) :=
  ' (i, _I) <- BP_findMaxResidual bp ;;
  nm <- BP_newMessage bp i _I ;;
  bp <- update_edge bp i _I (with_message nm) ;;
  bp <- update_edge bp i _I (with_residual 0) ;;
  nbi <- nbV bp i ;;
  bp <- for_each nbi
          (fun J bp =>
             if negb (iter J =? _I)%nat then
               nbJ <- nbF bp (node J) ;;
               for_each nbJ
                 (fun j bp =>
                    let _J := dual j in
                    if negb (node j =? i)%nat then
                      bp <- BP_calcNewMessage bp (node j) _J ;;
                      nm <- BP_newMessage bp (node j) _J ;;
                      m <- BP_message bp (node j) _J ;;
                      update_edge bp (node j) _J
                        (with_residual (dist_Prob nm m DISTLINF))
                    else Ok bp)
                 bp
             else Ok bp)
          bp ;;
  Ok (i, _I, bp).

(** The step of the SEQMAX schedule at the edge [(i, _I)], bp.cpp lines
    231-245: what a step does once [findMaxResidual] has selected the
    edge. *)
Definition BP_seqmax_update (bp : BP) (i _I : nat) : result BP :=
  nm <- BP_newMessage bp i _I ;;
  bp <- update_edge bp i _I (with_message nm) ;;
  bp <- update_edge bp i _I (with_residual 0) ;;
  nbi <- nbV bp i ;;
  for_each nbi
    (fun J bp =>
       if negb (iter J =? _I)%nat then
         nbJ <- nbF bp (node J) ;;
         for_each nbJ
           (fun j bp =>
              let _J := dual j in
              if negb (node j =? i)%nat then
                bp <- BP_calcNewMessage bp (node j) _J ;;
                nm <- BP_newMessage bp (node j) _J ;;
                m <- BP_message bp (node j) _J ;;
                update_edge bp (node j) _J
                  (with_residual (dist_Prob nm m DISTLINF))
              else Ok bp)
           bp
       else Ok bp)
    bp.

(** One pass of the SEQMAX schedule, bp.cpp lines 225-246: [nrEdges()]
    steps. *)
Definition BP_pass_SEQMAX (bp : BP) : result BP :=
  for_range (nrEdges bp)
    (fun t bp => ' (_, bp') <- BP_seqmax_step bp ;; Ok bp')
    bp.

(** [message( i, _I ) = newMessage( i, _I )], the commit of a staged
    message in [BP::run]. *)
Definition BP_commit (bp : BP) (i _I : nat) : result BP :=
  nm <- BP_newMessage bp i _I ;;
  update_edge bp i _I (with_message nm).

(** One pass of the PARALL schedule, bp.cpp lines 248-255: every new
    message is computed, then every one is committed. *)
Definition BP_pass_PARALL (bp : BP) : result BP :=
  bp <- for_range (nrVars bp)
          (fun i bp =>
             nb <- nbV bp i ;;
             for_each nb (fun I bp => BP_calcNewMessage bp i (iter I)) bp)
          bp ;;
  for_range (nrVars bp)
    (fun i bp =>
       nb <- nbV bp i ;;
       for_each nb (fun I bp => BP_commit bp i (iter I)) bp)
    bp.

(** One pass of the sequential schedules, bp.cpp lines 257-264, over the
    edge list [update_seq] (shuffled beforehand for SEQRND): each message is
    computed and committed at once. *)
Definition BP_pass_SEQ (update_seq : list (nat * nat)) (bp : BP) : result BP :=
  for_each update_seq
    (fun e bp =>
       bp <- BP_calcNewMessage bp (fst e) (snd e) ;;
       BP_commit bp (fst e) (snd e))
    bp.

(** The first pass of the SEQMAX schedule in [BP::run], bp.cpp lines
    204-212: every new message is computed and its residual is set. *)
Definition BP_first_pass_SEQMAX (bp : BP) : result BP :=
  for_range (nrVars bp)
    (fun i bp =>
       nb <- nbV bp i ;;
       for_each nb
         (fun I bp =>
            bp <- BP_calcNewMessage bp i (iter I) ;;
            nm <- BP_newMessage bp i (iter I) ;;
            m <- BP_message bp i (iter I) ;;
            update_edge bp i (iter I)
              (with_residual (dist_Prob nm m DISTLINF)))
         bp)
    bp.

(** A run of the SEQMAX schedule of one iteration ([maxiter = 1]) on a
    fresh graph: [create] and [init()], then of [BP::run] the first pass,
    bp.cpp lines 204-212, and one turn of the loop over [iter], lines
    225-246. The beliefs that [run] computes for its convergence test
    (lines 197-200 and 266-271) leave the state as it is. *)
Definition BP_run_SEQMAX_once (g : FactorGraph) (ld : bool) (nt : NormType)
  : result BP :=
  bp <- BP_create (mkBP g [] ld nt) ;;
  bp <- BP_init bp ;;
  bp <- BP_first_pass_SEQMAX bp ;;
  BP_pass_SEQMAX bp.

(* ===================================================================== *)
(** * Notions of the statements and of their proofs *)
(* ===================================================================== *)

(** The sum of [t 0], ..., [t (n-1)]. *)
Fixpoint Csum (n : nat) (t : nat -> Complex) : Complex :=
  match n with
  | O => Complex_of_real 0
  | S n' => Cadd (Csum n' t) (t n')
  end.

(** [deg( i )]: the number of factors next to variable [i]. *)
Definition deg (bp : BP) (i : nat) : nat :=
  length (nth i (fg_nbV (fg bp)) []).

(** The variables of one graph: every state count is at least 1, and a
    label stands for one state count. *)
Definition wf_vars (L : list Var) : Prop :=
  (forall v, In v L -> (0 < states v)%nat) /\
  (forall v w, In v L -> In w L -> label v = label w -> states v = states w).

(** [(j, J)] is an edge of the graph: [J] is a slot of variable [j]. *)
Definition is_edge (bp : BP) (e : nat * nat) : Prop :=
  (fst e < nrVars bp)%nat /\ (snd e < deg bp (fst e))%nat.

(** The order in which the scan meets the edges: by variable, then by slot. *)
Definition lex_le (e1 e2 : nat * nat) : Prop :=
  (fst e1 < fst e2)%nat \/ (fst e1 = fst e2 /\ (snd e1 <= snd e2)%nat).

(** The edges the scan has met when it stands at slot [K] of variable [j]. *)
Definition before (j K : nat) (e : nat * nat) : Prop :=
  (fst e < j)%nat \/ (fst e = j /\ (snd e < K)%nat).

(** The invariant of the scan at slot [K] of variable [j]: the state
    [(i, _I, maxres)] names an edge met so far (or the edge (0,0) the scan
    starts from) with its residual, no edge met so far has a larger
    residual, and none with an equal residual comes earlier. *)
Definition scan_inv (bp : BP) (j K : nat) (acc : nat * nat * R) : Prop :=
  let '(i, _I, m) := acc in
  BP_residual bp i _I = Ok m /\
  is_edge bp (i, _I) /\
  lex_le (i, _I) (j, K) /\
  forall e r, is_edge bp e -> before j K e ->
    BP_residual bp (fst e) (snd e) = Ok r ->
    r <= m /\ (r = m -> lex_le (i, _I) e).

(** The body of the inner loop of [findMaxResidual]. *)
Definition scan_body (bp : BP) (j : nat) (I : Neighbor) (acc : nat * nat * R)
  : result (nat * nat * R) :=
  let '(_, _, maxres) := acc in
  r <- BP_residual bp j (iter I) ;;
  if Rlt_dec maxres r then
    let i := j in
    let _I := iter I in
    maxres <- BP_residual bp i _I ;;
    Ok (i, _I, maxres)
  else Ok acc.

(** [bp'] has the graph, the flags and the shape of the edge table of [bp]. *)
Definition same_frame (bp bp' : BP) : Prop :=
  fg bp' = fg bp /\ logDomain bp' = logDomain bp /\
  normtype bp' = normtype bp /\
  map (@length EdgeProp) (edges bp') = map (@length EdgeProp) (edges bp).

(** Two results agree up to [P]: both fail, or both succeed with values
    related by [P]. *)
Definition rel_result {A B : Type} (P : A -> B -> Prop)
  (r1 : result A) (r2 : result B) : Prop :=
  match r1, r2 with
  | Ok a, Ok b => P a b
  | Err _, Err _ => True
  | _, _ => False
  end.

(** A vector in the log domain stands for its pointwise exponential. *)
Definition R_exp (a_log a_lin : Prob) : Prop := a_lin = map exp a_log.

(** A vector that is another one scaled by [c]. *)
Definition R_scale (c : R) (a_log a_lin : Prob) : Prop :=
  a_log = map (fun x => x * c) a_lin.

(** An edge of the log-domain state stands for an edge of the linear one. *)
Definition log_of (el en : EdgeProp) : Prop :=
  index el = index en /\
  R_exp (message el) (message en) /\
  R_exp (newMessage el) (newMessage en).

(** The log-domain state [bl] stands for the linear-domain state [bn]. *)
Definition corr (bl bn : BP) : Prop :=
  fg bl = fg bn /\ normtype bl = normtype bn /\
  logDomain bl = true /\ logDomain bn = false /\
  Forall2 (Forall2 log_of) (edges bl) (edges bn).

(** The inputs on which the logarithm is finite: every factor entry is
    strictly positive, and the index map of every edge reaches every state
    of its variable. *)
Definition nondegenerate (bp : BP) : Prop :=
  (forall f, In f (fg_factors (fg bp)) -> Forall (fun x => 0 < x) (p f)) /\
  (forall i _I e vi nb nI fI,
     edge bp i _I = Ok e -> var bp i = Ok vi ->
     nbV bp i = Ok nb -> get nb _I = Ok nI ->
     factor bp (node nI) = Ok fI ->
     forall k, (k < states vi)%nat ->
       exists r, (r < length (p fI))%nat /\ nth_error (index e) r = Some k).

(** The body of the loop over [nbF(I)] that [calcNewMessage] (with
    [sel = message], skipping the variable [i]) and [beliefF] (with
    [sel = newMessage], skipping none) share. *)
Definition product_body (bp : BP) (sel : BP -> nat -> nat -> result Prob)
  (skip : nat -> bool) (I : nat) (j : Neighbor) (prod : Prob) : result Prob :=
  if negb (skip (node j)) then
    let _I := dual j in
    ind <- BP_index bp (node j) _I ;;
    vj <- var bp (node j) ;;
    let prod_j := Prob_const (states vj) (if logDomain bp then 0 else 1) in
    nbj <- nbV bp (node j) ;;
    prod_j <- for_each nbj
                (fun J prod_j =>
                   if negb (node J =? I)%nat then
                     m <- sel bp (node j) (iter J) ;;
                     if logDomain bp
                     then Prob_add prod_j m
                     else Prob_mul prod_j m
                   else Ok prod_j)
                prod_j ;;
    for_range (length prod)
      (fun r prod =>
         k <- get ind r ;;
         y <- get prod_j k ;;
         if logDomain bp
         then modify prod r (fun x => Ok (x + y))
         else modify prod r (fun x => Ok (x * y)))
      prod
  else Ok prod.

(** The pair of states that a log-domain and a linear-domain run hold. *)
Definition paired (bl bn : BP) : Prop := corr bl bn /\ nondegenerate bn.

(** The edge [create] makes for neighbor [nI] of variable [i]. *)
Definition created_edge (bp : BP) (i : nat) (nI : Neighbor) (e : EdgeProp)
  : Prop :=
  exists v f,
    var bp i = Ok v /\ factor bp (node nI) = Ok f /\
    e = mkEdgeProp (IndexFor [v] (vars f))
                   (Prob_uniform (states v)) (Prob_uniform (states v)) 0.

(** A well-formed factor graph with strictly positive factors: one
    neighbor list per variable, variables with at least one state and one
    state count per label, value vectors as long as the joint state count,
    and every variable among the variables of its neighboring factors. *)
Definition wf_graph (bp : BP) : Prop :=
  length (fg_nbV (fg bp)) = nrVars bp /\
  wf_vars (fg_vars (fg bp) ++ flat_map vars (fg_factors (fg bp))) /\
  (forall f, In f (fg_factors (fg bp)) ->
             wf_factor f /\ Forall (fun x => 0 < x) (p f)) /\
  (forall i vi nb nI fI,
     var bp i = Ok vi -> nbV bp i = Ok nb -> In nI nb ->
     factor bp (node nI) = Ok fI -> In (label vi) (labels (vars fI))).

(** [bq] differs from [bp] at most in staged messages and residuals: the
    graph, the flags, the index maps and the live messages are the same. *)
Definition same_live (bp bq : BP) : Prop :=
  same_frame bp bq /\
  forall i _I,
    BP_index bq i _I = BP_index bp i _I /\
    BP_message bq i _I = BP_message bp i _I.

(** The residual of every edge is the distance between its staged and its
    live message, as the SEQMAX schedule computes it. *)
Definition residuals_consistent (bp : BP) : Prop :=
  forall i _I e, edge bp i _I = Ok e ->
    residual e = dist_Prob (newMessage e) (message e) DISTLINF.

(** A vector normalized for the norm [nt]. *)
Definition normalized (nt : NormType) (a : Prob) : Prop :=
  match nt with
  | NORMPROB => Prob_totalSum a = 1
  | NORMLINF => Prob_maxAbs a = 1
  end.

(** [bq] differs from [bp] at most in live messages and residuals: the
    graph, the flags, the index maps and the staged messages are the same. *)
Definition same_staged (bp bq : BP) : Prop :=
  same_frame bp bq /\
  forall i _I,
    BP_index bq i _I = BP_index bp i _I /\
    BP_newMessage bq i _I = BP_newMessage bp i _I.

(** The two sides of the graph name each other: there is one neighbor list
    per factor, the neighbors of a variable are factors of the graph, and a
    neighbor record [j] of factor [I] names a variable whose slot [dual j]
    holds [I]. *)
Definition wf_links (bp : BP) : Prop :=
  length (fg_nbF (fg bp)) = nrFactors bp /\
  (forall i nb nI, nbV bp i = Ok nb -> In nI nb ->
     (node nI < nrFactors bp)%nat) /\
  (forall I nb j, nbF bp I = Ok nb -> In j nb ->
     exists nbj nJ,
       nbV bp (node j) = Ok nbj /\ get nbj (dual j) = Ok nJ /\ node nJ = I).

(** An edge as [create] and the passes keep it: the index map of the
    variable into the factor, one entry per state in both messages, and
    strictly positive messages in the linear domain. *)
Definition edge_ready (ld : bool) (vi : Var) (fI : Factor) (e : EdgeProp)
  : Prop :=
  index e = IndexFor [vi] (vars fI) /\
  length (message e) = states vi /\
  length (newMessage e) = states vi /\
  (ld = false ->
   Forall (fun x => 0 < x) (message e) /\
   Forall (fun x => 0 < x) (newMessage e)).

Definition edges_ready (bp : BP) : Prop :=
  forall i _I e vi nb nI fI,
    edge bp i _I = Ok e -> var bp i = Ok vi ->
    nbV bp i = Ok nb -> get nb _I = Ok nI ->
    factor bp (node nI) = Ok fI ->
    edge_ready (logDomain bp) vi fI e.

(** A state on which message passing can run: a well-formed graph with
    strictly positive factors, and an edge table of its shape with edges as
    above. *)
Definition ready (bp : BP) : Prop :=
  wf_graph bp /\ wf_nbV bp /\ wf_links bp /\ edges_shape bp /\
  edges_ready bp.

(** The sum of [t i] over the [i < n] that [sel] keeps. *)
Definition sum_where (t : nat -> R) (sel : nat -> bool) (n : nat) : R :=
  fold_left Rplus (map t (filter sel (seq 0 n))) 0.

(** What [init()] does to one edge: both vectors are filled with [c]. *)
Definition reset_edge (c : R) (e : EdgeProp) : EdgeProp :=
  with_newMessage (Prob_fill (newMessage e) c)
                  (with_message (Prob_fill (message e) c) e).

(* ===================================================================== *)
(** * Example inputs *)
(* ===================================================================== *)

Definition x0 : Var := mkVar 0 2.

Definition f_witness : Factor := mkFactor [x0] [1; 3].


(** The graph of one binary variable [x0] and one factor on it. *)
Definition fg1 : FactorGraph :=
  mkFactorGraph [x0] [mkFactor [x0] [3 / 10; 7 / 10]]
                [[mkNeighbor 0 0 0]] [[mkNeighbor 0 0 0]].

(** A BP state on [fg1] in linear mode whose only edge carries the message
    [<0.3 0.7>], live and staged: the state that passing messages on this
    graph reaches. *)
Definition bp1 : BP :=
  mkBP fg1 [[mkEdgeProp [0%nat; 1%nat] [3 / 10; 7 / 10] [3 / 10; 7 / 10] 0]]
       false NORMPROB.

(** The beliefs of the one-variable state [bp1]. *)
Definition bV1 : Factor :=
  let q := [1 * (3 / 10); 1 * (7 / 10)] in
  mkFactor [x0] (map (fun x => x / Prob_totalSum q) q).
Definition bF1 : Factor :=
  let q := [3 / 10 * 1; 7 / 10 * 1] in
  mkFactor [x0] (map (fun x => x / Prob_totalSum q) q).

(** The KL divergence of the value vectors, as a [Complex]. *)
Definition KL_dist_Prob (f g : Factor) : Complex :=
  Complex_of_real (dist_Prob (p f) (p g) DISTKL).

Definition x1 : Var := mkVar 1 3.
Definition g_mul : Factor := mkFactor [x0] [2; 3].
Definition f_mul : Factor := mkFactor [x1] [5; 7; 11].

(** A state on two variables [x0] and [x1] joined by one factor, whose two
    edges have the same residual. *)
Definition fg2 : FactorGraph :=
  mkFactorGraph [x0; x1] [mkFactor [x0; x1] [1; 2; 3; 4; 5; 6]]
    [[mkNeighbor 0 0 0]; [mkNeighbor 0 0 1]]
    [[mkNeighbor 0 0 0; mkNeighbor 1 1 0]].

Definition bp2 : BP :=
  mkBP fg2
    [[mkEdgeProp (IndexFor [x0] [x0; x1]) [1; 1] [1 / 2; 1 / 2] (1 / 2)];
     [mkEdgeProp (IndexFor [x1] [x0; x1]) [1; 1; 1] [1 / 3; 1 / 3; 1 / 3]
                 (1 / 2)]]
    false NORMPROB.

(** A state on a graph whose variable 0 has no factor and whose variable 1
    has one. *)
Definition fg3 : FactorGraph :=
  mkFactorGraph [x0; x1] [mkFactor [x1] [1; 2; 3]]
    [[]; [mkNeighbor 0 0 0]]
    [[mkNeighbor 0 1 0]].

Definition bp3 : BP :=
  mkBP fg3
    [[]; [mkEdgeProp (IndexFor [x1] [x1]) [1; 1; 1] [1; 1; 1] (1 / 2)]]
    false NORMPROB.

(** The one-variable graph [fg1] before any message has passed, in the
    linear domain and in the log domain. *)
Definition bn0 : BP :=
  mkBP fg1 [[mkEdgeProp [0%nat; 1%nat] [1; 1] [1; 1] 0]] false NORMPROB.
Definition bl0 : BP :=
  mkBP fg1 [[mkEdgeProp [0%nat; 1%nat] [0; 0] [0; 0] 0]] true NORMPROB.

(** The state after [calcNewMessage( 0, 0 )] on [bn0], and after the first
    pass of the SEQMAX schedule on [bn0]. *)
Definition bn0_calc : BP :=
  mkBP fg1 [[mkEdgeProp [0%nat; 1%nat] [1; 1] [3 / 10; 7 / 10] 0]]
       false NORMPROB.
Definition bn0_first : BP :=
  mkBP fg1
    [[mkEdgeProp [0%nat; 1%nat] [1; 1] [3 / 10; 7 / 10]
                 (dist_Prob [3 / 10; 7 / 10] [1; 1] DISTLINF)]]
    false NORMPROB.

(** Two binary variables [x0] and [y1] joined by two factors: a graph on
    which the SEQMAX schedule selects other edges in the log domain than in
    the linear domain. *)
Definition y1 : Var := mkVar 1 2.
Definition fg4 : FactorGraph :=
  mkFactorGraph [x0; y1]
    [mkFactor [x0; y1] [5; 10; 50; 100]; mkFactor [x0; y1] [100; 5; 4; 5]]
    [[mkNeighbor 0 0 0; mkNeighbor 1 1 0];
     [mkNeighbor 0 0 1; mkNeighbor 1 1 1]]
    [[mkNeighbor 0 0 0; mkNeighbor 1 1 0];
     [mkNeighbor 0 0 1; mkNeighbor 1 1 1]].

(** A linear-domain state on [fg4], given by the four edges (live message,
    staged message, residual) in the order (0,0), (0,1), (1,0), (1,1). *)
Definition st4 (e00 e01 e10 e11 : Prob * Prob * R) : BP :=
  let edge_of ind (e : Prob * Prob * R) :=
    mkEdgeProp ind (fst (fst e)) (snd (fst e)) (snd e) in
  mkBP fg4
    [[edge_of [0; 1; 0; 1]%nat e00; edge_of [0; 1; 0; 1]%nat e01];
     [edge_of [0; 0; 1; 1]%nat e10; edge_of [0; 0; 1; 1]%nat e11]]
    false NORMPROB.

(** The LINF distance of two vectors, the residual of the SEQMAX
    schedule. *)
Definition linf (a b : Prob) : R := dist_Prob a b DISTLINF.

(** The states of a SEQMAX run on [fg4] in the linear domain: after
    [init()], after the first pass, and after the steps at the edges
    (1,1), (0,1) and (1,0). *)
Definition s4_init : BP :=
  st4 ([1; 1], [1; 1], 0) ([1; 1], [1; 1], 0)
      ([1; 1], [1; 1], 0) ([1; 1], [1; 1], 0).
Definition s4_first : BP :=
  st4 ([1; 1], [1 / 3; 2 / 3], linf [1 / 3; 2 / 3] [1; 1])
      ([1; 1], [52 / 57; 5 / 57], linf [52 / 57; 5 / 57] [1; 1])
      ([1; 1], [1 / 11; 10 / 11], linf [1 / 11; 10 / 11] [1; 1])
      ([1; 1], [35 / 38; 3 / 38], linf [35 / 38; 3 / 38] [1; 1]).
Definition s4_step1 : BP :=
  st4 ([1; 1], [1 / 3; 2 / 3], linf [1 / 3; 2 / 3] [1; 1])
      ([1; 1], [52 / 57; 5 / 57], linf [52 / 57; 5 / 57] [1; 1])
      ([1; 1], [1 / 11; 10 / 11], linf [1 / 11; 10 / 11] [1; 1])
      ([35 / 38; 3 / 38], [35 / 38; 3 / 38], 0).
Definition s4_step2 : BP :=
  st4 ([1; 1], [1 / 3; 2 / 3], linf [1 / 3; 2 / 3] [1; 1])
      ([52 / 57; 5 / 57], [52 / 57; 5 / 57], 0)
      ([1; 1], [1 / 11; 10 / 11], linf [1 / 11; 10 / 11] [1; 1])
      ([35 / 38; 3 / 38], [35 / 38; 3 / 38], 0).
Definition s4_step3 : BP :=
  st4 ([1; 1], [1 / 3; 2 / 3], linf [1 / 3; 2 / 3] [1; 1])
      ([52 / 57; 5 / 57], [28 / 39; 11 / 39],
       linf [28 / 39; 11 / 39] [52 / 57; 5 / 57])
      ([1 / 11; 10 / 11], [1 / 11; 10 / 11], 0)
      ([35 / 38; 3 / 38], [35 / 38; 3 / 38], 0).

(** The fourth step: the linear domain takes it at the edge (0,0), the
    log domain at the edge (0,1); [s4_step4_log] is the linear-domain state
    that the state of the log-domain run stands for. *)
Definition s4_step4 : BP :=
  st4 ([1 / 3; 2 / 3], [1 / 3; 2 / 3], 0)
      ([52 / 57; 5 / 57], [28 / 39; 11 / 39],
       linf [28 / 39; 11 / 39] [52 / 57; 5 / 57])
      ([1 / 11; 10 / 11], [1 / 11; 10 / 11], 0)
      ([35 / 38; 3 / 38], [55 / 62; 7 / 62],
       linf [55 / 62; 7 / 62] [35 / 38; 3 / 38]).
Definition s4_step4_log : BP :=
  st4 ([1; 1], [1 / 3; 2 / 3], linf [1 / 3; 2 / 3] [1; 1])
      ([28 / 39; 11 / 39], [28 / 39; 11 / 39], 0)
      ([1 / 11; 10 / 11], [1 / 11; 10 / 11],
       linf [1 / 11; 10 / 11] [1 / 11; 10 / 11])
      ([35 / 38; 3 / 38], [35 / 38; 3 / 38], 0).

(* ===================================================================== *)
(** * Properties *)
(* ===================================================================== *)

(** ** Vectors and loops *)

Lemma get_Ok {A : Type} (v : list A) (i : nat) (a : A) :
  get v i = Ok a <-> nth_error v i = Some a.
Proof.
  unfold get. destruct (nth_error v i); split; intros H; congruence.
Qed.

Lemma get_Some {A : Type} (v : list A) (i : nat) (a : A) :
  nth_error v i = Some a -> get v i = Ok a.
Proof. apply get_Ok. Qed.

Lemma get_Err {A : Type} (v : list A) (i : nat) :
  (length v <= i)%nat -> get v i = Err OUT_OF_BOUNDS.
Proof.
  intros H. unfold get. apply nth_error_None in H. now rewrite H.
Qed.

Lemma get_middle {A : Type} (pre : list A) (a : A) (post : list A) :
  get (pre ++ a :: post) (length pre) = Ok a.
Proof.
  apply get_Some. rewrite nth_error_app2 by lia.
  now rewrite Nat.sub_diag.
Qed.

Lemma length_upd {A : Type} (v : list A) (i : nat) (a : A) :
  length (upd v i a) = length v.
Proof.
  revert i. induction v as [|b v IH]; intros [|i]; simpl; auto.
Qed.

Lemma nth_error_upd_eq {A : Type} (v : list A) (i : nat) (a : A) :
  (i < length v)%nat -> nth_error (upd v i a) i = Some a.
Proof.
  revert i. induction v as [|b v IH]; intros [|i] H; simpl in *;
    try lia; auto. apply IH. lia.
Qed.

Lemma nth_error_upd_ne {A : Type} (v : list A) (i j : nat) (a : A) :
  i <> j -> nth_error (upd v i a) j = nth_error v j.
Proof.
  revert i j. induction v as [|b v IH]; intros [|i] [|j] H; simpl;
    try congruence; auto.
Qed.

Lemma upd_middle {A : Type} (pre : list A) (a b : A) (post : list A) :
  upd (pre ++ a :: post) (length pre) b = pre ++ b :: post.
Proof.
  induction pre as [|c pre IH]; simpl; congruence.
Qed.

Lemma for_each_app {A S : Type} (l1 l2 : list A)
  (body : A -> S -> result S) (s : S) :
  for_each (l1 ++ l2) body s =
  (s' <- for_each l1 body s ;; for_each l2 body s').
Proof.
  revert s. induction l1 as [|a l1 IH]; intros s; simpl; auto.
  destruct (body a s); simpl; auto.
Qed.

(** ** max and min of two factors *)

Lemma Rmin_eval (a b : R) : a <= b -> Rmin a b = a /\ Rmin b a = a.
Proof. intros H. split; [apply Rmin_left | apply Rmin_right]; lra. Qed.

Lemma Rmax_eval (a b : R) : a <= b -> Rmax a b = b /\ Rmax b a = b.
Proof. intros H. split; [apply Rmax_right | apply Rmax_left]; lra. Qed.

(** On every input that passes the assertion, [max( f, g )] returns the
    pointwise minimum of the value vectors and [min( f, g )] the pointwise
    maximum. *)
Lemma max_Factor_min_Prob (f g : Factor) :
  vs_eqb (vars f) (vars g) = true ->
  max_Factor f g = (a <- pointwise Rmin (p f) (p g) ;; Ok (mkFactor (vars f) a))
  /\ min_Factor f g =
     (a <- pointwise Rmax (p f) (p g) ;; Ok (mkFactor (vars f) a)).
Proof.
  intros H. unfold max_Factor, min_Factor, min_Prob, max_Prob.
  rewrite H. simpl. split; reflexivity.
Qed.

(** C1, at a failing input: on the factors [f = (x0, <1 4>)] and
    [g = (x0, <3 2>)] over one binary variable, [max( f, g )] returns
    [<1 2>], the elementwise minimum, where the elementwise maximum is
    [<3 4>]; [min( f, g )] returns [<3 4>], where the elementwise minimum is
    [<1 2>]. *)
Theorem max_min_Factor_swapped :
  max_Factor (mkFactor [x0] [1; 4]) (mkFactor [x0] [3; 2])
    = Ok (mkFactor [x0] [1; 2]) /\
  min_Factor (mkFactor [x0] [1; 4]) (mkFactor [x0] [3; 2])
    = Ok (mkFactor [x0] [3; 4]) /\
  [Rmax 1 3; Rmax 4 2] = [3; 4] /\
  [Rmin 1 3; Rmin 4 2] = [1; 2].
Proof.
  destruct (Rmin_eval 1 3) as [m13 _]; [lra|].
  destruct (Rmin_eval 2 4) as [_ m42]; [lra|].
  destruct (Rmax_eval 1 3) as [M13 _]; [lra|].
  destruct (Rmax_eval 2 4) as [_ M42]; [lra|].
  unfold max_Factor, min_Factor, min_Prob, max_Prob, pointwise; simpl.
  rewrite m13, m42, M13, M42. repeat split; reflexivity.
Qed.

(** ** marginal onto the empty VarSet *)

Lemma marginal_loop_empty (idx : list nat) (q pre : Prob) (s : R) :
  (forall i, (i < length (pre ++ q))%nat -> nth_error idx i = Some 0%nat) ->
  for_each (seq (length pre) (length q))
    (fun i acc =>
       k <- get idx i ;;
       x <- get (pre ++ q) i ;;
       add_at acc k x)
    [s]
  = Ok [fold_left Rplus q s].
Proof.
  revert pre s. induction q as [|x q IH]; intros pre s Hidx; simpl; auto.
  rewrite (get_Some idx (length pre) 0%nat).
  2:{ apply Hidx. rewrite length_app. simpl. lia. }
  simpl. rewrite get_middle. simpl. unfold add_at, modify. simpl.
  replace (S (length pre)) with (length (pre ++ [x]))
    by (rewrite length_app; simpl; lia).
  replace (pre ++ x :: q) with ((pre ++ [x]) ++ q) in *
    by (rewrite <- app_assoc; reflexivity).
  apply IH. exact Hidx.
Qed.

Lemma nth_error_IndexFor (inner outer : VarSet) (k : nat) :
  (k < nrStates outer)%nat ->
  nth_error (IndexFor inner outer) k
  = Some (calcState inner (calcStates outer k)).
Proof.
  intros H. unfold IndexFor.
  rewrite nth_error_map, nth_error_seq.
  apply Nat.ltb_lt in H. rewrite H. reflexivity.
Qed.

Lemma length_IndexFor (inner outer : VarSet) :
  length (IndexFor inner outer) = nrStates outer.
Proof. unfold IndexFor. now rewrite length_map, length_seq. Qed.

(** C8: for every factor [f] (the length of its value vector being its joint
    state count), [f.marginal( {}, false )] is the factor on the empty VarSet
    whose single entry is [f.totalSum()], and with [normed = true] that
    entry is 1 whenever the total sum is strictly positive. *)
Theorem marginal_empty_totalSum (f : Factor) (Hwf : wf_factor f) :
  marginal f [] false = Ok (mkFactor [] [totalSum f]) /\
  (0 < totalSum f -> marginal f [] true = Ok (mkFactor [] [1])).
Proof.
  assert (Hloop :
    for_range (length (p f))
      (fun i acc =>
         k <- get (IndexFor [] (vars f)) i ;;
         x <- get (p f) i ;;
         add_at acc k x)
      [0]
    = Ok [totalSum f]).
  { unfold for_range, totalSum, Prob_totalSum.
    apply (marginal_loop_empty (IndexFor [] (vars f)) (p f) [] 0).
    simpl. intros i Hi. rewrite nth_error_IndexFor; [reflexivity|].
    unfold wf_factor in Hwf. lia. }
  unfold marginal. simpl vs_inter.
  change (p (Factor_const [] 0)) with [0].
  rewrite Hloop. simpl. split; [reflexivity|].
  intros Hpos. unfold Factor_normalize, Prob_normalize. simpl.
  unfold Prob_totalSum. simpl.
  destruct (Req_dec_T (0 + totalSum f) 0) as [E|NE]; [lra|].
  simpl. repeat f_equal. field. lra.
Qed.

Lemma marginal_empty_totalSum_witness :
  marginal f_witness [] false = Ok (mkFactor [] [totalSum f_witness]) /\
  (0 < totalSum f_witness ->
   marginal f_witness [] true = Ok (mkFactor [] [1])).
Proof.
  apply (marginal_empty_totalSum f_witness). reflexivity.
Defined.

(** ** dist on factors *)

Lemma fold_left_lower_bound {A : Type} (g : R -> A -> R) :
  (forall s x, s <= g s x) ->
  forall (l : list A) (s : R), s <= fold_left g l s.
Proof.
  intros Hg l. induction l as [|x l IH]; intros s; simpl; [lra|].
  eapply Rle_trans; [apply (Hg s x) | apply IH].
Qed.








(** On two non-empty VarSets that differ, a build with [DAI_DEBUG] stops
    at the assertion. *)
Lemma dist_debug_unequal_VarSets (f g : Factor) (dt : DistType) :
  vars f <> [] -> vars g <> [] -> vs_eqb (vars f) (vars g) = false ->
  dist true f g dt = Err PRECONDITION.
Proof.
  intros Hf Hg Hne. unfold dist.
  destruct (vars f); [congruence|]. destruct (vars g); [congruence|].
  cbn [orb]. rewrite Hne. reflexivity.
Qed.



(** ** init *)

(** C5, at a failing input: on [bp1], [init( {x0} )] resets the live message
    of the edge of [x0] to [<1 1>] and leaves its staged [newMessage] at
    [<0.3 0.7>], where [init()] resets both to [<1 1>]. *)
Theorem init_ns_keeps_newMessage :
  (exists bp',
     BP_init_ns bp1 [x0] = Ok bp' /\
     BP_message bp' 0 0 = Ok [1; 1] /\
     BP_newMessage bp' 0 0 = Ok [3 / 10; 7 / 10]) /\
  (exists bp',
     BP_init bp1 = Ok bp' /\
     BP_message bp' 0 0 = Ok [1; 1] /\
     BP_newMessage bp' 0 0 = Ok [1; 1]) /\
  [3 / 10; 7 / 10] <> [1; 1].
Proof.
  split; [|split].
  - eexists. split; [reflexivity|]. split; reflexivity.
  - eexists. split; [reflexivity|]. split; reflexivity.
  - intros H. injection H as H _. lra.
Qed.

(** ** belief of a VarSet *)

(** [V >> ns] holds exactly when every label of [ns] is a label of [V]. *)
Lemma vs_mem_labels (v : Var) (V : VarSet) :
  vs_mem v V = true <-> In (label v) (labels V).
Proof.
  unfold vs_mem, labels. rewrite existsb_exists, in_map_iff.
  split; intros [w [H1 H2]]; exists w.
  - unfold var_eqb in H2. apply Nat.eqb_eq in H2. auto.
  - split; [exact H2|]. unfold var_eqb. apply Nat.eqb_eq. auto.
Qed.

Lemma vs_superset_incl (V ns : VarSet) :
  vs_superset V ns = true <-> incl (labels ns) (labels V).
Proof.
  unfold vs_superset. rewrite forallb_forall. split.
  - intros H l Hl. unfold labels in Hl. apply in_map_iff in Hl.
    destruct Hl as [v [<- Hv]]. apply vs_mem_labels. auto.
  - intros H v Hv. apply vs_mem_labels. apply H.
    unfold labels. apply in_map. exact Hv.
Qed.

(** The search loop stops at the first factor that contains [ns], and one
    past the last factor when there is none. *)
Lemma first_superset_found (fs : list Factor) (ns : VarSet) (I0 : nat) :
  (exists f, In f fs /\ vs_superset (vars f) ns = true) ->
  exists fI,
    nth_error fs (first_superset fs ns I0 - I0) = Some fI /\
    vs_superset (vars fI) ns = true /\
    (I0 <= first_superset fs ns I0 < I0 + length fs)%nat /\
    (forall J fJ, (J < first_superset fs ns I0 - I0)%nat ->
                  nth_error fs J = Some fJ ->
                  vs_superset (vars fJ) ns = false).
Proof.
  revert I0. induction fs as [|f fs IH]; intros I0 [g [Hin Hg]].
  - destruct Hin.
  - simpl. destruct (vs_superset (vars f) ns) eqn:Hf.
    + exists f. rewrite Nat.sub_diag. simpl.
      split; [reflexivity|]. split; [exact Hf|]. split; [lia|].
      intros J fJ HJ. lia.
    + destruct Hin as [->|Hin]; [congruence|].
      destruct (IH (S I0)) as [fI [H1 [H2 [H3 H4]]]]; [eauto|].
      exists fI.
      replace (first_superset fs ns (S I0) - I0)%nat
        with (S (first_superset fs ns (S I0) - S I0)) by lia.
      simpl. split; [exact H1|]. split; [exact H2|]. split; [lia|].
      intros [|J] fJ HJ HfJ; simpl in HfJ.
      * congruence.
      * apply (H4 J); auto. lia.
Qed.

Lemma first_superset_none (fs : list Factor) (ns : VarSet) (I0 : nat) :
  (forall f, In f fs -> vs_superset (vars f) ns = false) ->
  first_superset fs ns I0 = (I0 + length fs)%nat.
Proof.
  revert I0. induction fs as [|f fs IH]; intros I0 H; simpl.
  - lia.
  - rewrite (H f) by (left; reflexivity).
    rewrite IH by (intros g Hg; apply H; right; exact Hg). lia.
Qed.

(** C6: [belief( ns )] returns [beliefV] of the single variable when
    [|ns| = 1]; otherwise, when some factor's variable set is a superset of
    [ns], it returns the (normalized) marginal onto [ns] of [beliefF( I )]
    for [I] the first such factor, and when no factor's variable set
    contains [ns] it fails with the assertion's error. *)
Theorem BP_belief_VarSet (bp : BP) (ns : VarSet) :
  (forall n, ns = [n] ->
     BP_belief bp ns = (i <- findVar bp n ;; BP_beliefV bp i)) /\
  (length ns <> 1%nat ->
   (exists f, In f (fg_factors (fg bp)) /\
              incl (labels ns) (labels (vars f))) ->
   exists I fI,
     factor bp I = Ok fI /\
     incl (labels ns) (labels (vars fI)) /\
     (forall J fJ, (J < I)%nat -> factor bp J = Ok fJ ->
                   ~ incl (labels ns) (labels (vars fJ))) /\
     BP_belief bp ns = (b <- BP_beliefF bp I ;; marginal b ns true)) /\
  (length ns <> 1%nat ->
   (forall f, In f (fg_factors (fg bp)) ->
              ~ incl (labels ns) (labels (vars f))) ->
   BP_belief bp ns = Err PRECONDITION).
Proof.
  split; [|split].
  - intros n ->. reflexivity.
  - intros Hlen [f [Hin Hsup]].
    apply vs_superset_incl in Hsup.
    destruct (first_superset_found (fg_factors (fg bp)) ns 0)
      as [fI [H1 [H2 [H3 H4]]]]; [eauto|].
    rewrite Nat.sub_0_r in *.
    exists (first_superset (fg_factors (fg bp)) ns 0), fI.
    split; [apply get_Some; exact H1|].
    split; [apply vs_superset_incl; exact H2|].
    split.
    + intros J fJ HJ HfJ Hincl. apply get_Ok in HfJ.
      apply vs_superset_incl in Hincl.
      rewrite (H4 J fJ HJ HfJ) in Hincl. discriminate.
    + unfold BP_belief. apply Nat.eqb_neq in Hlen. rewrite Hlen.
      unfold nrFactors.
      assert (E : (first_superset (fg_factors (fg bp)) ns 0
                   =? length (fg_factors (fg bp)))%nat = false)
        by (apply Nat.eqb_neq; lia).
      rewrite E. reflexivity.
  - intros Hlen Hnone. unfold BP_belief.
    apply Nat.eqb_neq in Hlen. rewrite Hlen.
    rewrite first_superset_none.
    + unfold nrFactors. simpl. rewrite Nat.eqb_refl. reflexivity.
    + intros f Hf. specialize (Hnone f Hf).
      destruct (vs_superset (vars f) ns) eqn:E; auto.
      apply vs_superset_incl in E. contradiction.
Qed.

(** ** logZ *)

Lemma Complex_eq (a b : Complex) : Re a = Re b -> Im a = Im b -> a = b.
Proof. destruct a, b; simpl; intros -> ->; reflexivity. Qed.

Lemma Cadd_assoc (a b c : Complex) : Cadd (Cadd a b) c = Cadd a (Cadd b c).
Proof. apply Complex_eq; simpl; lra. Qed.

Lemma Cadd_0_r (a : Complex) : Cadd a (Complex_of_real 0) = a.
Proof. apply Complex_eq; simpl; lra. Qed.

Lemma Csub_Cadd (a b c : Complex) : Csub (Csub a b) c = Csub a (Cadd b c).
Proof. apply Complex_eq; simpl; lra. Qed.

Lemma Csub_0_l_Cadd (a b : Complex) :
  Csub (Cadd (Complex_of_real 0) a) b = Csub a b.
Proof. apply Complex_eq; simpl; lra. Qed.

(** A loop that adds [t i] to the accumulator at step [i] adds [Csum n t];
    one that subtracts [t i] subtracts it. *)
Lemma for_range_Cadd (n : nat) (body : nat -> Complex -> result Complex)
  (t : nat -> Complex) (s : Complex) :
  (forall i s', (i < n)%nat -> body i s' = Ok (Cadd s' (t i))) ->
  for_range n body s = Ok (Cadd s (Csum n t)).
Proof.
  unfold for_range. induction n as [|n IH]; intros Hbody.
  - simpl. now rewrite Cadd_0_r.
  - rewrite seq_S, for_each_app. simpl.
    rewrite IH by (intros; apply Hbody; lia). simpl.
    rewrite Hbody by lia. simpl. now rewrite Cadd_assoc.
Qed.

Lemma for_range_Csub (n : nat) (body : nat -> Complex -> result Complex)
  (t : nat -> Complex) (s : Complex) :
  (forall i s', (i < n)%nat -> body i s' = Ok (Csub s' (t i))) ->
  for_range n body s = Ok (Csub s (Csum n t)).
Proof.
  unfold for_range. induction n as [|n IH]; intros Hbody.
  - simpl. f_equal. apply Complex_eq; simpl; lra.
  - rewrite seq_S, for_each_app. simpl.
    rewrite IH by (intros; apply Hbody; lia). simpl.
    rewrite Hbody by lia. simpl. now rewrite Csub_Cadd.
Qed.

Lemma bind_Ok_inv {A B : Type} (m : result A) (k : A -> result B) (b : B) :
  (x <- m ;; k x) = Ok b -> exists a, m = Ok a /\ k a = Ok b.
Proof. destruct m as [a|e]; simpl; intros H; [eauto | discriminate]. Qed.

Lemma get_nth {A : Type} (v : list A) (i : nat) (a d : A) :
  get v i = Ok a -> nth i v d = a.
Proof. intros H. apply get_Ok in H. now apply nth_error_nth. Qed.

Lemma get_lt {A : Type} (v : list A) (i : nat) (d : A) :
  (i < length v)%nat -> get v i = Ok (nth i v d).
Proof.
  intros H. apply get_Some. now apply nth_error_nth'.
Qed.

(** C3: when the beliefs [beliefV( i )] and [beliefF( I )] exist, [logZ]
    returns the sum over all variables [i] of [(1 - deg i)] times the entropy
    of [beliefV( i )], minus the sum over all factors [I] of
    [KL_dist( beliefF( I ), factor( I ) )]. *)
Theorem BP_logZ_Bethe (KL_dist : Factor -> Factor -> Complex) (bp : BP)
  (bV bF : nat -> Factor) :
  (forall i, (i < nrVars bp)%nat -> BP_beliefV bp i = Ok (bV i)) ->
  (forall I, (I < nrFactors bp)%nat -> BP_beliefF bp I = Ok (bF I)) ->
  BP_logZ KL_dist bp =
  Ok (Csub
        (Csum (nrVars bp)
           (fun i => Cscale (Complex_of_real (1 - INR (deg bp i)))
                            (entropy (bV i))))
        (Csum (nrFactors bp)
           (fun I => KL_dist (bF I)
                             (nth I (fg_factors (fg bp)) (mkFactor [] []))))).
Proof.
  intros HV HF. unfold BP_logZ.
  rewrite (for_range_Cadd (nrVars bp) _
             (fun i => Cscale (Complex_of_real (1 - INR (deg bp i)))
                              (entropy (bV i)))).
  - simpl.
    rewrite (for_range_Csub (nrFactors bp) _
               (fun I => KL_dist (bF I)
                           (nth I (fg_factors (fg bp)) (mkFactor [] [])))).
    + now rewrite Csub_0_l_Cadd.
    + intros I s' HI. rewrite (HF I HI). simpl.
      unfold factor. rewrite (get_lt _ I (mkFactor [] [])) by exact HI.
      reflexivity.
  - intros i s' Hi. pose proof (HV i Hi) as Hb.
    unfold BP_beliefV in Hb.
    apply bind_Ok_inv in Hb. destruct Hb as [vi [_ Hb]].
    apply bind_Ok_inv in Hb. destruct Hb as [nbi [Hnb _]].
    rewrite Hnb. simpl. rewrite (HV i Hi). simpl.
    unfold deg. unfold nbV in Hnb.
    rewrite (get_nth _ i nbi [] Hnb). reflexivity.
Qed.

Lemma BP_beliefV_bp1 : BP_beliefV bp1 0 = Ok bV1.
Proof.
  unfold BP_beliefV, bV1; simpl. unfold Prob_normalize.
  destruct (Req_dec_T _ 0) as [E|_]; [|reflexivity].
  exfalso. unfold Prob_totalSum in E. simpl in E. lra.
Qed.

Lemma BP_beliefF_bp1 : BP_beliefF bp1 0 = Ok bF1.
Proof.
  unfold BP_beliefF, bF1; simpl.
  unfold Factor_normalize, Prob_normalize; simpl.
  destruct (Req_dec_T _ 0) as [E|_]; [|reflexivity].
  exfalso. unfold Prob_totalSum in E. simpl in E. lra.
Qed.

Lemma BP_logZ_Bethe_witness :
  BP_logZ KL_dist_Prob bp1 =
  Ok (Csub
        (Csum 1 (fun i => Cscale (Complex_of_real (1 - INR (deg bp1 i)))
                                 (entropy bV1)))
        (Csum 1 (fun I => KL_dist_Prob bF1
                            (nth I (fg_factors fg1) (mkFactor [] []))))).
Proof.
  apply (BP_logZ_Bethe KL_dist_Prob bp1 (fun _ => bV1) (fun _ => bF1)).
  - intros [|i] Hi; [apply BP_beliefV_bp1 | ].
    unfold nrVars in Hi; simpl in Hi; lia.
  - intros [|i] Hi; [apply BP_beliefF_bp1 | ].
    unfold nrFactors in Hi; simpl in Hi; lia.
Defined.

(** ** The linear encoding and IndexFor *)

Lemma wf_vars_incl (L L' : list Var) :
  incl L' L -> wf_vars L -> wf_vars L'.
Proof.
  intros Hi [Hp Hc]. split.
  - intros v Hv. apply Hp, Hi, Hv.
  - intros v w Hv Hw. apply Hc; apply Hi; assumption.
Qed.

Lemma valid_on_cons (v : Var) (V : VarSet) (x : assignment) :
  valid_on (v :: V) x -> (x (label v) < states v)%nat /\ valid_on V x.
Proof.
  intros H. split.
  - apply H. left. reflexivity.
  - intros w Hw. apply H. right. exact Hw.
Qed.

(** [calcState] is below the joint state count. *)
Lemma calcState_lt (V : VarSet) (x : assignment) :
  valid_on V x -> (calcState V x < nrStates V)%nat.
Proof.
  induction V as [|v V IH]; intros H; simpl.
  - lia.
  - apply valid_on_cons in H. destruct H as [Hv HV].
    specialize (IH HV). nia.
Qed.

(** [calcState] reads the assignment on the labels of its VarSet only. *)
Lemma calcState_ext (V : VarSet) (x y : assignment) :
  (forall l, In l (labels V) -> x l = y l) ->
  calcState V x = calcState V y.
Proof.
  induction V as [|v V IH]; intros H; simpl; auto.
  rewrite (H (label v)) by (left; reflexivity).
  rewrite IH; auto. intros l Hl. apply H. right. exact Hl.
Qed.

(** [calcStates] inverts [calcState] on the labels of the VarSet. *)
Lemma calcStates_calcState (V : VarSet) (x : assignment) (l : nat) :
  valid_on V x -> In l (labels V) ->
  calcStates V (calcState V x) l = x l.
Proof.
  induction V as [|v V IH]; intros H Hl; simpl in *.
  - destruct Hl.
  - apply valid_on_cons in H. destruct H as [Hv HV].
    destruct (Nat.eqb_spec l (label v)) as [->|Hne].
    + rewrite (Nat.mul_comm (states v)), Nat.Div0.mod_add.
      apply Nat.mod_small. exact Hv.
    + rewrite (Nat.mul_comm (states v)), Nat.div_add by lia.
      rewrite Nat.div_small by exact Hv. simpl.
      apply IH; auto. destruct Hl as [Hl|Hl]; [congruence | exact Hl].
Qed.

(** The digits [calcStates] extracts are states of the variables. *)
Lemma calcStates_lt (L : list Var) (outer : VarSet) (k : nat) (v : Var) :
  wf_vars L -> incl outer L -> In v L ->
  (calcStates outer k (label v) < states v)%nat.
Proof.
  intros [Hp Hc] Hi Hv. revert k.
  induction outer as [|w outer IH]; intros k; simpl.
  - apply Hp, Hv.
  - assert (Hw : In w L) by (apply Hi; left; reflexivity).
    destruct (Nat.eqb_spec (label v) (label w)) as [E|Hne].
    + rewrite (Hc v w Hv Hw E). apply Nat.mod_upper_bound.
      specialize (Hp w Hw). lia.
    + apply IH. intros u Hu. apply Hi. right. exact Hu.
Qed.

Lemma calcStates_valid (L : list Var) (inner outer : VarSet) (k : nat) :
  wf_vars L -> incl outer L -> incl inner L ->
  valid_on inner (calcStates outer k).
Proof.
  intros HL Ho Hin v Hv. apply (calcStates_lt L); auto.
Qed.

(** Property 7 of the spec: [IndexFor inner outer] at the encoding of [x]
    in [outer] is the encoding in [inner] of [x] restricted to [inner]. *)
Lemma IndexFor_calcState (inner outer : VarSet) (x : assignment) :
  incl (labels inner) (labels outer) -> valid_on outer x ->
  nth_error (IndexFor inner outer) (calcState outer x)
  = Some (calcState inner x).
Proof.
  intros Hi Hx. rewrite nth_error_IndexFor by (apply calcState_lt; exact Hx).
  f_equal. apply calcState_ext. intros l Hl.
  apply calcStates_calcState; auto.
Qed.

(** ** The union of two VarSets *)

Lemma vs_union_nil_l (b : VarSet) : vs_union [] b = b.
Proof. destruct b; reflexivity. Qed.

Lemma vs_union_nil_r (a : VarSet) : vs_union a [] = a.
Proof. destruct a; reflexivity. Qed.

Lemma vs_union_In (a b : VarSet) (v : Var) :
  In v (vs_union a b) -> In v a \/ In v b.
Proof.
  revert b. induction a as [|x a IHa]; intros b;
    [rewrite vs_union_nil_l; auto|].
  induction b as [|y b IHb]; [simpl; auto|].
  simpl. destruct (var_ltb x y).
  - intros [<-|H]; [left; left; reflexivity|].
    apply IHa in H. destruct H; [left; right|right]; assumption.
  - destruct (var_ltb y x).
    + intros [<-|H]; [right; left; reflexivity|].
      apply IHb in H. destruct H; [left|right; right]; assumption.
    + intros [<-|H]; [left; left; reflexivity|].
      apply IHa in H. destruct H; [left; right|right; right]; assumption.
Qed.

Lemma vs_union_labels (a b : VarSet) (l : nat) :
  In l (labels (vs_union a b)) <-> In l (labels a) \/ In l (labels b).
Proof.
  revert b. induction a as [|x a IHa]; intros b;
    [rewrite vs_union_nil_l; simpl; tauto|].
  induction b as [|y b IHb]; [simpl; tauto|].
  simpl. unfold var_ltb.
  destruct (Nat.ltb_spec (label x) (label y)) as [Hxy|Hxy].
  - simpl. rewrite IHa. simpl. tauto.
  - destruct (Nat.ltb_spec (label y) (label x)) as [Hyx|Hyx].
    + simpl. simpl in IHb. rewrite IHb. tauto.
    + simpl. rewrite IHa.
      assert (label x = label y) by lia. intuition congruence.
Qed.

Lemma vs_union_idem (a : VarSet) : vs_union a a = a.
Proof.
  induction a as [|x a IH]; simpl; auto.
  unfold var_ltb. rewrite Nat.ltb_irrefl. now rewrite IH.
Qed.

(** The union of two sorted VarSets is sorted. *)
Lemma vs_union_sorted (a b : VarSet) :
  vs_sorted a -> vs_sorted b -> vs_sorted (vs_union a b).
Proof.
  unfold vs_sorted. revert b.
  induction a as [|x a IHa]; intros b Ha Hb;
    [rewrite vs_union_nil_l; auto|].
  induction b as [|y b IHb]; [simpl; auto|].
  simpl in Ha, Hb.
  apply StronglySorted_inv in Ha. destruct Ha as [Ha Hxa].
  apply StronglySorted_inv in Hb. destruct Hb as [Hb Hyb].
  rewrite Forall_forall in Hxa, Hyb.
  simpl. unfold var_ltb.
  destruct (Nat.ltb_spec (label x) (label y)) as [Hxy|Hxy].
  - simpl. constructor.
    + apply IHa; auto. simpl. constructor; auto.
      now apply Forall_forall.
    + apply Forall_forall. intros l Hl.
      apply vs_union_labels in Hl. destruct Hl as [Hl|Hl]; auto.
      simpl in Hl. destruct Hl as [<-|Hl]; auto.
      specialize (Hyb l Hl). lia.
  - destruct (Nat.ltb_spec (label y) (label x)) as [Hyx|Hyx].
    + simpl. constructor.
      * change (StronglySorted lt (labels (vs_union (x :: a) b))).
        apply IHb. exact Hb.
      * apply Forall_forall. intros l Hl.
        change (In l (labels (vs_union (x :: a) b))) in Hl.
        apply vs_union_labels in Hl. destruct Hl as [Hl|Hl]; auto.
        simpl in Hl. destruct Hl as [<-|Hl]; auto.
        specialize (Hxa l Hl). lia.
    + simpl. constructor.
      * apply IHa; auto.
      * apply Forall_forall. intros l Hl.
        apply vs_union_labels in Hl. destruct Hl as [Hl|Hl]; auto.
        specialize (Hyb l Hl). lia.
Qed.

(** ** The product of two factors *)

Lemma vs_eqb_eq (a b : VarSet) :
  wf_vars (a ++ b) -> vs_eqb a b = true -> a = b.
Proof.
  revert b. induction a as [|x a IH]; intros [|y b] Hwf H; simpl in H;
    try discriminate; auto.
  apply andb_prop in H. destruct H as [Hxy Hab].
  unfold var_eqb in Hxy. apply Nat.eqb_eq in Hxy.
  assert (Hs : states x = states y).
  { destruct Hwf as [_ Hc]. apply Hc; auto.
    - left. reflexivity.
    - apply in_or_app. right. left. reflexivity. }
  f_equal.
  - destruct x, y; simpl in *; congruence.
  - apply IH; auto. apply (wf_vars_incl (x :: a ++ y :: b)); auto.
    intros v Hv. right. apply in_app_or in Hv. apply in_or_app.
    destruct Hv; [left|right; right]; assumption.
Qed.

Lemma nth_error_pointwise (op : R -> R -> R) (a b : Prob) (k : nat) (x y : R) :
  nth_error a k = Some x -> nth_error b k = Some y ->
  nth_error (map (fun xy => op (fst xy) (snd xy)) (combine a b)) k
  = Some (op x y).
Proof.
  revert b k. induction a as [|x' a IH]; intros [|y' b] [|k] Ha Hb;
    simpl in *; try discriminate.
  - congruence.
  - apply IH; assumption.
Qed.

Lemma length_pointwise (op : R -> R -> R) (a b : Prob) :
  length a = length b ->
  length (map (fun xy => op (fst xy) (snd xy)) (combine a b)) = length a.
Proof.
  intros H. rewrite length_map, length_combine. lia.
Qed.

(** The loop [for i: acc[i] += t i] over a vector of zeros. *)
Lemma for_each_add_at (t : nat -> R) (body : nat -> Prob -> result Prob)
  (m : nat) (pre : Prob) :
  (forall i acc, (length pre <= i < length pre + m)%nat ->
                 body i acc = add_at acc i (t i)) ->
  for_each (seq (length pre) m) body (pre ++ repeat 0 m)
  = Ok (pre ++ map (fun i => 0 + t i) (seq (length pre) m)).
Proof.
  revert pre. induction m as [|m IH]; intros pre Hbody; simpl.
  - reflexivity.
  - rewrite Hbody by lia. unfold add_at, modify.
    rewrite get_middle. simpl. rewrite upd_middle.
    specialize (IH (pre ++ [0 + t (length pre)])).
    rewrite length_app in IH. simpl in IH.
    rewrite Nat.add_1_r, <- !app_assoc in IH. simpl in IH.
    apply IH. intros i acc Hi. apply Hbody. lia.
Qed.

Lemma nth_error_Some_lt {A : Type} (v : list A) (k : nat) :
  (k < length v)%nat -> exists a, nth_error v k = Some a.
Proof.
  intros H. destruct (nth_error v k) as [a|] eqn:E; [eauto|].
  apply nth_error_None in E. lia.
Qed.

(** A joint state of a VarSet [U] is one of every VarSet whose labels are
    among those of [U]. *)
Lemma valid_on_labels (L : list Var) (V U : VarSet) (x : assignment) :
  wf_vars L -> incl V L -> incl U L ->
  incl (labels V) (labels U) -> valid_on U x -> valid_on V x.
Proof.
  intros [_ Hc] HV HU Hi Hx v Hv.
  assert (Hl : In (label v) (labels U)) by (apply Hi, in_map, Hv).
  unfold labels in Hl. apply in_map_iff in Hl. destruct Hl as [w [E Hw]].
  assert (Hs : states v = states w) by (apply Hc; auto).
  rewrite <- E, Hs. apply Hx, Hw.
Qed.

(** C4: for every pair of factors [g] and [f] of one graph, the product
    [g * f] has the union of the two VarSets as its VarSet, and its value
    at the linear encoding of each joint state [x] of the union is the value
    of [g] at the encoding of [x] restricted to the variables of [g] times
    the value of [f] at the encoding of [x] restricted to those of [f]. *)
Theorem Factor_mul_union (g f : Factor) :
  wf_factor g -> wf_factor f -> wf_vars (vars g ++ vars f) ->
  exists h,
    Factor_mul g f = Ok h /\
    vars h = vs_union (vars g) (vars f) /\
    wf_factor h /\
    forall x, valid_on (vars h) x ->
      exists a b,
        nth_error (p g) (calcState (vars g) x) = Some a /\
        nth_error (p f) (calcState (vars f) x) = Some b /\
        nth_error (p h) (calcState (vars h) x) = Some (a * b).
Proof.
  intros Hg Hf Hwf. unfold Factor_mul.
  assert (HgL : incl (vars g) (vars g ++ vars f))
    by (intros v Hv; apply in_or_app; left; exact Hv).
  assert (HfL : incl (vars f) (vars g ++ vars f))
    by (intros v Hv; apply in_or_app; right; exact Hv).
  destruct (vs_eqb (vars f) (vars g)) eqn:Heq.
  - (* equal VarSets *)
    assert (E : vars f = vars g).
    { apply vs_eqb_eq; auto. apply (wf_vars_incl (vars g ++ vars f)); auto.
      intros v Hv. apply in_app_or in Hv. apply in_or_app. tauto. }
    assert (Hlen : length (p g) = length (p f)).
    { unfold wf_factor in *. congruence. }
    unfold Prob_mul, pointwise. apply Nat.eqb_eq in Hlen as Hlenb.
    rewrite Hlenb. simpl. eexists. split; [reflexivity|]. simpl.
    split; [now rewrite E, vs_union_idem|].
    split.
    { unfold wf_factor. simpl. rewrite length_pointwise; auto. }
    intros x Hx. rewrite E.
    pose proof (calcState_lt _ _ Hx) as Hk.
    destruct (nth_error_Some_lt (p g) (calcState (vars g) x)) as [a Ha];
      [unfold wf_factor in Hg; lia|].
    destruct (nth_error_Some_lt (p f) (calcState (vars g) x)) as [b Hb];
      [unfold wf_factor in Hf; rewrite Hf, E; lia|].
    exists a, b. split; [exact Ha|]. split; [exact Hb|].
    apply nth_error_pointwise; assumption.
  - (* the general case *)
    set (U := vs_union (vars g) (vars f)).
    assert (HUL : incl U (vars g ++ vars f)).
    { intros v Hv. apply in_or_app. apply vs_union_In. exact Hv. }
    assert (HgU : incl (labels (vars g)) (labels U)).
    { intros l Hl. apply vs_union_labels. left. exact Hl. }
    assert (HfU : incl (labels (vars f)) (labels U)).
    { intros l Hl. apply vs_union_labels. right. exact Hl. }
    set (t := fun i =>
                nth (calcState (vars g) (calcStates U i)) (p g) 0
                * nth (calcState (vars f) (calcStates U i)) (p f) 0).
    simpl vars. simpl p. unfold for_range, Prob_const.
    rewrite repeat_length.
    rewrite (for_each_add_at t _ (nrStates U) []).
    + simpl. eexists. split; [reflexivity|]. simpl.
      split; [reflexivity|]. split.
      { unfold wf_factor. simpl. now rewrite length_map, length_seq. }
      intros x Hx. pose proof (calcState_lt _ _ Hx) as Hk.
      assert (Hxg : valid_on (vars g) x)
        by (apply (valid_on_labels (vars g ++ vars f) _ U); auto).
      assert (Hxf : valid_on (vars f) x)
        by (apply (valid_on_labels (vars g ++ vars f) _ U); auto).
      destruct (nth_error_Some_lt (p g) (calcState (vars g) x)) as [a Ha].
      { rewrite Hg. apply calcState_lt, Hxg. }
      destruct (nth_error_Some_lt (p f) (calcState (vars f) x)) as [b Hb].
      { rewrite Hf. apply calcState_lt, Hxf. }
      exists a, b. split; [exact Ha|]. split; [exact Hb|].
      rewrite nth_error_map, nth_error_seq.
      apply Nat.ltb_lt in Hk. rewrite Hk. simpl. f_equal.
      unfold t.
      rewrite (calcState_ext (vars g) (calcStates U (calcState U x)) x).
      2:{ intros l Hl. apply calcStates_calcState; auto. }
      rewrite (calcState_ext (vars f) (calcStates U (calcState U x)) x).
      2:{ intros l Hl. apply calcStates_calcState; auto. }
      rewrite (nth_error_nth _ _ 0 Ha), (nth_error_nth _ _ 0 Hb). lra.
    + intros i acc Hi. simpl in Hi.
      rewrite (get_Some _ _ _ (nth_error_IndexFor (vars g) U i ltac:(lia))).
      rewrite (get_Some _ _ _ (nth_error_IndexFor (vars f) U i ltac:(lia))).
      simpl.
      rewrite (get_lt (p g) _ 0).
      2:{ rewrite Hg. apply calcState_lt.
          apply (calcStates_valid (vars g ++ vars f)); auto. }
      rewrite (get_lt (p f) _ 0).
      2:{ rewrite Hf. apply calcState_lt.
          apply (calcStates_valid (vars g ++ vars f)); auto. }
      reflexivity.
Qed.

Lemma wf_vars_x0_x1 : wf_vars [x0; x1].
Proof.
  split.
  - intros v [<-|[<-|[]]]; simpl; lia.
  - intros v w [<-|[<-|[]]] [<-|[<-|[]]]; simpl; intros H;
      try reflexivity; discriminate.
Qed.

Lemma Factor_mul_union_witness :
  exists h,
    Factor_mul g_mul f_mul = Ok h /\
    vars h = vs_union (vars g_mul) (vars f_mul) /\
    wf_factor h /\
    forall x, valid_on (vars h) x ->
      exists a b,
        nth_error (p g_mul) (calcState (vars g_mul) x) = Some a /\
        nth_error (p f_mul) (calcState (vars f_mul) x) = Some b /\
        nth_error (p h) (calcState (vars h) x) = Some (a * b).
Proof.
  apply (Factor_mul_union g_mul f_mul).
  - reflexivity.
  - reflexivity.
  - exact wf_vars_x0_x1.
Defined.

(** ** The edge table *)

Lemma nbV_lt (bp : BP) (j : nat) :
  edges_shape bp -> (j < nrVars bp)%nat ->
  exists nb, nbV bp j = Ok nb /\ length nb = deg bp j.
Proof.
  intros [Hn _] Hj. unfold nbV, deg.
  rewrite (get_lt _ j []) by lia. eauto.
Qed.

Lemma edge_row (bp : BP) (j : nat) :
  edges_shape bp -> (j < nrVars bp)%nat ->
  exists row, nth_error (edges bp) j = Some row /\ length row = deg bp j.
Proof.
  intros [Hn Hs] Hj.
  assert (E : nth_error (map (@length EdgeProp) (edges bp)) j
              = Some (deg bp j)).
  { rewrite Hs. rewrite nth_error_map. unfold deg.
    rewrite (nth_error_nth' _ []) by lia. reflexivity. }
  rewrite nth_error_map in E.
  destruct (nth_error (edges bp) j) as [row|]; simpl in E; [|discriminate].
  exists row. split; [reflexivity | congruence].
Qed.

Lemma edge_Ok (bp : BP) (j J : nat) :
  edges_shape bp -> is_edge bp (j, J) -> exists e, edge bp j J = Ok e.
Proof.
  intros Hs [Hj HJ]. simpl in *.
  destruct (edge_row bp j Hs Hj) as [row [Hrow Hlen]].
  destruct (nth_error_Some_lt row J) as [e He]; [lia|].
  exists e. unfold edge. rewrite (get_Some _ _ _ Hrow). simpl.
  apply get_Some. exact He.
Qed.

Lemma edge_Ok_inv (bp : BP) (j J : nat) (e : EdgeProp) :
  edges_shape bp -> edge bp j J = Ok e -> is_edge bp (j, J).
Proof.
  intros Hs H. unfold edge in H.
  apply bind_Ok_inv in H. destruct H as [row [Hrow He]].
  apply get_Ok in Hrow. apply get_Ok in He.
  assert (Hj : (j < length (edges bp))%nat)
    by (apply nth_error_Some; congruence).
  assert (HJ : (J < length row)%nat)
    by (apply nth_error_Some; congruence).
  assert (Hn : (j < nrVars bp)%nat).
  { destruct Hs as [Hn Hm]. rewrite <- Hn.
    rewrite <- (length_map (@length Neighbor)), <- Hm, length_map. exact Hj. }
  destruct (edge_row bp j Hs Hn) as [row' [Hrow' Hlen]].
  split; simpl; [exact Hn|]. congruence.
Qed.

Lemma BP_residual_Ok (bp : BP) (j J : nat) :
  edges_shape bp -> is_edge bp (j, J) -> exists r, BP_residual bp j J = Ok r.
Proof.
  intros Hs He. destruct (edge_Ok bp j J Hs He) as [e E].
  exists (residual e). unfold BP_residual. now rewrite E.
Qed.

Lemma BP_residual_Ok_inv (bp : BP) (j J : nat) (r : R) :
  edges_shape bp -> BP_residual bp j J = Ok r -> is_edge bp (j, J).
Proof.
  intros Hs H. unfold BP_residual in H.
  apply bind_Ok_inv in H. destruct H as [e [He _]].
  apply (edge_Ok_inv bp j J e Hs He).
Qed.

(** ** findMaxResidual *)

Lemma scan_inner (bp : BP) (j : nat) (Hs : edges_shape bp)
  (Hj : (j < nrVars bp)%nat) :
  forall (nb : list Neighbor) (K : nat) (acc : nat * nat * R),
    map iter nb = seq K (length nb) ->
    (K + length nb = deg bp j)%nat ->
    scan_inv bp j K acc ->
    exists acc',
      for_each nb (scan_body bp j) acc = Ok acc' /\
      scan_inv bp j (K + length nb) acc'.
Proof.
  induction nb as [|I nb IH]; intros K acc Hit Hdeg Hinv.
  - exists acc. simpl. rewrite Nat.add_0_r. auto.
  - simpl in Hit. injection Hit as HI Hit. simpl in Hdeg.
    assert (He : is_edge bp (j, K)) by (split; simpl; lia).
    destruct (BP_residual_Ok bp j K Hs He) as [r Hr].
    destruct acc as [[i _I] m]. destruct Hinv as [Hm [Hedge [Hlex Hall]]].
    simpl for_each. unfold scan_body at 1. rewrite HI, Hr. simpl.
    replace (K + S (length nb))%nat with (S K + length nb)%nat by lia.
    specialize (IH (S K)).
    destruct (Rlt_dec m r) as [Hlt|Hge]; simpl.
    + apply IH; auto; try lia.
      split; [exact Hr|]. split; [exact He|].
      split; [unfold lex_le; simpl; lia|].
      intros e r' Hee Hb Hr'. destruct Hb as [Hb|[Hb1 Hb2]].
      * destruct (Hall e r' Hee (or_introl Hb) Hr') as [H1 _].
        split; [lra|]. intros ->. lra.
      * destruct (Nat.eq_dec (snd e) K) as [EK|NK].
        -- destruct e as [e1 e2]. simpl in *. subst e1 e2.
           rewrite Hr in Hr'. injection Hr' as <-.
           split; [lra|]. intros _. right. simpl. lia.
        -- assert (Hb : before j K e) by (right; split; [exact Hb1|lia]).
           destruct (Hall e r' Hee Hb Hr') as [H1 _].
           split; [lra|]. intros ->. lra.
    + apply IH; auto; try lia.
      split; [exact Hm|]. split; [exact Hedge|].
      split.
      { unfold lex_le in *. simpl in *. lia. }
      intros e r' Hee Hb Hr'. destruct Hb as [Hb|[Hb1 Hb2]].
      * apply (Hall e r' Hee (or_introl Hb) Hr').
      * destruct (Nat.eq_dec (snd e) K) as [EK|NK].
        -- destruct e as [e1 e2]. simpl in *. subst e1 e2.
           rewrite Hr in Hr'. injection Hr' as <-.
           split; [lra|]. intros _. exact Hlex.
        -- apply (Hall e r' Hee); auto. right. split; [exact Hb1|lia].
Qed.

Lemma scan_outer (bp : BP) (Hw : wf_nbV bp) (Hs : edges_shape bp) :
  forall (n a : nat) (acc : nat * nat * R),
    (a + n = nrVars bp)%nat ->
    scan_inv bp a 0 acc ->
    exists acc',
      for_each (seq a n)
        (fun j acc => nb <- nbV bp j ;; for_each nb (scan_body bp j) acc)
        acc = Ok acc' /\
      scan_inv bp (a + n) 0 acc'.
Proof.
  induction n as [|n IH]; intros a acc Han Hinv.
  - exists acc. simpl. rewrite Nat.add_0_r. auto.
  - assert (Ha : (a < nrVars bp)%nat) by lia.
    destruct (nbV_lt bp a Hs Ha) as [nb [Hnb Hlen]].
    simpl for_each. rewrite Hnb. simpl.
    destruct (scan_inner bp a Hs Ha nb 0 acc) as [acc1 [Hrun Hinv1]]; auto.
    { apply (Hw a). apply get_Ok. exact Hnb. }
    rewrite Hrun. simpl.
    replace (a + S n)%nat with (S a + n)%nat by lia.
    apply IH; [lia|].
    destruct acc1 as [[i _I] m]. destruct Hinv1 as [Hm [Hedge [Hlex Hall]]].
    split; [exact Hm|]. split; [exact Hedge|]. split.
    { unfold lex_le in *. simpl in *. lia. }
    intros e r He Hb Hr. apply (Hall e r He); auto.
    destruct Hb as [Hb|[Hb1 Hb2]]; [|lia].
    destruct He as [He1 He2].
    destruct (Nat.eq_dec (fst e) a) as [Ea|Na].
    + right. split; [exact Ea|]. simpl. rewrite Hlen, <- Ea. exact He2.
    + left. lia.
Qed.

Lemma BP_findMaxResidual_unfold (bp : BP) :
  BP_findMaxResidual bp =
  (maxres <- BP_residual bp 0 0 ;;
   acc <- for_each (seq 0 (nrVars bp))
            (fun j acc => nb <- nbV bp j ;; for_each nb (scan_body bp j) acc)
            (0%nat, 0%nat, maxres) ;;
   Ok (fst (fst acc), snd (fst acc))).
Proof.
  unfold BP_findMaxResidual, for_range.
  destruct (BP_residual bp 0 0) as [m|e]; simpl; [|reflexivity].
  match goal with
  | |- bind ?X _ = bind ?Y _ =>
      replace X with Y; [destruct Y as [[[? ?] ?]|]; reflexivity|]
  end.
  reflexivity.
Qed.

(** On a graph whose variable 0 has a neighbor, [findMaxResidual] returns
    an edge of largest residual, the first one in the order of the scan. *)
Lemma BP_findMaxResidual_scan (bp : BP) :
  wf_nbV bp -> edges_shape bp -> is_edge bp (0%nat, 0%nat) ->
  exists i _I m,
    BP_findMaxResidual bp = Ok (i, _I) /\
    BP_residual bp i _I = Ok m /\
    is_edge bp (i, _I) /\
    forall e r, is_edge bp e ->
      BP_residual bp (fst e) (snd e) = Ok r ->
      r <= m /\ (r = m -> lex_le (i, _I) e).
Proof.
  intros Hw Hs H0. rewrite BP_findMaxResidual_unfold.
  destruct (BP_residual_Ok bp 0 0 Hs H0) as [m0 Hm0].
  rewrite Hm0. simpl.
  destruct (scan_outer bp Hw Hs (nrVars bp) 0 (0%nat, 0%nat, m0))
    as [[[i _I] m] [Hrun Hinv]]; auto.
  { split; [exact Hm0|]. split; [exact H0|]. split.
    - right. simpl. lia.
    - intros e r _ [Hb|[_ Hb]]; lia. }
  rewrite Hrun. simpl. exists i, _I, m.
  destruct Hinv as [Hm [Hedge [_ Hall]]].
  split; [reflexivity|]. split; [exact Hm|]. split; [exact Hedge|].
  intros e r He Hr. apply (Hall e r He); auto.
  left. destruct He as [He _]. simpl. exact He.
Qed.

(** ** What the updates of the edge table leave unchanged *)

Lemma same_frame_refl (bp : BP) : same_frame bp bp.
Proof. repeat split. Qed.

Lemma same_frame_trans (a b c : BP) :
  same_frame a b -> same_frame b c -> same_frame a c.
Proof.
  intros [H1 [H2 [H3 H4]]] [K1 [K2 [K3 K4]]].
  repeat split; congruence.
Qed.

Lemma same_frame_shape (bp bp' : BP) :
  same_frame bp bp' ->
  (wf_nbV bp -> wf_nbV bp') /\
  (edges_shape bp -> edges_shape bp') /\
  nrVars bp' = nrVars bp /\
  (forall i, deg bp' i = deg bp i).
Proof.
  intros [H1 [_ [_ H4]]]. unfold wf_nbV, edges_shape, nrVars, deg.
  rewrite H1, H4. auto.
Qed.

Lemma map_length_upd {A : Type} (rows : list (list A)) (i : nat)
  (row row' : list A) :
  nth_error rows i = Some row -> length row' = length row ->
  map (@length A) (upd rows i row') = map (@length A) rows.
Proof.
  revert i. induction rows as [|r rows IH]; intros [|i] H Hl; simpl in *;
    try discriminate.
  - injection H as ->. now rewrite Hl.
  - f_equal. apply IH; assumption.
Qed.

Lemma update_edge_frame (bp : BP) (i _I : nat) (f : EdgeProp -> EdgeProp)
  (bp' : BP) :
  update_edge bp i _I f = Ok bp' -> same_frame bp bp'.
Proof.
  unfold update_edge, modify. intros H.
  apply bind_Ok_inv in H. destruct H as [es [H E]]. injection E as <-.
  apply bind_Ok_inv in H. destruct H as [row [Hrow H]].
  apply bind_Ok_inv in H. destruct H as [row' [H E]]. injection E as <-.
  apply bind_Ok_inv in H. destruct H as [e [He H]].
  simpl in H. injection H as <-.
  repeat split. simpl. apply get_Ok in Hrow.
  apply (map_length_upd _ _ row); auto. apply length_upd.
Qed.

Lemma for_each_invariant {A S : Type} (P : S -> Prop)
  (body : A -> S -> result S) (l : list A) :
  (forall a s s', P s -> body a s = Ok s' -> P s') ->
  forall s s', P s -> for_each l body s = Ok s' -> P s'.
Proof.
  intros Hb. induction l as [|a l IH]; intros s s' Hs H; simpl in H.
  - injection H as <-. exact Hs.
  - apply bind_Ok_inv in H. destruct H as [s1 [H1 H]].
    apply (IH s1 s'); auto. apply (Hb a s s1); auto.
Qed.

Ltac inv_bind H :=
  repeat (apply bind_Ok_inv in H;
          let x := fresh "x" in
          let E := fresh "E" in
          destruct H as [x [E H]]).

Lemma BP_calcNewMessage_frame (bp : BP) (i _I : nat) (bp' : BP) :
  BP_calcNewMessage bp i _I = Ok bp' -> same_frame bp bp'.
Proof.
  unfold BP_calcNewMessage. intros H. inv_bind H.
  match goal with x : (Prob * R)%type |- _ => destruct x end.
  destruct (logDomain bp);
    [apply bind_Ok_inv in H; destruct H as [lm [_ H]]|];
    apply update_edge_frame in H; exact H.
Qed.

Lemma BP_seqmax_step_frame (bp : BP) (e : nat * nat) (bp' : BP) :
  BP_seqmax_step bp = Ok (e, bp') -> same_frame bp bp'.
Proof.
  unfold BP_seqmax_step. intros H.
  apply bind_Ok_inv in H. destruct H as [[i _I] [_ H]].
  apply bind_Ok_inv in H. destruct H as [nm [_ H]].
  apply bind_Ok_inv in H. destruct H as [b1 [H1 H]].
  apply bind_Ok_inv in H. destruct H as [b2 [H2 H]].
  apply bind_Ok_inv in H. destruct H as [nbi [_ H]].
  apply bind_Ok_inv in H. destruct H as [b3 [H3 H]].
  injection H as _ <-.
  apply update_edge_frame in H1. apply update_edge_frame in H2.
  apply (same_frame_trans _ b1); auto. apply (same_frame_trans _ b2); auto.
  revert H3. apply (for_each_invariant (same_frame b2));
    [|apply same_frame_refl].
  intros J s s' Hs HJ. destruct (negb (iter J =? _I)%nat).
  2:{ injection HJ as <-. exact Hs. }
  apply bind_Ok_inv in HJ. destruct HJ as [nbJ [_ HJ]].
  revert HJ. apply (for_each_invariant (same_frame b2)); [|exact Hs].
  intros j t t' Ht Hj. destruct (negb (node j =? i)%nat).
  2:{ injection Hj as <-. exact Ht. }
  apply bind_Ok_inv in Hj. destruct Hj as [c1 [Hc1 Hj]].
  apply bind_Ok_inv in Hj. destruct Hj as [nm' [_ Hj]].
  apply bind_Ok_inv in Hj. destruct Hj as [m' [_ Hj]].
  apply BP_calcNewMessage_frame in Hc1. apply update_edge_frame in Hj.
  apply (same_frame_trans _ t); auto. apply (same_frame_trans _ c1); auto.
Qed.

Lemma deg_pos_nrVars (bp : BP) :
  edges_shape bp -> (0 < deg bp 0)%nat -> (0 < nrVars bp)%nat.
Proof.
  intros [Hn _] H. rewrite <- Hn. unfold deg in H.
  destruct (fg_nbV (fg bp)); simpl in *; lia.
Qed.

(** C2: in a state whose edge table has the shape of the graph and whose
    variable 0 has a neighbor, every SEQMAX update step selects the edge that
    [findMaxResidual] returns; its residual is the maximum over all edges
    [(j, _J)] of the graph, and among the edges of maximal residual it has
    the lowest variable index and then the lowest slot. The step leaves the
    graph and the shape of the edge table as they are, so the next step
    selects in the same way. *)
Theorem SEQMAX_selects_max_residual (bp : BP) :
  wf_nbV bp -> edges_shape bp -> (0 < deg bp 0)%nat ->
  exists i _I m,
    BP_findMaxResidual bp = Ok (i, _I) /\
    (i < nrVars bp)%nat /\ (_I < deg bp i)%nat /\
    BP_residual bp i _I = Ok m /\
    (forall j _J, (j < nrVars bp)%nat -> (_J < deg bp j)%nat ->
       exists r, BP_residual bp j _J = Ok r /\ r <= m /\
                 (r = m -> (i < j)%nat \/ (i = j /\ (_I <= _J)%nat))) /\
    (forall e bp', BP_seqmax_step bp = Ok (e, bp') ->
       e = (i, _I) /\
       wf_nbV bp' /\ edges_shape bp' /\ (0 < deg bp' 0)%nat).
Proof.
  intros Hw Hs H0.
  assert (He0 : is_edge bp (0%nat, 0%nat)).
  { split; simpl; [apply deg_pos_nrVars; assumption | exact H0]. }
  destruct (BP_findMaxResidual_scan bp Hw Hs He0)
    as [i [_I [m [Hfind [Hm [[Hi HI] Hall]]]]]].
  simpl in Hi, HI.
  exists i, _I, m. repeat (split; [assumption|]). split.
  - intros j _J Hj HJ.
    assert (He : is_edge bp (j, _J)) by (split; assumption).
    destruct (BP_residual_Ok bp j _J Hs He) as [r Hr].
    exists r. split; [exact Hr|].
    destruct (Hall (j, _J) r He Hr) as [H1 H2]. split; [exact H1|].
    intros E. apply H2 in E. exact E.
  - intros e bp' Hstep. split.
    + unfold BP_seqmax_step in Hstep. rewrite Hfind in Hstep. simpl in Hstep.
      inv_bind Hstep. injection Hstep as <- _. reflexivity.
    + apply BP_seqmax_step_frame in Hstep.
      apply same_frame_shape in Hstep.
      destruct Hstep as [K1 [K2 [_ K4]]].
      split; [auto|]. split; [auto|]. rewrite K4. exact H0.
Qed.

Lemma wf_nbV_bp2 : wf_nbV bp2.
Proof.
  intros [|[|j]] nb H; simpl in H; try (injection H as <-; reflexivity).
  destruct j; discriminate.
Qed.

Lemma edges_shape_bp2 : edges_shape bp2.
Proof. split; reflexivity. Qed.

Lemma SEQMAX_selects_max_residual_witness :
  exists i _I m,
    BP_findMaxResidual bp2 = Ok (i, _I) /\
    (i < nrVars bp2)%nat /\ (_I < deg bp2 i)%nat /\
    BP_residual bp2 i _I = Ok m /\
    (forall j _J, (j < nrVars bp2)%nat -> (_J < deg bp2 j)%nat ->
       exists r, BP_residual bp2 j _J = Ok r /\ r <= m /\
                 (r = m -> (i < j)%nat \/ (i = j /\ (_I <= _J)%nat))) /\
    (forall e bp', BP_seqmax_step bp2 = Ok (e, bp') ->
       e = (i, _I) /\
       wf_nbV bp' /\ edges_shape bp' /\ (0 < deg bp' 0)%nat).
Proof.
  apply (SEQMAX_selects_max_residual bp2).
  - exact wf_nbV_bp2.
  - exact edges_shape_bp2.
  - unfold deg. simpl. lia.
Defined.

(** On [bp2], where the two edges tie, the scan returns the edge (0,0). *)
Lemma BP_findMaxResidual_bp2 : BP_findMaxResidual bp2 = Ok (0%nat, 0%nat).
Proof.
  unfold BP_findMaxResidual, for_range. simpl.
  destruct (Rlt_dec (1 / 2) (1 / 2)) as [H|_]; [lra|]. simpl.
  destruct (Rlt_dec (1 / 2) (1 / 2)) as [H|_]; [lra|]. simpl.
  reflexivity.
Qed.


(** On [bp3], whose variable 0 is isolated, the graph has an edge, and the
    first read of [findMaxResidual] is out of bounds. *)
Lemma BP_findMaxResidual_bp3 :
  edges_shape bp3 /\ nrEdges bp3 = 1%nat /\
  BP_findMaxResidual bp3 = Err OUT_OF_BOUNDS /\
  BP_pass_SEQMAX bp3 = Err OUT_OF_BOUNDS.
Proof. repeat split. Qed.



(** ** Log domain against linear domain *)

Lemma rel_bind {A A' B B' : Type} (P : A -> A' -> Prop) (Q : B -> B' -> Prop)
  (m : result A) (m' : result A') (k : A -> result B) (k' : A' -> result B') :
  rel_result P m m' ->
  (forall a a', m = Ok a -> m' = Ok a' -> P a a' ->
                rel_result Q (k a) (k' a')) ->
  rel_result Q (bind m k) (bind m' k').
Proof.
  destruct m as [a|e], m' as [a'|e']; simpl; intros H Hk; try contradiction.
  - apply Hk; auto.
  - exact I.
Qed.

Lemma rel_result_refl {A : Type} (r : result A) : rel_result eq r r.
Proof. destruct r; simpl; auto. Qed.

Lemma rel_result_eq {A : Type} (r r' : result A) :
  r = r' -> rel_result eq r r'.
Proof. intros ->. apply rel_result_refl. Qed.

Lemma rel_result_impl {A B : Type} (P Q : A -> B -> Prop)
  (r : result A) (r' : result B) :
  (forall a b, r = Ok a -> r' = Ok b -> P a b -> Q a b) ->
  rel_result P r r' -> rel_result Q r r'.
Proof. destruct r, r'; simpl; auto. Qed.

Lemma rel_for_each {A S S' : Type} (P : S -> S' -> Prop)
  (body : A -> S -> result S) (body' : A -> S' -> result S') (l : list A) :
  (forall a s s', In a l -> P s s' -> rel_result P (body a s) (body' a s')) ->
  forall s s', P s s' ->
    rel_result P (for_each l body s) (for_each l body' s').
Proof.
  induction l as [|a l IH]; intros Hb s s' Hs; simpl.
  - exact Hs.
  - apply (rel_bind P).
    + apply Hb; [left; reflexivity | exact Hs].
    + intros t t' _ _ Ht. apply IH; auto.
      intros b u u' Hin. apply Hb. right. exact Hin.
Qed.

Lemma Forall2_get {A B : Type} (P : A -> B -> Prop) (l : list A) (l' : list B)
  (i : nat) :
  Forall2 P l l' -> rel_result P (get l i) (get l' i).
Proof.
  intros H. revert i. induction H as [|a b l l' Hab H IH]; intros [|i];
    unfold get; simpl; auto. apply IH.
Qed.

Lemma Forall2_upd {A B : Type} (P : A -> B -> Prop) (l : list A) (l' : list B)
  (i : nat) (a : A) (b : B) :
  Forall2 P l l' -> P a b -> Forall2 P (upd l i a) (upd l' i b).
Proof.
  intros H Hab. revert i. induction H as [|x y l l' Hxy H IH]; intros [|i];
    simpl; constructor; auto.
Qed.

Lemma rel_modify {A B : Type} (P : A -> B -> Prop) (l : list A) (l' : list B)
  (i : nat) (f : A -> result A) (f' : B -> result B) :
  Forall2 P l l' ->
  (forall a b, P a b -> rel_result P (f a) (f' b)) ->
  rel_result (Forall2 P) (modify l i f) (modify l' i f').
Proof.
  intros Hl Hf. unfold modify.
  apply (rel_bind P); [apply Forall2_get; exact Hl|].
  intros a b _ _ Hab. apply (rel_bind P); [apply Hf; exact Hab|].
  intros a1 b1 _ _ H1. simpl. apply Forall2_upd; assumption.
Qed.

Lemma corr_edge (bl bn : BP) (i _I : nat) :
  corr bl bn -> rel_result log_of (edge bl i _I) (edge bn i _I).
Proof.
  intros [_ [_ [_ [_ H]]]]. unfold edge.
  apply (rel_bind (Forall2 log_of)); [apply Forall2_get; exact H|].
  intros row row' _ _ Hrow. apply Forall2_get. exact Hrow.
Qed.

Lemma corr_index (bl bn : BP) (i _I : nat) :
  corr bl bn -> rel_result eq (BP_index bl i _I) (BP_index bn i _I).
Proof.
  intros H. unfold BP_index.
  apply (rel_bind log_of); [apply corr_edge; exact H|].
  intros e e' _ _ [He _]. simpl. exact He.
Qed.

Lemma corr_message (bl bn : BP) (i _I : nat) :
  corr bl bn -> rel_result R_exp (BP_message bl i _I) (BP_message bn i _I).
Proof.
  intros H. unfold BP_message.
  apply (rel_bind log_of); [apply corr_edge; exact H|].
  intros e e' _ _ [_ [He _]]. simpl. exact He.
Qed.

Lemma corr_newMessage (bl bn : BP) (i _I : nat) :
  corr bl bn ->
  rel_result R_exp (BP_newMessage bl i _I) (BP_newMessage bn i _I).
Proof.
  intros H. unfold BP_newMessage.
  apply (rel_bind log_of); [apply corr_edge; exact H|].
  intros e e' _ _ [_ [_ He]]. simpl. exact He.
Qed.

Lemma corr_update_edge (bl bn : BP) (i _I : nat) (f f' : EdgeProp -> EdgeProp) :
  corr bl bn ->
  (forall e e', log_of e e' -> log_of (f e) (f' e')) ->
  rel_result corr (update_edge bl i _I f) (update_edge bn i _I f').
Proof.
  intros [H1 [H2 [H3 [H4 H5]]]] Hf. unfold update_edge.
  apply (rel_bind (Forall2 (Forall2 log_of))).
  - apply rel_modify; [exact H5|]. intros row row' Hrow.
    apply rel_modify; [exact Hrow|]. intros e e' He. simpl. apply Hf, He.
  - intros es es' _ _ Hes. simpl. repeat split; assumption.
Qed.

Lemma map_upd {A B : Type} (f : A -> B) (l : list A) (i : nat) (a : A) :
  map f (upd l i a) = upd (map f l) i (f a).
Proof.
  revert i. induction l as [|b l IH]; intros [|i]; simpl; auto.
  now rewrite IH.
Qed.

Lemma get_map {A B : Type} (f : A -> B) (l : list A) (i : nat) :
  get (map f l) i = (a <- get l i ;; Ok (f a)).
Proof.
  unfold get. rewrite nth_error_map.
  destruct (nth_error l i); reflexivity.
Qed.

Lemma get_exp (a a' : Prob) (k : nat) :
  R_exp a a' -> rel_result (fun y y' => y' = exp y) (get a k) (get a' k).
Proof.
  unfold R_exp. intros ->. rewrite get_map.
  destruct (get a k); simpl; auto.
Qed.

Lemma get_scale (c : R) (a a' : Prob) (k : nat) :
  R_scale c a a' -> rel_result (fun x x' => x = x' * c) (get a k) (get a' k).
Proof.
  unfold R_scale. intros ->. rewrite get_map.
  destruct (get a' k); simpl; auto.
Qed.

Lemma R_exp_const (n : nat) : R_exp (Prob_const n 0) (Prob_const n 1).
Proof.
  unfold R_exp, Prob_const. induction n as [|n IH]; simpl; auto.
  now rewrite exp_0, <- IH.
Qed.

Lemma R_exp_pointwise (a a' b b' : Prob) :
  R_exp a a' -> R_exp b b' ->
  rel_result R_exp (Prob_add a b) (Prob_mul a' b').
Proof.
  unfold R_exp, Prob_add, Prob_mul, pointwise. intros -> ->.
  rewrite !length_map. destruct (length a =? length b)%nat; simpl; auto.
  revert b. induction a as [|x a IH]; intros [|y b]; simpl; auto.
  now rewrite exp_plus, IH.
Qed.

Lemma R_exp_modify (prod prod' : Prob) (r : nat) (y : R) :
  R_exp prod prod' ->
  rel_result R_exp (modify prod r (fun x => Ok (x + y)))
                   (modify prod' r (fun x => Ok (x * exp y))).
Proof.
  unfold R_exp, modify. intros ->. rewrite get_map.
  destruct (get prod r) as [x|]; simpl; auto.
  now rewrite map_upd, exp_plus.
Qed.

Lemma R_scale_add_at (c : R) (marg marg' : Prob) (k : nat) (x : R) :
  R_scale c marg marg' ->
  rel_result (R_scale c) (add_at marg k (x * c)) (add_at marg' k x).
Proof.
  unfold R_scale, add_at, modify. intros ->. rewrite get_map.
  destruct (get marg' k) as [y|]; simpl; auto.
  rewrite map_upd. f_equal. lra.
Qed.

Lemma R_scale_const (c : R) (n : nat) :
  R_scale c (Prob_const n 0) (Prob_const n 0).
Proof.
  unfold R_scale, Prob_const. induction n as [|n IH]; simpl; auto.
  rewrite <- IH. f_equal. lra.
Qed.

(** Subtracting [m] before the exponential scales by [exp (- m)]. *)
Lemma R_scale_exp_sub (m : R) (a a' : Prob) :
  R_exp a a' ->
  R_scale (exp (- m)) (Prob_exp (Prob_sub_scalar a m)) a'.
Proof.
  unfold R_exp, R_scale, Prob_exp, Prob_sub_scalar. intros ->.
  rewrite !map_map. apply map_ext. intros x.
  rewrite <- exp_plus. f_equal.
Qed.

Lemma fold_left_Rplus_scale (c : R) (a : Prob) (s : R) :
  fold_left Rplus (map (fun x => x * c) a) (s * c)
  = fold_left Rplus a s * c.
Proof.
  revert s. induction a as [|x a IH]; intros s; simpl; auto.
  rewrite <- IH. f_equal. lra.
Qed.

Lemma fold_left_maxAbs_scale (c : R) (a : Prob) (s : R) :
  0 < c ->
  fold_left (fun m x => Rmax m (Rabs x)) (map (fun x => x * c) a) (s * c)
  = fold_left (fun m x => Rmax m (Rabs x)) a s * c.
Proof.
  intros Hc. revert s. induction a as [|x a IH]; intros s; simpl; auto.
  rewrite <- IH. f_equal.
  rewrite Rabs_mult, (Rabs_right c) by lra.
  rewrite (Rmult_comm s c), (Rmult_comm (Rabs x) c), RmaxRmult by lra.
  lra.
Qed.

(** Normalization does not see a positive scaling. *)
Lemma R_scale_normalize (c : R) (a a' : Prob) (nt : NormType) :
  0 < c -> R_scale c a a' ->
  rel_result (fun r r' => fst r = fst r')
    (Prob_normalize a nt) (Prob_normalize a' nt).
Proof.
  unfold R_scale. intros Hc ->. unfold Prob_normalize.
  set (Z' := match nt with
             | NORMPROB => Prob_totalSum a'
             | NORMLINF => Prob_maxAbs a'
             end).
  assert (E : match nt with
              | NORMPROB => Prob_totalSum (map (fun x => x * c) a')
              | NORMLINF => Prob_maxAbs (map (fun x => x * c) a')
              end = Z' * c).
  { unfold Z'. destruct nt; unfold Prob_totalSum, Prob_maxAbs.
    - rewrite <- fold_left_Rplus_scale. f_equal. lra.
    - rewrite <- fold_left_maxAbs_scale by exact Hc. f_equal. lra. }
  rewrite E.
  destruct (Req_dec_T (Z' * c) 0) as [H|H], (Req_dec_T Z' 0) as [H'|H'];
    simpl; auto.
  - apply H'. apply Rmult_integral in H. destruct H; [assumption | lra].
  - apply H. rewrite H'. lra.
  - rewrite map_map. apply map_ext. intros x. field. split; lra.
Qed.

Lemma fold_left_Rplus_zeros (n : nat) (s : R) :
  fold_left Rplus (repeat 0 n) s = s.
Proof.
  revert s. induction n as [|n IH]; intros s; simpl; auto.
  rewrite IH. lra.
Qed.

Lemma fold_left_maxAbs_zeros (n : nat) :
  fold_left (fun m x => Rmax m (Rabs x)) (repeat 0 n) 0 = 0.
Proof.
  induction n as [|n IH]; simpl; auto.
  rewrite Rabs_R0. unfold Rmax. destruct (Rle_dec 0 0); exact IH.
Qed.

(** A vector of zeros is not normalizable. *)
Lemma Prob_normalize_zeros (n : nat) (nt : NormType) :
  exists e, Prob_normalize (Prob_const n 0) nt = Err e.
Proof.
  unfold Prob_normalize, Prob_const.
  assert (E : match nt with
              | NORMPROB => Prob_totalSum (repeat 0 n)
              | NORMLINF => Prob_maxAbs (repeat 0 n)
              end = 0).
  { destruct nt; unfold Prob_totalSum, Prob_maxAbs.
    - apply fold_left_Rplus_zeros.
    - apply fold_left_maxAbs_zeros. }
  rewrite E. destruct (Req_dec_T 0 0) as [_|H]; [eauto | congruence].
Qed.

(** The subtract-max step of the log domain against the linear domain:
    the log-domain vector becomes the linear one scaled by a positive
    constant, and an empty vector, which has no maximum, is not
    normalizable in the linear domain either. *)
Lemma R_exp_sub_max (a a' : Prob) :
  R_exp a a' ->
  match (m <- Prob_max a ;; Ok (Prob_exp (Prob_sub_scalar a m))) with
  | Ok b => exists c, 0 < c /\ R_scale c b a'
  | Err _ => a' = []
  end.
Proof.
  intros H. destruct a as [|x a].
  - unfold R_exp in H. simpl in H. simpl. exact H.
  - change (exists c, 0 < c /\
              R_scale c (Prob_exp (Prob_sub_scalar (x :: a)
                                     (fold_left Rmax a x))) a').
    exists (exp (- fold_left Rmax a x)). split; [apply exp_pos|].
    apply R_scale_exp_sub. exact H.
Qed.

(** [beliefV] in the log domain is [beliefV] in the linear domain. *)
Lemma BP_beliefV_corr (bl bn : BP) (i : nat) :
  corr bl bn -> rel_result eq (BP_beliefV bl i) (BP_beliefV bn i).
Proof.
  intros H. pose proof H as [Hfg [Hnt [Hl [Hn He]]]].
  unfold BP_beliefV, var, nbV. rewrite Hl, Hn, Hfg.
  apply (rel_bind eq); [apply rel_result_refl|]. intros vi ? _ _ <-.
  apply (rel_bind eq); [apply rel_result_refl|]. intros nbi ? _ _ <-.
  apply (rel_bind R_exp).
  - apply rel_for_each; [|apply R_exp_const]. intros I s s' _ Hs.
    apply (rel_bind R_exp); [apply corr_newMessage; exact H|].
    intros m m' _ _ Hm. apply R_exp_pointwise; assumption.
  - intros prod prod' _ _ Hprod.
    pose proof (R_exp_sub_max prod prod' Hprod) as Hmax.
    destruct (m <- Prob_max prod ;; Ok (Prob_exp (Prob_sub_scalar prod m)))
      as [b|e].
    + destruct Hmax as [c [Hc Hb]]. simpl.
      apply (rel_bind (fun r r' => fst r = fst r'));
        [apply (R_scale_normalize c); assumption|].
      intros [a z] [a' z'] _ _ E. simpl in E. subst. simpl. reflexivity.
    + subst prod'. simpl. unfold Prob_normalize, Prob_totalSum. simpl.
      destruct (Req_dec_T 0 0) as [_|F]; [exact I | congruence].
Qed.

Lemma nth_upd_eq {A : Type} (l : list A) (i : nat) (a d : A) :
  (i < length l)%nat -> nth i (upd l i a) d = a.
Proof.
  intros H. apply nth_error_nth. apply nth_error_upd_eq. exact H.
Qed.

Lemma nth_upd_ne {A : Type} (l : list A) (i k : nat) (a d : A) :
  i <> k -> nth k (upd l i a) d = nth k l d.
Proof.
  revert i k. induction l as [|b l IH]; intros [|i] [|k] H; simpl;
    try congruence; auto.
Qed.

Lemma Forall_upd {A : Type} (P : A -> Prop) (l : list A) (i : nat) (a : A) :
  Forall P l -> P a -> Forall P (upd l i a).
Proof.
  intros H Ha. revert i. induction H as [|b l Hb H IH]; intros [|i]; simpl;
    constructor; auto.
Qed.

Lemma modify_Ok_inv {A : Type} (l : list A) (i : nat) (f : A -> result A)
  (l' : list A) :
  modify l i f = Ok l' ->
  exists a a', nth_error l i = Some a /\ f a = Ok a' /\ l' = upd l i a'.
Proof.
  unfold modify. intros H.
  apply bind_Ok_inv in H. destruct H as [a [Ha H]].
  apply bind_Ok_inv in H. destruct H as [a' [Ha' H]].
  injection H as <-. apply get_Ok in Ha. eauto.
Qed.

Lemma modify_Forall2 {A : Type} (Q : A -> A -> Prop) (l : list A) (i : nat)
  (f : A -> result A) (l' : list A) :
  (forall a, Q a a) -> (forall a a', f a = Ok a' -> Q a a') ->
  modify l i f = Ok l' -> Forall2 Q l l'.
Proof.
  intros Hr Hf H. apply modify_Ok_inv in H.
  destruct H as [a [a' [Ha [Hfa ->]]]]. apply Hf in Hfa.
  revert i Ha. induction l as [|b l IH]; intros [|i] Ha; simpl in *;
    try discriminate.
  - injection Ha as ->. constructor; auto.
    clear IH. induction l; constructor; auto.
  - constructor; auto.
Qed.

(** An update of one edge that keeps its index map keeps every index map. *)
Lemma update_edge_index (bp : BP) (i _I : nat) (f : EdgeProp -> EdgeProp)
  (bp' : BP) :
  (forall e, index (f e) = index e) ->
  update_edge bp i _I f = Ok bp' ->
  forall i' _I' e', edge bp' i' _I' = Ok e' ->
    exists e, edge bp i' _I' = Ok e /\ index e = index e'.
Proof.
  intros Hf H. unfold update_edge in H.
  apply bind_Ok_inv in H. destruct H as [es [H E]]. injection E as <-.
  assert (HF : Forall2 (Forall2 (fun e e' => index e = index e'))
                 (edges bp) es).
  { revert H. apply modify_Forall2.
    - intros row. induction row; constructor; auto.
    - intros row row'. apply modify_Forall2; auto.
      intros e e' E. injection E as <-. symmetry. apply Hf. }
  intros i' _I' e' He'. unfold edge in *. simpl in He'.
  pose proof (Forall2_get _ _ _ i' HF) as Hrow.
  destruct (get es i') as [row'|]; [|discriminate].
  destruct (get (edges bp) i') as [row|]; [|contradiction].
  simpl in *. pose proof (Forall2_get _ _ _ _I' Hrow) as He.
  rewrite He' in He. destruct (get row _I') as [e|]; [|contradiction].
  simpl in He. eauto.
Qed.

Lemma nondegenerate_update (bp : BP) (i _I : nat) (f : EdgeProp -> EdgeProp)
  (bp' : BP) :
  (forall e, index (f e) = index e) ->
  update_edge bp i _I f = Ok bp' ->
  nondegenerate bp -> nondegenerate bp'.
Proof.
  intros Hf H [Hpos Hcov].
  pose proof (update_edge_frame _ _ _ _ _ H) as [Hfg _].
  split.
  - rewrite Hfg. exact Hpos.
  - intros i' _I' e' vi nb nI fI He' Hvi Hnb HnI HfI k Hk.
    destruct (update_edge_index _ _ _ _ _ Hf H i' _I' e' He') as [e [He Hi]].
    unfold var, nbV, factor in *. rewrite Hfg in *. rewrite <- Hi.
    apply (Hcov i' _I' e vi nb nI fI); auto.
Qed.

Lemma fold_left_Rplus_nonneg (a : Prob) (s : R) :
  Forall (fun x => 0 <= x) a -> s <= fold_left Rplus a s.
Proof.
  intros H. revert s. induction H as [|x a Hx H IH]; intros s; simpl; [lra|].
  eapply Rle_trans; [|apply IH]. lra.
Qed.

(** Normalizing a strictly positive vector gives a strictly positive one. *)
Lemma Prob_normalize_pos (a b : Prob) (nt : NormType) (z : R) :
  Forall (fun x => 0 < x) a -> Prob_normalize a nt = Ok (b, z) ->
  Forall (fun x => 0 < x) b.
Proof.
  intros Ha. unfold Prob_normalize.
  set (Z := match nt with
            | NORMPROB => Prob_totalSum a
            | NORMLINF => Prob_maxAbs a
            end).
  assert (HZ : 0 <= Z).
  { unfold Z. destruct nt; unfold Prob_totalSum, Prob_maxAbs.
    - apply fold_left_Rplus_nonneg. revert Ha. apply Forall_impl.
      intros x Hx. lra.
    - apply fold_left_lower_bound. intros s x. apply Rmax_l. }
  destruct (Req_dec_T Z 0) as [E|NE]; [discriminate|].
  intros H. injection H as <- _. apply Forall_map.
  revert Ha. apply Forall_impl. intros x Hx.
  apply Rdiv_lt_0_compat; lra.
Qed.

(** The marginalization loop in the linear domain: on a strictly positive
    [prod] every slot of [marg] that the index map reaches ends strictly
    positive. *)
Lemma marg_loop_pos (ind : list nat) (prod : Prob)
  (Hpos : Forall (fun x => 0 < x) prod) :
  forall (n a : nat) (marg marg' : Prob),
    for_each (seq a n)
      (fun r marg => k <- get ind r ;; x <- get prod r ;; add_at marg k x)
      marg = Ok marg' ->
    Forall (fun x => 0 <= x) marg ->
    length marg' = length marg /\
    Forall (fun x => 0 <= x) marg' /\
    forall k, (k < length marg)%nat ->
      (0 < nth k marg 0 \/
       exists r, (a <= r < a + n)%nat /\ nth_error ind r = Some k) ->
      0 < nth k marg' 0.
Proof.
  induction n as [|n IH]; intros a marg marg' H Hm; simpl in H.
  - injection H as <-. split; [reflexivity|]. split; [exact Hm|].
    intros k Hk [Hp|[r [Hr _]]]; [exact Hp | lia].
  - apply bind_Ok_inv in H. destruct H as [marg1 [H1 H]].
    apply bind_Ok_inv in H1. destruct H1 as [k0 [Hk0 H1]].
    apply bind_Ok_inv in H1. destruct H1 as [x [Hx H1]].
    unfold add_at in H1. apply modify_Ok_inv in H1.
    destruct H1 as [y [y' [Hy [E ->]]]]. injection E as <-.
    apply get_Ok in Hk0. apply get_Ok in Hx.
    assert (Hxpos : 0 < x).
    { rewrite Forall_forall in Hpos. apply Hpos.
      apply (nth_error_In _ _ Hx). }
    assert (Hypos : 0 <= y).
    { rewrite Forall_forall in Hm. apply Hm. apply (nth_error_In _ _ Hy). }
    assert (Hk0lt : (k0 < length marg)%nat)
      by (apply nth_error_Some; congruence).
    destruct (IH (S a) _ _ H) as [Hlen [Hall Hk]].
    { apply Forall_upd; [exact Hm | lra]. }
    rewrite length_upd in Hlen, Hk.
    split; [exact Hlen|]. split; [exact Hall|].
    intros k Hklt Hcase. apply Hk; [exact Hklt|].
    destruct (Nat.eq_dec k0 k) as [->|Hne].
    + left. rewrite nth_upd_eq by exact Hklt. lra.
    + rewrite nth_upd_ne by exact Hne.
      destruct Hcase as [Hp|[r [Hr Hind]]]; [left; exact Hp|].
      destruct (Nat.eq_dec r a) as [->|Hra]; [congruence|].
      right. exists r. split; [lia | exact Hind].
Qed.

Lemma R_exp_length (a a' : Prob) : R_exp a a' -> length a' = length a.
Proof. unfold R_exp. intros ->. apply length_map. Qed.

Lemma product_body_corr (bl bn : BP) (sel : BP -> nat -> nat -> result Prob)
  (skip : nat -> bool) (I : nat) (j : Neighbor) (prod prod' : Prob) :
  corr bl bn ->
  (forall a b, rel_result R_exp (sel bl a b) (sel bn a b)) ->
  R_exp prod prod' ->
  rel_result R_exp (product_body bl sel skip I j prod)
                   (product_body bn sel skip I j prod').
Proof.
  intros H Hsel Hprod. pose proof H as [Hfg [Hnt [Hl [Hn He]]]].
  unfold product_body, var, nbV. rewrite Hl, Hn, Hfg.
  destruct (negb (skip (node j))); [|exact Hprod].
  apply (rel_bind eq); [apply corr_index; exact H|]. intros ind ? _ _ <-.
  apply (rel_bind eq); [apply rel_result_refl|]. intros vj ? _ _ <-.
  apply (rel_bind eq); [apply rel_result_refl|]. intros nbj ? _ _ <-.
  apply (rel_bind R_exp).
  - apply rel_for_each; [|apply R_exp_const]. intros J s s' _ Hs.
    destruct (negb (node J =? I)%nat); [|exact Hs].
    apply (rel_bind R_exp); [apply Hsel|].
    intros m m' _ _ Hm. apply R_exp_pointwise; assumption.
  - intros prod_j prod_j' _ _ Hj.
    rewrite (R_exp_length _ _ Hprod). unfold for_range.
    apply rel_for_each; [|exact Hprod]. intros r s s' _ Hs.
    apply (rel_bind eq); [apply rel_result_refl|]. intros k ? _ _ <-.
    apply (rel_bind (fun y y' => y' = exp y)); [apply get_exp; exact Hj|].
    intros y y' _ _ ->. apply R_exp_modify. exact Hs.
Qed.

Lemma product_body_length (bp : BP) (sel : BP -> nat -> nat -> result Prob)
  (skip : nat -> bool) (I : nat) (j : Neighbor) (prod prod1 : Prob) :
  product_body bp sel skip I j prod = Ok prod1 ->
  length prod1 = length prod.
Proof.
  unfold product_body. destruct (negb (skip (node j))).
  2:{ intros H. injection H as <-. reflexivity. }
  intros H.
  apply bind_Ok_inv in H. destruct H as [ind [_ H]].
  apply bind_Ok_inv in H. destruct H as [vj [_ H]].
  apply bind_Ok_inv in H. destruct H as [nbj [_ H]].
  apply bind_Ok_inv in H. destruct H as [prod_j [_ H]].
  unfold for_range in H. revert H.
  apply (for_each_invariant (fun q => length q = length prod));
    [|reflexivity].
  intros r s s' Hs H.
  apply bind_Ok_inv in H. destruct H as [k [_ H]].
  apply bind_Ok_inv in H. destruct H as [y [_ H]].
  destruct (logDomain bp); apply modify_Ok_inv in H;
    destruct H as [a [a' [_ [_ ->]]]]; now rewrite length_upd.
Qed.

Lemma Prob_positive_spec (a : Prob) :
  Prob_positive a = true <-> Forall (fun x => 0 < x) a.
Proof.
  unfold Prob_positive. rewrite forallb_forall, Forall_forall.
  split; intros H x Hx; specialize (H x Hx);
    destruct (Rlt_dec 0 x); auto; discriminate.
Qed.

(** The logarithm of a strictly positive vector is taken entry by entry. *)
Lemma Prob_log_pos (a : Prob) :
  Forall (fun x => 0 < x) a -> Prob_log a = Ok (map ln a).
Proof.
  intros H. unfold Prob_log. apply Prob_positive_spec in H. now rewrite H.
Qed.

(** It is taken of strictly positive vectors only. *)
Lemma Prob_log_Ok (a b : Prob) :
  Prob_log a = Ok b -> Forall (fun x => 0 < x) a /\ b = map ln a.
Proof.
  unfold Prob_log. destruct (Prob_positive a) eqn:E; [|discriminate].
  intros H. injection H as <-. split; [|reflexivity].
  now apply Prob_positive_spec.
Qed.

Lemma exp_ln_map (a : Prob) :
  Forall (fun x => 0 < x) a -> R_exp (map ln a) a.
Proof.
  unfold R_exp. intros H. induction H as [|x a Hx H IH]; simpl;
    auto. now rewrite exp_ln, <- IH.
Qed.

Lemma log_of_newMessage (a : Prob) (e e' : EdgeProp) :
  Forall (fun x => 0 < x) a -> log_of e e' ->
  log_of (with_newMessage (map ln a) e) (with_newMessage a e').
Proof.
  intros Ha [H1 [H2 H3]]. repeat split; simpl; auto.
  apply exp_ln_map. exact Ha.
Qed.

Lemma BP_calcNewMessage_unfold (bp : BP) (i _I : nat) :
  BP_calcNewMessage bp i _I =
  (nbi <- nbV bp i ;;
   nI <- get nbi _I ;;
   fI <- factor bp (node nI) ;;
   prod <- (if logDomain bp then Prob_log (p fI) else Ok (p fI)) ;;
   nbI <- nbF bp (node nI) ;;
   prod <- for_each nbI
             (product_body bp BP_message (fun n => (n =? i)%nat) (node nI))
             prod ;;
   prod <- (if logDomain bp then
              m <- Prob_max prod ;;
              Ok (Prob_exp (Prob_sub_scalar prod m))
            else Ok prod) ;;
   vi <- var bp i ;;
   ind <- BP_index bp i _I ;;
   marg <- for_range (length prod)
             (fun r marg =>
                k <- get ind r ;;
                x <- get prod r ;;
                add_at marg k x)
             (Prob_const (states vi) 0) ;;
   ' (marg, _) <- Prob_normalize marg (normtype bp) ;;
   if logDomain bp
   then
     marg <- Prob_log marg ;;
     update_edge bp i _I (with_newMessage marg)
   else update_edge bp i _I (with_newMessage marg)).
Proof. reflexivity. Qed.

Lemma corr_var (bl bn : BP) (i : nat) : corr bl bn -> var bl i = var bn i.
Proof. intros [Hfg _]. unfold var. now rewrite Hfg. Qed.

Lemma corr_nbV (bl bn : BP) (i : nat) : corr bl bn -> nbV bl i = nbV bn i.
Proof. intros [Hfg _]. unfold nbV. now rewrite Hfg. Qed.

Lemma corr_nbF (bl bn : BP) (I : nat) : corr bl bn -> nbF bl I = nbF bn I.
Proof. intros [Hfg _]. unfold nbF. now rewrite Hfg. Qed.

Lemma corr_factor (bl bn : BP) (I : nat) :
  corr bl bn -> factor bl I = factor bn I.
Proof. intros [Hfg _]. unfold factor. now rewrite Hfg. Qed.

Lemma R_exp_pos (a a' : Prob) : R_exp a a' -> Forall (fun x => 0 < x) a'.
Proof.
  unfold R_exp. intros ->. apply Forall_map.
  apply Forall_forall. intros x _. apply exp_pos.
Qed.

Lemma R_scale_length (c : R) (a a' : Prob) :
  R_scale c a a' -> length a = length a'.
Proof. unfold R_scale. intros ->. apply length_map. Qed.

Lemma Forall_nth0 (P : R -> Prop) (l : Prob) :
  (forall k, (k < length l)%nat -> P (nth k l 0)) -> Forall P l.
Proof.
  intros H. apply Forall_forall. intros x Hx.
  destruct (In_nth l x 0 Hx) as [k [Hk <-]]. apply H, Hk.
Qed.

(** A new message computed in the log domain is the logarithm of the one
    computed in the linear domain, and the two computations fail together. *)
Lemma BP_calcNewMessage_corr (bl bn : BP) (i _I : nat) :
  corr bl bn -> nondegenerate bn ->
  rel_result (fun bl' bn' => corr bl' bn' /\ nondegenerate bn')
    (BP_calcNewMessage bl i _I) (BP_calcNewMessage bn i _I).
Proof.
  intros H Hnd. pose proof H as [Hfg [Hnt [Hl [Hn He]]]].
  pose proof Hnd as [Hpos Hcov].
  rewrite !BP_calcNewMessage_unfold. rewrite Hl, Hn, Hnt.
  apply (rel_bind eq); [apply rel_result_eq, corr_nbV, H|].
  intros nbi ? _ Hnbi <-.
  apply (rel_bind eq); [apply rel_result_refl|]. intros nI ? _ HnI <-.
  apply (rel_bind eq); [apply rel_result_eq, corr_factor, H|].
  intros fI ? _ HfI <-.
  assert (HfIpos : Forall (fun x => 0 < x) (p fI)).
  { apply Hpos. unfold factor in HfI. apply get_Ok in HfI.
    apply (nth_error_In _ _ HfI). }
  rewrite (Prob_log_pos _ HfIpos). cbn [bind].
  apply (rel_bind eq); [apply rel_result_eq, corr_nbF, H|].
  intros nbI ? _ _ <-.
  apply (rel_bind R_exp).
  { apply rel_for_each; [|apply exp_ln_map; exact HfIpos].
    intros j s s' _ Hs. apply product_body_corr; auto.
    intros a b. apply corr_message. exact H. }
  intros prod prod' _ Hprod' Hprod.
  assert (Hlen : length prod' = length (p fI)).
  { revert Hprod'.
    apply (for_each_invariant (fun q => length q = length (p fI)));
      [|reflexivity].
    intros j s s' Hs Hj. apply product_body_length in Hj. congruence. }
  pose proof (R_exp_sub_max prod prod' Hprod) as Hmax.
  destruct (m <- Prob_max prod ;; Ok (Prob_exp (Prob_sub_scalar prod m)))
    as [b|e].
  - destruct Hmax as [c [Hc Hb]].
    cbn [bind].
    apply (rel_bind eq); [apply rel_result_eq, corr_var, H|].
    intros vi ? _ Hvi <-.
    apply (rel_bind eq); [apply corr_index, H|]. intros ind ? _ Hind <-.
    apply (rel_bind (R_scale c)).
    { rewrite (R_scale_length _ _ _ Hb). unfold for_range.
      apply rel_for_each; [|apply R_scale_const]. intros r s s' _ Hs.
      apply (rel_bind eq); [apply rel_result_refl|]. intros k ? _ _ <-.
      apply (rel_bind (fun x x' => x = x' * c)); [apply get_scale, Hb|].
      intros x x' _ _ ->. apply R_scale_add_at. exact Hs. }
    intros marg marg' _ Hmarg' Hmarg.
    apply (rel_bind (fun r r' => fst r = fst r'));
      [apply (R_scale_normalize c); assumption|].
    intros [a z] [a' z'] _ Hnorm E. simpl in E. subst a'.
    (* the normalized marginal is strictly positive *)
    assert (Hapos : Forall (fun x => 0 < x) a).
    { apply (Prob_normalize_pos marg' a (normtype bn) z'); [|exact Hnorm].
      unfold for_range in Hmarg'.
      destruct (marg_loop_pos ind prod' (R_exp_pos _ _ Hprod) _ _ _ _ Hmarg')
        as [Hl' [_ Hk]].
      { unfold Prob_const. apply Forall_forall. intros x Hx.
        apply repeat_spec in Hx. lra. }
      unfold Prob_const in Hl', Hk. rewrite repeat_length in Hl', Hk.
      apply Forall_nth0. intros k Hklt. rewrite Hl' in Hklt.
      apply Hk; [exact Hklt|]. right.
      unfold BP_index in Hind. apply bind_Ok_inv in Hind.
      destruct Hind as [e [Hedge E]]. injection E as <-.
      destruct (Hcov i _I e vi nbi nI fI Hedge Hvi Hnbi HnI HfI k Hklt)
        as [r [Hr Hri]].
      exists r. split; [lia | exact Hri]. }
    rewrite (Prob_log_pos _ Hapos). cbn [bind].
    apply (rel_result_impl corr).
    + intros bl' bn' _ Hbn' Hc'. split; [exact Hc'|].
      apply (nondegenerate_update bn i _I (with_newMessage a) bn');
        [reflexivity | exact Hbn' | exact Hnd].
    + apply corr_update_edge; [exact H|].
      intros e e'. apply log_of_newMessage. exact Hapos.
  - subst prod'. cbn [bind].
    destruct (var bn i) as [vi|]; [|exact I]. cbn [bind].
    destruct (BP_index bn i _I) as [ind|]; [|exact I]. cbn [bind].
    unfold for_range. simpl for_each. cbn [bind].
    destruct (Prob_normalize_zeros (states vi) (normtype bn)) as [e' ->].
    exact I.
Qed.

Lemma BP_commit_corr (bl bn : BP) (i _I : nat) :
  corr bl bn -> nondegenerate bn ->
  rel_result (fun bl' bn' => corr bl' bn' /\ nondegenerate bn')
    (BP_commit bl i _I) (BP_commit bn i _I).
Proof.
  intros H Hnd. unfold BP_commit.
  apply (rel_bind R_exp); [apply corr_newMessage, H|].
  intros nm nm' _ _ Hnm. apply (rel_result_impl corr).
  - intros bl' bn' _ Hbn' Hc'. split; [exact Hc'|].
    apply (nondegenerate_update bn i _I (with_message nm') bn');
      [reflexivity | exact Hbn' | exact Hnd].
  - apply corr_update_edge; [exact H|].
    intros e e' [H1 [H2 H3]]. repeat split; simpl; auto.
Qed.

Lemma BP_beliefF_unfold (bp : BP) (I : nat) :
  BP_beliefF bp I =
  (fI <- factor bp I ;;
   prod <- (if logDomain bp then Prob_log (p fI) else Ok (p fI)) ;;
   nbI <- nbF bp I ;;
   prod <- for_each nbI
             (product_body bp BP_newMessage (fun _ => false) I)
             prod ;;
   prod <- (if logDomain bp then
              m <- Prob_max prod ;;
              Ok (Prob_exp (Prob_sub_scalar prod m))
            else Ok prod) ;;
   Factor_normalize (mkFactor (vars fI) prod) NORMPROB).
Proof. reflexivity. Qed.

(** [beliefF] in the log domain is [beliefF] in the linear domain. *)
Lemma BP_beliefF_corr (bl bn : BP) (I : nat) :
  corr bl bn -> nondegenerate bn ->
  rel_result eq (BP_beliefF bl I) (BP_beliefF bn I).
Proof.
  intros H [Hpos _]. pose proof H as [Hfg [Hnt [Hl [Hn He]]]].
  rewrite !BP_beliefF_unfold. rewrite Hl, Hn.
  apply (rel_bind eq); [apply rel_result_eq, corr_factor, H|].
  intros fI ? _ HfI <-.
  assert (HfIpos : Forall (fun x => 0 < x) (p fI)).
  { apply Hpos. unfold factor in HfI. apply get_Ok in HfI.
    apply (nth_error_In _ _ HfI). }
  rewrite (Prob_log_pos _ HfIpos). cbn [bind].
  apply (rel_bind eq); [apply rel_result_eq, corr_nbF, H|].
  intros nbI ? _ _ <-.
  apply (rel_bind R_exp).
  { apply rel_for_each; [|apply exp_ln_map; exact HfIpos].
    intros j s s' _ Hs. apply product_body_corr; auto.
    intros a b. apply corr_newMessage. exact H. }
  intros prod prod' _ _ Hprod.
  pose proof (R_exp_sub_max prod prod' Hprod) as Hmax.
  destruct (m <- Prob_max prod ;; Ok (Prob_exp (Prob_sub_scalar prod m)))
    as [b|e].
  - destruct Hmax as [c [Hc Hb]]. cbn [bind]. unfold Factor_normalize.
    apply (rel_bind (fun r r' => fst r = fst r'));
      [apply (R_scale_normalize c); assumption|].
    intros [a z] [a' z'] _ _ E. simpl in E. subst. simpl. reflexivity.
  - subst prod'. cbn [bind]. unfold Factor_normalize, Prob_normalize.
    simpl. unfold Prob_totalSum. simpl.
    destruct (Req_dec_T 0 0) as [_|F]; [simpl; constructor | congruence].
Qed.

Lemma ln_exp_map (a a' : Prob) : R_exp a a' -> a = map ln a'.
Proof.
  unfold R_exp. intros ->. rewrite map_map.
  induction a as [|x a IH]; simpl; auto. now rewrite ln_exp, <- IH.
Qed.

Lemma corr_bl0_bn0 : corr bl0 bn0.
Proof.
  repeat split. simpl. constructor; [|constructor].
  constructor; [|constructor].
  unfold log_of, R_exp. simpl. rewrite exp_0. repeat split.
Qed.

Lemma nondegenerate_bn0 : nondegenerate bn0.
Proof.
  split.
  - intros f [<-|[]]. simpl. repeat constructor; lra.
  - intros i _I e vi nb nI fI He Hvi Hnb HnI HfI k Hk.
    destruct i as [|i]; [|destruct i; discriminate].
    destruct _I as [|_I]; [|destruct _I; discriminate].
    injection He as <-. injection Hvi as <-. injection Hnb as <-.
    injection HnI as <-. injection HfI as <-. simpl in *.
    destruct k as [|[|k]]; [exists 0%nat | exists 1%nat | lia];
      split; simpl; auto.
Qed.

Lemma paired_all_edges (step : BP -> nat -> nat -> result BP) :
  (forall bl bn i _I, paired bl bn ->
     rel_result paired (step bl i _I) (step bn i _I)) ->
  forall bl bn, paired bl bn ->
    rel_result paired
      (for_range (nrVars bl)
         (fun i bp => nb <- nbV bp i ;;
                      for_each nb (fun I bp => step bp i (iter I)) bp) bl)
      (for_range (nrVars bn)
         (fun i bp => nb <- nbV bp i ;;
                      for_each nb (fun I bp => step bp i (iter I)) bp) bn).
Proof.
  intros Hstep bl bn Hp. unfold for_range.
  replace (nrVars bl) with (nrVars bn).
  2:{ destruct Hp as [[Hfg _] _]. unfold nrVars. now rewrite Hfg. }
  apply rel_for_each; [|exact Hp]. intros i s s' _ Hs.
  apply (rel_bind eq).
  { apply rel_result_eq, corr_nbV. apply Hs. }
  intros nb ? _ _ <-. apply rel_for_each; [|exact Hs].
  intros I t t' _ Ht. apply Hstep. exact Ht.
Qed.

(** A pass of the PARALL schedule and a pass of a sequential schedule over
    one edge list keep a log-domain run and a linear-domain run paired. *)
Lemma BP_pass_paired (bl bn : BP) :
  paired bl bn ->
  rel_result paired (BP_pass_PARALL bl) (BP_pass_PARALL bn) /\
  forall update_seq,
    rel_result paired (BP_pass_SEQ update_seq bl) (BP_pass_SEQ update_seq bn).
Proof.
  intros Hp. split.
  - unfold BP_pass_PARALL. apply (rel_bind paired).
    + apply (paired_all_edges BP_calcNewMessage); [|exact Hp].
      intros b b' i _I [H1 H2]. apply BP_calcNewMessage_corr; assumption.
    + intros s s' _ _ Hs.
      apply (paired_all_edges BP_commit); [|exact Hs].
      intros b b' i _I [H1 H2]. apply BP_commit_corr; assumption.
  - intros update_seq. unfold BP_pass_SEQ.
    apply rel_for_each; [|exact Hp]. intros e s s' _ [H1 H2].
    apply (rel_bind paired).
    + apply BP_calcNewMessage_corr; assumption.
    + intros t t' _ _ [K1 K2]. apply BP_commit_corr; assumption.
Qed.

(** A residual written in each domain leaves the two states paired. *)
Lemma residual_write_paired (bl bn : BP) (i _I : nat) (r r' : R) :
  paired bl bn ->
  rel_result paired (update_edge bl i _I (with_residual r))
                    (update_edge bn i _I (with_residual r')).
Proof.
  intros [H Hnd]. apply (rel_result_impl corr).
  - intros bl' bn' _ Hbn' Hc'. split; [exact Hc'|].
    apply (nondegenerate_update bn i _I (with_residual r') bn');
      [reflexivity | exact Hbn' | exact Hnd].
  - apply corr_update_edge; [exact H|].
    intros e e' [H1 [H2 H3]]. repeat split; simpl; auto.
Qed.

(** So does the update of a residual in the SEQMAX schedule. *)
Lemma residual_update_paired (bl bn : BP) (i _I : nat) :
  paired bl bn ->
  rel_result paired
    (b <- BP_calcNewMessage bl i _I ;;
     nm <- BP_newMessage b i _I ;;
     m <- BP_message b i _I ;;
     update_edge b i _I (with_residual (dist_Prob nm m DISTLINF)))
    (b <- BP_calcNewMessage bn i _I ;;
     nm <- BP_newMessage b i _I ;;
     m <- BP_message b i _I ;;
     update_edge b i _I (with_residual (dist_Prob nm m DISTLINF))).
Proof.
  intros [H Hnd].
  apply (rel_bind paired); [apply BP_calcNewMessage_corr; assumption|].
  intros b b' _ _ Hb.
  apply (rel_bind R_exp); [apply corr_newMessage, Hb|].
  intros nm nm' _ _ _.
  apply (rel_bind R_exp); [apply corr_message, Hb|].
  intros m m' _ _ _. apply residual_write_paired. exact Hb.
Qed.

(** The first pass of the SEQMAX schedule keeps a log-domain run and a
    linear-domain run paired. *)
Lemma BP_first_pass_SEQMAX_paired (bl bn : BP) :
  paired bl bn ->
  rel_result paired (BP_first_pass_SEQMAX bl) (BP_first_pass_SEQMAX bn).
Proof.
  intros Hp. unfold BP_first_pass_SEQMAX.
  apply (paired_all_edges
           (fun s i _I =>
              b <- BP_calcNewMessage s i _I ;;
              nm <- BP_newMessage b i _I ;;
              m <- BP_message b i _I ;;
              update_edge b i _I (with_residual (dist_Prob nm m DISTLINF))));
    [|exact Hp].
  intros b b' i _I Hb. apply residual_update_paired. exact Hb.
Qed.

(** A step of the SEQMAX schedule at one edge, the same in both domains,
    keeps the two runs paired. *)
Lemma BP_seqmax_update_paired (bl bn : BP) (i _I : nat) :
  paired bl bn ->
  rel_result paired (BP_seqmax_update bl i _I) (BP_seqmax_update bn i _I).
Proof.
  intros [H Hnd]. unfold BP_seqmax_update.
  apply (rel_bind R_exp); [apply corr_newMessage, H|].
  intros nm nm' _ _ Hnm.
  apply (rel_bind paired).
  { apply (rel_result_impl corr).
    - intros bl' bn' _ Hbn' Hc'. split; [exact Hc'|].
      apply (nondegenerate_update bn i _I (with_message nm') bn');
        [reflexivity | exact Hbn' | exact Hnd].
    - apply corr_update_edge; [exact H|].
      intros e e' [H1 [H2 H3]]. repeat split; simpl; auto. }
  intros b1 b1' _ _ H1.
  apply (rel_bind paired); [apply residual_write_paired; exact H1|].
  intros b2 b2' _ _ H2.
  apply (rel_bind eq); [apply rel_result_eq, corr_nbV, H2|].
  intros nbi ? _ _ <-.
  apply rel_for_each; [|exact H2]. intros J s s' _ Hs.
  destruct (negb (iter J =? _I)%nat); [|exact Hs].
  apply (rel_bind eq); [apply rel_result_eq, corr_nbF, Hs|].
  intros nbJ ? _ _ <-.
  apply rel_for_each; [|exact Hs]. intros j t t' _ Ht. cbv zeta.
  destruct (negb (node j =? i)%nat); [|exact Ht].
  apply residual_update_paired. exact Ht.
Qed.

(** A step of the SEQMAX schedule is the step at the edge that
    [findMaxResidual] selects. *)
Lemma BP_seqmax_step_select (bp : BP) (i _I : nat) :
  BP_findMaxResidual bp = Ok (i, _I) ->
  BP_seqmax_step bp = (bp' <- BP_seqmax_update bp i _I ;; Ok (i, _I, bp')).
Proof.
  intros H. unfold BP_seqmax_step, BP_seqmax_update. rewrite H. cbn [bind].
  destruct (BP_newMessage bp i _I) as [nm|]; [|reflexivity]. cbn [bind].
  destruct (update_edge bp i _I (with_message nm)) as [b1|]; [|reflexivity].
  cbn [bind].
  destruct (update_edge b1 i _I (with_residual 0)) as [b2|]; [|reflexivity].
  cbn [bind].
  destruct (nbV b2 i) as [nbi|]; [|reflexivity]. cbn [bind]. reflexivity.
Qed.

(** C7, amended: let the log-domain state [bl] stand for the linear-domain
    state [bn] (same graph, every log-domain message the logarithm of the
    linear one) on nondegenerate inputs. Then [calcNewMessage] in the log
    domain and in the linear domain fail together or leave states that again
    stand for each other, the new log-domain message being the logarithm of
    the new linear one; so do the commit of a staged message, a pass of the
    PARALL schedule, a pass of a sequential schedule over one edge list, the
    first pass of the SEQMAX schedule, and a step of the SEQMAX schedule in
    which [findMaxResidual] selects the same edge in both domains; and
    [beliefV] and [beliefF] return equal beliefs in the two domains. *)
Theorem log_domain_agrees_with_linear (bl bn : BP) :
  corr bl bn -> nondegenerate bn ->
  (forall i _I,
     rel_result
       (fun bl' bn' =>
          paired bl' bn' /\
          rel_result (fun ml mn => ml = map ln mn /\ mn = map exp ml)
            (BP_newMessage bl' i _I) (BP_newMessage bn' i _I))
       (BP_calcNewMessage bl i _I) (BP_calcNewMessage bn i _I)) /\
  (forall i _I, rel_result paired (BP_commit bl i _I) (BP_commit bn i _I)) /\
  rel_result paired (BP_pass_PARALL bl) (BP_pass_PARALL bn) /\
  (forall update_seq,
     rel_result paired (BP_pass_SEQ update_seq bl)
                       (BP_pass_SEQ update_seq bn)) /\
  rel_result paired (BP_first_pass_SEQMAX bl) (BP_first_pass_SEQMAX bn) /\
  (forall i _I,
     BP_findMaxResidual bl = Ok (i, _I) ->
     BP_findMaxResidual bn = Ok (i, _I) ->
     rel_result (fun x y => fst x = fst y /\ paired (snd x) (snd y))
       (BP_seqmax_step bl) (BP_seqmax_step bn)) /\
  (forall i, rel_result eq (BP_beliefV bl i) (BP_beliefV bn i)) /\
  (forall I, rel_result eq (BP_beliefF bl I) (BP_beliefF bn I)).
Proof.
  intros H Hnd.
  destruct (BP_pass_paired bl bn (conj H Hnd)) as [Hpar Hseq].
  split; [|split; [|split; [|split; [|split; [|split; [|split]]]]]].
  - intros i _I.
    apply (rel_result_impl (fun bl' bn' => corr bl' bn' /\ nondegenerate bn')).
    + intros bl' bn' _ _ [Hc' Hnd']. split; [split; assumption|].
      apply (rel_result_impl R_exp); [|apply corr_newMessage, Hc'].
      intros ml mn _ _ Hm. split; [apply ln_exp_map|]; exact Hm.
    + apply BP_calcNewMessage_corr; assumption.
  - intros i _I. apply BP_commit_corr; assumption.
  - exact Hpar.
  - exact Hseq.
  - apply BP_first_pass_SEQMAX_paired. split; assumption.
  - intros i _I Hl Hn.
    rewrite (BP_seqmax_step_select bl i _I Hl),
      (BP_seqmax_step_select bn i _I Hn).
    apply (rel_bind paired);
      [apply BP_seqmax_update_paired; split; assumption|].
    intros b b' _ _ Hb. simpl. split; [reflexivity|exact Hb].
  - intros i. apply BP_beliefV_corr. exact H.
  - intros I. apply BP_beliefF_corr; assumption.
Qed.

Lemma log_domain_agrees_with_linear_witness :
  (forall i _I,
     rel_result
       (fun bl' bn' =>
          paired bl' bn' /\
          rel_result (fun ml mn => ml = map ln mn /\ mn = map exp ml)
            (BP_newMessage bl' i _I) (BP_newMessage bn' i _I))
       (BP_calcNewMessage bl0 i _I) (BP_calcNewMessage bn0 i _I)) /\
  (forall i _I, rel_result paired (BP_commit bl0 i _I) (BP_commit bn0 i _I)) /\
  rel_result paired (BP_pass_PARALL bl0) (BP_pass_PARALL bn0) /\
  (forall update_seq,
     rel_result paired (BP_pass_SEQ update_seq bl0)
                       (BP_pass_SEQ update_seq bn0)) /\
  rel_result paired (BP_first_pass_SEQMAX bl0) (BP_first_pass_SEQMAX bn0) /\
  (forall i _I,
     BP_findMaxResidual bl0 = Ok (i, _I) ->
     BP_findMaxResidual bn0 = Ok (i, _I) ->
     rel_result (fun x y => fst x = fst y /\ paired (snd x) (snd y))
       (BP_seqmax_step bl0) (BP_seqmax_step bn0)) /\
  (forall i, rel_result eq (BP_beliefV bl0 i) (BP_beliefV bn0 i)) /\
  (forall I, rel_result eq (BP_beliefF bl0 I) (BP_beliefF bn0 I)).
Proof.
  apply (log_domain_agrees_with_linear bl0 bn0).
  - exact corr_bl0_bn0.
  - exact nondegenerate_bn0.
Defined.

(** On the one-variable graph both domains compute the message
    [<0.3 0.7>] (its logarithm in the log domain) and the belief
    [<0.3 0.7>]. *)
Lemma BP_calcNewMessage_bn0 :
  exists bn',
    BP_calcNewMessage bn0 0 0 = Ok bn' /\
    BP_newMessage bn' 0 0 = Ok [3 / 10; 7 / 10] /\
    BP_beliefV bn' 0 = Ok (mkFactor [x0] [3 / 10; 7 / 10]).
Proof.
  assert (E3 : (0 + 3 / 10) / (0 + (0 + 3 / 10) + (0 + 7 / 10)) = 3 / 10)
    by (field_simplify_eq; lra).
  assert (E7 : (0 + 7 / 10) / (0 + (0 + 3 / 10) + (0 + 7 / 10)) = 7 / 10)
    by (field_simplify_eq; lra).
  assert (F3 : 1 * (3 / 10) / (0 + 1 * (3 / 10) + 1 * (7 / 10)) = 3 / 10)
    by (field_simplify_eq; lra).
  assert (F7 : 1 * (7 / 10) / (0 + 1 * (3 / 10) + 1 * (7 / 10)) = 7 / 10)
    by (field_simplify_eq; lra).
  unfold BP_calcNewMessage, bn0. simpl.
  unfold Prob_normalize, add_at, for_range. simpl.
  unfold Prob_totalSum. simpl.
  destruct (Req_dec_T (0 + (0 + 3 / 10) + (0 + 7 / 10)) 0) as [E|_]; [lra|].
  simpl. rewrite E3, E7. eexists. split; [reflexivity|].
  split; [reflexivity|].
  unfold BP_beliefV. simpl. unfold Prob_normalize, Prob_totalSum. simpl.
  destruct (Req_dec_T (0 + 1 * (3 / 10) + 1 * (7 / 10)) 0) as [E|_]; [lra|].
  simpl. rewrite F3, F7. reflexivity.
Qed.

Lemma rel_result_Ok_r {A B : Type} (P : A -> B -> Prop) (r : result A) (b : B) :
  rel_result P r (Ok b) -> exists a, r = Ok a /\ P a b.
Proof. destruct r as [a|e]; simpl; intros H; [eauto | contradiction]. Qed.

Lemma BP_calcNewMessage_bl0 :
  exists bl',
    BP_calcNewMessage bl0 0 0 = Ok bl' /\
    BP_newMessage bl' 0 0 = Ok [ln (3 / 10); ln (7 / 10)] /\
    BP_beliefV bl' 0 = Ok (mkFactor [x0] [3 / 10; 7 / 10]).
Proof.
  destruct BP_calcNewMessage_bn0 as [bn' [Hn [Hm Hb]]].
  pose proof (BP_calcNewMessage_corr bl0 bn0 0 0 corr_bl0_bn0
                nondegenerate_bn0) as H.
  rewrite Hn in H. apply rel_result_Ok_r in H.
  destruct H as [bl' [Hl [Hc _]]]. exists bl'. split; [exact Hl|]. split.
  - pose proof (corr_newMessage bl' bn' 0 0 Hc) as H. rewrite Hm in H.
    apply rel_result_Ok_r in H. destruct H as [ml [-> H]].
    apply ln_exp_map in H. rewrite H. reflexivity.
  - pose proof (BP_beliefV_corr bl' bn' 0 Hc) as H. rewrite Hb in H.
    apply rel_result_Ok_r in H. destruct H as [b [-> ->]]. reflexivity.
Qed.

(** ** create *)

Lemma firstn_S_nth_error {A : Type} (l : list A) (n : nat) (a : A) :
  nth_error l n = Some a -> firstn (S n) l = firstn n l ++ [a].
Proof.
  revert n. induction l as [|b l IH]; intros [|n] H; simpl in *;
    try discriminate.
  - injection H as ->. reflexivity.
  - f_equal. apply IH. exact H.
Qed.

Lemma create_row_length (bp : BP) (i : nat) (nb : list Neighbor) :
  forall row0 row,
    for_each nb
      (fun I row =>
         v <- var bp i ;;
         f <- factor bp (node I) ;;
         let newEP :=
           mkEdgeProp (IndexFor [v] (vars f))
                      (Prob_uniform (states v)) (Prob_uniform (states v)) 0 in
         Ok (row ++ [newEP]))
      row0 = Ok row ->
    length row = (length row0 + length nb)%nat.
Proof.
  induction nb as [|I nb IH]; intros row0 row H; simpl in H.
  - injection H as <-. simpl. lia.
  - apply bind_Ok_inv in H. destruct H as [row1 [H1 H]].
    apply bind_Ok_inv in H1. destruct H1 as [v [_ H1]].
    apply bind_Ok_inv in H1. destruct H1 as [f [_ H1]].
    injection H1 as <-. apply IH in H. rewrite H, length_app. simpl. lia.
Qed.

Lemma create_rows_length (bp : BP) (n : nat) (es : list (list EdgeProp)) :
  for_each (seq 0 n)
    (fun i es =>
       nb <- nbV bp i ;;
       row <- for_each nb
                (fun I row =>
                   v <- var bp i ;;
                   f <- factor bp (node I) ;;
                   let newEP :=
                     mkEdgeProp (IndexFor [v] (vars f))
                                (Prob_uniform (states v))
                                (Prob_uniform (states v)) 0 in
                   Ok (row ++ [newEP]))
                [] ;;
       Ok (es ++ [row]))
    [] = Ok es ->
  map (@length EdgeProp) es
  = map (@length Neighbor) (firstn n (fg_nbV (fg bp))).
Proof.
  revert es. induction n as [|n IH]; intros es H.
  - simpl in H. injection H as <-. reflexivity.
  - rewrite seq_S, for_each_app in H. simpl in H.
    apply bind_Ok_inv in H. destruct H as [es1 [H1 H]].
    apply bind_Ok_inv in H. destruct H as [es2 [H2 E]]. injection E as <-.
    apply bind_Ok_inv in H2. destruct H2 as [nb [Hnb H2]].
    apply bind_Ok_inv in H2. destruct H2 as [row [Hrow E]]. injection E as <-.
    apply create_row_length in Hrow. simpl in Hrow.
    unfold nbV in Hnb. apply get_Ok in Hnb.
    rewrite (firstn_S_nth_error _ _ _ Hnb), !map_app. simpl.
    rewrite (IH es1 H1), Hrow. reflexivity.
Qed.

(** [create] gives the edge table one row per variable and one entry per
    neighbor of the variable. *)
Lemma BP_create_shape (bp bp' : BP) :
  length (fg_nbV (fg bp)) = nrVars bp ->
  BP_create bp = Ok bp' ->
  fg bp' = fg bp /\ edges_shape bp'.
Proof.
  intros Hn H. unfold BP_create in H.
  apply bind_Ok_inv in H. destruct H as [es [H E]]. injection E as <-.
  split; [reflexivity|]. split; [exact Hn|]. simpl.
  unfold for_range in H. apply create_rows_length in H.
  rewrite H, <- Hn. now rewrite firstn_all.
Qed.

(** [IndexFor] of one variable of a VarSet reaches every state of it. *)
Lemma IndexFor_surjective (L : list Var) (v : Var) (U : VarSet) (k : nat) :
  wf_vars L -> In v L -> incl U L -> In (label v) (labels U) ->
  (k < states v)%nat ->
  exists r, (r < nrStates U)%nat /\ nth_error (IndexFor [v] U) r = Some k.
Proof.
  intros [Hp Hc] Hv HU Hl Hk.
  set (x := fun l => if (l =? label v)%nat then k else 0%nat).
  assert (Hx : valid_on U x).
  { intros w Hw. unfold x.
    destruct (Nat.eqb_spec (label w) (label v)) as [E|NE].
    - rewrite (Hc w v); auto.
    - apply Hp. auto. }
  exists (calcState U x). split; [apply calcState_lt; exact Hx|].
  rewrite (IndexFor_calcState [v] U x); auto.
  - simpl. unfold x. rewrite Nat.eqb_refl. f_equal. lia.
  - intros l [<-|[]]. exact Hl.
Qed.

Lemma create_row_entries (bp : BP) (i : nat) (nb : list Neighbor) :
  forall row0 row,
    for_each nb
      (fun I row =>
         v <- var bp i ;;
         f <- factor bp (node I) ;;
         let newEP :=
           mkEdgeProp (IndexFor [v] (vars f))
                      (Prob_uniform (states v)) (Prob_uniform (states v)) 0 in
         Ok (row ++ [newEP]))
      row0 = Ok row ->
    exists ents, row = row0 ++ ents /\ Forall2 (created_edge bp i) nb ents.
Proof.
  induction nb as [|I nb IH]; intros row0 row H; simpl in H.
  - injection H as <-. exists []. rewrite app_nil_r. split; constructor.
  - apply bind_Ok_inv in H. destruct H as [row1 [H1 H]].
    apply bind_Ok_inv in H1. destruct H1 as [v [Hv H1]].
    apply bind_Ok_inv in H1. destruct H1 as [f [Hf H1]].
    injection H1 as <-. apply IH in H. destruct H as [ents [-> HF]].
    eexists. rewrite <- app_assoc. split; [reflexivity|].
    constructor; [|exact HF]. exists v, f. repeat split; assumption.
Qed.

Lemma create_rows_entries (bp : BP) (n : nat) :
  forall a es0 es,
    for_each (seq a n)
      (fun i es =>
         nb <- nbV bp i ;;
         row <- for_each nb
                  (fun I row =>
                     v <- var bp i ;;
                     f <- factor bp (node I) ;;
                     let newEP :=
                       mkEdgeProp (IndexFor [v] (vars f))
                                  (Prob_uniform (states v))
                                  (Prob_uniform (states v)) 0 in
                     Ok (row ++ [newEP]))
                  [] ;;
         Ok (es ++ [row]))
      es0 = Ok es ->
    exists rows,
      es = es0 ++ rows /\
      Forall2 (fun i row => exists nb, nbV bp i = Ok nb /\
                                       Forall2 (created_edge bp i) nb row)
              (seq a n) rows.
Proof.
  induction n as [|n IH]; intros a es0 es H; simpl in H.
  - injection H as <-. exists []. rewrite app_nil_r. split; constructor.
  - apply bind_Ok_inv in H. destruct H as [es1 [H1 H]].
    apply bind_Ok_inv in H1. destruct H1 as [nb [Hnb H1]].
    apply bind_Ok_inv in H1. destruct H1 as [row [Hrow H1]].
    injection H1 as <-. apply create_row_entries in Hrow.
    destruct Hrow as [ents [-> HF]]. simpl in HF.
    apply IH in H. destruct H as [rows [-> HR]].
    eexists. rewrite <- app_assoc. split; [reflexivity|].
    simpl. constructor; [|exact HR]. exists nb. split; assumption.
Qed.

Lemma Forall2_nth_error {A B : Type} (P : A -> B -> Prop) (l : list A)
  (l' : list B) (i : nat) (b : B) :
  Forall2 P l l' -> nth_error l' i = Some b ->
  exists a, nth_error l i = Some a /\ P a b.
Proof.
  intros H. revert i. induction H as [|x y l l' Hxy H IH]; intros [|i] Hb;
    simpl in *; try discriminate.
  - injection Hb as <-. eauto.
  - apply IH. exact Hb.
Qed.

(** Every edge of the table [create] builds is the edge made for its
    variable and its neighbor. *)
Lemma BP_create_edge (bp bp' : BP) (i _I : nat) (e : EdgeProp) :
  BP_create bp = Ok bp' -> edge bp' i _I = Ok e ->
  exists nb nI,
    nbV bp i = Ok nb /\ get nb _I = Ok nI /\ created_edge bp i nI e.
Proof.
  intros H He. unfold BP_create in H.
  apply bind_Ok_inv in H. destruct H as [es [H E]]. injection E as <-.
  unfold for_range in H. apply create_rows_entries in H.
  destruct H as [rows [-> HR]]. simpl in HR.
  unfold edge in He. simpl in He.
  apply bind_Ok_inv in He. destruct He as [row [Hrow He]].
  apply get_Ok in Hrow. apply get_Ok in He.
  destruct (Forall2_nth_error _ _ _ _ _ HR Hrow) as [i' [Hi' [nb [Hnb HF]]]].
  assert (i' = i).
  { assert (Hlt : (i < length (seq 0 (nrVars bp)))%nat)
      by (apply nth_error_Some; congruence).
    rewrite length_seq in Hlt. rewrite nth_error_seq in Hi'.
    apply Nat.ltb_lt in Hlt. rewrite Hlt in Hi'. simpl in Hi'. congruence. }
  subst i'.
  destruct (Forall2_nth_error _ _ _ _ _ HF He) as [nI [HnI Hc]].
  exists nb, nI. split; [exact Hnb|]. split; [apply get_Some; exact HnI|].
  exact Hc.
Qed.

(** On a well-formed graph with strictly positive factors, the state that
    [create] builds is nondegenerate. *)
Lemma BP_create_nondegenerate (bp bp' : BP) :
  wf_graph bp -> BP_create bp = Ok bp' -> nondegenerate bp'.
Proof.
  intros [Hn [Hwf [Hfac Hnb]]] H.
  destruct (BP_create_shape bp bp' Hn H) as [Hfg _].
  split.
  - rewrite Hfg. intros f Hf. apply (Hfac f Hf).
  - intros i _I e vi nb nI fI He Hvi Hnbi HnI HfI k Hk.
    unfold var, nbV, factor in Hvi, Hnbi, HfI. rewrite Hfg in *.
    destruct (BP_create_edge bp bp' i _I e H He)
      as [nb' [nI' [Hnb' [HnI' [v [f [Hv [Hf ->]]]]]]]].
    unfold nbV in Hnb'. rewrite Hnbi in Hnb'. injection Hnb' as <-.
    rewrite HnI in HnI'. injection HnI' as <-.
    unfold var in Hv. rewrite Hvi in Hv. injection Hv as <-.
    unfold factor in Hf. rewrite HfI in Hf. injection Hf as <-.
    simpl.
    assert (HfIin : In fI (fg_factors (fg bp)))
      by (apply get_Ok in HfI; apply (nth_error_In _ _ HfI)).
    destruct (Hfac fI HfIin) as [Hwff _]. rewrite Hwff.
    apply (IndexFor_surjective _ vi (vars fI) k Hwf); auto.
    + apply in_or_app. left. apply get_Ok in Hvi.
      apply (nth_error_In _ _ Hvi).
    + intros w Hw. apply in_or_app. right. apply in_flat_map.
      exists fI. split; assumption.
    + apply (Hnb i vi nb nI fI); auto.
      apply get_Ok in HnI. apply (nth_error_In _ _ HnI).
Qed.

(** ** init(), in general *)

Lemma modify_middle {A : Type} (pre : list A) (a : A) (post : list A)
  (f : A -> result A) :
  modify (pre ++ a :: post) (length pre) f
  = (a' <- f a ;; Ok (pre ++ a' :: post)).
Proof.
  unfold modify. rewrite get_middle. simpl.
  destruct (f a); simpl; [|reflexivity]. now rewrite upd_middle.
Qed.

Lemma update_edge_middle (bp : BP) (rows_pre : list (list EdgeProp))
  (pre : list EdgeProp) (e : EdgeProp) (post : list EdgeProp)
  (rows_post : list (list EdgeProp)) (f : EdgeProp -> EdgeProp) :
  edges bp = rows_pre ++ (pre ++ e :: post) :: rows_post ->
  update_edge bp (length rows_pre) (length pre) f
  = Ok (with_edges bp (rows_pre ++ (pre ++ f e :: post) :: rows_post)).
Proof.
  intros E. unfold update_edge. rewrite E, modify_middle, modify_middle.
  reflexivity.
Qed.

(** The inner loop of [init()] on the row of variable [j]. *)
Lemma BP_init_row (c : R) (ld : bool) (Hc : c = if ld then 0 else 1)
  (rows_pre rows_post : list (list EdgeProp)) :
  forall (nb : list Neighbor) (mid pre post : list EdgeProp) (bp : BP),
    logDomain bp = ld ->
    edges bp = rows_pre ++ (pre ++ mid ++ post) :: rows_post ->
    map iter nb = seq (length pre) (length mid) ->
    for_each nb
      (fun I bp =>
         if logDomain bp then
           bp1 <- update_edge bp (length rows_pre) (iter I)
                    (fun e => with_message (Prob_fill (message e) 0) e) ;;
           update_edge bp1 (length rows_pre) (iter I)
             (fun e => with_newMessage (Prob_fill (newMessage e) 0) e)
         else
           bp1 <- update_edge bp (length rows_pre) (iter I)
                    (fun e => with_message (Prob_fill (message e) 1) e) ;;
           update_edge bp1 (length rows_pre) (iter I)
             (fun e => with_newMessage (Prob_fill (newMessage e) 1) e))
      bp
    = Ok (with_edges bp
            (rows_pre ++ (pre ++ map (reset_edge c) mid ++ post) :: rows_post)).
Proof.
  induction nb as [|I nb IH]; intros mid pre post bp Hld E Hit.
  - destruct mid; [|discriminate]. simpl in E |- *. rewrite <- E.
    destruct bp; reflexivity.
  - destruct mid as [|e mid]; [discriminate|]. simpl in Hit.
    injection Hit as HI Hit. simpl for_each. rewrite HI, Hld.
    assert (Hstep :
      (if ld then
         bp1 <- update_edge bp (length rows_pre) (length pre)
                  (fun e => with_message (Prob_fill (message e) 0) e) ;;
         update_edge bp1 (length rows_pre) (length pre)
           (fun e => with_newMessage (Prob_fill (newMessage e) 0) e)
       else
         bp1 <- update_edge bp (length rows_pre) (length pre)
                  (fun e => with_message (Prob_fill (message e) 1) e) ;;
         update_edge bp1 (length rows_pre) (length pre)
           (fun e => with_newMessage (Prob_fill (newMessage e) 1) e))
      = Ok (with_edges bp
              (rows_pre ++ (pre ++ reset_edge c e :: mid ++ post)
                        :: rows_post))).
    { simpl in E. subst c. destruct ld.
      - rewrite (update_edge_middle bp _ _ _ _ _ _ E). simpl.
        rewrite (update_edge_middle _ rows_pre pre _ (mid ++ post) rows_post)
          by reflexivity.
        reflexivity.
      - rewrite (update_edge_middle bp _ _ _ _ _ _ E). simpl.
        rewrite (update_edge_middle _ rows_pre pre _ (mid ++ post) rows_post)
          by reflexivity.
        reflexivity. }
    rewrite Hstep. simpl bind.
    rewrite (IH mid (pre ++ [reset_edge c e]) post).
    + simpl. rewrite <- !app_assoc. reflexivity.
    + exact Hld.
    + simpl. rewrite <- app_assoc. reflexivity.
    + rewrite length_app. simpl. rewrite Nat.add_1_r. exact Hit.
Qed.

Lemma with_edges_twice (bp : BP) (es es' : list (list EdgeProp)) :
  with_edges (with_edges bp es) es' = with_edges bp es'.
Proof. reflexivity. Qed.

(** The outer loop of [init()] over the rows [mid]. *)
Lemma BP_init_rows (c : R) (ld : bool) (Hc : c = if ld then 0 else 1)
  (rows_post : list (list EdgeProp)) :
  forall (mid rows_pre : list (list EdgeProp)) (bp : BP),
    logDomain bp = ld ->
    edges bp = rows_pre ++ mid ++ rows_post ->
    (forall k row, nth_error mid k = Some row ->
       exists nb, nth_error (fg_nbV (fg bp)) (length rows_pre + k) = Some nb /\
                  map iter nb = seq 0 (length row)) ->
    for_each (seq (length rows_pre) (length mid))
      (fun i bp =>
         nb <- nbV bp i ;;
         for_each nb
           (fun I bp =>
              if logDomain bp then
                bp1 <- update_edge bp i (iter I)
                         (fun e => with_message (Prob_fill (message e) 0) e) ;;
                update_edge bp1 i (iter I)
                  (fun e => with_newMessage (Prob_fill (newMessage e) 0) e)
              else
                bp1 <- update_edge bp i (iter I)
                         (fun e => with_message (Prob_fill (message e) 1) e) ;;
                update_edge bp1 i (iter I)
                  (fun e => with_newMessage (Prob_fill (newMessage e) 1) e))
           bp)
      bp
    = Ok (with_edges bp
            (rows_pre ++ map (map (reset_edge c)) mid ++ rows_post)).
Proof.
  induction mid as [|row mid IH]; intros rows_pre bp Hld E Hnb.
  - simpl in E |- *. rewrite <- E. destruct bp; reflexivity.
  - destruct (Hnb 0%nat row eq_refl) as [nb [Hnb0 Hit]].
    rewrite Nat.add_0_r in Hnb0.
    simpl for_each. unfold nbV at 1. rewrite (get_Some _ _ _ Hnb0).
    cbn [bind].
    rewrite (BP_init_row c ld Hc rows_pre (mid ++ rows_post) nb row [] []).
    + cbn [bind].
      replace (S (length rows_pre))
        with (length (rows_pre ++ [map (reset_edge c) row]))
        by (rewrite length_app; simpl; lia).
      rewrite IH.
      * rewrite with_edges_twice, <- !app_assoc. reflexivity.
      * exact Hld.
      * simpl. rewrite app_nil_r, <- app_assoc. reflexivity.
      * intros k r Hk. destruct (Hnb (S k) r Hk) as [nb' [H1 H2]].
        exists nb'. split; [|exact H2]. simpl.
        rewrite length_app. simpl.
        replace (length rows_pre + 1 + k)%nat
          with (length rows_pre + S k)%nat by lia. exact H1.
    + exact Hld.
    + simpl. rewrite app_nil_r. exact E.
    + exact Hit.
Qed.

Lemma map_length_eq {A B : Type} (l : list (list A)) (l' : list (list B)) :
  map (@length A) l = map (@length B) l' ->
  length l = length l' /\
  forall k r, nth_error l k = Some r ->
    exists r', nth_error l' k = Some r' /\ length r = length r'.
Proof.
  revert l'. induction l as [|r l IH]; intros [|r' l'] H; simpl in H;
    try discriminate.
  - split; [reflexivity|]. intros [|k] r H'; discriminate.
  - injection H as Hr H. destruct (IH l' H) as [Hl Hk].
    split; [simpl; congruence|].
    intros [|k] r0 H0; simpl in *.
    + injection H0 as <-. eauto.
    + apply Hk. exact H0.
Qed.

(** [init()] fills the live and the staged message of every edge with the
    neutral element and changes nothing else. *)
Lemma BP_init_resets (bp : BP) :
  wf_nbV bp -> edges_shape bp ->
  BP_init bp
  = Ok (with_edges bp
          (map (map (reset_edge (if logDomain bp then 0 else 1))) (edges bp))).
Proof.
  intros Hw [Hn Hs]. unfold BP_init, for_range.
  destruct (map_length_eq _ _ Hs) as [Hlen Hrows].
  replace (nrVars bp) with (length (edges bp)) by congruence.
  pose proof (BP_init_rows (if logDomain bp then 0 else 1) (logDomain bp)
                eq_refl [] (edges bp) [] bp eq_refl) as H.
  cbn [length app] in H. rewrite !app_nil_r in H. apply H; [reflexivity|].
  intros k row Hk. destruct (Hrows k row Hk) as [nb [H1 H2]].
  exists nb. split; [exact H1|]. rewrite H2. apply (Hw k nb H1).
Qed.

(** ** The states both domains start from *)

Lemma log_of_reset (e : EdgeProp) : log_of (reset_edge 0 e) (reset_edge 1 e).
Proof.
  unfold log_of, reset_edge, R_exp, Prob_fill. simpl.
  rewrite !map_map. repeat split; apply map_ext; intros x; now rewrite exp_0.
Qed.

Lemma Forall2_map_same {A B C : Type} (P : B -> C -> Prop)
  (f : A -> B) (g : A -> C) (l : list A) :
  (forall a, P (f a) (g a)) -> Forall2 P (map f l) (map g l).
Proof. intros H. induction l; simpl; constructor; auto. Qed.

Lemma edge_with_edges_map (bp : BP) (f : EdgeProp -> EdgeProp) (i _I : nat) :
  edge (with_edges bp (map (map f) (edges bp))) i _I
  = (e <- edge bp i _I ;; Ok (f e)).
Proof.
  unfold edge. simpl. rewrite get_map.
  destruct (get (edges bp) i) as [row|]; simpl; [|reflexivity].
  apply get_map.
Qed.

Lemma nondegenerate_map_edges (bp : BP) (f : EdgeProp -> EdgeProp) :
  (forall e, index (f e) = index e) ->
  nondegenerate bp ->
  nondegenerate (with_edges bp (map (map f) (edges bp))).
Proof.
  intros Hf [Hpos Hcov]. split; [exact Hpos|].
  intros i _I e' vi nb nI fI He'. rewrite edge_with_edges_map in He'.
  apply bind_Ok_inv in He'. destruct He' as [e [He E]]. injection E as <-.
  rewrite Hf. apply (Hcov i _I e vi nb nI fI He).
Qed.

(** From one well-formed graph with strictly positive factors, [create]
    and [init()] with [logdomain = true] and with [logdomain = false] give a
    log-domain and a linear-domain state that stand for each other. *)
Lemma paired_after_create_init (g : FactorGraph) (nt : NormType)
  (bn1 : BP) :
  wf_graph (mkBP g [] false nt) -> wf_nbV (mkBP g [] false nt) ->
  BP_create (mkBP g [] false nt) = Ok bn1 ->
  exists bl1 bl2 bn2,
    BP_create (mkBP g [] true nt) = Ok bl1 /\
    BP_init bl1 = Ok bl2 /\ BP_init bn1 = Ok bn2 /\
    paired bl2 bn2.
Proof.
  intros Hg Hw Hcn.
  pose proof (BP_create_nondegenerate _ _ Hg Hcn) as Hnd.
  destruct Hg as [Hn _].
  destruct (BP_create_shape _ _ Hn Hcn) as [Hfg Hs].
  unfold BP_create in Hcn.
  apply bind_Ok_inv in Hcn. destruct Hcn as [es [Hes E]].
  injection E as <-. simpl in Hes.
  exists (mkBP g es true nt).
  assert (Hcl : BP_create (mkBP g [] true nt) = Ok (mkBP g es true nt)).
  { unfold BP_create. simpl. unfold for_range, nrVars, nbV, var, factor in *.
    simpl in *. rewrite Hes. reflexivity. }
  assert (Hwl : wf_nbV (mkBP g es true nt)) by exact Hw.
  assert (Hwn : wf_nbV (with_edges (mkBP g [] false nt) es)) by exact Hw.
  assert (Hsl : edges_shape (mkBP g es true nt)) by exact Hs.
  eexists. eexists. split; [exact Hcl|].
  split; [apply BP_init_resets; assumption|].
  split; [apply BP_init_resets; assumption|].
  split.
  - repeat split. simpl. apply Forall2_map_same. intros row.
    apply Forall2_map_same. apply log_of_reset.
  - apply nondegenerate_map_edges; [reflexivity | exact Hnd].
Qed.

(** ** The example states are reached by the code *)

Lemma BP_calcNewMessage_bn0_state :
  BP_calcNewMessage bn0 0 0
  = Ok (mkBP fg1 [[mkEdgeProp [0%nat; 1%nat] [1; 1] [3 / 10; 7 / 10] 0]]
             false NORMPROB).
Proof.
  assert (E3 : (0 + 3 / 10) / (0 + (0 + 3 / 10) + (0 + 7 / 10)) = 3 / 10)
    by (field_simplify_eq; lra).
  assert (E7 : (0 + 7 / 10) / (0 + (0 + 3 / 10) + (0 + 7 / 10)) = 7 / 10)
    by (field_simplify_eq; lra).
  unfold BP_calcNewMessage, bn0. simpl.
  unfold Prob_normalize, add_at, for_range. simpl.
  unfold Prob_totalSum. simpl.
  destruct (Req_dec_T (0 + (0 + 3 / 10) + (0 + 7 / 10)) 0) as [E|_]; [lra|].
  simpl. rewrite E3, E7. reflexivity.
Qed.

(** One PARALL pass from the initial linear state [bn0] gives [bp1]. *)
Lemma BP_pass_PARALL_bn0 : BP_pass_PARALL bn0 = Ok bp1.
Proof.
  unfold BP_pass_PARALL, for_range.
  change (nrVars bn0) with 1%nat. cbn [seq for_each].
  change (nbV bn0 0) with (Ok [mkNeighbor 0 0 0]). cbn [bind for_each iter].
  rewrite BP_calcNewMessage_bn0_state. reflexivity.
Qed.

(** [bn0] is what [create] and [init()] build on the graph [fg1]. *)
Lemma BP_create_init_fg1 :
  (bp <- BP_create (mkBP fg1 [] false NORMPROB) ;; BP_init bp) = Ok bn0.
Proof.
  unfold BP_create, for_range. simpl.
  unfold BP_init, for_range. simpl. unfold bn0, with_edges. simpl.
  unfold update_edge, with_edges, with_message, with_newMessage. simpl.
  reflexivity.
Qed.

(* ===================================================================== *)
(** * Further properties of bp.cpp and factor.h *)
(* ===================================================================== *)

(** ** Reading the edge table after a write *)

Lemma update_edge_lookup (bp : BP) (i _I : nat) (f : EdgeProp -> EdgeProp)
  (bp' : BP) :
  update_edge bp i _I f = Ok bp' ->
  (exists e, edge bp i _I = Ok e /\ edge bp' i _I = Ok (f e)) /\
  (forall i' _I', (i', _I') <> (i, _I) ->
     edge bp' i' _I' = edge bp i' _I').
Proof.
  unfold update_edge. intros H.
  apply bind_Ok_inv in H. destruct H as [es [H E]]. injection E as <-.
  apply modify_Ok_inv in H. destruct H as [row [row' [Hrow [H ->]]]].
  apply modify_Ok_inv in H. destruct H as [e [e' [He [E ->]]]].
  injection E as <-.
  assert (Hi : (i < length (edges bp))%nat)
    by (apply nth_error_Some; congruence).
  assert (HI : (_I < length row)%nat)
    by (apply nth_error_Some; congruence).
  split.
  - exists e. unfold edge. simpl.
    rewrite (get_Some _ _ _ Hrow). simpl. rewrite (get_Some _ _ _ He).
    rewrite (get_Some _ _ _ (nth_error_upd_eq _ _ _ Hi)). simpl.
    rewrite (get_Some _ _ _ (nth_error_upd_eq _ _ _ HI)). auto.
  - intros i' _I' Hne. unfold edge, get. simpl.
    destruct (Nat.eq_dec i i') as [<-|Hi'].
    + rewrite (nth_error_upd_eq _ _ _ Hi), Hrow. simpl.
      rewrite nth_error_upd_ne by congruence. reflexivity.
    + rewrite nth_error_upd_ne by exact Hi'. reflexivity.
Qed.

Lemma edge_same_frame (bp bp' : BP) (i : nat) :
  same_frame bp bp' ->
  var bp' i = var bp i /\ nbV bp' i = nbV bp i /\
  nbF bp' i = nbF bp i /\ factor bp' i = factor bp i.
Proof.
  intros [H _]. unfold var, nbV, nbF, factor. rewrite H. auto.
Qed.

(** What [calcNewMessage] writes: the staged message of the edge
    [(i, _I)], and nothing else. *)
Lemma BP_calcNewMessage_writes (bp : BP) (i _I : nat) (bp' : BP) :
  BP_calcNewMessage bp i _I = Ok bp' ->
  exists e m,
    edge bp i _I = Ok e /\ edge bp' i _I = Ok (with_newMessage m e) /\
    forall i' _I', (i', _I') <> (i, _I) -> edge bp' i' _I' = edge bp i' _I'.
Proof.
  unfold BP_calcNewMessage. intros H. inv_bind H.
  match goal with x : (Prob * R)%type |- _ => destruct x as [a z] end.
  destruct (logDomain bp);
    [apply bind_Ok_inv in H; destruct H as [lm [_ H]]|];
    apply update_edge_lookup in H;
    destruct H as [[e [He He']] Hother]; eauto.
Qed.

(** X1: [calcNewMessage( i, _I )] changes only the staged [newMessage] of
    the edge [(i, _I)]: the graph, the flags, the shape of the edge table,
    the index map, the live message and the residual of that edge, and
    every other edge stay as they were. *)
Theorem calcNewMessage_only_writes_newMessage (bp : BP) (i _I : nat)
  (bp' : BP) :
  BP_calcNewMessage bp i _I = Ok bp' ->
  same_frame bp bp' /\
  (exists e e',
     edge bp i _I = Ok e /\ edge bp' i _I = Ok e' /\
     index e' = index e /\ message e' = message e /\
     residual e' = residual e) /\
  (forall i' _I', (i', _I') <> (i, _I) -> edge bp' i' _I' = edge bp i' _I').
Proof.
  intros H. split; [apply (BP_calcNewMessage_frame _ _ _ _ H)|].
  destruct (BP_calcNewMessage_writes _ _ _ _ H) as [e [m [He [He' Ho]]]].
  split; [|exact Ho].
  exists e, (with_newMessage m e). repeat split; assumption.
Qed.

(** The state [calcNewMessage( 0, 0 )] reaches from [bn0]. *)
Lemma calcNewMessage_only_writes_newMessage_witness :
  same_frame bn0 bn0_calc /\
  (exists e e',
     edge bn0 0 0 = Ok e /\ edge bn0_calc 0 0 = Ok e' /\
     index e' = index e /\ message e' = message e /\
     residual e' = residual e) /\
  (forall i' _I', (i', _I') <> (0%nat, 0%nat) ->
     edge bn0_calc i' _I' = edge bn0 i' _I').
Proof.
  apply (calcNewMessage_only_writes_newMessage bn0 0 0 bn0_calc).
  exact BP_calcNewMessage_bn0_state.
Defined.

(** ** The message that calcNewMessage stores *)

Lemma Prob_normalize_normalized (a b : Prob) (nt : NormType) (z : R) :
  Prob_normalize a nt = Ok (b, z) ->
  normalized nt b /\ length b = length a.
Proof.
  unfold Prob_normalize.
  set (Z := match nt with
            | NORMPROB => Prob_totalSum a
            | NORMLINF => Prob_maxAbs a
            end).
  destruct (Req_dec_T Z 0) as [E|NE]; [discriminate|].
  intros H. injection H as <- _. split; [|apply length_map].
  assert (Hmap : map (fun x => x / Z) a = map (fun x => x * / Z) a)
    by (apply map_ext; intros x; reflexivity).
  rewrite Hmap. unfold Z in *. destruct nt; unfold normalized.
  - unfold Prob_totalSum in *.
    replace 0 with (0 * / fold_left Rplus a 0) at 1 by lra.
    rewrite fold_left_Rplus_scale. field. exact NE.
  - unfold Prob_maxAbs in *.
    assert (Hpos : 0 < fold_left (fun m x => Rmax m (Rabs x)) a 0).
    { assert (0 <= fold_left (fun m x => Rmax m (Rabs x)) a 0)
        by (apply fold_left_lower_bound; intros s x; apply Rmax_l).
      lra. }
    replace 0 with (0 * / fold_left (fun m x => Rmax m (Rabs x)) a 0)
      at 1 by lra.
    rewrite fold_left_maxAbs_scale by (apply Rinv_0_lt_compat; exact Hpos).
    field. exact NE.
Qed.

Lemma marg_loop_length (ind : list nat) (prod : Prob) (l : list nat)
  (marg marg' : Prob) :
  for_each l
    (fun r marg => k <- get ind r ;; x <- get prod r ;; add_at marg k x)
    marg = Ok marg' ->
  length marg' = length marg.
Proof.
  apply (for_each_invariant (fun q => length q = length marg));
    [|reflexivity].
  intros r s s' Hs H.
  apply bind_Ok_inv in H. destruct H as [k [_ H]].
  apply bind_Ok_inv in H. destruct H as [x [_ H]].
  unfold add_at in H. apply modify_Ok_inv in H.
  destruct H as [y [y' [_ [_ ->]]]]. now rewrite length_upd.
Qed.

(** The parts of a successful [calcNewMessage]: the normalized marginal
    [marg] it computes and the message it stores. *)
Lemma BP_calcNewMessage_stores (bp : BP) (i _I : nat) (bp' : BP) :
  BP_calcNewMessage bp i _I = Ok bp' ->
  exists vi marg m,
    var bp i = Ok vi /\
    length marg = states vi /\ normalized (normtype bp) marg /\
    (if logDomain bp then Prob_log marg else Ok marg) = Ok m /\
    BP_newMessage bp' i _I = Ok m.
Proof.
  rewrite BP_calcNewMessage_unfold. intros H.
  apply bind_Ok_inv in H. destruct H as [nbi [_ H]].
  apply bind_Ok_inv in H. destruct H as [nI [_ H]].
  apply bind_Ok_inv in H. destruct H as [fI [_ H]].
  apply bind_Ok_inv in H. destruct H as [prod00 [_ H]].
  apply bind_Ok_inv in H. destruct H as [nbI [_ H]].
  apply bind_Ok_inv in H. destruct H as [prod0 [_ H]].
  apply bind_Ok_inv in H. destruct H as [prod [_ H]].
  apply bind_Ok_inv in H. destruct H as [vi [Hvi H]].
  apply bind_Ok_inv in H. destruct H as [ind [_ H]].
  apply bind_Ok_inv in H. destruct H as [marg0 [Hloop H]].
  apply bind_Ok_inv in H. destruct H as [[marg z] [Hnorm H]].
  unfold for_range in Hloop. apply marg_loop_length in Hloop.
  unfold Prob_const in Hloop. rewrite repeat_length in Hloop.
  apply Prob_normalize_normalized in Hnorm. destruct Hnorm as [Hn Hl].
  unfold BP_newMessage. destruct (logDomain bp).
  - apply bind_Ok_inv in H. destruct H as [lm [Hlm H]].
    apply update_edge_lookup in H. destruct H as [[e [_ ->]] _].
    exists vi, marg, lm. repeat split; auto; congruence.
  - apply update_edge_lookup in H. destruct H as [[e [_ ->]] _].
    exists vi, marg, marg. repeat split; auto; congruence.
Qed.

(** X2: the message that [calcNewMessage( i, _I )] stages has one entry
    per state of variable [i]; in the linear domain it is normalized for
    [_normtype] (total sum 1 for PROB, largest absolute value 1 for LINF),
    and in the log domain it is the logarithm of such a vector. *)
Theorem calcNewMessage_stores_normalized (bp : BP) (i _I : nat) (bp' : BP) :
  BP_calcNewMessage bp i _I = Ok bp' ->
  exists vi m marg,
    var bp i = Ok vi /\ BP_newMessage bp' i _I = Ok m /\
    length m = states vi /\ normalized (normtype bp) marg /\
    (if logDomain bp then Prob_log marg else Ok marg) = Ok m.
Proof.
  intros H.
  destruct (BP_calcNewMessage_stores _ _ _ _ H)
    as [vi [marg [m [Hvi [Hlen [Hn [Hlog Hm]]]]]]].
  exists vi, m, marg.
  split; [exact Hvi|]. split; [exact Hm|]. split; [|split; auto].
  destruct (logDomain bp).
  - apply Prob_log_Ok in Hlog. destruct Hlog as [_ ->].
    rewrite length_map. exact Hlen.
  - injection Hlog as <-. exact Hlen.
Qed.

Lemma calcNewMessage_stores_normalized_witness :
  exists vi m marg,
    var bn0 0 = Ok vi /\ BP_newMessage bn0_calc 0 0 = Ok m /\
    length m = states vi /\ normalized (normtype bn0) marg /\
    (if logDomain bn0 then Prob_log marg else Ok marg) = Ok m.
Proof.
  apply (calcNewMessage_stores_normalized bn0 0 0 bn0_calc).
  exact BP_calcNewMessage_bn0_state.
Defined.

(** ** Beliefs are normalized *)

Lemma pointwise_length (op : R -> R -> R) (a b c : Prob) :
  pointwise op a b = Ok c -> length c = length a.
Proof.
  unfold pointwise. destruct (Nat.eqb_spec (length a) (length b)) as [E|];
    [|discriminate].
  intros H. injection H as <-. now apply length_pointwise.
Qed.

Lemma sub_max_length (ld : bool) (a b : Prob) :
  (if ld then m <- Prob_max a ;; Ok (Prob_exp (Prob_sub_scalar a m))
   else Ok a) = Ok b ->
  length b = length a.
Proof.
  destruct ld; intros H.
  - apply bind_Ok_inv in H. destruct H as [m [_ H]]. injection H as <-.
    unfold Prob_exp, Prob_sub_scalar. now rewrite !length_map.
  - injection H as <-. reflexivity.
Qed.

(** X3: a belief [beliefV( i )] is a factor on the single variable [i] with
    one entry per state of it and total sum 1, in the linear and in the log
    domain. *)
Theorem beliefV_is_distribution (bp : BP) (i : nat) (b : Factor) :
  BP_beliefV bp i = Ok b ->
  exists vi,
    var bp i = Ok vi /\ vars b = [vi] /\
    length (p b) = states vi /\ totalSum b = 1.
Proof.
  unfold BP_beliefV. intros H.
  apply bind_Ok_inv in H. destruct H as [vi [Hvi H]].
  apply bind_Ok_inv in H. destruct H as [nbi [_ H]].
  apply bind_Ok_inv in H. destruct H as [prod0 [Hloop H]].
  apply bind_Ok_inv in H. destruct H as [prod [Hmax H]].
  apply bind_Ok_inv in H. destruct H as [[a z] [Hnorm H]].
  injection H as <-. exists vi. split; [exact Hvi|]. split; [reflexivity|].
  apply Prob_normalize_normalized in Hnorm. destruct Hnorm as [Hn Hl].
  apply sub_max_length in Hmax.
  assert (Hlen0 : length prod0 = states vi).
  { revert Hloop.
    apply (for_each_invariant (fun q => length q = states vi)).
    - intros I s s' Hs HI.
      apply bind_Ok_inv in HI. destruct HI as [m [_ HI]].
      destruct (logDomain bp); apply pointwise_length in HI; congruence.
    - unfold Prob_const. apply repeat_length. }
  split; [simpl; congruence | exact Hn].
Qed.

Lemma beliefV_is_distribution_witness :
  exists vi,
    var bp1 0 = Ok vi /\ vars bV1 = [vi] /\
    length (p bV1) = states vi /\ totalSum bV1 = 1.
Proof.
  apply (beliefV_is_distribution bp1 0 bV1). exact BP_beliefV_bp1.
Defined.

(** X4: a belief [beliefF( I )] is a factor on the variables of factor [I]
    with as many entries as that factor and total sum 1, in the linear and
    in the log domain. *)
Theorem beliefF_is_distribution (bp : BP) (I : nat) (b : Factor) :
  BP_beliefF bp I = Ok b ->
  exists fI,
    factor bp I = Ok fI /\ vars b = vars fI /\
    length (p b) = length (p fI) /\ totalSum b = 1.
Proof.
  rewrite BP_beliefF_unfold. intros H.
  apply bind_Ok_inv in H. destruct H as [fI [HfI H]].
  apply bind_Ok_inv in H. destruct H as [prod00 [Hlog H]].
  apply bind_Ok_inv in H. destruct H as [nbI [_ H]].
  apply bind_Ok_inv in H. destruct H as [prod0 [Hloop H]].
  apply bind_Ok_inv in H. destruct H as [prod [Hmax H]].
  unfold Factor_normalize in H.
  apply bind_Ok_inv in H. destruct H as [[a z] [Hnorm H]].
  injection H as <-. exists fI. split; [exact HfI|]. split; [reflexivity|].
  simpl in Hnorm.
  apply Prob_normalize_normalized in Hnorm. destruct Hnorm as [Hn Hl].
  apply sub_max_length in Hmax.
  assert (Hlen0 : length prod0 = length (p fI)).
  { revert Hloop.
    apply (for_each_invariant (fun q => length q = length (p fI))).
    - intros j s s' Hs Hj. apply product_body_length in Hj. congruence.
    - destruct (logDomain bp).
      + apply Prob_log_Ok in Hlog. destruct Hlog as [_ ->].
        apply length_map.
      + now injection Hlog as <-. }
  split; [simpl; congruence | exact Hn].
Qed.

Lemma beliefF_is_distribution_witness :
  exists fI,
    factor bp1 0 = Ok fI /\ vars bF1 = vars fI /\
    length (p bF1) = length (p fI) /\ totalSum bF1 = 1.
Proof.
  apply (beliefF_is_distribution bp1 0 bF1). exact BP_beliefF_bp1.
Defined.

(** ** create, as a whole *)

Lemma for_each_total {A S : Type} (body : A -> S -> result S) (l : list A) :
  (forall a s, In a l -> exists s', body a s = Ok s') ->
  forall s, exists s', for_each l body s = Ok s'.
Proof.
  induction l as [|a l IH]; intros Hb s; simpl; [eauto|].
  destruct (Hb a s) as [s1 ->]; [left; reflexivity|]. simpl.
  apply IH. intros b t Hin. apply Hb. right. exact Hin.
Qed.

(** [create] succeeds on a graph with one neighbor list per variable whose
    neighbor records name existing factors. *)
Lemma BP_create_Ok (bp : BP) :
  length (fg_nbV (fg bp)) = nrVars bp ->
  (forall nb nI, In nb (fg_nbV (fg bp)) -> In nI nb ->
                 (node nI < nrFactors bp)%nat) ->
  exists bp', BP_create bp = Ok bp'.
Proof.
  intros Hn Hnode.
  unfold BP_create, for_range.
  destruct (for_each_total
              (fun i es =>
                 nb <- nbV bp i ;;
                 row <- for_each nb
                          (fun I row =>
                             v <- var bp i ;;
                             f <- factor bp (node I) ;;
                             let newEP :=
                               mkEdgeProp (IndexFor [v] (vars f))
                                 (Prob_uniform (states v))
                                 (Prob_uniform (states v)) 0 in
                             Ok (row ++ [newEP]))
                          [] ;;
                 Ok (es ++ [row]))
              (seq 0 (nrVars bp))) with (s := @nil (list EdgeProp))
    as [es Hes].
  - intros i es Hi. apply in_seq in Hi.
    unfold nbV. rewrite (get_lt _ i []) by lia. simpl.
    set (nb := nth i (fg_nbV (fg bp)) []).
    assert (Hnb : In nb (fg_nbV (fg bp))) by (apply nth_In; lia).
    destruct (for_each_total
                (fun I row =>
                   v <- var bp i ;;
                   f <- factor bp (node I) ;;
                   let newEP :=
                     mkEdgeProp (IndexFor [v] (vars f))
                       (Prob_uniform (states v))
                       (Prob_uniform (states v)) 0 in
                   Ok (row ++ [newEP]))
                nb) with (s := @nil EdgeProp) as [row Hrow].
    + intros nI row HnI. unfold var, factor.
      rewrite (get_lt _ i (mkVar 0 0)) by (unfold nrVars in *; lia).
      simpl.
      rewrite (get_lt _ (node nI) (mkFactor [] []))
        by (apply (Hnode nb nI Hnb HnI)).
      simpl. eauto.
    + cbv zeta in Hrow. rewrite Hrow. simpl. eauto.
  - cbv zeta in Hes. rewrite Hes. simpl. eauto.
Qed.

(** X5: on a graph that has one neighbor list per variable and whose
    neighbor records name existing factors, [create] succeeds; it leaves the
    graph as it is and builds an edge table with one row per variable and
    one entry per neighbor, each entry holding the index map
    [IndexFor( var(i), factor(I).vars() )], the uniform distribution on the
    states of [var(i)] as live and as staged message, and residual 0. *)
Theorem create_builds_edge_table (bp : BP) :
  length (fg_nbV (fg bp)) = nrVars bp ->
  (forall nb nI, In nb (fg_nbV (fg bp)) -> In nI nb ->
                 (node nI < nrFactors bp)%nat) ->
  exists bp',
    BP_create bp = Ok bp' /\ fg bp' = fg bp /\ edges_shape bp' /\
    forall i _I e, edge bp' i _I = Ok e ->
      exists nb nI vi fI,
        nbV bp i = Ok nb /\ get nb _I = Ok nI /\
        var bp i = Ok vi /\ factor bp (node nI) = Ok fI /\
        index e = IndexFor [vi] (vars fI) /\
        message e = Prob_uniform (states vi) /\
        newMessage e = Prob_uniform (states vi) /\
        residual e = 0.
Proof.
  intros Hn Hnode.
  destruct (BP_create_Ok bp Hn Hnode) as [bp' Hc].
 exists bp'. split; [exact Hc|].
  destruct (BP_create_shape bp bp' Hn Hc) as [Hfg Hs].
  split; [exact Hfg|]. split; [exact Hs|].
  intros i _I e He.
  destruct (BP_create_edge bp bp' i _I e Hc He)
    as [nb [nI [Hnb [HnI [v [f [Hv [Hf ->]]]]]]]].
  exists nb, nI, v, f. repeat split; assumption.
Qed.

Lemma create_builds_edge_table_witness :
  exists bp',
    BP_create (mkBP fg2 [] false NORMPROB) = Ok bp' /\
    fg bp' = fg2 /\ edges_shape bp' /\
    forall i _I e, edge bp' i _I = Ok e ->
      exists nb nI vi fI,
        nbV (mkBP fg2 [] false NORMPROB) i = Ok nb /\ get nb _I = Ok nI /\
        var (mkBP fg2 [] false NORMPROB) i = Ok vi /\
        factor (mkBP fg2 [] false NORMPROB) (node nI) = Ok fI /\
        index e = IndexFor [vi] (vars fI) /\
        message e = Prob_uniform (states vi) /\
        newMessage e = Prob_uniform (states vi) /\
        residual e = 0.
Proof.
  apply (create_builds_edge_table (mkBP fg2 [] false NORMPROB)).
  - reflexivity.
  - intros nb nI [<-|[<-|[]]] [<-|[]]; unfold nrFactors; simpl; lia.
Defined.

(** ** init() and init( ns ), edge by edge *)

(** X6: in a state whose edge table has the shape of the graph, [init()]
    succeeds; it keeps the graph, the flags and the shape of the table, and
    of every edge it fills the live and the staged message with the neutral
    element (0 in the log domain, 1 otherwise), keeping their lengths, the
    index map and the residual. *)
Theorem init_resets_every_edge (bp : BP) :
  wf_nbV bp -> edges_shape bp ->
  exists bp',
    BP_init bp = Ok bp' /\ same_frame bp bp' /\
    forall i _I e, edge bp i _I = Ok e ->
      exists e',
        edge bp' i _I = Ok e' /\
        message e' = Prob_fill (message e) (if logDomain bp then 0 else 1) /\
        newMessage e'
        = Prob_fill (newMessage e) (if logDomain bp then 0 else 1) /\
        index e' = index e /\ residual e' = residual e.
Proof.
  intros Hw Hs. eexists. split; [apply (BP_init_resets bp Hw Hs)|].
  split.
  - unfold same_frame, with_edges. simpl.
    split; [reflexivity|]. split; [reflexivity|]. split; [reflexivity|].
    rewrite map_map. apply map_ext. intros row. apply length_map.
  - intros i _I e He. rewrite edge_with_edges_map, He. simpl.
    eexists. split; [reflexivity|]. repeat split.
Qed.

Lemma init_resets_every_edge_witness :
  exists bp',
    BP_init bp2 = Ok bp' /\ same_frame bp2 bp' /\
    forall i _I e, edge bp2 i _I = Ok e ->
      exists e',
        edge bp' i _I = Ok e' /\
        message e' = Prob_fill (message e) (if logDomain bp2 then 0 else 1) /\
        newMessage e'
        = Prob_fill (newMessage e) (if logDomain bp2 then 0 else 1) /\
        index e' = index e /\ residual e' = residual e.
Proof.
  apply (init_resets_every_edge bp2 wf_nbV_bp2 edges_shape_bp2).
Defined.

(** The inner loop of [init( ns )] on the row of variable [ni]. *)
Lemma BP_init_ns_row (c : R) (rows_pre rows_post : list (list EdgeProp)) :
  forall (nb : list Neighbor) (mid pre post : list EdgeProp) (bp : BP),
    c = (if logDomain bp then 0 else 1) ->
    edges bp = rows_pre ++ (pre ++ mid ++ post) :: rows_post ->
    map iter nb = seq (length pre) (length mid) ->
    for_each nb
      (fun I bp =>
         update_edge bp (length rows_pre) (iter I)
           (fun e => with_message
                       (Prob_fill (message e)
                                  (if logDomain bp then 0 else 1)) e))
      bp
    = Ok (with_edges bp
            (rows_pre
               ++ (pre ++ map (fun e => with_message
                                          (Prob_fill (message e) c) e) mid
                       ++ post) :: rows_post)).
Proof.
  induction nb as [|I nb IH]; intros mid pre post bp Hc E Hit.
  - destruct mid; [|discriminate]. simpl in E |- *. rewrite <- E.
    destruct bp; reflexivity.
  - destruct mid as [|e mid]; [discriminate|]. simpl in Hit.
    injection Hit as HI Hit. simpl for_each. rewrite HI.
    simpl in E.
    rewrite (update_edge_middle bp _ _ _ _ _ _ E). simpl bind.
    rewrite (IH mid (pre ++ [with_message (Prob_fill (message e) c) e]) post).
    + simpl. rewrite <- !app_assoc. reflexivity.
    + exact Hc.
    + simpl. rewrite <- Hc, <- app_assoc. reflexivity.
    + rewrite length_app. simpl. rewrite Nat.add_1_r. exact Hit.
Qed.

Lemma find_from_bounds (vs : list Var) (n : Var) :
  forall k i, find_from vs n k = Ok i -> (k <= i < k + length vs)%nat.
Proof.
  induction vs as [|v vs IH]; intros k i H; simpl in H; [discriminate|].
  destruct (var_eqb v n).
  - injection H as <-. simpl. lia.
  - apply IH in H. simpl. lia.
Qed.

Lemma findVar_lt (bp : BP) (n : Var) (i : nat) :
  findVar bp n = Ok i -> (i < nrVars bp)%nat.
Proof.
  unfold findVar, nrVars. intros H. apply find_from_bounds in H. lia.
Qed.

Lemma edge_middle (bp : BP) (rows_pre rows_post : list (list EdgeProp))
  (row : list EdgeProp) (i _I : nat) :
  edge (with_edges bp (rows_pre ++ row :: rows_post)) i _I
  = if (i =? length rows_pre)%nat then get row _I
    else (r <- get (rows_pre ++ row :: rows_post) i ;; get r _I).
Proof.
  unfold edge. simpl. destruct (Nat.eqb_spec i (length rows_pre)) as [->|Hne].
  - rewrite get_middle. reflexivity.
  - reflexivity.
Qed.

Lemma get_middle_ne {A : Type} (pre : list A) (a b : A) (post : list A)
  (i : nat) :
  i <> length pre -> get (pre ++ a :: post) i = get (pre ++ b :: post) i.
Proof.
  intros Hne. unfold get.
  destruct (Nat.lt_ge_cases i (length pre)) as [Hlt|Hge].
  - rewrite !nth_error_app1 by exact Hlt. reflexivity.
  - rewrite !nth_error_app2 by exact Hge.
    destruct (i - length pre)%nat eqn:E; [lia|]. reflexivity.
Qed.

(** One round of the outer loop of [init( ns )]: the messages of the edges
    of variable [ni] are filled, nothing else changes. *)
Lemma BP_init_ns_one (bp : BP) (ni : nat) :
  wf_nbV bp -> edges_shape bp -> (ni < nrVars bp)%nat ->
  exists bp',
    (nb <- nbV bp ni ;;
     for_each nb
       (fun I bp =>
          update_edge bp ni (iter I)
            (fun e => with_message
                        (Prob_fill (message e)
                                   (if logDomain bp then 0 else 1)) e))
       bp) = Ok bp' /\
    same_frame bp bp' /\
    forall i _I,
      edge bp' i _I
      = (e <- edge bp i _I ;;
         Ok (if (i =? ni)%nat
             then with_message
                    (Prob_fill (message e) (if logDomain bp then 0 else 1)) e
             else e)).
Proof.
  intros Hw Hs Hni.
  destruct (edge_row bp ni Hs Hni) as [row [Hrow Hlen]].
  destruct (nbV_lt bp ni Hs Hni) as [nb [Hnb Hdeg]].
  destruct (nth_error_split _ _ Hrow) as [rows_pre [rows_post [E Hpre]]].
  rewrite Hnb. simpl bind. subst ni.
  assert (Hit : map iter nb = seq 0 (length row)).
  { unfold nbV in Hnb. apply get_Ok in Hnb.
    rewrite (Hw _ _ Hnb). f_equal. congruence. }
  pose proof (BP_init_ns_row (if logDomain bp then 0 else 1)
                rows_pre rows_post nb row [] [] bp eq_refl) as H.
  cbn [length app] in H. rewrite !app_nil_r in H.
  specialize (H E Hit). rewrite H.
  eexists. split; [reflexivity|]. split.
  - unfold same_frame, with_edges. simpl.
    split; [reflexivity|]. split; [reflexivity|]. split; [reflexivity|].
    rewrite E, !map_app. simpl. rewrite length_map. reflexivity.
  - intros i _I. rewrite edge_middle. unfold edge. rewrite E.
    destruct (Nat.eqb_spec i (length rows_pre)) as [->|Hne].
    + rewrite get_middle. simpl. apply get_map.
    + rewrite (get_middle_ne rows_pre _ row) by exact Hne.
      destruct (get (rows_pre ++ row :: rows_post) i) as [r|]; simpl;
        [|reflexivity].
      destruct (get r _I); reflexivity.
Qed.

Lemma findVar_same_frame (bp bp' : BP) (n : Var) :
  same_frame bp bp' -> findVar bp' n = findVar bp n.
Proof. intros [H _]. unfold findVar. now rewrite H. Qed.

(** The outer loop of [init( ns )] from a state [bpk] that already went
    through some rounds. *)
Lemma BP_init_ns_loop (bp : BP) (ns : VarSet) :
  wf_nbV bp -> edges_shape bp ->
  (forall n, In n ns -> exists i, findVar bp n = Ok i) ->
  exists bp',
    BP_init_ns bp ns = Ok bp' /\ same_frame bp bp' /\
    forall i _I e, edge bp i _I = Ok e ->
      (edge bp' i _I = Ok e \/
       edge bp' i _I
       = Ok (with_message
               (Prob_fill (message e) (if logDomain bp then 0 else 1)) e)) /\
      (forall n, In n ns -> findVar bp n = Ok i ->
         edge bp' i _I
         = Ok (with_message
                 (Prob_fill (message e) (if logDomain bp then 0 else 1)) e)) /\
      ((forall n, In n ns -> findVar bp n <> Ok i) ->
         edge bp' i _I = Ok e).
Proof.
  unfold BP_init_ns. revert bp.
  induction ns as [|n ns IH]; intros bp Hw Hs Hfound.
  - exists bp. split; [reflexivity|]. split; [apply same_frame_refl|].
    intros i _I e He. split; [left; exact He|].
    split; [intros n []|]. intros _. exact He.
  - destruct (Hfound n (or_introl eq_refl)) as [ni Hni].
    simpl for_each. rewrite Hni. simpl bind.
    destruct (BP_init_ns_one bp ni Hw Hs (findVar_lt bp n ni Hni))
      as [bp1 [H1 [Hf1 He1]]].
    rewrite H1. simpl bind.
    destruct (same_frame_shape bp bp1 Hf1) as [Hw1 [Hs1 _]].
    assert (Hld : logDomain bp1 = logDomain bp) by apply Hf1.
    destruct (IH bp1 (Hw1 Hw) (Hs1 Hs)) as [bp' [H' [Hf' He']]].
    { intros m Hm. rewrite (findVar_same_frame bp bp1 m Hf1).
      apply Hfound. right. exact Hm. }
    exists bp'. split; [exact H'|].
    split; [apply (same_frame_trans bp bp1 bp' Hf1 Hf')|].
    intros i _I e He.
    specialize (He1 i _I). rewrite He in He1. simpl in He1.
    destruct (He' i _I _ He1) as [Hor [Hin Hout]].
    rewrite Hld in Hor, Hin.
    destruct (Nat.eqb_spec i ni) as [->|Hne].
    + assert (Hdone :
        edge bp' ni _I
        = Ok (with_message
                (Prob_fill (message e) (if logDomain bp then 0 else 1)) e)).
      { unfold with_message, Prob_fill in Hor |- *. simpl in Hor.
        rewrite map_map in Hor. destruct Hor as [Hor|Hor]; exact Hor. }
      split; [right; exact Hdone|].
      split; [intros; exact Hdone|].
      intros Hnone. exfalso. apply (Hnone n (or_introl eq_refl) Hni).
    + split; [exact Hor|]. split.
      * intros m [<-|Hm] Hfm; [congruence|].
        apply (Hin m Hm). rewrite (findVar_same_frame bp bp1 m Hf1).
        exact Hfm.
      * intros Hnone. apply Hout. intros m Hm.
        rewrite (findVar_same_frame bp bp1 m Hf1).
        apply Hnone. right. exact Hm.
Qed.

(** X7: in a state whose edge table has the shape of the graph and for
    variables [ns] of the graph, [init( ns )] succeeds; it keeps the graph,
    the flags and the shape of the table; of every edge of a variable in
    [ns] it fills the live message with the neutral element and keeps the
    staged message, the index map and the residual; every edge of a
    variable outside [ns] is left as it is. *)
Theorem init_ns_resets_live_messages (bp : BP) (ns : VarSet) :
  wf_nbV bp -> edges_shape bp ->
  (forall n, In n ns -> exists i, findVar bp n = Ok i) ->
  exists bp',
    BP_init_ns bp ns = Ok bp' /\ same_frame bp bp' /\
    forall i _I e, edge bp i _I = Ok e ->
      (forall n, In n ns -> findVar bp n = Ok i ->
         exists e',
           edge bp' i _I = Ok e' /\
           message e'
           = Prob_fill (message e) (if logDomain bp then 0 else 1) /\
           newMessage e' = newMessage e /\
           index e' = index e /\ residual e' = residual e) /\
      ((forall n, In n ns -> findVar bp n <> Ok i) ->
         edge bp' i _I = Ok e).
Proof.
  intros Hw Hs Hfound.
  destruct (BP_init_ns_loop bp ns Hw Hs Hfound) as [bp' [H [Hf He]]].
  exists bp'. split; [exact H|]. split; [exact Hf|].
  intros i _I e Hedge. destruct (He i _I e Hedge) as [_ [Hin Hout]].
  split; [|exact Hout].
  intros n Hn Hfn. eexists. split; [apply (Hin n Hn Hfn)|].
  repeat split.
Qed.

Lemma init_ns_resets_live_messages_witness :
  exists bp',
    BP_init_ns bp2 [x1] = Ok bp' /\ same_frame bp2 bp' /\
    forall i _I e, edge bp2 i _I = Ok e ->
      (forall n, In n [x1] -> findVar bp2 n = Ok i ->
         exists e',
           edge bp' i _I = Ok e' /\
           message e'
           = Prob_fill (message e) (if logDomain bp2 then 0 else 1) /\
           newMessage e' = newMessage e /\
           index e' = index e /\ residual e' = residual e) /\
      ((forall n, In n [x1] -> findVar bp2 n <> Ok i) ->
         edge bp' i _I = Ok e).
Proof.
  apply (init_ns_resets_live_messages bp2 [x1] wf_nbV_bp2 edges_shape_bp2).
  intros n [<-|[]]. exists 1%nat. reflexivity.
Defined.

(** [init( ns )] fails on a variable that is not in the graph. *)
Lemma find_from_missing (vs : list Var) (n : Var) :
  (forall v, In v vs -> var_eqb v n = false) ->
  forall k, find_from vs n k = Err PRECONDITION.
Proof.
  induction vs as [|v vs IH]; intros H k; simpl; [reflexivity|].
  rewrite (H v (or_introl eq_refl)). apply IH.
  intros w Hw. apply H. right. exact Hw.
Qed.

Lemma find_from_Err (vs : list Var) (n : Var) :
  forall k e, find_from vs n k = Err e -> e = PRECONDITION.
Proof.
  induction vs as [|v vs IH]; intros k e H; simpl in H.
  - congruence.
  - destruct (var_eqb v n); [discriminate|]. apply (IH _ _ H).
Qed.

(** X8: in a state whose edge table has the shape of the graph,
    [init( ns )] with a variable in [ns] that is not a variable of the
    graph fails on the assertion of [findVar], whatever the other
    variables of [ns] are. *)
Theorem init_ns_unknown_variable_fails (bp : BP) (ns : VarSet) (n : Var) :
  wf_nbV bp -> edges_shape bp ->
  In n ns ->
  (forall v, In v (fg_vars (fg bp)) -> var_eqb v n = false) ->
  BP_init_ns bp ns = Err PRECONDITION.
Proof.
  unfold BP_init_ns. revert bp.
  induction ns as [|m ns IH]; intros bp Hw Hs Hin Hmiss; [destruct Hin|].
  simpl for_each.
  destruct (findVar bp m) as [mi|e] eqn:Hm.
  - simpl bind.
    destruct (BP_init_ns_one bp mi Hw Hs (findVar_lt bp m mi Hm))
      as [bp1 [H1 [Hf1 _]]].
    rewrite H1. simpl bind.
    destruct (same_frame_shape bp bp1 Hf1) as [Hw1 [Hs1 _]].
    apply IH; [exact (Hw1 Hw)|exact (Hs1 Hs)| |].
    + destruct Hin as [->|Hin]; [|exact Hin].
      unfold findVar in Hm. rewrite (find_from_missing _ n Hmiss) in Hm.
      discriminate.
    + destruct Hf1 as [Hfg _]. rewrite Hfg. exact Hmiss.
  - simpl. f_equal. apply (find_from_Err _ _ _ _ Hm).
Qed.

Lemma init_ns_unknown_variable_fails_witness :
  BP_init_ns bp1 [x0; x1] = Err PRECONDITION.
Proof.
  apply (init_ns_unknown_variable_fails bp1 [x0; x1] x1).
  - intros [|j] nb H; simpl in H; [injection H as <-; reflexivity|].
    destruct j; discriminate.
  - split; reflexivity.
  - right. left. reflexivity.
  - intros v [<-|[]]. reflexivity.
Defined.

(** ** The schedules of run, edge by edge *)

Lemma for_each_ext {A S : Type} (f g : A -> S -> result S) (l : list A) :
  (forall a s, In a l -> f a s = g a s) ->
  forall s, for_each l f s = for_each l g s.
Proof.
  induction l as [|a l IH]; intros H s; simpl; [reflexivity|].
  rewrite (H a s (or_introl eq_refl)).
  destruct (g a s) as [s1|e]; simpl; [|reflexivity].
  apply IH. intros b t Hb. apply H. right. exact Hb.
Qed.

(** A loop whose rounds keep [P] and keep [Q] once it holds, and one of
    whose rounds brings [Q] about, ends in a state with [P] and [Q]. *)
Lemma for_each_establish {A S : Type} (P Q : S -> Prop)
  (body : A -> S -> result S) (l : list A) :
  (forall a s s', P s -> body a s = Ok s' -> P s') ->
  (forall a s s', P s -> Q s -> body a s = Ok s' -> Q s') ->
  forall a0, In a0 l ->
    (forall s s', P s -> body a0 s = Ok s' -> Q s') ->
    forall s s', P s -> for_each l body s = Ok s' -> P s' /\ Q s'.
Proof.
  intros HP HQ a0 Hin H0.
  induction l as [|a l IH]; intros s s' Hs H; [destruct Hin|].
  simpl in H. apply bind_Ok_inv in H. destruct H as [s1 [H1 H]].
  assert (Hs1 : P s1) by apply (HP a s s1 Hs H1).
  destruct Hin as [->|Hin].
  - assert (Hq1 : Q s1) by apply (H0 s s1 Hs H1).
    revert H. apply (for_each_invariant (fun t => P t /\ Q t)); [|auto].
    intros b t t' [Ht Hqt] Hb. split.
    + apply (HP b t t' Ht Hb).
    + apply (HQ b t t' Ht Hqt Hb).
  - apply (IH Hin s1 s' Hs1 H).
Qed.

(** What the commit [message( i, _I ) = newMessage( i, _I )] writes. *)
Lemma BP_commit_writes (bp : BP) (i _I : nat) (bp' : BP) :
  BP_commit bp i _I = Ok bp' ->
  same_frame bp bp' /\
  (exists e, edge bp i _I = Ok e /\
             edge bp' i _I = Ok (with_message (newMessage e) e)) /\
  forall i' _I', (i', _I') <> (i, _I) -> edge bp' i' _I' = edge bp i' _I'.
Proof.
  unfold BP_commit, BP_newMessage. intros H.
  apply bind_Ok_inv in H. destruct H as [nm [Hnm H]].
  apply bind_Ok_inv in Hnm. destruct Hnm as [e [He E]]. injection E as <-.
  split; [apply (update_edge_frame _ _ _ _ _ H)|].
  apply update_edge_lookup in H. destruct H as [[e0 [He0 He']] Hother].
  split; [|exact Hother].
  exists e. split; [exact He|]. congruence.
Qed.

(** What the update of a residual in the SEQMAX schedule writes:
    [calcNewMessage( j, _J )] followed by
    [residual( j, _J ) = dist( newMessage( j, _J ), message( j, _J ) )]. *)
Lemma residual_update_writes (bp : BP) (j _J : nat) (bp' : BP) :
  (b <- BP_calcNewMessage bp j _J ;;
   nm <- BP_newMessage b j _J ;;
   m <- BP_message b j _J ;;
   update_edge b j _J (with_residual (dist_Prob nm m DISTLINF))) = Ok bp' ->
  same_frame bp bp' /\
  (exists e m',
     edge bp j _J = Ok e /\
     edge bp' j _J
     = Ok (mkEdgeProp (index e) (message e) m'
                      (dist_Prob m' (message e) DISTLINF))) /\
  forall i' _I', (i', _I') <> (j, _J) -> edge bp' i' _I' = edge bp i' _I'.
Proof.
  intros H.
  apply bind_Ok_inv in H. destruct H as [b [Hb H]].
  apply bind_Ok_inv in H. destruct H as [nm [Hnm H]].
  apply bind_Ok_inv in H. destruct H as [m [Hm H]].
  pose proof (BP_calcNewMessage_frame _ _ _ _ Hb) as Hf1.
  pose proof (update_edge_frame _ _ _ _ _ H) as Hf2.
  destruct (BP_calcNewMessage_writes _ _ _ _ Hb) as [e [m' [He [He1 Ho1]]]].
  apply update_edge_lookup in H. destruct H as [[e1 [He1' He2]] Ho2].
  unfold BP_newMessage in Hnm. unfold BP_message in Hm.
  rewrite He1 in Hnm, Hm, He1'. simpl in Hnm, Hm.
  injection Hnm as <-. injection Hm as <-. injection He1' as <-.
  split; [apply (same_frame_trans _ b); assumption|].
  split.
  - exists e, m'. split; [exact He|]. exact He2.
  - intros i' _I' Hne. rewrite (Ho2 i' _I' Hne). apply (Ho1 i' _I' Hne).
Qed.

(** The loop of a SEQMAX step that refreshes the residuals around
    variable [i] writes no edge of variable [i] and no live message. *)
Lemma seqmax_refresh_keeps (b2 : BP) (i _I : nat) (nbi : list Neighbor)
  (bp' : BP) :
  for_each nbi
    (fun J bp =>
       if negb (iter J =? _I)%nat then
         nbJ <- nbF bp (node J) ;;
         for_each nbJ
           (fun j bp =>
              let _J := dual j in
              if negb (node j =? i)%nat then
                bp <- BP_calcNewMessage bp (node j) _J ;;
                nm <- BP_newMessage bp (node j) _J ;;
                m <- BP_message bp (node j) _J ;;
                update_edge bp (node j) _J
                  (with_residual (dist_Prob nm m DISTLINF))
              else Ok bp)
           bp
       else Ok bp)
    b2 = Ok bp' ->
  forall i' _I' e, edge b2 i' _I' = Ok e ->
    exists e', edge bp' i' _I' = Ok e' /\
               index e' = index e /\ message e' = message e /\
               (i' = i -> e' = e).
Proof.
  set (P := fun s : BP =>
    forall i' _I' e, edge b2 i' _I' = Ok e ->
      exists e', edge s i' _I' = Ok e' /\
                 index e' = index e /\ message e' = message e /\
                 (i' = i -> e' = e)).
  intros H. revert H. apply (for_each_invariant P).
  2:{ intros i' _I' e He. exists e. auto. }
  intros J s s' Hs HJ. destruct (negb (iter J =? _I)%nat).
  2:{ injection HJ as <-. exact Hs. }
  apply bind_Ok_inv in HJ. destruct HJ as [nbJ [_ HJ]].
  revert HJ. apply (for_each_invariant P); [|exact Hs].
  intros j t t' Ht Hj. cbv zeta in Hj.
  destruct (Nat.eqb_spec (node j) i) as [Heq|Hne]; simpl negb in Hj; cbv iota in Hj.
  { injection Hj as <-. exact Ht. }
  apply residual_update_writes in Hj.
  destruct Hj as [_ [[e0 [m' [He0 He0']]] Hother]].
  intros i' _I' e He. destruct (Ht i' _I' e He) as [e1 [He1 [Hi [Hm Hsame]]]].
  destruct (Nat.eq_dec i' (node j)) as [Hi'|Hi'];
    [destruct (Nat.eq_dec _I' (dual j)) as [HI'|HI']|].
  - subst i' _I'. rewrite He0 in He1. injection He1 as <-.
    eexists. split; [exact He0'|]. simpl.
    split; [exact Hi|]. split; [exact Hm|]. intros E. congruence.
  - exists e1. rewrite Hother by congruence. auto.
  - exists e1. rewrite Hother by congruence. auto.
Qed.

Lemma BP_seqmax_step_bn0_calc : BP_seqmax_step bn0_calc = Ok (0%nat, 0%nat, bp1).
Proof.
  unfold BP_seqmax_step. rewrite BP_findMaxResidual_unfold.
  unfold bn0_calc, for_range. simpl. unfold scan_body. simpl.
  destruct (Rlt_dec 0 0) as [E|_]; [lra|]. reflexivity.
Qed.

(** X9: a step of the SEQMAX schedule commits the edge it selects, and no
    other: of the selected edge [(i, _I)] the live message becomes the
    staged one and the residual becomes 0; of every other edge the live
    message and the index map stay as they are (only staged messages and
    residuals are refreshed). *)
Theorem seqmax_step_commits_selected_edge (bp : BP) (i _I : nat) (bp' : BP) :
  BP_seqmax_step bp = Ok (i, _I, bp') ->
  (exists e,
     edge bp i _I = Ok e /\
     edge bp' i _I = Ok (mkEdgeProp (index e) (newMessage e) (newMessage e) 0))
  /\
  forall i' _I' e, (i', _I') <> (i, _I) -> edge bp i' _I' = Ok e ->
    exists e', edge bp' i' _I' = Ok e' /\
               index e' = index e /\ message e' = message e.
Proof.
  unfold BP_seqmax_step. intros H.
  apply bind_Ok_inv in H. destruct H as [[i0 _I0] [_ H]].
  apply bind_Ok_inv in H. destruct H as [nm [Hnm H]].
  apply bind_Ok_inv in H. destruct H as [b1 [H1 H]].
  apply bind_Ok_inv in H. destruct H as [b2 [H2 H]].
  apply bind_Ok_inv in H. destruct H as [nbi [_ H]].
  apply bind_Ok_inv in H. destruct H as [b3 [H3 H]].
  injection H as -> -> ->.
  unfold BP_newMessage in Hnm.
  apply bind_Ok_inv in Hnm. destruct Hnm as [e [He E]]. injection E as <-.
  apply update_edge_lookup in H1. destruct H1 as [[e1 [He1 He1']] Ho1].
  apply update_edge_lookup in H2. destruct H2 as [[e2 [He2 He2']] Ho2].
  rewrite He in He1. injection He1 as <-.
  rewrite He1' in He2. injection He2 as <-.
  pose proof (seqmax_refresh_keeps b2 i _I nbi bp' H3) as Hkeep.
  split.
  - exists e. split; [exact He|].
    destruct (Hkeep i _I _ He2') as [e' [He' [_ [_ Hsame]]]].
    rewrite He', (Hsame eq_refl). reflexivity.
  - intros i' _I' e0 Hne He0.
    assert (Hb2 : edge b2 i' _I' = Ok e0).
    { rewrite (Ho2 i' _I' Hne), (Ho1 i' _I' Hne). exact He0. }
    destruct (Hkeep i' _I' e0 Hb2) as [e' [He' [Hi [Hm _]]]].
    exists e'. auto.
Qed.

Lemma seqmax_step_commits_selected_edge_witness :
  (exists e,
     edge bn0_calc 0 0 = Ok e /\
     edge bp1 0 0 = Ok (mkEdgeProp (index e) (newMessage e) (newMessage e) 0))
  /\
  forall i' _I' e, (i', _I') <> (0%nat, 0%nat) -> edge bn0_calc i' _I' = Ok e ->
    exists e', edge bp1 i' _I' = Ok e' /\
               index e' = index e /\ message e' = message e.
Proof.
  apply (seqmax_step_commits_selected_edge bn0_calc 0 0 bp1).
  exact BP_seqmax_step_bn0_calc.
Defined.

(** ** calcNewMessage reads live messages only *)

Lemma update_edge_Ok (bp : BP) (i _I : nat) (f : EdgeProp -> EdgeProp)
  (e : EdgeProp) :
  edge bp i _I = Ok e -> exists bp', update_edge bp i _I f = Ok bp'.
Proof.
  unfold edge, update_edge, modify. intros H.
  apply bind_Ok_inv in H. destruct H as [row [Hrow He]].
  rewrite Hrow. simpl. rewrite He. simpl. eauto.
Qed.

Lemma BP_index_Ok (bp : BP) (i _I : nat) (ind : list nat) :
  BP_index bp i _I = Ok ind -> exists e, edge bp i _I = Ok e.
Proof.
  unfold BP_index. intros H. apply bind_Ok_inv in H.
  destruct H as [e [He _]]. eauto.
Qed.

Lemma product_body_same_live (bp bq : BP) (skip : nat -> bool) (I : nat)
  (j : Neighbor) (prod : Prob) :
  same_live bp bq ->
  product_body bq BP_message skip I j prod
  = product_body bp BP_message skip I j prod.
Proof.
  intros [[Hfg [Hld _]] Hl]. unfold product_body.
  destruct (negb (skip (node j))); [|reflexivity]. cbv zeta.
  rewrite (proj1 (Hl _ _)). unfold var, nbV. rewrite Hfg, Hld.
  destruct (BP_index bp (node j) (dual j)) as [ind|]; [|reflexivity].
  cbn [bind].
  destruct (get (fg_vars (fg bp)) (node j)) as [vj|]; [|reflexivity].
  cbn [bind].
  destruct (get (fg_nbV (fg bp)) (node j)) as [nbj|]; [|reflexivity].
  cbn [bind].
  match goal with
  | |- bind (for_each _ ?F _) _ = bind (for_each _ ?G _) _ =>
      rewrite (for_each_ext F G)
  end; [reflexivity|].
  intros J s _. destruct (negb (node J =? I)%nat); [|reflexivity].
  rewrite (proj2 (Hl _ _)). reflexivity.
Qed.

Lemma BP_calcNewMessage_same_live (bp bq : BP) (i _I : nat) (bp' : BP) :
  same_live bp bq ->
  BP_calcNewMessage bp i _I = Ok bp' ->
  exists bq',
    BP_calcNewMessage bq i _I = Ok bq' /\
    BP_newMessage bq' i _I = BP_newMessage bp' i _I.
Proof.
  intros Hsl H. pose proof Hsl as [Hf Hl].
  pose proof Hf as [Hfg [Hld [Hnt _]]].
  rewrite BP_calcNewMessage_unfold in H |- *.
  rewrite Hld, Hnt.
  apply bind_Ok_inv in H. destruct H as [nbi [E1 H]].
  rewrite (proj1 (proj2 (edge_same_frame bp bq i Hf))), E1. cbn [bind].
  apply bind_Ok_inv in H. destruct H as [nI [E2 H]].
  rewrite E2. cbn [bind].
  apply bind_Ok_inv in H. destruct H as [fI [E3 H]].
  rewrite (proj2 (proj2 (proj2 (edge_same_frame bp bq (node nI) Hf)))), E3.
  cbn [bind].
  apply bind_Ok_inv in H. destruct H as [prod0 [E3' H]].
  rewrite E3'. cbn [bind].
  apply bind_Ok_inv in H. destruct H as [nbI [E4 H]].
  rewrite (proj1 (proj2 (proj2 (edge_same_frame bp bq (node nI) Hf)))), E4.
  cbn [bind].
  apply bind_Ok_inv in H. destruct H as [prod [E5 H]].
  rewrite (for_each_ext
             (product_body bq BP_message (fun n => (n =? i)%nat) (node nI))
             (product_body bp BP_message (fun n => (n =? i)%nat) (node nI)))
    by (intros; apply product_body_same_live; exact Hsl).
  rewrite E5. cbn [bind].
  apply bind_Ok_inv in H. destruct H as [prod' [E6 H]].
  rewrite E6. cbn [bind].
  apply bind_Ok_inv in H. destruct H as [vi [E7 H]].
  rewrite (proj1 (edge_same_frame bp bq i Hf)), E7. cbn [bind].
  apply bind_Ok_inv in H. destruct H as [ind [E8 H]].
  rewrite (proj1 (Hl i _I)), E8. cbn [bind].
  apply bind_Ok_inv in H. destruct H as [marg [E9 H]].
  rewrite E9. cbn [bind].
  apply bind_Ok_inv in H. destruct H as [[marg' z] [E10 H]].
  rewrite E10. cbn [bind].
  assert (Hstore : forall m,
    update_edge bp i _I (with_newMessage m) = Ok bp' ->
    exists bq',
      update_edge bq i _I (with_newMessage m) = Ok bq' /\
      BP_newMessage bq' i _I = BP_newMessage bp' i _I).
  { intros m Hu.
    rewrite <- (proj1 (Hl i _I)) in E8.
    destruct (BP_index_Ok _ _ _ _ E8) as [eq Heq].
    destruct (update_edge_Ok bq i _I (with_newMessage m) eq Heq)
      as [bq' Hq].
    exists bq'. split; [exact Hq|].
    apply update_edge_lookup in Hu. destruct Hu as [[e [_ He]] _].
    apply update_edge_lookup in Hq. destruct Hq as [[e' [_ He']] _].
    unfold BP_newMessage. rewrite He, He'. reflexivity. }
  destruct (logDomain bp); [|apply Hstore; exact H].
  apply bind_Ok_inv in H. destruct H as [lm [E11 H]].
  rewrite E11. cbn [bind]. apply Hstore; exact H.
Qed.

Lemma same_frame_sym (a b : BP) : same_frame a b -> same_frame b a.
Proof. intros [H1 [H2 [H3 H4]]]. repeat split; congruence. Qed.

Lemma same_live_refl (bp : BP) : same_live bp bp.
Proof. split; [apply same_frame_refl|]. intros; split; reflexivity. Qed.

Lemma same_live_sym (a b : BP) : same_live a b -> same_live b a.
Proof.
  intros [Hf Hl]. split; [apply (same_frame_sym _ _ Hf)|].
  intros i _I. destruct (Hl i _I) as [H1 H2]. split; congruence.
Qed.

Lemma same_live_trans (a b c : BP) :
  same_live a b -> same_live b c -> same_live a c.
Proof.
  intros [Hf Hl] [Kf Kl]. split; [apply (same_frame_trans _ _ _ Hf Kf)|].
  intros i _I. destruct (Hl i _I) as [H1 H2]. destruct (Kl i _I) as [K1 K2].
  split; congruence.
Qed.

(** A write that keeps the index map and the live message of the edge. *)
Lemma edge_write_same_live (bp bp' : BP) (i _I : nat) :
  same_frame bp bp' ->
  (exists e e', edge bp i _I = Ok e /\ edge bp' i _I = Ok e' /\
                index e' = index e /\ message e' = message e) ->
  (forall i' _I', (i', _I') <> (i, _I) -> edge bp' i' _I' = edge bp i' _I') ->
  same_live bp bp'.
Proof.
  intros Hf [e [e' [He [He' [Hi Hm]]]]] Hother. split; [exact Hf|].
  intros i' _I'. unfold BP_index, BP_message.
  destruct (Nat.eq_dec i' i) as [->|Hne];
    [destruct (Nat.eq_dec _I' _I) as [->|Hne]|].
  - rewrite He, He'. simpl. split; congruence.
  - rewrite Hother by congruence. split; reflexivity.
  - rewrite Hother by congruence. split; reflexivity.
Qed.

Lemma BP_calcNewMessage_keeps_live (bp : BP) (i _I : nat) (bp' : BP) :
  BP_calcNewMessage bp i _I = Ok bp' -> same_live bp bp'.
Proof.
  intros H. pose proof (BP_calcNewMessage_frame _ _ _ _ H) as Hf.
  destruct (BP_calcNewMessage_writes _ _ _ _ H) as [e [m [He [He' Ho]]]].
  apply (edge_write_same_live bp bp' i _I Hf); [|exact Ho].
  exists e, (with_newMessage m e). auto.
Qed.

(** X10: [calcNewMessage( i, _I )] reads the graph, the index maps and the
    live messages only: on two states that differ at most in staged
    messages and residuals it fails on both or stores the same staged
    message. *)
Theorem calcNewMessage_reads_live_messages_only (bp bq : BP) (i _I : nat) :
  same_live bp bq ->
  (forall bp', BP_calcNewMessage bp i _I = Ok bp' ->
     exists bq',
       BP_calcNewMessage bq i _I = Ok bq' /\
       BP_newMessage bq' i _I = BP_newMessage bp' i _I) /\
  (forall err, BP_calcNewMessage bp i _I = Err err ->
     exists err', BP_calcNewMessage bq i _I = Err err').
Proof.
  intros Hsl. split.
  - intros bp'. apply (BP_calcNewMessage_same_live bp bq i _I bp' Hsl).
  - intros err Herr.
    destruct (BP_calcNewMessage bq i _I) as [bq'|err'] eqn:Hq; [|eauto].
    destruct (BP_calcNewMessage_same_live bq bp i _I bq'
                (same_live_sym _ _ Hsl) Hq) as [bp' [Hp _]].
    congruence.
Qed.

Lemma same_live_bn0_calc : same_live bn0 bn0_calc.
Proof.
  split; [repeat split|].
  intros [|[|i]] [|[|_I]]; split; reflexivity.
Qed.

Lemma calcNewMessage_reads_live_messages_only_witness :
  (forall bp', BP_calcNewMessage bn0 0 0 = Ok bp' ->
     exists bq',
       BP_calcNewMessage bn0_calc 0 0 = Ok bq' /\
       BP_newMessage bq' 0 0 = BP_newMessage bp' 0 0) /\
  (forall err, BP_calcNewMessage bn0 0 0 = Err err ->
     exists err', BP_calcNewMessage bn0_calc 0 0 = Err err').
Proof.
  apply (calcNewMessage_reads_live_messages_only bn0 bn0_calc 0 0).
  exact same_live_bn0_calc.
Defined.

(** ** The sequential and the parallel passes *)

Lemma for_each_invariant_In {A S : Type} (P : S -> Prop)
  (body : A -> S -> result S) (l : list A) :
  (forall a s s', In a l -> P s -> body a s = Ok s' -> P s') ->
  forall s s', P s -> for_each l body s = Ok s' -> P s'.
Proof.
  induction l as [|a l IH]; intros Hb s s' Hs H; simpl in H.
  - injection H as <-. exact Hs.
  - apply bind_Ok_inv in H. destruct H as [s1 [H1 H]].
    apply (IH (fun b t t' Hin => Hb b t t' (or_intror Hin)) s1 s'); auto.
    apply (Hb a s s1); auto. left. reflexivity.
Qed.

(** What a round of a sequential pass writes: the new message of the edge,
    as staged and as live message. *)
Lemma seq_round_writes (bp : BP) (i _I : nat) (bp' : BP) :
  (b <- BP_calcNewMessage bp i _I ;; BP_commit b i _I) = Ok bp' ->
  same_frame bp bp' /\
  (exists e m, edge bp i _I = Ok e /\
               edge bp' i _I = Ok (mkEdgeProp (index e) m m (residual e))) /\
  forall i' _I', (i', _I') <> (i, _I) -> edge bp' i' _I' = edge bp i' _I'.
Proof.
  intros H. apply bind_Ok_inv in H. destruct H as [b [Hb H]].
  pose proof (BP_calcNewMessage_frame _ _ _ _ Hb) as Hf1.
  destruct (BP_calcNewMessage_writes _ _ _ _ Hb) as [e [m [He [He1 Ho1]]]].
  destruct (BP_commit_writes _ _ _ _ H) as [Hf2 [[e1 [He1' He2]] Ho2]].
  rewrite He1 in He1'. injection He1' as <-.
  split; [apply (same_frame_trans _ b); assumption|]. split.
  - exists e, m. split; [exact He|]. exact He2.
  - intros i' _I' Hne. rewrite (Ho2 i' _I' Hne). apply (Ho1 i' _I' Hne).
Qed.

Lemma BP_pass_SEQ_bn0 : BP_pass_SEQ [(0%nat, 0%nat)] bn0 = Ok bp1.
Proof.
  unfold BP_pass_SEQ. cbn [for_each fst snd].
  rewrite BP_calcNewMessage_bn0_state. reflexivity.
Qed.

(** X11: a sequential pass over the edge list [update_seq] keeps the graph,
    the flags and the shape of the edge table, and the index map and the
    residual of every edge; afterwards the live message of every listed
    edge equals its staged message, and every edge that is not listed is
    as before. *)
Theorem sequential_pass_commits_listed_edges
  (update_seq : list (nat * nat)) (bp bp' : BP) :
  BP_pass_SEQ update_seq bp = Ok bp' ->
  same_frame bp bp' /\
  (forall i _I e, edge bp i _I = Ok e ->
     exists e', edge bp' i _I = Ok e' /\
                index e' = index e /\ residual e' = residual e) /\
  (forall i _I, In (i, _I) update_seq ->
     exists e', edge bp' i _I = Ok e' /\ message e' = newMessage e') /\
  (forall i _I, ~ In (i, _I) update_seq -> edge bp' i _I = edge bp i _I).
Proof.
  unfold BP_pass_SEQ. intros H. split; [|split; [|split]].
  - revert H. apply (for_each_invariant (same_frame bp));
      [|apply same_frame_refl].
    intros a s s' Hs Ha. apply seq_round_writes in Ha.
    apply (same_frame_trans _ s); [exact Hs|apply Ha].
  - intros i _I e He. revert H.
    apply (for_each_invariant
             (fun s => exists e', edge s i _I = Ok e' /\
                                  index e' = index e /\
                                  residual e' = residual e)).
    2:{ exists e. auto. }
    intros [a1 a2] s s' [e1 [He1 [Hi Hr]]] Ha. simpl in Ha.
    apply seq_round_writes in Ha.
    destruct Ha as [_ [[e0 [m [He0 He0']]] Hother]].
    destruct (Nat.eq_dec i a1) as [->|Hne];
      [destruct (Nat.eq_dec _I a2) as [->|Hne]|].
    + rewrite He0 in He1. injection He1 as <-.
      eexists. split; [exact He0'|]. simpl. auto.
    + exists e1. rewrite Hother by congruence. auto.
    + exists e1. rewrite Hother by congruence. auto.
  - intros i _I Hin.
    assert (Hstep : forall a s s',
      (b <- BP_calcNewMessage s (fst a) (snd a) ;;
       BP_commit b (fst a) (snd a)) = Ok s' ->
      (a = (i, _I) \/
       exists e', edge s i _I = Ok e' /\ message e' = newMessage e') ->
      exists e', edge s' i _I = Ok e' /\ message e' = newMessage e').
    { intros [a1 a2] s s' Ha Hcase. simpl in Ha.
      apply seq_round_writes in Ha.
      destruct Ha as [_ [[e0 [m [He0 He0']]] Hother]].
      destruct (Nat.eq_dec i a1) as [->|Hne];
        [destruct (Nat.eq_dec _I a2) as [->|Hne]|].
      - eexists. split; [exact He0'|]. reflexivity.
      - destruct Hcase as [E|Hq]; [congruence|].
        rewrite Hother by congruence. exact Hq.
      - destruct Hcase as [E|Hq]; [congruence|].
        rewrite Hother by congruence. exact Hq. }
    apply (for_each_establish (fun _ => True)
             (fun s => exists e', edge s i _I = Ok e' /\
                                  message e' = newMessage e')
             (fun a s =>
                b <- BP_calcNewMessage s (fst a) (snd a) ;;
                BP_commit b (fst a) (snd a))
             update_seq) with (a0 := (i, _I)) (s := bp); auto.
    + intros a s s' _ Hq Ha. apply (Hstep a s s' Ha). right. exact Hq.
    + intros s s' _ Ha. apply (Hstep (i, _I) s s' Ha). left. reflexivity.
  - intros i _I Hnot. revert H.
    apply (for_each_invariant_In (fun s => edge s i _I = edge bp i _I));
      [|reflexivity].
    intros [a1 a2] s s' Hin Hs Ha. simpl in Ha.
    apply seq_round_writes in Ha. destruct Ha as [_ [_ Hother]].
    rewrite Hother; [exact Hs|]. intros E. injection E as -> ->.
    apply Hnot. exact Hin.
Qed.

Lemma sequential_pass_commits_listed_edges_witness :
  same_frame bn0 bp1 /\
  (forall i _I e, edge bn0 i _I = Ok e ->
     exists e', edge bp1 i _I = Ok e' /\
                index e' = index e /\ residual e' = residual e) /\
  (forall i _I, In (i, _I) [(0%nat, 0%nat)] ->
     exists e', edge bp1 i _I = Ok e' /\ message e' = newMessage e') /\
  (forall i _I, ~ In (i, _I) [(0%nat, 0%nat)] ->
     edge bp1 i _I = edge bn0 i _I).
Proof.
  apply (sequential_pass_commits_listed_edges [(0%nat, 0%nat)] bn0 bp1).
  exact BP_pass_SEQ_bn0.
Defined.

Lemma neighbor_at (bp : BP) (j J : nat) (nb : list Neighbor) :
  wf_nbV bp -> nbV bp j = Ok nb -> (J < length nb)%nat ->
  exists I, In I nb /\ iter I = J.
Proof.
  intros Hw Hnb HJ. unfold nbV in Hnb. apply get_Ok in Hnb.
  pose proof (Hw j nb Hnb) as Hit.
  destruct (nth_error nb J) as [I|] eqn:HI.
  - exists I. split; [apply (nth_error_In _ _ HI)|].
    assert (E : nth_error (map iter nb) J = Some (iter I))
      by (rewrite nth_error_map, HI; reflexivity).
    rewrite Hit, nth_error_seq in E.
    destruct (J <? length nb)%nat; simpl in E; congruence.
  - apply nth_error_None in HI. lia.
Qed.

(** The loop over all edges, [for i: foreach I in nbV(i): step( i, I.iter )],
    with rounds that keep the frame: a property [Q] that the round of the
    edge [(j, J)] brings about and that the rounds keep holds at the end. *)
Lemma all_edges_establish (step : BP -> nat -> nat -> result BP)
  (bp0 : BP) (P Q : BP -> Prop) (j J : nat) :
  wf_nbV bp0 -> edges_shape bp0 -> is_edge bp0 (j, J) ->
  (forall s, P s -> same_frame bp0 s) ->
  (forall s i _I s', P s -> step s i _I = Ok s' -> P s') ->
  (forall s i _I s', P s -> Q s -> step s i _I = Ok s' -> Q s') ->
  (forall s s', P s -> step s j J = Ok s' -> Q s') ->
  forall s s', P s ->
    for_each (seq 0 (nrVars bp0))
      (fun i s => nb <- nbV s i ;;
                  for_each nb (fun I s => step s i (iter I)) s) s = Ok s' ->
    P s' /\ Q s'.
Proof.
  intros Hw Hs [Hj HJ] Hframe HP HQ H0. simpl in Hj, HJ.
  apply (for_each_establish P Q) with (a0 := j).
  - intros i s s' Hp H. apply bind_Ok_inv in H. destruct H as [nb [_ H]].
    revert H. apply (for_each_invariant P); [|exact Hp].
    intros I t t' Ht HI. apply (HP t i (iter I) t' Ht HI).
  - intros i s s' Hp Hq H. apply bind_Ok_inv in H. destruct H as [nb [_ H]].
    revert H. apply (for_each_invariant (fun t => P t /\ Q t)); [|auto].
    intros I t t' [Ht Hqt] HI. split.
    + apply (HP t i (iter I) t' Ht HI).
    + apply (HQ t i (iter I) t' Ht Hqt HI).
  - apply in_seq. lia.
  - intros s s' Hp H. apply bind_Ok_inv in H. destruct H as [nb [Hnb H]].
    rewrite (proj1 (proj2 (edge_same_frame bp0 s j (Hframe s Hp)))) in Hnb.
    destruct (nbV_lt bp0 j Hs Hj) as [nb' [Hnb' Hlen]].
    rewrite Hnb' in Hnb. injection Hnb as <-.
    destruct (neighbor_at bp0 j J nb' Hw Hnb') as [I [HI Hit]]; [lia|].
    revert H.
    apply (for_each_establish P Q) with (a0 := I); [| |exact HI| |exact Hp].
    + intros K t t' Ht HK. apply (HP t j (iter K) t' Ht HK).
    + intros K t t' Ht Hqt HK. apply (HQ t j (iter K) t' Ht Hqt HK).
    + intros t t' Ht HK. rewrite Hit in HK. apply (H0 t t' Ht HK).
Qed.

Lemma is_edge_same_frame (bp bp' : BP) (e : nat * nat) :
  same_frame bp bp' -> is_edge bp' e -> is_edge bp e.
Proof.
  intros Hf [H1 H2]. destruct (same_frame_shape bp bp' Hf) as [_ [_ [Hn Hd]]].
  split; [rewrite <- Hn; exact H1|rewrite <- Hd; exact H2].
Qed.

(** X12: a pass of the PARALL schedule is a synchronous update: in a state
    whose edge table has the shape of the graph it keeps the graph, the
    flags and the shape of the table, and afterwards the live message of
    every edge equals its staged message, which is the message that
    [calcNewMessage] computes for that edge from the state before the
    pass. *)
Theorem PARALL_pass_is_synchronous (bp bp' : BP) :
  wf_nbV bp -> edges_shape bp ->
  BP_pass_PARALL bp = Ok bp' ->
  same_frame bp bp' /\
  forall i _I e', edge bp' i _I = Ok e' ->
    message e' = newMessage e' /\
    exists bpc,
      BP_calcNewMessage bp i _I = Ok bpc /\
      BP_newMessage bpc i _I = Ok (newMessage e').
Proof.
  intros Hw Hs H. unfold BP_pass_PARALL, for_range in H.
  apply bind_Ok_inv in H. destruct H as [s1 [H1 H2]].
  assert (Hl1 : same_live bp s1).
  { revert H1. apply (for_each_invariant (same_live bp));
      [|apply same_live_refl].
    intros i s s' Hp Hi. apply bind_Ok_inv in Hi. destruct Hi as [nb [_ Hi]].
    revert Hi. apply (for_each_invariant (same_live bp)); [|exact Hp].
    intros I t t' Ht HI.
    apply (same_live_trans _ t); [exact Ht|].
    apply (BP_calcNewMessage_keeps_live _ _ _ _ HI). }
  pose proof (proj1 Hl1) as Hf1.
  destruct (same_frame_shape bp s1 Hf1) as [Hw1 [Hs1 [Hn1 _]]].
  specialize (Hw1 Hw). specialize (Hs1 Hs).
  set (P2 := fun s : BP =>
    same_frame s1 s /\
    forall i _I, BP_newMessage s i _I = BP_newMessage s1 i _I).
  assert (HP2 : forall s i _I s',
    P2 s -> BP_commit s i _I = Ok s' -> P2 s').
  { intros s i _I s' [Hf Hnm] Hc.
    destruct (BP_commit_writes _ _ _ _ Hc) as [Hf' [[e [He He']] Ho]].
    split; [apply (same_frame_trans _ s); assumption|].
    intros i' _I'. rewrite <- Hnm. unfold BP_newMessage.
    destruct (Nat.eq_dec i' i) as [->|Hne];
      [destruct (Nat.eq_dec _I' _I) as [->|Hne]|].
    - rewrite He, He'. reflexivity.
    - rewrite Ho by congruence. reflexivity.
    - rewrite Ho by congruence. reflexivity. }
  assert (Hp2 : P2 s1) by (split; [apply same_frame_refl|reflexivity]).
  assert (Hend : P2 bp').
  { revert H2. apply (for_each_invariant P2); [|exact Hp2].
    intros i s s' Hp Hi. apply bind_Ok_inv in Hi. destruct Hi as [nb [_ Hi]].
    revert Hi. apply (for_each_invariant P2); [|exact Hp].
    intros I t t' Ht HI. apply (HP2 t i (iter I) t' Ht HI). }
  destruct Hend as [Hf2 Hnm2].
  assert (Hf : same_frame bp bp') by apply (same_frame_trans _ s1 _ Hf1 Hf2).
  split; [exact Hf|].
  intros j J e' He'.
  destruct (same_frame_shape bp bp' Hf) as [_ [Hs' _]].
  pose proof (edge_Ok_inv bp' j J e' (Hs' Hs) He') as Hedge'.
  pose proof (is_edge_same_frame bp bp' (j, J) Hf Hedge') as Hedge.
  pose proof (is_edge_same_frame s1 bp' (j, J) Hf2 Hedge') as Hedge1.
  (* the first loop stages the message computed from [bp] *)
  set (Q1 := fun s : BP =>
    exists bpc, BP_calcNewMessage bp j J = Ok bpc /\
                BP_newMessage s j J = BP_newMessage bpc j J).
  assert (H0 : forall s s',
    same_live bp s -> BP_calcNewMessage s j J = Ok s' -> Q1 s').
  { intros s s' Hp Hc.
    destruct (BP_calcNewMessage_same_live s bp j J s'
                (same_live_sym _ _ Hp) Hc) as [bpc [Hbpc Hnm]].
    exists bpc. split; [exact Hbpc|]. symmetry. exact Hnm. }
  assert (Hq1 : Q1 s1).
  { apply (all_edges_establish BP_calcNewMessage bp (same_live bp) Q1 j J
             Hw Hs Hedge) with (s := bp) (s' := s1);
      [| | |exact H0|apply same_live_refl|exact H1].
    - intros s Hp. apply Hp.
    - intros s i _I s' Hp Hc. apply (same_live_trans _ s); [exact Hp|].
      apply (BP_calcNewMessage_keeps_live _ _ _ _ Hc).
    - intros s i _I s' Hp [bpc [Hbpc Hnm]] Hc.
      destruct (Nat.eq_dec i j) as [->|Hne];
        [destruct (Nat.eq_dec _I J) as [->|Hne]|].
      + apply (H0 s s' Hp Hc).
      + exists bpc. split; [exact Hbpc|]. rewrite <- Hnm.
        destruct (BP_calcNewMessage_writes _ _ _ _ Hc) as [_ [_ [_ [_ Ho]]]].
        unfold BP_newMessage. rewrite Ho by congruence. reflexivity.
      + exists bpc. split; [exact Hbpc|]. rewrite <- Hnm.
        destruct (BP_calcNewMessage_writes _ _ _ _ Hc) as [_ [_ [_ [_ Ho]]]].
        unfold BP_newMessage. rewrite Ho by congruence. reflexivity. }
  (* the second loop commits it *)
  set (Q2 := fun s : BP =>
    exists e, edge s j J = Ok e /\ message e = newMessage e).
  assert (K0 : forall s s', P2 s -> BP_commit s j J = Ok s' -> Q2 s').
  { intros s s' _ Hc.
    destruct (BP_commit_writes _ _ _ _ Hc) as [_ [[e [He Hes]] _]].
    eexists. split; [exact Hes|]. reflexivity. }
  assert (Hq2 : Q2 bp').
  { apply (all_edges_establish BP_commit s1 P2 Q2 j J Hw1 Hs1 Hedge1)
      with (s := s1) (s' := bp'); [| | |exact K0|exact Hp2|exact H2].
    - intros s Hp. apply Hp.
    - exact HP2.
    - intros s i _I s' Hp [e [He Hsync]] Hc.
      destruct (Nat.eq_dec i j) as [->|Hne];
        [destruct (Nat.eq_dec _I J) as [->|Hne]|].
      + apply (K0 s s' Hp Hc).
      + exists e. split; [|exact Hsync].
        destruct (BP_commit_writes _ _ _ _ Hc) as [_ [_ Ho]].
        rewrite Ho by congruence. exact He.
      + exists e. split; [|exact Hsync].
        destruct (BP_commit_writes _ _ _ _ Hc) as [_ [_ Ho]].
        rewrite Ho by congruence. exact He. }
  destruct Hq2 as [e [He Hsync]]. rewrite He' in He. injection He as <-.
  split; [exact Hsync|].
  destruct Hq1 as [bpc [Hbpc Hnm]]. exists bpc. split; [exact Hbpc|].
  rewrite <- Hnm, <- Hnm2. unfold BP_newMessage. rewrite He'. reflexivity.
Qed.

Lemma wf_nbV_bn0 : wf_nbV bn0.
Proof.
  intros [|j] nb H; simpl in H; [injection H as <-; reflexivity|].
  destruct j; discriminate.
Qed.

Lemma PARALL_pass_is_synchronous_witness :
  same_frame bn0 bp1 /\
  forall i _I e', edge bp1 i _I = Ok e' ->
    message e' = newMessage e' /\
    exists bpc,
      BP_calcNewMessage bn0 i _I = Ok bpc /\
      BP_newMessage bpc i _I = Ok (newMessage e').
Proof.
  apply (PARALL_pass_is_synchronous bn0 bp1 wf_nbV_bn0).
  - split; reflexivity.
  - exact BP_pass_PARALL_bn0.
Defined.

(** ** Residuals of the SEQMAX schedule *)

Lemma dist_LINF_self (a : Prob) : dist_Prob a a DISTLINF = 0.
Proof.
  unfold dist_Prob.
  induction a as [|x a IH]; simpl; [reflexivity|].
  replace (x - x) with 0 by lra. rewrite Rabs_R0.
  rewrite Rmax_left by lra. exact IH.
Qed.

Lemma BP_first_pass_SEQMAX_bn0 : BP_first_pass_SEQMAX bn0 = Ok bn0_first.
Proof.
  unfold BP_first_pass_SEQMAX, for_range.
  change (nrVars bn0) with 1%nat. cbn [seq for_each].
  change (nbV bn0 0) with (Ok [mkNeighbor 0 0 0]). cbn [bind for_each iter].
  rewrite BP_calcNewMessage_bn0_state. reflexivity.
Qed.

(** The first pass of the SEQMAX schedule writes staged messages and
    residuals only, and leaves every residual up to date. *)
Lemma BP_first_pass_SEQMAX_consistent (bp bp' : BP) :
  wf_nbV bp -> edges_shape bp ->
  BP_first_pass_SEQMAX bp = Ok bp' ->
  same_live bp bp' /\ residuals_consistent bp'.
Proof.
  intros Hw Hs H. unfold BP_first_pass_SEQMAX, for_range in H.
  set (step := fun (s : BP) (i _I : nat) =>
    b <- BP_calcNewMessage s i _I ;;
    nm <- BP_newMessage b i _I ;;
    m <- BP_message b i _I ;;
    update_edge b i _I (with_residual (dist_Prob nm m DISTLINF))).
  assert (HP : forall s i _I s',
    same_live bp s -> step s i _I = Ok s' -> same_live bp s').
  { intros s i _I s' Hp Hstep. apply (same_live_trans _ s); [exact Hp|].
    apply residual_update_writes in Hstep.
    destruct Hstep as [Hf [[e [m' [He He']]] Ho]].
    apply (edge_write_same_live s s' i _I Hf); [|exact Ho].
    eexists. eexists. split; [exact He|]. split; [exact He'|]. auto. }
  assert (Hl : same_live bp bp').
  { revert H. apply (for_each_invariant (same_live bp));
      [|apply same_live_refl].
    intros i s s' Hp Hi. apply bind_Ok_inv in Hi. destruct Hi as [nb [_ Hi]].
    revert Hi. apply (for_each_invariant (same_live bp)); [|exact Hp].
    intros I t t' Ht HI. apply (HP t i (iter I) t' Ht HI). }
  split; [exact Hl|].
  intros j J e' He'.
  destruct (same_frame_shape bp bp' (proj1 Hl)) as [_ [Hs' _]].
  pose proof (edge_Ok_inv bp' j J e' (Hs' Hs) He') as Hedge'.
  pose proof (is_edge_same_frame bp bp' (j, J) (proj1 Hl) Hedge') as Hedge.
  set (Q := fun s : BP =>
    exists e, edge s j J = Ok e /\
              residual e = dist_Prob (newMessage e) (message e) DISTLINF).
  assert (H0 : forall s s', same_live bp s -> step s j J = Ok s' -> Q s').
  { intros s s' _ Hstep. apply residual_update_writes in Hstep.
    destruct Hstep as [_ [[e [m' [He Hes]]] _]].
    eexists. split; [exact Hes|]. reflexivity. }
  assert (Hq : Q bp').
  { apply (all_edges_establish step bp (same_live bp) Q j J Hw Hs Hedge)
      with (s := bp) (s' := bp');
      [|exact HP| |exact H0|apply same_live_refl|exact H].
    - intros s Hp. apply Hp.
    - intros s i _I s' Hp [e [He Hc]] Hstep.
      destruct (Nat.eq_dec i j) as [->|Hne];
        [destruct (Nat.eq_dec _I J) as [->|Hne]|].
      + apply (H0 s s' Hp Hstep).
      + apply residual_update_writes in Hstep.
        destruct Hstep as [_ [_ Ho]].
        exists e. rewrite Ho by congruence. auto.
      + apply residual_update_writes in Hstep.
        destruct Hstep as [_ [_ Ho]].
        exists e. rewrite Ho by congruence. auto. }
  destruct Hq as [e [He Hc]]. rewrite He' in He. injection He as <-.
  exact Hc.
Qed.

(** X13: the first pass of the SEQMAX schedule, in a state whose edge table
    has the shape of the graph, keeps the graph, the flags, the index maps
    and the live messages, and leaves every edge with the distance between
    its staged and its live message as residual. *)
Theorem first_pass_SEQMAX_sets_residuals (bp bp' : BP) :
  wf_nbV bp -> edges_shape bp ->
  BP_first_pass_SEQMAX bp = Ok bp' ->
  same_live bp bp' /\ residuals_consistent bp'.
Proof. apply BP_first_pass_SEQMAX_consistent. Qed.

Lemma first_pass_SEQMAX_sets_residuals_witness :
  same_live bn0 bn0_first /\ residuals_consistent bn0_first.
Proof.
  apply (first_pass_SEQMAX_sets_residuals bn0 bn0_first wf_nbV_bn0).
  - split; reflexivity.
  - exact BP_first_pass_SEQMAX_bn0.
Defined.

Lemma BP_seqmax_step_bn0_first :
  BP_seqmax_step bn0_first = Ok (0%nat, 0%nat, bp1).
Proof.
  unfold BP_seqmax_step. rewrite BP_findMaxResidual_unfold.
  unfold bn0_first, for_range. simpl. unfold scan_body. simpl.
  match goal with
  | |- context [Rlt_dec ?a ?a] => destruct (Rlt_dec a a) as [E|_]; [lra|]
  end.
  reflexivity.
Qed.

(** A step of the SEQMAX schedule keeps the residuals up to date. *)
Lemma BP_seqmax_step_consistent (bp : BP) (i _I : nat) (bp' : BP) :
  residuals_consistent bp ->
  BP_seqmax_step bp = Ok (i, _I, bp') ->
  residuals_consistent bp'.
Proof.
  unfold BP_seqmax_step. intros Hc H.
  apply bind_Ok_inv in H. destruct H as [[i0 _I0] [_ H]].
  apply bind_Ok_inv in H. destruct H as [nm [Hnm H]].
  apply bind_Ok_inv in H. destruct H as [b1 [H1 H]].
  apply bind_Ok_inv in H. destruct H as [b2 [H2 H]].
  apply bind_Ok_inv in H. destruct H as [nbi [_ H]].
  apply bind_Ok_inv in H. destruct H as [b3 [H3 H]].
  injection H as -> -> ->.
  unfold BP_newMessage in Hnm.
  apply bind_Ok_inv in Hnm. destruct Hnm as [e [He E]]. injection E as <-.
  apply update_edge_lookup in H1. destruct H1 as [[e1 [He1 He1']] Ho1].
  apply update_edge_lookup in H2. destruct H2 as [[e2 [He2 He2']] Ho2].
  rewrite He in He1. injection He1 as <-.
  rewrite He1' in He2. injection He2 as <-.
  assert (Hc2 : residuals_consistent b2).
  { intros i' _I' e0 He0.
    destruct (Nat.eq_dec i' i) as [->|Hne];
      [destruct (Nat.eq_dec _I' _I) as [->|Hne]|].
    - rewrite He2' in He0. injection He0 as <-. simpl.
      symmetry. apply dist_LINF_self.
    - rewrite Ho2, Ho1 in He0 by congruence. apply (Hc _ _ _ He0).
    - rewrite Ho2, Ho1 in He0 by congruence. apply (Hc _ _ _ He0). }
  revert H3. apply (for_each_invariant residuals_consistent); [|exact Hc2].
  intros J s s' Hs HJ. destruct (negb (iter J =? _I)%nat).
  2:{ injection HJ as <-. exact Hs. }
  apply bind_Ok_inv in HJ. destruct HJ as [nbJ [_ HJ]].
  revert HJ. apply (for_each_invariant residuals_consistent); [|exact Hs].
  intros j t t' Ht Hj. cbv zeta in Hj.
  destruct (negb (node j =? i)%nat).
  2:{ injection Hj as <-. exact Ht. }
  apply residual_update_writes in Hj.
  destruct Hj as [_ [[e0 [m' [He0 He0']]] Hother]].
  intros i' _I' e' He'.
  destruct (Nat.eq_dec i' (node j)) as [->|Hne];
    [destruct (Nat.eq_dec _I' (dual j)) as [->|Hne]|].
  - rewrite He0' in He'. injection He' as <-. reflexivity.
  - rewrite Hother in He' by congruence. apply (Ht _ _ _ He').
  - rewrite Hother in He' by congruence. apply (Ht _ _ _ He').
Qed.

(** X14: a step of the SEQMAX schedule keeps the residuals up to date: if
    the residual of every edge is the distance between its staged and its
    live message before the step, it is so after the step. *)
Theorem seqmax_step_keeps_residuals (bp : BP) (i _I : nat) (bp' : BP) :
  residuals_consistent bp ->
  BP_seqmax_step bp = Ok (i, _I, bp') ->
  residuals_consistent bp'.
Proof. apply BP_seqmax_step_consistent. Qed.

Lemma seqmax_step_keeps_residuals_witness : residuals_consistent bp1.
Proof.
  apply (seqmax_step_keeps_residuals bn0_first 0 0 bp1).
  - intros [|[|i]] [|[|_I]] e He; try discriminate.
    injection He as <-. reflexivity.
  - exact BP_seqmax_step_bn0_first.
Defined.

(** ** marginal and the total sum *)

Lemma fold_left_Rplus_acc (a : Prob) (s : R) :
  fold_left Rplus a s = s + fold_left Rplus a 0.
Proof.
  revert s. induction a as [|x a IH]; intros s; simpl; [lra|].
  rewrite (IH (s + x)), (IH (0 + x)). lra.
Qed.

Lemma totalSum_upd (a : Prob) (k : nat) (y z : R) :
  nth_error a k = Some y ->
  Prob_totalSum (upd a k z) = Prob_totalSum a - y + z.
Proof.
  unfold Prob_totalSum. revert k.
  induction a as [|x a IH]; intros [|k] H; simpl in *; try discriminate.
  - injection H as ->. rewrite (fold_left_Rplus_acc a (0 + z)),
      (fold_left_Rplus_acc a (0 + y)). lra.
  - rewrite (fold_left_Rplus_acc (upd a k z) (0 + x)),
      (fold_left_Rplus_acc a (0 + x)), (IH k H). lra.
Qed.

Lemma add_at_totalSum (a a' : Prob) (k : nat) (x : R) :
  add_at a k x = Ok a' ->
  Prob_totalSum a' = Prob_totalSum a + x /\ length a' = length a.
Proof.
  unfold add_at. intros H. apply modify_Ok_inv in H.
  destruct H as [y [y' [Hy [E ->]]]]. injection E as <-.
  rewrite (totalSum_upd a k y (y + x) Hy), length_upd. split; [lra|auto].
Qed.

Lemma add_at_Ok (a : Prob) (k : nat) (x : R) :
  (k < length a)%nat -> exists a', add_at a k x = Ok a'.
Proof.
  intros H. unfold add_at, modify.
  destruct (nth_error_Some_lt a k H) as [y Hy].
  rewrite (get_Some _ _ _ Hy). simpl. eauto.
Qed.

(** The loop of [marginal]: it adds every entry of the value vector to some
    entry of the result, so the total sum of the result grows by the total
    sum of the entries met. *)
Lemma marginal_loop_totalSum (idx : list nat) (n : nat) :
  forall (q pre : Prob) (acc : Prob),
    length acc = n ->
    (forall i, (i < length (pre ++ q))%nat ->
       exists k, nth_error idx i = Some k /\ (k < n)%nat) ->
    exists acc',
      for_each (seq (length pre) (length q))
        (fun i acc =>
           k <- get idx i ;;
           x <- get (pre ++ q) i ;;
           add_at acc k x)
        acc = Ok acc' /\
      length acc' = n /\
      Prob_totalSum acc' = Prob_totalSum acc + fold_left Rplus q 0.
Proof.
  induction q as [|x q IH]; intros pre acc Hlen Hidx.
  - exists acc. simpl. split; [reflexivity|]. split; [exact Hlen|lra].
  - cbn [length seq for_each].
    destruct (Hidx (length pre)) as [k [Hk Hkn]];
      [rewrite length_app; simpl; lia|].
    rewrite (get_Some idx _ k Hk). cbn [bind].
    rewrite get_middle. cbn [bind].
    destruct (add_at_Ok acc k x) as [acc1 H1]; [lia|].
    rewrite H1. cbn [bind].
    destruct (add_at_totalSum _ _ _ _ H1) as [Hsum1 Hlen1].
    replace (S (length pre)) with (length (pre ++ [x]))
      by (rewrite length_app; simpl; lia).
    replace (pre ++ x :: q) with ((pre ++ [x]) ++ q) in *
      by (rewrite <- app_assoc; reflexivity).
    destruct (IH (pre ++ [x]) acc1) as [acc' [H' [Hlen' Hsum']]];
      [lia|exact Hidx|].
    exists acc'. split; [exact H'|]. split; [exact Hlen'|].
    rewrite Hsum', Hsum1. simpl.
    rewrite (fold_left_Rplus_acc q (0 + x)). lra.
Qed.

Lemma vs_inter_incl (a b : VarSet) : incl (vs_inter a b) a.
Proof. intros v Hv. unfold vs_inter in Hv. apply filter_In in Hv. apply Hv. Qed.

Lemma marginal_unnormed (f : Factor) (ns : VarSet) :
  wf_factor f -> wf_vars (ns ++ vars f) ->
  exists a,
    marginal f ns false = Ok (mkFactor (vs_inter ns (vars f)) a) /\
    marginal f ns true
    = Factor_normalize (mkFactor (vs_inter ns (vars f)) a) NORMPROB /\
    length a = nrStates (vs_inter ns (vars f)) /\
    Prob_totalSum a = totalSum f.
Proof.
  intros Hwf HL. unfold marginal. cbv zeta. unfold for_range.
  destruct (marginal_loop_totalSum
              (IndexFor (vs_inter ns (vars f)) (vars f))
              (nrStates (vs_inter ns (vars f)))
              (p f) [] (p (Factor_const (vs_inter ns (vars f)) 0)))
    as [a [Ha [Hlen Hsum]]].
  - simpl. unfold Prob_const. apply repeat_length.
  - simpl. intros i Hi. eexists. split.
    + apply nth_error_IndexFor. unfold wf_factor in Hwf. lia.
    + apply calcState_lt. apply (calcStates_valid (ns ++ vars f)).
      * exact HL.
      * intros v Hv. apply in_or_app. right. exact Hv.
      * intros v Hv. apply in_or_app. left.
        apply (vs_inter_incl _ _ _ Hv).
  - cbn [app length] in Ha. rewrite Ha. cbn [bind]. exists a.
    split; [reflexivity|]. split; [reflexivity|]. split; [exact Hlen|].
    rewrite Hsum. simpl. unfold Prob_totalSum, Prob_const.
    rewrite fold_left_Rplus_zeros. unfold totalSum, Prob_totalSum. lra.
Qed.

(** X15: for a well-formed factor [f] and variables [ns] of one graph,
    [f.marginal( ns, false )] is a well-formed factor on the variables of
    [ns] that [f] depends on, with the total sum of [f]; with
    [normed = true] the marginal has total sum 1 when the total sum of [f]
    is not 0, and the normalization fails when it is 0. *)
Theorem marginal_conserves_totalSum (f : Factor) (ns : VarSet) :
  wf_factor f -> wf_vars (ns ++ vars f) ->
  (exists h,
     marginal f ns false = Ok h /\
     vars h = vs_inter ns (vars f) /\ wf_factor h /\
     totalSum h = totalSum f) /\
  (totalSum f <> 0 ->
   exists h,
     marginal f ns true = Ok h /\
     vars h = vs_inter ns (vars f) /\ wf_factor h /\
     totalSum h = 1) /\
  (totalSum f = 0 -> marginal f ns true = Err NONNORMALIZABLE).
Proof.
  intros Hwf HL.
  destruct (marginal_unnormed f ns Hwf HL) as [a [H0 [H1 [Hlen Hsum]]]].
  split; [|split].
  - eexists. split; [exact H0|]. simpl. repeat split; assumption.
  - intros Hne. rewrite H1. unfold Factor_normalize. simpl.
    destruct (Prob_normalize a NORMPROB) as [[b z]|e] eqn:Hn.
    + simpl. eexists. split; [reflexivity|]. simpl.
      destruct (Prob_normalize_normalized _ _ _ _ Hn) as [Hb Hlb].
      split; [reflexivity|]. split; [|exact Hb].
      unfold wf_factor. simpl. congruence.
    + exfalso. unfold Prob_normalize in Hn. rewrite Hsum in Hn.
      destruct (Req_dec_T (totalSum f) 0); [contradiction|discriminate].
  - intros Hz. rewrite H1. unfold Factor_normalize, Prob_normalize. simpl.
    rewrite Hsum. destruct (Req_dec_T (totalSum f) 0); [reflexivity|].
    contradiction.
Qed.

Lemma marginal_conserves_totalSum_witness :
  (exists h,
     marginal f_mul [x0; x1] false = Ok h /\
     vars h = vs_inter [x0; x1] (vars f_mul) /\ wf_factor h /\
     totalSum h = totalSum f_mul) /\
  (exists h,
     marginal f_mul [x0; x1] true = Ok h /\
     vars h = vs_inter [x0; x1] (vars f_mul) /\ wf_factor h /\
     totalSum h = 1).
Proof.
  assert (H : wf_vars ([x0; x1] ++ vars f_mul)).
  { split.
    - intros v [<-|[<-|[<-|[]]]]; simpl; lia.
    - intros v w [<-|[<-|[<-|[]]]] [<-|[<-|[<-|[]]]]; simpl; intros E;
        try reflexivity; discriminate. }
  destruct (marginal_conserves_totalSum f_mul [x0; x1] eq_refl H)
    as [H0 [H1 _]].
  split; [exact H0|]. apply H1.
  unfold totalSum, Prob_totalSum. simpl. lra.
Defined.

(** ** Beliefs read staged messages only *)

Lemma product_body_same_staged (bp bq : BP) (skip : nat -> bool) (I : nat)
  (j : Neighbor) (prod : Prob) :
  same_staged bp bq ->
  product_body bq BP_newMessage skip I j prod
  = product_body bp BP_newMessage skip I j prod.
Proof.
  intros [[Hfg [Hld _]] Hl]. unfold product_body.
  destruct (negb (skip (node j))); [|reflexivity]. cbv zeta.
  rewrite (proj1 (Hl _ _)). unfold var, nbV. rewrite Hfg, Hld.
  destruct (BP_index bp (node j) (dual j)) as [ind|]; [|reflexivity].
  cbn [bind].
  destruct (get (fg_vars (fg bp)) (node j)) as [vj|]; [|reflexivity].
  cbn [bind].
  destruct (get (fg_nbV (fg bp)) (node j)) as [nbj|]; [|reflexivity].
  cbn [bind].
  match goal with
  | |- bind (for_each _ ?F _) _ = bind (for_each _ ?G _) _ =>
      rewrite (for_each_ext F G)
  end; [reflexivity|].
  intros J s _. destruct (negb (node J =? I)%nat); [|reflexivity].
  rewrite (proj2 (Hl _ _)). reflexivity.
Qed.

Lemma beliefs_same_staged (bp bq : BP) :
  same_staged bp bq ->
  (forall i, BP_beliefV bq i = BP_beliefV bp i) /\
  (forall I, BP_beliefF bq I = BP_beliefF bp I).
Proof.
  intros Hst. pose proof Hst as [Hf Hl].
  pose proof Hf as [Hfg [Hld _]]. split.
  - intros i. unfold BP_beliefV.
    rewrite (proj1 (edge_same_frame bp bq i Hf)),
      (proj1 (proj2 (edge_same_frame bp bq i Hf))), Hld.
    destruct (var bp i) as [vi|]; [|reflexivity]. cbn [bind].
    destruct (nbV bp i) as [nbi|]; [|reflexivity]. cbn [bind].
    match goal with
    | |- bind (for_each _ ?F _) _ = bind (for_each _ ?G _) _ =>
        rewrite (for_each_ext F G)
    end; [reflexivity|].
    intros I s _. rewrite (proj2 (Hl _ _)). reflexivity.
  - intros I. rewrite !BP_beliefF_unfold.
    rewrite (proj2 (proj2 (proj2 (edge_same_frame bp bq I Hf)))),
      (proj1 (proj2 (proj2 (edge_same_frame bp bq I Hf)))), Hld.
    destruct (factor bp I) as [fI|]; [|reflexivity]. cbn [bind].
    destruct (if logDomain bp then Prob_log (p fI) else Ok (p fI))
      as [prod0|]; [|reflexivity]. cbn [bind].
    destruct (nbF bp I) as [nbI|]; [|reflexivity]. cbn [bind].
    rewrite (for_each_ext
               (product_body bq BP_newMessage (fun _ => false) I)
               (product_body bp BP_newMessage (fun _ => false) I))
      by (intros; apply product_body_same_staged; exact Hst).
    reflexivity.
Qed.

Lemma same_staged_refl (bp : BP) : same_staged bp bp.
Proof. split; [apply same_frame_refl|]. intros; split; reflexivity. Qed.

Lemma same_staged_trans (a b c : BP) :
  same_staged a b -> same_staged b c -> same_staged a c.
Proof.
  intros [Hf Hl] [Kf Kl]. split; [apply (same_frame_trans _ _ _ Hf Kf)|].
  intros i _I. destruct (Hl i _I) as [H1 H2]. destruct (Kl i _I) as [K1 K2].
  split; congruence.
Qed.

(** A write to the live message of an edge keeps the staged messages. *)
Lemma with_message_same_staged (bp : BP) (i _I : nat)
  (g : EdgeProp -> Prob) (bp' : BP) :
  update_edge bp i _I (fun e => with_message (g e) e) = Ok bp' ->
  same_staged bp bp'.
Proof.
  intros H. split; [apply (update_edge_frame _ _ _ _ _ H)|].
  apply update_edge_lookup in H. destruct H as [[e [He He']] Ho].
  intros i' _I'. unfold BP_index, BP_newMessage.
  destruct (Nat.eq_dec i' i) as [->|Hne];
    [destruct (Nat.eq_dec _I' _I) as [->|Hne]|].
  - rewrite He, He'. split; reflexivity.
  - rewrite Ho by congruence. split; reflexivity.
  - rewrite Ho by congruence. split; reflexivity.
Qed.

Lemma BP_init_ns_same_staged (bp : BP) (ns : VarSet) (bp' : BP) :
  BP_init_ns bp ns = Ok bp' -> same_staged bp bp'.
Proof.
  unfold BP_init_ns.
  apply (for_each_invariant (same_staged bp)); [|apply same_staged_refl].
  intros n s s' Hs H. apply bind_Ok_inv in H. destruct H as [ni [_ H]].
  apply bind_Ok_inv in H. destruct H as [nb [_ H]].
  revert H. apply (for_each_invariant (same_staged bp)); [|exact Hs].
  intros I t t' Ht HI. apply (same_staged_trans _ t); [exact Ht|].
  apply (with_message_same_staged t ni (iter I)
           (fun e => Prob_fill (message e) (if logDomain t then 0 else 1))
           t' HI).
Qed.

Lemma BP_init_ns_bp1 : BP_init_ns bp1 [x0] = Ok bn0_calc.
Proof. reflexivity. Qed.

(** X16: the beliefs read the graph, the index maps and the staged
    messages only: on two states that differ at most in live messages and
    residuals, [beliefV( i )] and [beliefF( I )] give the same result for
    every [i] and [I]. *)
Theorem beliefs_read_staged_messages_only (bp bq : BP) :
  same_staged bp bq ->
  (forall i, BP_beliefV bq i = BP_beliefV bp i) /\
  (forall I, BP_beliefF bq I = BP_beliefF bp I).
Proof. apply beliefs_same_staged. Qed.

Lemma same_staged_bp1_bn0_calc : same_staged bp1 bn0_calc.
Proof.
  split; [repeat split|].
  intros [|[|i]] [|[|_I]]; split; reflexivity.
Qed.

Lemma beliefs_read_staged_messages_only_witness :
  (forall i, BP_beliefV bn0_calc i = BP_beliefV bp1 i) /\
  (forall I, BP_beliefF bn0_calc I = BP_beliefF bp1 I).
Proof.
  apply (beliefs_read_staged_messages_only bp1 bn0_calc).
  exact same_staged_bp1_bn0_calc.
Defined.

(** X17: [init( ns )] changes no belief: when it succeeds, [beliefV( i )]
    and [beliefF( I )] give afterwards what they gave before, for every [i]
    and [I] (it resets live messages, and the beliefs read staged ones). *)
Theorem init_ns_keeps_beliefs (bp : BP) (ns : VarSet) (bp' : BP) :
  BP_init_ns bp ns = Ok bp' ->
  (forall i, BP_beliefV bp' i = BP_beliefV bp i) /\
  (forall I, BP_beliefF bp' I = BP_beliefF bp I).
Proof.
  intros H. apply beliefs_same_staged.
  apply (BP_init_ns_same_staged bp ns bp' H).
Qed.

Lemma init_ns_keeps_beliefs_witness :
  (forall i, BP_beliefV bn0_calc i = BP_beliefV bp1 i) /\
  (forall I, BP_beliefF bn0_calc I = BP_beliefF bp1 I).
Proof.
  apply (init_ns_keeps_beliefs bp1 [x0] bn0_calc).
  exact BP_init_ns_bp1.
Defined.

(** ** embed *)

(** The value of a product at a joint state, as a lemma for [embed]. *)
Lemma Factor_mul_at (g f : Factor) :
  wf_factor g -> wf_factor f -> wf_vars (vars g ++ vars f) ->
  exists h,
    Factor_mul g f = Ok h /\
    vars h = vs_union (vars g) (vars f) /\
    wf_factor h /\
    forall x, valid_on (vars h) x ->
      exists a b,
        nth_error (p g) (calcState (vars g) x) = Some a /\
        nth_error (p f) (calcState (vars f) x) = Some b /\
        nth_error (p h) (calcState (vars h) x) = Some (a * b).
Proof.
  intros Hg Hf Hwf. unfold Factor_mul.
  assert (HgL : incl (vars g) (vars g ++ vars f))
    by (intros v Hv; apply in_or_app; left; exact Hv).
  assert (HfL : incl (vars f) (vars g ++ vars f))
    by (intros v Hv; apply in_or_app; right; exact Hv).
  destruct (vs_eqb (vars f) (vars g)) eqn:Heq.
  - (* equal VarSets *)
    assert (E : vars f = vars g).
    { apply vs_eqb_eq; auto. apply (wf_vars_incl (vars g ++ vars f)); auto.
      intros v Hv. apply in_app_or in Hv. apply in_or_app. tauto. }
    assert (Hlen : length (p g) = length (p f)).
    { unfold wf_factor in *. congruence. }
    unfold Prob_mul, pointwise. apply Nat.eqb_eq in Hlen as Hlenb.
    rewrite Hlenb. simpl. eexists. split; [reflexivity|]. simpl.
    split; [now rewrite E, vs_union_idem|].
    split.
    { unfold wf_factor. simpl. rewrite length_pointwise; auto. }
    intros x Hx. rewrite E.
    pose proof (calcState_lt _ _ Hx) as Hk.
    destruct (nth_error_Some_lt (p g) (calcState (vars g) x)) as [a Ha];
      [unfold wf_factor in Hg; lia|].
    destruct (nth_error_Some_lt (p f) (calcState (vars g) x)) as [b Hb];
      [unfold wf_factor in Hf; rewrite Hf, E; lia|].
    exists a, b. split; [exact Ha|]. split; [exact Hb|].
    apply nth_error_pointwise; assumption.
  - (* the general case *)
    set (U := vs_union (vars g) (vars f)).
    assert (HUL : incl U (vars g ++ vars f)).
    { intros v Hv. apply in_or_app. apply vs_union_In. exact Hv. }
    assert (HgU : incl (labels (vars g)) (labels U)).
    { intros l Hl. apply vs_union_labels. left. exact Hl. }
    assert (HfU : incl (labels (vars f)) (labels U)).
    { intros l Hl. apply vs_union_labels. right. exact Hl. }
    set (t := fun i =>
                nth (calcState (vars g) (calcStates U i)) (p g) 0
                * nth (calcState (vars f) (calcStates U i)) (p f) 0).
    simpl vars. simpl p. unfold for_range, Prob_const.
    rewrite repeat_length.
    rewrite (for_each_add_at t _ (nrStates U) []).
    + simpl. eexists. split; [reflexivity|]. simpl.
      split; [reflexivity|]. split.
      { unfold wf_factor. simpl. now rewrite length_map, length_seq. }
      intros x Hx. pose proof (calcState_lt _ _ Hx) as Hk.
      assert (Hxg : valid_on (vars g) x)
        by (apply (valid_on_labels (vars g ++ vars f) _ U); auto).
      assert (Hxf : valid_on (vars f) x)
        by (apply (valid_on_labels (vars g ++ vars f) _ U); auto).
      destruct (nth_error_Some_lt (p g) (calcState (vars g) x)) as [a Ha].
      { rewrite Hg. apply calcState_lt, Hxg. }
      destruct (nth_error_Some_lt (p f) (calcState (vars f) x)) as [b Hb].
      { rewrite Hf. apply calcState_lt, Hxf. }
      exists a, b. split; [exact Ha|]. split; [exact Hb|].
      rewrite nth_error_map, nth_error_seq.
      apply Nat.ltb_lt in Hk. rewrite Hk. simpl. f_equal.
      unfold t.
      rewrite (calcState_ext (vars g) (calcStates U (calcState U x)) x).
      2:{ intros l Hl. apply calcStates_calcState; auto. }
      rewrite (calcState_ext (vars f) (calcStates U (calcState U x)) x).
      2:{ intros l Hl. apply calcStates_calcState; auto. }
      rewrite (nth_error_nth _ _ 0 Ha), (nth_error_nth _ _ 0 Hb). lra.
    + intros i acc Hi. simpl in Hi.
      rewrite (get_Some _ _ _ (nth_error_IndexFor (vars g) U i ltac:(lia))).
      rewrite (get_Some _ _ _ (nth_error_IndexFor (vars f) U i ltac:(lia))).
      simpl.
      rewrite (get_lt (p g) _ 0).
      2:{ rewrite Hg. apply calcState_lt.
          apply (calcStates_valid (vars g ++ vars f)); auto. }
      rewrite (get_lt (p f) _ 0).
      2:{ rewrite Hf. apply calcState_lt.
          apply (calcStates_valid (vars g ++ vars f)); auto. }
      reflexivity.
Qed.

Lemma vs_union_cons (x : Var) (a : VarSet) (y : Var) (b : VarSet) :
  vs_union (x :: a) (y :: b)
  = if var_ltb x y then x :: vs_union a (y :: b)
    else if var_ltb y x then y :: vs_union (x :: a) b
    else x :: vs_union a b.
Proof. reflexivity. Qed.

Lemma vs_mem_true (v : Var) (V : VarSet) :
  vs_mem v V = true <-> exists w, In w V /\ label v = label w.
Proof.
  unfold vs_mem. rewrite existsb_exists. unfold var_eqb.
  split; intros [w [Hw E]]; exists w; split; auto; apply Nat.eqb_eq; exact E.
Qed.

Lemma vs_mem_false (v : Var) (V : VarSet) :
  (forall w, In w V -> label v <> label w) -> vs_mem v V = false.
Proof.
  intros H. destruct (vs_mem v V) eqn:E; [|reflexivity].
  apply vs_mem_true in E. destruct E as [w [Hw E]].
  destruct (H w Hw E).
Qed.

Lemma vs_diff_nil_r (a : VarSet) : vs_diff a [] = a.
Proof.
  unfold vs_diff. induction a as [|x a IH]; simpl; [reflexivity|].
  f_equal. exact IH.
Qed.

Lemma vs_diff_incl (a b : VarSet) : incl (vs_diff a b) a.
Proof. intros v Hv. unfold vs_diff in Hv. apply filter_In in Hv. apply Hv. Qed.

Lemma vs_sorted_cons (x : Var) (a : VarSet) :
  vs_sorted (x :: a) ->
  vs_sorted a /\ forall v, In v a -> (label x < label v)%nat.
Proof.
  unfold vs_sorted. simpl. intros H. apply StronglySorted_inv in H.
  destruct H as [Ha Hx]. split; [exact Ha|].
  rewrite Forall_forall in Hx. intros v Hv. apply Hx. apply in_map. exact Hv.
Qed.

(** A sorted VarSet [V] inside a sorted VarSet [ns] is put back in place by
    the union with the difference. *)
Lemma vs_union_diff (ns : VarSet) :
  forall V : VarSet,
    vs_sorted ns -> vs_sorted V ->
    (forall v w, In v V -> In w ns -> label v = label w -> v = w) ->
    vs_superset ns V = true ->
    vs_union V (vs_diff ns V) = ns.
Proof.
  induction ns as [|w ns IH]; intros V Hns HV Hc Hsup.
  - destruct V as [|v V]; [reflexivity|]. simpl in Hsup. discriminate.
  - destruct V as [|v V].
    { rewrite vs_diff_nil_r. apply vs_union_nil_l. }
    apply vs_sorted_cons in Hns. destruct Hns as [Hns Hw].
    apply vs_sorted_cons in HV as HV'. destruct HV' as [HV' Hv].
    unfold vs_superset in Hsup. rewrite forallb_forall in Hsup.
    assert (Hmem : forall u, In u (v :: V) ->
              label u = label w \/ exists t, In t ns /\ label u = label t).
    { intros u Hu. specialize (Hsup u Hu). apply vs_mem_true in Hsup.
      destruct Hsup as [t [[<-|Ht] E]]; [left; exact E|right; eauto]. }
    destruct (Nat.eq_dec (label v) (label w)) as [E|Hne].
    + (* [v] is [w] *)
      assert (Evw : v = w)
        by (apply Hc; [left; reflexivity|left; reflexivity|exact E]).
      subst w.
      assert (Hd : vs_diff (v :: ns) (v :: V) = vs_diff ns V).
      { unfold vs_diff. cbn [filter].
        replace (vs_mem v (v :: V)) with true
          by (symmetry; apply vs_mem_true; exists v; split;
              [left; reflexivity|reflexivity]).
        cbn [negb]. apply filter_ext_in. intros u Hu.
        unfold vs_mem. cbn [existsb]. unfold var_eqb at 1.
        specialize (Hw u Hu).
        destruct (Nat.eqb_spec (label u) (label v)); [lia|reflexivity]. }
      rewrite Hd.
      assert (IHV : vs_union V (vs_diff ns V) = ns).
      { apply IH; auto.
        - intros a b Ha Hb. apply Hc; right; assumption.
        - unfold vs_superset. apply forallb_forall. intros u Hu.
          apply vs_mem_true.
          destruct (Hmem u (or_intror Hu)) as [Eu|[t [Ht Eu]]]; [|eauto].
          specialize (Hv u Hu). lia. }
      destruct (vs_diff ns V) as [|d D] eqn:HD.
      * rewrite vs_union_nil_r in IHV |- *. now rewrite IHV.
      * rewrite vs_union_cons.
        assert (Hd_in : In d ns)
          by (apply (vs_diff_incl ns V); rewrite HD; left; reflexivity).
        unfold var_ltb. specialize (Hw d Hd_in).
        destruct (Nat.ltb_spec (label v) (label d)); [|lia].
        now rewrite IHV.
    + (* [w] is not in [V] *)
      assert (Hvw : (label w < label v)%nat).
      { destruct (Hmem v (or_introl eq_refl)) as [Eu|[t [Ht Eu]]];
          [contradiction|]. specialize (Hw t Ht). lia. }
      assert (Hall : forall u, In u (v :: V) -> (label w < label u)%nat).
      { intros u [<-|Hu]; [exact Hvw|]. specialize (Hv u Hu). lia. }
      assert (Hd : vs_diff (w :: ns) (v :: V) = w :: vs_diff ns (v :: V)).
      { unfold vs_diff. cbn [filter].
        rewrite (vs_mem_false w (v :: V)); [reflexivity|].
        intros u Hu. specialize (Hall u Hu). lia. }
      rewrite Hd, vs_union_cons. unfold var_ltb.
      destruct (Nat.ltb_spec (label v) (label w)); [lia|].
      destruct (Nat.ltb_spec (label w) (label v)); [|lia].
      f_equal. apply IH; auto.
      * intros a b Ha Hb. apply Hc; [exact Ha|right; exact Hb].
      * unfold vs_superset. apply forallb_forall. intros u Hu.
        apply vs_mem_true.
        destruct (Hmem u Hu) as [Eu|[t [Ht Eu]]]; [|eauto].
        specialize (Hall u Hu). lia.
Qed.

Lemma nth_error_repeat_Some {A : Type} (c b : A) (n k : nat) :
  nth_error (repeat c n) k = Some b -> b = c.
Proof.
  intros H. apply nth_error_In in H. apply repeat_spec in H. exact H.
Qed.

(** What [embed] returns. *)
Lemma Factor_embed_spec (f : Factor) (ns : VarSet) :
  wf_factor f -> vs_sorted (vars f) -> vs_sorted ns ->
  wf_vars (ns ++ vars f) ->
  (vs_superset ns (vars f) = true ->
   exists h,
     Factor_embed f ns = Ok h /\ vars h = ns /\ wf_factor h /\
     forall x, valid_on ns x ->
       exists a,
         nth_error (p f) (calcState (vars f) x) = Some a /\
         nth_error (p h) (calcState ns x) = Some a) /\
  (vs_superset ns (vars f) = false ->
   Factor_embed f ns = Err PRECONDITION).
Proof.
  intros Hwf Hsf Hsn HL. unfold Factor_embed. split; intros Hsup;
    rewrite Hsup; [|reflexivity].
  cbn [assert bind].
  assert (HL' : wf_vars (vars f ++ ns)).
  { apply (wf_vars_incl (ns ++ vars f)); [|exact HL].
    intros v Hv. apply in_app_or in Hv. apply in_or_app.
    destruct Hv; [right|left]; assumption. }
  destruct (vs_eqb (vars f) ns) eqn:Heq.
  - pose proof (vs_eqb_eq _ _ HL' Heq) as E.
    exists f. split; [reflexivity|]. split; [exact E|]. split; [exact Hwf|].
    intros x Hx. rewrite E.
    destruct (nth_error_Some_lt (p f) (calcState ns x)) as [a Ha].
    { rewrite Hwf, E. apply calcState_lt. exact Hx. }
    exists a. auto.
  - set (D := vs_diff ns (vars f)).
    assert (HU : vs_union (vars f) D = ns).
    { apply vs_union_diff; auto.
      intros v w Hv Hw E. destruct HL as [_ Hc].
      assert (Hs : states v = states w).
      { apply Hc; auto; apply in_or_app; [right|left]; assumption. }
      destruct v, w; simpl in *; congruence. }
    destruct (Factor_mul_at f (Factor_const D 1)) as [h [Hh [Hv [Hwh Hval]]]].
    + exact Hwf.
    + unfold wf_factor, Factor_const, Prob_const. simpl.
      apply repeat_length.
    + apply (wf_vars_incl (ns ++ vars f)); [|exact HL].
      intros v Hv. apply in_app_or in Hv. apply in_or_app.
      destruct Hv as [Hv|Hv]; [right; exact Hv|left].
      apply (vs_diff_incl ns (vars f) v Hv).
    + simpl in Hv. rewrite HU in Hv.
      exists h. split; [exact Hh|]. split; [exact Hv|]. split; [exact Hwh|].
      intros x Hx. rewrite Hv in Hval.
      destruct (Hval x Hx) as [a [b [Ha [Hb Hab]]]].
      simpl in Hb. apply nth_error_repeat_Some in Hb. subst b.
      rewrite Rmult_1_r in Hab. exists a. auto.
Qed.

(** X18: for a well-formed factor [f] and a sorted VarSet [ns] of the same
    graph that contains the variables of [f], [f.embed( ns )] is a
    well-formed factor on [ns] whose value at every joint state [x] of [ns]
    is the value of [f] at [x] restricted to the variables of [f]; when
    [ns] does not contain the variables of [f], the assertion fails. *)
Theorem embed_extends_factor (f : Factor) (ns : VarSet) :
  wf_factor f -> vs_sorted (vars f) -> vs_sorted ns ->
  wf_vars (ns ++ vars f) ->
  (vs_superset ns (vars f) = true ->
   exists h,
     Factor_embed f ns = Ok h /\ vars h = ns /\ wf_factor h /\
     forall x, valid_on ns x ->
       exists a,
         nth_error (p f) (calcState (vars f) x) = Some a /\
         nth_error (p h) (calcState ns x) = Some a) /\
  (vs_superset ns (vars f) = false ->
   Factor_embed f ns = Err PRECONDITION).
Proof. apply Factor_embed_spec. Qed.

Lemma embed_extends_factor_witness :
  exists h,
    Factor_embed g_mul [x0; x1] = Ok h /\ vars h = [x0; x1] /\
    wf_factor h /\
    forall x, valid_on [x0; x1] x ->
      exists a,
        nth_error (p g_mul) (calcState (vars g_mul) x) = Some a /\
        nth_error (p h) (calcState [x0; x1] x) = Some a.
Proof.
  refine (proj1 (embed_extends_factor g_mul [x0; x1] _ _ _ _) _).
  - reflexivity.
  - unfold vs_sorted. simpl. repeat constructor.
  - unfold vs_sorted. simpl. repeat constructor.
  - split.
    + intros v [<-|[<-|[<-|[]]]]; simpl; lia.
    + intros v w [<-|[<-|[<-|[]]]] [<-|[<-|[<-|[]]]]; simpl; intros E;
        try reflexivity; discriminate.
  - reflexivity.
Defined.

(** ** slice *)

(** [calcState] inverts [calcStates] below the joint state count. *)
Lemma calcState_calcStates (V : VarSet) :
  NoDup (labels V) -> (forall v, In v V -> (0 < states v)%nat) ->
  forall k, (k < nrStates V)%nat -> calcState V (calcStates V k) = k.
Proof.
  induction V as [|v V IH]; intros Hnd Hpos k Hk; simpl in *.
  - lia.
  - apply NoDup_cons_iff in Hnd. destruct Hnd as [Hv Hnd].
    rewrite Nat.eqb_refl.
    assert (Hs : (0 < states v)%nat) by (apply Hpos; left; reflexivity).
    rewrite (calcState_ext V _ (calcStates V (k / states v))).
    + rewrite IH; auto.
      * pose proof (Nat.div_mod_eq k (states v)). lia.
      * apply Nat.Div0.div_lt_upper_bound. exact Hk.
    + intros l Hl. destruct (Nat.eqb_spec l (label v)) as [->|_];
        [contradiction|reflexivity].
Qed.

Lemma vs_sorted_NoDup (V : VarSet) : vs_sorted V -> NoDup (labels V).
Proof.
  unfold vs_sorted. intros H. induction H as [|l ls Hs IH Hl].
  - constructor.
  - constructor; [|exact IH]. intros Hin.
    rewrite Forall_forall in Hl. specialize (Hl l Hin). lia.
Qed.

(** The loop of [slice]: the slot [J i] of the result receives entry [i] of
    the value vector when [K i] is the state asked for, and no two such
    entries share a slot. *)
Lemma slice_loop (i_ns i_nsrem : list nat) (pf : Prob) (s n : nat)
  (K J : nat -> nat) :
  (forall i, (i < length pf)%nat ->
     nth_error i_ns i = Some (K i) /\ nth_error i_nsrem i = Some (J i) /\
     (J i < n)%nat) ->
  (forall i i', (i < length pf)%nat -> (i' < length pf)%nat ->
     K i = s -> K i' = s -> J i = J i' -> i = i') ->
  forall (m : nat) (acc0 : Prob),
    (m <= length pf)%nat -> length acc0 = n ->
    exists acc,
      for_each (seq 0 m)
        (fun i acc =>
           match nth_error i_ns i with
           | Some k =>
               if (k =? s)%nat then
                 j <- get i_nsrem i ;;
                 x <- get pf i ;;
                 modify acc j (fun _ => Ok x)
               else Ok acc
           | None => Ok acc
           end)
        acc0 = Ok acc /\
      length acc = n /\
      forall i, (i < m)%nat -> K i = s ->
        nth_error acc (J i) = nth_error pf i.
Proof.
  intros Hidx Hinj. induction m as [|m IH]; intros acc0 Hm Hlen.
  - exists acc0. split; [reflexivity|]. split; [exact Hlen|]. intros; lia.
  - destruct (IH acc0) as [acc [Hrun [Hl Hval]]]; [lia|exact Hlen|].
    rewrite seq_S, for_each_app, Hrun. cbn [bind Nat.add for_each].
    destruct (Hidx m) as [HK [HJ HJn]]; [lia|].
    rewrite HK. destruct (Nat.eqb_spec (K m) s) as [Es|Ns].
    + rewrite (get_Some _ _ _ HJ). cbn [bind].
      destruct (nth_error_Some_lt pf m) as [x Hx]; [lia|].
      rewrite (get_Some _ _ _ Hx). cbn [bind].
      destruct (nth_error_Some_lt acc (J m)) as [y Hy]; [lia|].
      unfold modify. rewrite (get_Some _ _ _ Hy). cbn [bind].
      eexists. split; [reflexivity|].
      split; [rewrite length_upd; exact Hl|].
      intros i Hi Hs.
      destruct (Nat.eq_dec i m) as [->|Hne].
      * rewrite nth_error_upd_eq by lia. congruence.
      * rewrite nth_error_upd_ne.
        -- apply Hval; [lia|exact Hs].
        -- intros E. apply Hne. symmetry.
           apply (Hinj m i); try lia; auto.
    + exists acc. split; [reflexivity|]. split; [exact Hl|].
      intros i Hi Hs. destruct (Nat.eq_dec i m) as [->|Hne]; [congruence|].
      apply Hval; [lia|exact Hs].
Qed.

Lemma vs_superset_labels (a b : VarSet) :
  vs_superset a b = true -> incl (labels b) (labels a).
Proof.
  unfold vs_superset. rewrite forallb_forall. intros H l Hl.
  unfold labels in Hl. apply in_map_iff in Hl. destruct Hl as [v [<- Hv]].
  specialize (H v Hv). apply vs_mem_true in H. destruct H as [w [Hw ->]].
  apply in_map. exact Hw.
Qed.

(** What [slice] returns. *)
Lemma Factor_slice_spec (f : Factor) (ns : VarSet) (s : nat) :
  wf_factor f -> vs_sorted (vars f) -> wf_vars (vars f ++ ns) ->
  (vs_superset (vars f) ns = true ->
   exists h,
     Factor_slice f ns s = Ok h /\
     vars h = vs_diff (vars f) ns /\ wf_factor h /\
     forall x, valid_on (vars f) x -> calcState ns x = s ->
       exists a,
         nth_error (p f) (calcState (vars f) x) = Some a /\
         nth_error (p h) (calcState (vars h) x) = Some a) /\
  (vs_superset (vars f) ns = false ->
   Factor_slice f ns s = Err PRECONDITION).
Proof.
  intros Hwf Hsort HL. unfold Factor_slice. split; intros Hsup;
    rewrite Hsup; [|reflexivity].
  cbn [assert bind]. cbv zeta. unfold for_range.
  set (V := vars f). set (D := vs_diff V ns).
  assert (HVL : incl V (V ++ ns))
    by (intros v Hv; apply in_or_app; left; exact Hv).
  assert (HnL : incl ns (V ++ ns))
    by (intros v Hv; apply in_or_app; right; exact Hv).
  assert (HDL : incl D (V ++ ns))
    by (intros v Hv; apply HVL; apply (vs_diff_incl V ns v Hv)).
  assert (Hn_lab : incl (labels ns) (labels V))
    by (apply vs_superset_labels; exact Hsup).
  assert (HD_lab : incl (labels D) (labels V)).
  { intros l Hl. unfold labels in *. apply in_map_iff in Hl.
    destruct Hl as [v [<- Hv]]. apply in_map.
    apply (vs_diff_incl V ns v Hv). }
  assert (Hcover : forall l, In l (labels V) ->
            In l (labels ns) \/ In l (labels D)).
  { intros l Hl. unfold labels in Hl. apply in_map_iff in Hl.
    destruct Hl as [v [<- Hv]].
    destruct (vs_mem v ns) eqn:Hm.
    - left. apply vs_mem_true in Hm. destruct Hm as [w [Hw ->]].
      apply in_map. exact Hw.
    - right. apply in_map. unfold D, vs_diff. apply filter_In.
      split; [exact Hv|]. now rewrite Hm. }
  set (K := fun i => calcState ns (calcStates V i)).
  set (J := fun i => calcState D (calcStates V i)).
  assert (Hlen : length (p f) = nrStates V) by exact Hwf.
  destruct (slice_loop (IndexFor ns V) (IndexFor D V) (p f) s (nrStates D)
              K J) with (m := length (p f)) (acc0 := p (Factor_const D 0))
    as [acc [Hrun [Hl Hval]]].
  - intros i Hi. split; [apply nth_error_IndexFor; lia|].
    split; [apply nth_error_IndexFor; lia|].
    apply calcState_lt. apply (calcStates_valid (V ++ ns)); assumption.
  - intros i i' Hi Hi' HKi HKi' HJ.
    rewrite <- (calcState_calcStates V (vs_sorted_NoDup V Hsort)
                  (fun v Hv => proj1 HL v (HVL v Hv)) i) by lia.
    rewrite <- (calcState_calcStates V (vs_sorted_NoDup V Hsort)
                  (fun v Hv => proj1 HL v (HVL v Hv)) i') by lia.
    apply calcState_ext. intros l Hl.
    destruct (Hcover l Hl) as [Hn|Hd].
    + transitivity (calcStates ns (K i) l).
      * symmetry. apply calcStates_calcState; [|exact Hn].
        apply (calcStates_valid (V ++ ns)); assumption.
      * rewrite HKi, <- HKi'. apply calcStates_calcState; [|exact Hn].
        apply (calcStates_valid (V ++ ns)); assumption.
    + transitivity (calcStates D (J i) l).
      * symmetry. apply calcStates_calcState; [|exact Hd].
        apply (calcStates_valid (V ++ ns)); assumption.
      * rewrite HJ. apply calcStates_calcState; [|exact Hd].
        apply (calcStates_valid (V ++ ns)); assumption.
  - lia.
  - simpl. unfold Prob_const. apply repeat_length.
  - rewrite Hrun. cbn [bind]. eexists. split; [reflexivity|]. simpl.
    split; [reflexivity|]. split; [exact Hl|].
    intros x Hx Hs. pose proof (calcState_lt V x Hx) as Hk.
    destruct (nth_error_Some_lt (p f) (calcState V x)) as [a Ha]; [lia|].
    exists a. split; [exact Ha|].
    assert (EK : K (calcState V x) = calcState ns x).
    { pose proof (IndexFor_calcState ns V x Hn_lab Hx) as E.
      rewrite nth_error_IndexFor in E by exact Hk. injection E as E.
      exact E. }
    assert (EJ : J (calcState V x) = calcState D x).
    { pose proof (IndexFor_calcState D V x HD_lab Hx) as E.
      rewrite nth_error_IndexFor in E by exact Hk. injection E as E.
      exact E. }
    rewrite <- EJ, <- Ha. apply Hval; [lia|]. now rewrite EK.
Qed.



(** ** Message passing cannot fail on a well-formed graph *)

(** A loop whose rounds succeed on states with [P] and keep [P] succeeds. *)
Lemma for_each_progress {A S : Type} (P : S -> Prop)
  (body : A -> S -> result S) (l : list A) :
  (forall a s, In a l -> P s -> exists s', body a s = Ok s' /\ P s') ->
  forall s, P s -> exists s', for_each l body s = Ok s' /\ P s'.
Proof.
  induction l as [|a l IH]; intros Hb s Hs; simpl; [eauto|].
  destruct (Hb a s (or_introl eq_refl) Hs) as [s1 [H1 Hs1]].
  rewrite H1. simpl. apply IH; [|exact Hs1].
  intros b t Hin. apply Hb. right. exact Hin.
Qed.

Lemma pointwise_Ok (op : R -> R -> R) (a b : Prob) :
  length a = length b ->
  pointwise op a b = Ok (map (fun xy => op (fst xy) (snd xy)) (combine a b)).
Proof.
  intros H. unfold pointwise. apply Nat.eqb_eq in H. now rewrite H.
Qed.

Lemma Forall_pointwise_mul (a b : Prob) :
  Forall (fun x => 0 < x) a -> Forall (fun x => 0 < x) b ->
  Forall (fun x => 0 < x)
    (map (fun xy => fst xy * snd xy) (combine a b)).
Proof.
  intros Ha. revert b. induction Ha as [|x a Hx Ha IH]; intros b Hb; simpl.
  - constructor.
  - destruct Hb as [|y b Hy Hb]; simpl; constructor.
    + apply Rmult_lt_0_compat; assumption.
    + apply IH. exact Hb.
Qed.

Lemma totalSum_pos (a : Prob) :
  Forall (fun x => 0 < x) a -> a <> [] -> 0 < Prob_totalSum a.
Proof.
  intros Ha Hne. destruct Ha as [|x a Hx Ha]; [congruence|].
  unfold Prob_totalSum. simpl.
  apply Rlt_le_trans with (0 + x); [lra|].
  apply fold_left_Rplus_nonneg.
  apply Forall_impl with (P := fun x => 0 < x); [intros; lra|exact Ha].
Qed.

Lemma maxAbs_pos (a : Prob) :
  Forall (fun x => 0 < x) a -> a <> [] -> 0 < Prob_maxAbs a.
Proof.
  intros Ha Hne. destruct Ha as [|x a Hx Ha]; [congruence|].
  unfold Prob_maxAbs. simpl.
  apply Rlt_le_trans with (Rmax 0 (Rabs x)).
  - apply Rlt_le_trans with (Rabs x); [|apply Rmax_r].
    apply Rabs_pos_lt. lra.
  - apply (fold_left_lower_bound (fun m y => Rmax m (Rabs y))).
    intros s y. apply Rmax_l.
Qed.

(** Normalizing a strictly positive, nonempty vector succeeds. *)
Lemma Prob_normalize_Ok (a : Prob) (nt : NormType) :
  Forall (fun x => 0 < x) a -> a <> [] ->
  exists b z,
    Prob_normalize a nt = Ok (b, z) /\
    Forall (fun x => 0 < x) b /\ length b = length a.
Proof.
  intros Ha Hne.
  assert (Hz : 0 < match nt with
                   | NORMPROB => Prob_totalSum a
                   | NORMLINF => Prob_maxAbs a
                   end).
  { destruct nt; [apply totalSum_pos|apply maxAbs_pos]; assumption. }
  destruct (Prob_normalize a nt) as [[b z]|e] eqn:Hn.
  - exists b, z. split; [reflexivity|].
    split; [apply (Prob_normalize_pos a b nt z Ha Hn)|].
    apply (Prob_normalize_normalized a b nt z Hn).
  - exfalso. unfold Prob_normalize in Hn.
    destruct (Req_dec_T _ 0) as [E|_]; [lra|discriminate].
Qed.

Lemma get_Ok_lt {A : Type} (v : list A) (i : nat) (a : A) :
  get v i = Ok a -> (i < length v)%nat.
Proof.
  intros H. apply get_Ok in H. apply nth_error_Some. congruence.
Qed.

Lemma get_In {A : Type} (v : list A) (i : nat) (a : A) :
  get v i = Ok a -> In a v.
Proof. intros H. apply get_Ok in H. apply (nth_error_In _ _ H). Qed.

Lemma get_total {A : Type} (v : list A) (i : nat) :
  (i < length v)%nat -> exists a, get v i = Ok a.
Proof.
  intros H. destruct (nth_error_Some_lt v i H) as [a Ha].
  exists a. apply get_Some. exact Ha.
Qed.

(** Every slot of every variable of a ready state holds a ready edge. *)
Lemma ready_edge (bp : BP) (j J : nat) :
  ready bp -> (j < nrVars bp)%nat -> (J < deg bp j)%nat ->
  exists e vj nbj nJ fJ,
    edge bp j J = Ok e /\ var bp j = Ok vj /\
    nbV bp j = Ok nbj /\ get nbj J = Ok nJ /\
    factor bp (node nJ) = Ok fJ /\
    edge_ready (logDomain bp) vj fJ e.
Proof.
  intros [Hg [Hw [[HnF [HnodeV Hdual]] [Hs Her]]]] Hj HJ.
  destruct (edge_Ok bp j J Hs) as [e He]; [split; assumption|].
  destruct (get_total (fg_vars (fg bp)) j Hj) as [vj Hvj].
  destruct (nbV_lt bp j Hs Hj) as [nbj [Hnbj Hlen]].
  destruct (get_total nbj J) as [nJ HnJ]; [lia|].
  destruct (get_total (fg_factors (fg bp)) (node nJ)) as [fJ HfJ].
  { apply (HnodeV j nbj nJ Hnbj). apply (get_In _ _ _ HnJ). }
  exists e, vj, nbj, nJ, fJ. repeat (split; [assumption|]).
  apply (Her j J e vj nbj nJ fJ); assumption.
Qed.

Lemma wf_nbV_iter_lt (bp : BP) (j : nat) (nbj : list Neighbor)
  (J : Neighbor) :
  wf_nbV bp -> nbV bp j = Ok nbj -> In J nbj ->
  (iter J < length nbj)%nat.
Proof.
  intros Hw Hnb HJ. unfold nbV in Hnb. apply get_Ok in Hnb.
  pose proof (Hw j nbj Hnb) as Hit.
  assert (Hin : In (iter J) (map iter nbj)) by (apply in_map; exact HJ).
  rewrite Hit in Hin. apply in_seq in Hin. lia.
Qed.

Lemma nbV_deg (bp : BP) (j : nat) (nbj : list Neighbor) :
  nbV bp j = Ok nbj ->
  ((j < nrVars bp)%nat -> length nbj = deg bp j) /\
  (j < length (fg_nbV (fg bp)))%nat.
Proof.
  intros H. pose proof (get_Ok_lt _ _ _ H) as Hlt. split; [|exact Hlt].
  intros _. unfold deg. unfold nbV in H.
  rewrite (get_nth _ _ _ [] H). reflexivity.
Qed.

(** The product of the messages that reach variable [j], the inner loop
    of [calcNewMessage] and [beliefF], with [selv] the message read. *)
Lemma message_product_Ok (bp : BP)
  (sel : BP -> nat -> nat -> result Prob) (selv : EdgeProp -> Prob)
  (I j : nat) (vj : Var) (nbj : list Neighbor) :
  ready bp ->
  (forall a b, sel bp a b = (e <- edge bp a b ;; Ok (selv e))) ->
  (forall ld v f e, edge_ready ld v f e ->
     length (selv e) = states v /\
     (ld = false -> Forall (fun x => 0 < x) (selv e))) ->
  var bp j = Ok vj -> nbV bp j = Ok nbj ->
  forall (l : list Neighbor) (prod_j : Prob),
    incl l nbj ->
    length prod_j = states vj ->
    (logDomain bp = false -> Forall (fun x => 0 < x) prod_j) ->
    exists prod_j',
      for_each l
        (fun J prod_j =>
           if negb (node J =? I)%nat then
             m <- sel bp j (iter J) ;;
             if logDomain bp
             then Prob_add prod_j m
             else Prob_mul prod_j m
           else Ok prod_j)
        prod_j = Ok prod_j' /\
      length prod_j' = states vj /\
      (logDomain bp = false -> Forall (fun x => 0 < x) prod_j').
Proof.
  intros Hr Hsel Hselv Hvj Hnbj l prod_j Hl Hlen Hpos.
  pose proof Hr as [Hg [Hw [Hlk [Hs Her]]]].
  apply (for_each_progress
           (fun q => length q = states vj /\
                     (logDomain bp = false -> Forall (fun x => 0 < x) q)));
    [|split; assumption].
  intros J q HJ [Hq Hqpos].
  destruct (negb (node J =? I)%nat); [|eauto].
  assert (Hj : (j < nrVars bp)%nat).
  { unfold var in Hvj. apply (get_Ok_lt _ _ _ Hvj). }
  assert (Hit : (iter J < deg bp j)%nat).
  { rewrite <- (proj1 (nbV_deg bp j nbj Hnbj) Hj).
    apply (wf_nbV_iter_lt bp j nbj J Hw Hnbj). apply Hl. exact HJ. }
  destruct (ready_edge bp j (iter J) Hr Hj Hit)
    as [e [vj' [nbj' [nJ [fJ [He [Hvj' [_ [_ [_ Hre]]]]]]]]]].
  rewrite Hvj in Hvj'. injection Hvj' as <-.
  destruct (Hselv _ _ _ _ Hre) as [Hml Hmpos].
  rewrite Hsel, He. cbn [bind].
  destruct (logDomain bp) eqn:Hld.
  - unfold Prob_add. rewrite pointwise_Ok by congruence.
    eexists. split; [reflexivity|].
    split; [|intros; discriminate].
    rewrite length_pointwise by congruence. exact Hq.
  - unfold Prob_mul. rewrite pointwise_Ok by congruence.
    eexists. split; [reflexivity|].
    split; [rewrite length_pointwise by congruence; exact Hq|].
    intros _. apply Forall_pointwise_mul; auto.
Qed.

Lemma Forall_repeat_pos (c : R) (n : nat) :
  0 < c -> Forall (fun x => 0 < x) (repeat c n).
Proof. intros H. apply Forall_forall. intros x Hx. apply repeat_spec in Hx. lra. Qed.

Lemma ready_factor (bp : BP) (I : nat) (fI : Factor) :
  ready bp -> factor bp I = Ok fI ->
  wf_factor fI /\ Forall (fun x => 0 < x) (p fI) /\
  incl (vars fI) (fg_vars (fg bp) ++ flat_map vars (fg_factors (fg bp))).
Proof.
  intros [[_ [_ [Hfac _]]] _] HfI. unfold factor in HfI.
  apply get_In in HfI. destruct (Hfac fI HfI) as [H1 H2].
  split; [exact H1|]. split; [exact H2|].
  intros v Hv. apply in_or_app. right. apply in_flat_map. eauto.
Qed.

Lemma ready_var (bp : BP) (j : nat) (vj : Var) :
  var bp j = Ok vj ->
  incl [vj] (fg_vars (fg bp) ++ flat_map vars (fg_factors (fg bp))).
Proof.
  intros Hvj v [<-|[]]. apply in_or_app. left.
  unfold var in Hvj. apply (get_In _ _ _ Hvj).
Qed.

(** The index map of a ready edge sends every position of the factor to a
    state of the variable. *)
Lemma IndexFor_var_lt (L : list Var) (vj : Var) (V : VarSet) (r : nat) :
  wf_vars L -> incl [vj] L -> incl V L -> (r < nrStates V)%nat ->
  exists k, nth_error (IndexFor [vj] V) r = Some k /\ (k < states vj)%nat.
Proof.
  intros HL Hv HV Hr. eexists. split; [apply nth_error_IndexFor; exact Hr|].
  pose proof (calcState_lt [vj] (calcStates V r)
                (calcStates_valid L [vj] V r HL HV Hv)) as H.
  simpl in H. simpl. lia.
Qed.

(** One round of the loop over [nbF(I)] succeeds on a ready state. *)
Lemma product_body_Ok (bp : BP)
  (sel : BP -> nat -> nat -> result Prob) (selv : EdgeProp -> Prob)
  (skip : nat -> bool) (I : nat) (fI : Factor) (nbI : list Neighbor)
  (j : Neighbor) (prod : Prob) :
  ready bp ->
  (forall a b, sel bp a b = (e <- edge bp a b ;; Ok (selv e))) ->
  (forall ld v f e, edge_ready ld v f e ->
     length (selv e) = states v /\
     (ld = false -> Forall (fun x => 0 < x) (selv e))) ->
  factor bp I = Ok fI -> nbF bp I = Ok nbI -> In j nbI ->
  length prod = length (p fI) ->
  (logDomain bp = false -> Forall (fun x => 0 < x) prod) ->
  exists prod',
    product_body bp sel skip I j prod = Ok prod' /\
    length prod' = length (p fI) /\
    (logDomain bp = false -> Forall (fun x => 0 < x) prod').
Proof.
  intros Hr Hsel Hselv HfI HnbI Hj Hlen Hpos.
  pose proof Hr as [Hg [Hw [[HnF [HnodeV Hdual]] [Hs Her]]]].
  pose proof Hg as [HnV [HL _]].
  unfold product_body. destruct (negb (skip (node j))); [|eauto].
  cbv zeta.
  destruct (Hdual I nbI j HnbI Hj) as [nbj [nJ [Hnbj [HnJ HnodeJ]]]].
  assert (Hjv : (node j < nrVars bp)%nat).
  { rewrite <- HnV. apply (proj2 (nbV_deg bp _ _ Hnbj)). }
  assert (Hdj : (dual j < deg bp (node j))%nat).
  { rewrite <- (proj1 (nbV_deg bp _ _ Hnbj) Hjv).
    apply (get_Ok_lt _ _ _ HnJ). }
  destruct (ready_edge bp (node j) (dual j) Hr Hjv Hdj)
    as [e [vj [nbj' [nJ' [fJ [He [Hvj [Hnbj' [HnJ' [HfJ Hre]]]]]]]]]].
  rewrite Hnbj in Hnbj'. injection Hnbj' as <-.
  rewrite HnJ in HnJ'. injection HnJ' as <-.
  rewrite HnodeJ, HfI in HfJ. injection HfJ as <-.
  unfold BP_index. rewrite He. cbn [bind].
  rewrite Hvj. cbn [bind]. rewrite Hnbj. cbn [bind].
  destruct (message_product_Ok bp sel selv I (node j) vj nbj Hr Hsel Hselv
              Hvj Hnbj nbj
              (Prob_const (states vj) (if logDomain bp then 0 else 1)))
    as [prod_j [Hpj [Hpjl Hpjpos]]].
  { apply incl_refl. }
  { unfold Prob_const. apply repeat_length. }
  { intros Hld. rewrite Hld. unfold Prob_const.
    apply Forall_repeat_pos. lra. }
  rewrite Hpj. cbn [bind]. unfold for_range.
  destruct (ready_factor bp I fI Hr HfI) as [Hwf [_ HfL]].
  destruct Hre as [Hind _].
  apply (for_each_progress
           (fun q => length q = length (p fI) /\
                     (logDomain bp = false -> Forall (fun x => 0 < x) q)));
    [|split; assumption].
  intros r q Hrin [Hq Hqpos]. apply in_seq in Hrin.
  destruct (IndexFor_var_lt _ vj (vars fI) r HL (ready_var bp _ vj Hvj) HfL)
    as [k [Hk Hklt]].
  { unfold wf_factor in Hwf. lia. }
  rewrite Hind, (get_Some _ _ _ Hk). cbn [bind].
  destruct (get_total prod_j k) as [y Hy]; [lia|].
  rewrite Hy. cbn [bind].
  destruct (get_total q r) as [x Hx]; [lia|].
  unfold modify.
  destruct (logDomain bp) eqn:Hld; rewrite Hx; cbn [bind];
    (eexists; split; [reflexivity|]);
    (split; [rewrite length_upd; exact Hq|]).
  - intros; discriminate.
  - intros _. apply Forall_upd; [apply Hqpos; reflexivity|].
    apply Rmult_lt_0_compat.
    + specialize (Hqpos eq_refl). rewrite Forall_forall in Hqpos.
      apply Hqpos. apply (get_In _ _ _ Hx).
    + specialize (Hpjpos eq_refl). rewrite Forall_forall in Hpjpos.
      apply Hpjpos. apply (get_In _ _ _ Hy).
Qed.

Lemma nrStates_pos (V : VarSet) :
  (forall v, In v V -> (0 < states v)%nat) -> (0 < nrStates V)%nat.
Proof.
  induction V as [|v V IH]; intros H; simpl; [lia|].
  assert (H1 : (0 < states v)%nat) by (apply H; left; reflexivity).
  assert (H2 : (0 < nrStates V)%nat)
    by (apply IH; intros w Hw; apply H; right; exact Hw).
  nia.
Qed.

Lemma same_frame_graph (bp bp' : BP) :
  same_frame bp bp' ->
  (wf_graph bp -> wf_graph bp') /\ (wf_links bp -> wf_links bp').
Proof.
  intros [Hfg _]. unfold wf_graph, wf_links, var, nbV, nbF, factor, nrVars,
    nrFactors. rewrite Hfg. auto.
Qed.

(** A write to one edge that keeps it ready keeps the state ready. *)
Lemma ready_update (bp : BP) (i _I : nat) (f : EdgeProp -> EdgeProp)
  (bp' : BP) :
  ready bp ->
  update_edge bp i _I f = Ok bp' ->
  (forall vi fI e, edge bp i _I = Ok e -> var bp i = Ok vi ->
     edge_ready (logDomain bp) vi fI e ->
     edge_ready (logDomain bp) vi fI (f e)) ->
  ready bp'.
Proof.
  intros [Hg [Hw [Hlk [Hs Her]]]] Hu Hf.
  pose proof (update_edge_frame _ _ _ _ _ Hu) as Hfr.
  destruct (same_frame_shape bp bp' Hfr) as [Hw' [Hs' _]].
  destruct (same_frame_graph bp bp' Hfr) as [Hg' Hlk'].
  split; [apply Hg', Hg|]. split; [apply Hw', Hw|].
  split; [apply Hlk', Hlk|]. split; [apply Hs', Hs|].
  apply update_edge_lookup in Hu. destruct Hu as [[e [He He']] Ho].
  pose proof Hfr as [Hfg [Hld _]].
  intros i' _I' e' vi nb nI fI He'' Hvi Hnb HnI HfI.
  rewrite Hld. unfold var, nbV, factor in Hvi, Hnb, HfI.
  rewrite Hfg in Hvi, Hnb, HfI.
  destruct (Nat.eq_dec i' i) as [->|Hne];
    [destruct (Nat.eq_dec _I' _I) as [->|Hne]|].
  - rewrite He' in He''. injection He'' as <-.
    apply (Hf vi fI e He Hvi). apply (Her i _I e vi nb nI fI); assumption.
  - rewrite Ho in He'' by congruence.
    apply (Her i _I' e' vi nb nI fI); assumption.
  - rewrite Ho in He'' by congruence.
    apply (Her i' _I' e' vi nb nI fI); assumption.
Qed.

(** [calcNewMessage] succeeds on a ready state and keeps it ready. *)
Lemma BP_calcNewMessage_Ok (bp : BP) (i _I : nat) :
  ready bp -> is_edge bp (i, _I) ->
  exists bp', BP_calcNewMessage bp i _I = Ok bp' /\ ready bp'.
Proof.
  intros Hr [Hi HI]. simpl in Hi, HI.
  pose proof Hr as [Hg [Hw [[HnF [HnodeV Hdual]] [Hs Her]]]].
  pose proof Hg as [HnV [HL [Hfac Hlab]]].
  destruct (ready_edge bp i _I Hr Hi HI)
    as [e [vi [nbi [nI [fI [He [Hvi [Hnbi [HnI [HfI Hre]]]]]]]]]].
  destruct (ready_factor bp _ fI Hr HfI) as [Hwf [HfIpos HfL]].
  assert (HviL : incl [vi] (fg_vars (fg bp)
                            ++ flat_map vars (fg_factors (fg bp))))
    by apply (ready_var bp i vi Hvi).
  rewrite BP_calcNewMessage_unfold.
  rewrite Hnbi. cbn [bind]. rewrite HnI. cbn [bind].
  rewrite HfI. cbn [bind].
  assert (Hlog0 : (if logDomain bp then Prob_log (p fI) else Ok (p fI))
                  = Ok (if logDomain bp then map ln (p fI) else p fI)).
  { destruct (logDomain bp); [apply Prob_log_pos; exact HfIpos|reflexivity]. }
  rewrite Hlog0. cbn [bind].
  destruct (get_total (fg_nbF (fg bp)) (node nI)) as [nbI HnbI].
  { rewrite HnF. apply (get_Ok_lt _ _ _ HfI). }
  unfold nbF at 1. rewrite HnbI. cbn [bind].
  (* the product of the factor and the incoming messages *)
  destruct (for_each_progress
              (fun q : Prob =>
                 length q = length (p fI) /\
                 (logDomain bp = false -> Forall (fun x => 0 < x) q))
              (product_body bp BP_message (fun n => (n =? i)%nat) (node nI))
              nbI) with (s := if logDomain bp then map ln (p fI) else p fI)
    as [prod [Hprod [Hpl Hppos]]].
  { intros j q Hj [Hq Hqpos].
    apply (product_body_Ok bp BP_message message _ (node nI) fI nbI j q Hr);
      auto.
    intros ld v f0 e0 [_ [Hm [_ Hp]]]. split; [exact Hm|].
    intros Hld. apply (Hp Hld). }
  { split.
    - destruct (logDomain bp); [apply length_map|reflexivity].
    - intros Hld. rewrite Hld. exact HfIpos. }
  rewrite Hprod. cbn [bind].
  (* back to the linear domain *)
  assert (Hnz : (0 < length (p fI))%nat).
  { rewrite Hwf. apply nrStates_pos. intros v Hv.
    apply (proj1 HL). apply HfL. exact Hv. }
  assert (Hexp : exists prod',
    (if logDomain bp then
       m <- Prob_max prod ;; Ok (Prob_exp (Prob_sub_scalar prod m))
     else Ok prod) = Ok prod' /\
    length prod' = length (p fI) /\ Forall (fun x => 0 < x) prod').
  { destruct (logDomain bp).
    - destruct prod as [|x prod]; [simpl in Hpl; lia|].
      cbn [Prob_max bind]. eexists. split; [reflexivity|]. split.
      + unfold Prob_exp, Prob_sub_scalar. rewrite !length_map. exact Hpl.
      + unfold Prob_exp. apply Forall_map. apply Forall_forall.
        intros y _. apply exp_pos.
    - exists prod. split; [reflexivity|]. split; [exact Hpl|].
      apply Hppos. reflexivity. }
  destruct Hexp as [prod' [Hprod' [Hpl' Hppos']]].
  rewrite Hprod'. cbn [bind].
  rewrite Hvi. cbn [bind].
  destruct Hre as [Hind [Hml [Hnl Hmpos]]].
  unfold BP_index. rewrite He. cbn [bind]. rewrite Hind.
  (* the marginal *)
  unfold for_range.
  destruct (for_each_progress
              (fun q : Prob => length q = states vi)
              (fun r marg =>
                 k <- get (IndexFor [vi] (vars fI)) r ;;
                 x <- get prod' r ;;
                 add_at marg k x)
              (seq 0 (length prod'))) with (s := Prob_const (states vi) 0)
    as [marg [Hmarg Hmargl]].
  { intros r q Hrin Hq. apply in_seq in Hrin.
    destruct (IndexFor_var_lt _ vi (vars fI) r HL HviL HfL) as [k [Hk Hklt]].
    { unfold wf_factor in Hwf. lia. }
    rewrite (get_Some _ _ _ Hk). cbn [bind].
    destruct (get_total prod' r) as [x Hx]; [lia|].
    rewrite Hx. cbn [bind].
    destruct (add_at_Ok q k x) as [q' Hq']; [lia|].
    exists q'. split; [exact Hq'|].
    rewrite (proj2 (add_at_totalSum _ _ _ _ Hq')). exact Hq. }
  { unfold Prob_const. apply repeat_length. }
  rewrite Hmarg. cbn [bind].
  assert (Hmargpos : Forall (fun x => 0 < x) marg).
  { destruct (marg_loop_pos (IndexFor [vi] (vars fI)) prod' Hppos'
                (length prod') 0 (Prob_const (states vi) 0) marg Hmarg)
      as [Hlen [_ Hk]].
    { unfold Prob_const. apply Forall_forall. intros x Hx.
      apply repeat_spec in Hx. lra. }
    apply Forall_nth0. intros k Hklt. apply Hk; [lia|]. right.
    destruct (IndexFor_surjective _ vi (vars fI) k HL) as [r [Hr' Hind']].
    - apply HviL. left. reflexivity.
    - exact HfL.
    - apply (Hlab i vi nbi nI fI Hvi Hnbi (get_In _ _ _ HnI) HfI).
    - lia.
    - exists r. split; [|exact Hind']. unfold wf_factor in Hwf. lia. }
  assert (Hsv : (0 < states vi)%nat).
  { apply (proj1 HL). apply HviL. left. reflexivity. }
  destruct (Prob_normalize_Ok marg (normtype bp) Hmargpos)
    as [b [z [Hn [Hbpos Hbl]]]].
  { intros E. rewrite E in Hmargl. simpl in Hmargl. lia. }
  rewrite Hn. cbn [bind].
  assert (Hstore : forall m,
    length m = states vi ->
    (logDomain bp = false -> Forall (fun x => 0 < x) m) ->
    exists bp', update_edge bp i _I (with_newMessage m) = Ok bp' /\
                ready bp').
  { intros m Hm Hmp.
    destruct (update_edge_Ok bp i _I (with_newMessage m) e He) as [bp' Hu].
    exists bp'. split; [exact Hu|].
    apply (ready_update bp i _I (with_newMessage m) bp' Hr Hu).
    intros v f0 e0 _ Hv [H1 [H2 [H3 H4]]]. unfold edge_ready. simpl.
    split; [exact H1|]. split; [exact H2|].
    split; [congruence|].
    intros Hld. split; [apply (H4 Hld)|apply (Hmp Hld)]. }
  destruct (logDomain bp) eqn:Hld.
  - rewrite (Prob_log_pos _ Hbpos). cbn [bind].
    apply Hstore; [|intros; discriminate].
    rewrite length_map. congruence.
  - apply Hstore; [congruence|]. intros _. exact Hbpos.
Qed.

Lemma ready_same_frame_edge (bp bp' : BP) (e : nat * nat) :
  same_frame bp bp' -> is_edge bp e -> is_edge bp' e.
Proof.
  intros Hf [H1 H2]. destruct (same_frame_shape bp bp' Hf) as [_ [_ [Hn Hd]]].
  split; [rewrite Hn; exact H1|rewrite Hd; exact H2].
Qed.

Lemma BP_commit_Ok (bp : BP) (i _I : nat) :
  ready bp -> is_edge bp (i, _I) ->
  exists bp', BP_commit bp i _I = Ok bp' /\ ready bp'.
Proof.
  intros Hr [Hi HI]. simpl in Hi, HI.
  destruct (ready_edge bp i _I Hr Hi HI)
    as [e [vi [nbi [nI [fI [He _]]]]]].
  unfold BP_commit, BP_newMessage. rewrite He. cbn [bind].
  destruct (update_edge_Ok bp i _I (with_message (newMessage e)) e He)
    as [bp' Hu].
  exists bp'. split; [exact Hu|].
  apply (ready_update bp i _I _ bp' Hr Hu).
  intros v f0 e0 He0 _ [H1 [H2 [H3 H4]]].
  rewrite He in He0. injection He0 as <-.
  unfold edge_ready. simpl. split; [exact H1|]. split; [exact H3|].
  split; [exact H3|]. intros Hld. split; apply (H4 Hld).
Qed.

Lemma with_residual_Ok (bp : BP) (i _I : nat) (r : R) :
  ready bp -> is_edge bp (i, _I) ->
  exists bp', update_edge bp i _I (with_residual r) = Ok bp' /\ ready bp'.
Proof.
  intros Hr [Hi HI]. simpl in Hi, HI.
  destruct (ready_edge bp i _I Hr Hi HI)
    as [e [vi [nbi [nI [fI [He _]]]]]].
  destruct (update_edge_Ok bp i _I (with_residual r) e He) as [bp' Hu].
  exists bp'. split; [exact Hu|].
  apply (ready_update bp i _I _ bp' Hr Hu).
  intros v f0 e0 _ _ H. exact H.
Qed.

(** The update of a residual in the SEQMAX schedule succeeds. *)
Lemma residual_update_Ok (bp : BP) (j _J : nat) :
  ready bp -> is_edge bp (j, _J) ->
  exists bp',
    (b <- BP_calcNewMessage bp j _J ;;
     nm <- BP_newMessage b j _J ;;
     m <- BP_message b j _J ;;
     update_edge b j _J (with_residual (dist_Prob nm m DISTLINF))) = Ok bp' /\
    ready bp'.
Proof.
  intros Hr He.
  destruct (BP_calcNewMessage_Ok bp j _J Hr He) as [b [Hb Hrb]].
  rewrite Hb. cbn [bind].
  pose proof (ready_same_frame_edge bp b (j, _J)
                (BP_calcNewMessage_frame _ _ _ _ Hb) He) as Heb.
  destruct Heb as [Hj HJ]. simpl in Hj, HJ.
  destruct (ready_edge b j _J Hrb Hj HJ) as [e [vi [nbi [nI [fI [Hedge _]]]]]].
  unfold BP_newMessage, BP_message. rewrite Hedge. cbn [bind].
  apply with_residual_Ok; [exact Hrb|split; assumption].
Qed.

(** The loop over all edges succeeds when its rounds do. *)
Lemma all_edges_progress (step : BP -> nat -> nat -> result BP) (bp : BP) :
  ready bp ->
  (forall s i _I, ready s -> is_edge s (i, _I) ->
     exists s', step s i _I = Ok s' /\ ready s') ->
  (forall s i _I s', step s i _I = Ok s' -> same_frame s s') ->
  exists bp',
    for_each (seq 0 (nrVars bp))
      (fun i s => nb <- nbV s i ;;
                  for_each nb (fun I s => step s i (iter I)) s) bp = Ok bp' /\
    ready bp' /\ same_frame bp bp'.
Proof.
  intros Hr Hstep Hframe.
  apply (for_each_progress (fun s => ready s /\ same_frame bp s));
    [|split; [exact Hr|apply same_frame_refl]].
  intros i s Hi [Hs Hf]. apply in_seq in Hi.
  destruct (same_frame_shape bp s Hf) as [_ [_ [Hn _]]].
  pose proof Hs as [_ [Hw [_ [Hshape _]]]].
  destruct (nbV_lt s i Hshape) as [nb [Hnb Hlen]]; [lia|].
  rewrite Hnb. cbn [bind].
  assert (Hiter : forall I, In I nb -> (iter I < deg s i)%nat).
  { intros I HI. rewrite <- Hlen. apply (wf_nbV_iter_lt s i nb I Hw Hnb HI). }
  clear Hnb Hlen.
  destruct (for_each_progress
              (fun t => ready t /\ same_frame s t)
              (fun I t => step t i (iter I)) nb) with (s := s)
    as [s' [Hrun [Hs' Hf']]].
  - intros I t HI [Ht Hft].
    destruct (Hstep t i (iter I) Ht) as [t' [Ht' Hrt']].
    { apply (ready_same_frame_edge s t (i, iter I) Hft).
      split; simpl; [lia|apply Hiter; exact HI]. }
    exists t'. split; [exact Ht'|]. split; [exact Hrt'|].
    apply (same_frame_trans _ t); [exact Hft|].
    apply (Hframe _ _ _ _ Ht').
  - split; [exact Hs|apply same_frame_refl].
  - exists s'. split; [exact Hrun|]. split; [exact Hs'|].
    apply (same_frame_trans _ s); assumption.
Qed.

Lemma BP_commit_frame (bp : BP) (i _I : nat) (bp' : BP) :
  BP_commit bp i _I = Ok bp' -> same_frame bp bp'.
Proof. intros H. apply (BP_commit_writes _ _ _ _ H). Qed.

Lemma BP_pass_PARALL_Ok (bp : BP) :
  ready bp -> exists bp', BP_pass_PARALL bp = Ok bp' /\ ready bp'.
Proof.
  intros Hr. unfold BP_pass_PARALL, for_range.
  destruct (all_edges_progress BP_calcNewMessage bp Hr)
    as [s1 [H1 [Hr1 _]]].
  { intros s i _I. apply BP_calcNewMessage_Ok. }
  { intros s i _I s'. apply BP_calcNewMessage_frame. }
  rewrite H1. cbn [bind].
  destruct (all_edges_progress BP_commit s1 Hr1) as [s2 [H2 [Hr2 _]]].
  { intros s i _I. apply BP_commit_Ok. }
  { intros s i _I s'. apply BP_commit_frame. }
  exists s2. split; [exact H2|exact Hr2].
Qed.

Lemma BP_pass_SEQ_Ok (update_seq : list (nat * nat)) (bp : BP) :
  ready bp -> (forall e, In e update_seq -> is_edge bp e) ->
  exists bp', BP_pass_SEQ update_seq bp = Ok bp' /\ ready bp'.
Proof.
  intros Hr Hedges. unfold BP_pass_SEQ.
  destruct (for_each_progress
              (fun s => ready s /\ same_frame bp s)
              (fun e s =>
                 b <- BP_calcNewMessage s (fst e) (snd e) ;;
                 BP_commit b (fst e) (snd e))
              update_seq) with (s := bp) as [bp' [H [Hr' _]]].
  - intros [i _I] s He [Hs Hf]. simpl.
    pose proof (ready_same_frame_edge bp s (i, _I) Hf (Hedges _ He)) as Hes.
    destruct (BP_calcNewMessage_Ok s i _I Hs Hes) as [b [Hb Hrb]].
    rewrite Hb. cbn [bind].
    pose proof (BP_calcNewMessage_frame _ _ _ _ Hb) as Hfb.
    destruct (BP_commit_Ok b i _I Hrb) as [s' [Hs' Hrs']].
    { apply (ready_same_frame_edge s b (i, _I) Hfb Hes). }
    exists s'. split; [exact Hs'|]. split; [exact Hrs'|].
    apply (same_frame_trans _ s); [exact Hf|].
    apply (same_frame_trans _ b); [exact Hfb|].
    apply (BP_commit_frame _ _ _ _ Hs').
  - split; [exact Hr|apply same_frame_refl].
  - exists bp'. split; [exact H|exact Hr'].
Qed.

(** The exit from the log domain, [prod -= prod.max(); prod.takeExp()],
    succeeds on a nonempty vector and gives a strictly positive one. *)
Lemma sub_max_Ok (ld : bool) (a : Prob) :
  a <> [] -> (ld = false -> Forall (fun x => 0 < x) a) ->
  exists b,
    (if ld then m <- Prob_max a ;; Ok (Prob_exp (Prob_sub_scalar a m))
     else Ok a) = Ok b /\
    length b = length a /\ Forall (fun x => 0 < x) b.
Proof.
  intros Hne Hpos. destruct ld.
  - destruct a as [|x a]; [congruence|].
    cbn [Prob_max bind]. eexists. split; [reflexivity|]. split.
    + unfold Prob_exp, Prob_sub_scalar. now rewrite !length_map.
    + unfold Prob_exp. apply Forall_map. apply Forall_forall.
      intros y _. apply exp_pos.
  - exists a. split; [reflexivity|]. split; [reflexivity|].
    apply Hpos. reflexivity.
Qed.

Lemma BP_beliefV_Ok (bp : BP) (i : nat) :
  ready bp -> (i < nrVars bp)%nat -> exists b, BP_beliefV bp i = Ok b.
Proof.
  intros Hr Hi. pose proof Hr as [Hg [Hw [_ [Hs _]]]].
  pose proof Hg as [_ [HL _]].
  destruct (get_total (fg_vars (fg bp)) i Hi) as [vi Hvi].
  destruct (nbV_lt bp i Hs Hi) as [nbi [Hnbi Hlen]].
  unfold BP_beliefV. unfold var at 1. rewrite Hvi. cbn [bind].
  rewrite Hnbi. cbn [bind].
  destruct (for_each_progress
              (fun q : Prob =>
                 length q = states vi /\
                 (logDomain bp = false -> Forall (fun x => 0 < x) q))
              (fun I prod =>
                 m <- BP_newMessage bp i (iter I) ;;
                 if logDomain bp then Prob_add prod m else Prob_mul prod m)
              nbi)
    with (s := Prob_const (states vi) (if logDomain bp then 0 else 1))
    as [prod [Hprod [Hpl Hppos]]].
  - intros I q HI [Hq Hqpos].
    assert (Hit : (iter I < deg bp i)%nat).
    { rewrite <- Hlen. apply (wf_nbV_iter_lt bp i nbi I Hw Hnbi HI). }
    destruct (ready_edge bp i (iter I) Hr Hi Hit)
      as [e [vi' [nbi' [nI [fI [He [Hvi' [_ [_ [_ Hre]]]]]]]]]].
    unfold var in Hvi'. rewrite Hvi in Hvi'. injection Hvi' as <-.
    destruct Hre as [_ [_ [Hnl Hnpos]]].
    unfold BP_newMessage. rewrite He. cbn [bind].
    destruct (logDomain bp) eqn:Hld.
    + unfold Prob_add. rewrite pointwise_Ok by congruence.
      eexists. split; [reflexivity|]. split; [|intros; discriminate].
      rewrite length_pointwise by congruence. exact Hq.
    + unfold Prob_mul. rewrite pointwise_Ok by congruence.
      eexists. split; [reflexivity|].
      split; [rewrite length_pointwise by congruence; exact Hq|].
      intros _. apply Forall_pointwise_mul; [apply Hqpos|apply Hnpos];
        reflexivity.
  - split; [unfold Prob_const; apply repeat_length|].
    intros Hld. rewrite Hld. unfold Prob_const. apply Forall_repeat_pos. lra.
  - rewrite Hprod. cbn [bind].
    assert (Hsv : (0 < states vi)%nat).
    { apply (proj1 HL). apply in_or_app. left. apply (get_In _ _ _ Hvi). }
    destruct (sub_max_Ok (logDomain bp) prod) as [prod' [H' [Hl' Hpos']]].
    { intros E. rewrite E in Hpl. simpl in Hpl. lia. }
    { exact Hppos. }
    rewrite H'. cbn [bind].
    destruct (Prob_normalize_Ok prod' NORMPROB Hpos') as [b [z [Hn _]]].
    { intros E. rewrite E in Hl'. simpl in Hl'. lia. }
    rewrite Hn. cbn [bind]. eauto.
Qed.

Lemma BP_beliefF_Ok (bp : BP) (I : nat) :
  ready bp -> (I < nrFactors bp)%nat -> exists b, BP_beliefF bp I = Ok b.
Proof.
  intros Hr HI. pose proof Hr as [Hg [Hw [[HnF _] [Hs _]]]].
  pose proof Hg as [_ [HL _]].
  destruct (get_total (fg_factors (fg bp)) I HI) as [fI HfI].
  destruct (get_total (fg_nbF (fg bp)) I) as [nbI HnbI]; [lia|].
  destruct (ready_factor bp I fI Hr HfI) as [Hwf [HfIpos HfL]].
  rewrite BP_beliefF_unfold. unfold factor at 1, nbF at 1.
  rewrite HfI. cbn [bind].
  assert (Hlog0 : (if logDomain bp then Prob_log (p fI) else Ok (p fI))
                  = Ok (if logDomain bp then map ln (p fI) else p fI)).
  { destruct (logDomain bp); [apply Prob_log_pos; exact HfIpos|reflexivity]. }
  rewrite Hlog0. cbn [bind]. rewrite HnbI. cbn [bind].
  destruct (for_each_progress
              (fun q : Prob =>
                 length q = length (p fI) /\
                 (logDomain bp = false -> Forall (fun x => 0 < x) q))
              (product_body bp BP_newMessage (fun _ => false) I)
              nbI) with (s := if logDomain bp then map ln (p fI) else p fI)
    as [prod [Hprod [Hpl Hppos]]].
  - intros j q Hj [Hq Hqpos].
    apply (product_body_Ok bp BP_newMessage newMessage _ I fI nbI j q Hr);
      auto.
    intros ld v f0 e0 [_ [_ [Hm Hp]]]. split; [exact Hm|].
    intros Hld. apply (Hp Hld).
  - split.
    + destruct (logDomain bp); [apply length_map|reflexivity].
    + intros Hld. rewrite Hld. exact HfIpos.
  - rewrite Hprod. cbn [bind].
    assert (Hnz : (0 < length (p fI))%nat).
    { rewrite Hwf. apply nrStates_pos. intros v Hv.
      apply (proj1 HL). apply HfL. exact Hv. }
    destruct (sub_max_Ok (logDomain bp) prod) as [prod' [H' [Hl' Hpos']]].
    { intros E. rewrite E in Hpl. simpl in Hpl. lia. }
    { exact Hppos. }
    rewrite H'. cbn [bind]. unfold Factor_normalize. simpl.
    destruct (Prob_normalize_Ok prod' NORMPROB Hpos') as [b [z [Hn _]]].
    { intros E. rewrite E in Hl'. simpl in Hl'. lia. }
    rewrite Hn. cbn [bind]. eauto.
Qed.

(** [create] and [init()] on a well-formed graph give a ready state. *)
Lemma ready_after_create_init (bp : BP) :
  wf_graph bp -> wf_nbV bp -> wf_links bp ->
  exists bp1 bp2,
    BP_create bp = Ok bp1 /\ BP_init bp1 = Ok bp2 /\ ready bp2.
Proof.
  intros Hg Hw Hlk. pose proof Hg as [Hn [HL _]].
  pose proof Hlk as [_ [HnodeV _]].
  destruct (BP_create_Ok bp Hn) as [bp1 Hc].
  { intros nb nI Hnb HnI. destruct (In_nth_error _ _ Hnb) as [i Hi].
    apply (HnodeV i nb nI); [|exact HnI]. unfold nbV. apply get_Some.
    exact Hi. }
  destruct (BP_create_shape bp bp1 Hn Hc) as [Hfg Hs].
  assert (Hf1 : fg bp1 = fg bp /\ logDomain bp1 = logDomain bp).
  { split; [exact Hfg|]. unfold BP_create in Hc.
    apply bind_Ok_inv in Hc. destruct Hc as [es [_ E]].
    injection E as <-. reflexivity. }
  destruct Hf1 as [_ Hld1].
  assert (Hw1 : wf_nbV bp1) by (unfold wf_nbV; rewrite Hfg; exact Hw).
  exists bp1. eexists. split; [exact Hc|].
  split; [apply (BP_init_resets bp1 Hw1 Hs)|].
  set (c := if logDomain bp1 then 0 else 1).
  assert (Hgraph : forall X : BP -> Prop,
            (forall a b, fg a = fg b -> X b -> X a) -> X bp ->
            X (with_edges bp1 (map (map (reset_edge c)) (edges bp1)))).
  { intros X HX Hx. apply (HX _ bp); [exact Hfg|exact Hx]. }
  split; [|split; [|split; [|split]]].
  - apply Hgraph; [|exact Hg]. intros a b E.
    unfold wf_graph, var, nbV, factor, nrVars. now rewrite E.
  - apply Hgraph; [|exact Hw]. intros a b E. unfold wf_nbV. now rewrite E.
  - apply Hgraph; [|exact Hlk]. intros a b E.
    unfold wf_links, nbV, nbF, nrFactors. now rewrite E.
  - destruct Hs as [Hs1 Hs2]. split; [exact Hs1|]. simpl.
    rewrite <- Hs2, map_map. apply map_ext. intros row. apply length_map.
  - intros i _I e vi nb nI fI He Hvi Hnb HnI HfI.
    rewrite edge_with_edges_map in He.
    apply bind_Ok_inv in He. destruct He as [e1 [He1 E]]. injection E as <-.
    destruct (BP_create_edge bp bp1 i _I e1 Hc He1)
      as [nb' [nI' [Hnb' [HnI' [v [f [Hv [Hf ->]]]]]]]].
    unfold var, nbV, factor in Hvi, Hnb, HfI. simpl in Hvi, Hnb, HfI.
    rewrite Hfg in Hvi, Hnb, HfI.
    unfold nbV in Hnb'. rewrite Hnb in Hnb'. injection Hnb' as <-.
    rewrite HnI in HnI'. injection HnI' as <-.
    unfold var in Hv. rewrite Hvi in Hv. injection Hv as <-.
    unfold factor in Hf. rewrite HfI in Hf. injection Hf as <-.
    unfold edge_ready, reset_edge, Prob_fill, Prob_uniform, Prob_const.
    simpl. rewrite !length_map, repeat_length.
    split; [reflexivity|]. split; [reflexivity|]. split; [reflexivity|].
    intros Hld. unfold c. rewrite Hld.
    split; apply Forall_map; apply Forall_forall; intros x _; lra.
Qed.

Lemma is_edge_dual (bp : BP) (I : nat) (nbI : list Neighbor) (j : Neighbor) :
  ready bp -> nbF bp I = Ok nbI -> In j nbI ->
  is_edge bp (node j, dual j).
Proof.
  intros [[HnV _] [_ [[_ [_ Hdual]] _]]] HnbI Hj.
  destruct (Hdual I nbI j HnbI Hj) as [nbj [nJ [Hnbj [HnJ _]]]].
  assert (Hjv : (node j < nrVars bp)%nat).
  { rewrite <- HnV. apply (proj2 (nbV_deg bp _ _ Hnbj)). }
  split; simpl; [exact Hjv|].
  rewrite <- (proj1 (nbV_deg bp _ _ Hnbj) Hjv). apply (get_Ok_lt _ _ _ HnJ).
Qed.

Lemma residual_update_frame (bp : BP) (j _J : nat) (bp' : BP) :
  (b <- BP_calcNewMessage bp j _J ;;
   nm <- BP_newMessage b j _J ;;
   m <- BP_message b j _J ;;
   update_edge b j _J (with_residual (dist_Prob nm m DISTLINF))) = Ok bp' ->
  same_frame bp bp'.
Proof. intros H. apply (residual_update_writes _ _ _ _ H). Qed.

Lemma BP_first_pass_SEQMAX_Ok (bp : BP) :
  ready bp -> exists bp', BP_first_pass_SEQMAX bp = Ok bp' /\ ready bp'.
Proof.
  intros Hr. unfold BP_first_pass_SEQMAX, for_range.
  destruct (all_edges_progress
              (fun s i _I =>
                 b <- BP_calcNewMessage s i _I ;;
                 nm <- BP_newMessage b i _I ;;
                 m <- BP_message b i _I ;;
                 update_edge b i _I (with_residual (dist_Prob nm m DISTLINF)))
              bp Hr) as [bp' [H [Hr' _]]].
  { intros s i _I. apply residual_update_Ok. }
  { intros s i _I s'. apply residual_update_frame. }
  exists bp'. split; [exact H|exact Hr'].
Qed.

Lemma BP_seqmax_step_Ok (bp : BP) :
  ready bp -> is_edge bp (0%nat, 0%nat) ->
  exists i _I bp', BP_seqmax_step bp = Ok (i, _I, bp') /\ ready bp'.
Proof.
  intros Hr H0. pose proof Hr as [_ [Hw [_ [Hs _]]]].
  destruct (BP_findMaxResidual_scan bp Hw Hs H0)
    as [i [_I [m [Hfind [_ [Hedge _]]]]]].
  unfold BP_seqmax_step. rewrite Hfind. cbn [bind].
  destruct (BP_commit_Ok bp i _I Hr Hedge) as [b1 [H1 Hr1]].
  pose proof (BP_commit_frame _ _ _ _ H1) as Hf1.
  unfold BP_commit in H1. apply bind_Ok_inv in H1.
  destruct H1 as [nm [Hnm H1]]. rewrite Hnm. cbn [bind].
  rewrite H1. cbn [bind].
  pose proof (ready_same_frame_edge bp b1 (i, _I) Hf1 Hedge) as Hedge1.
  destruct (with_residual_Ok b1 i _I 0 Hr1 Hedge1) as [b2 [H2 Hr2]].
  pose proof (update_edge_frame _ _ _ _ _ H2) as Hf2.
  rewrite H2. cbn [bind].
  pose proof Hr2 as [_ [_ [_ [Hs2 _]]]].
  destruct (nbV_lt b2 i Hs2) as [nbi [Hnbi _]].
  { apply (ready_same_frame_edge b1 b2 (i, _I) Hf2 Hedge1). }
  rewrite Hnbi. cbn [bind].
  destruct (for_each_progress
              (fun s => ready s /\ same_frame b2 s)
              (fun J bp =>
                 if negb (iter J =? _I)%nat then
                   nbJ <- nbF bp (node J) ;;
                   for_each nbJ
                     (fun j bp =>
                        let _J := dual j in
                        if negb (node j =? i)%nat then
                          bp <- BP_calcNewMessage bp (node j) _J ;;
                          nm <- BP_newMessage bp (node j) _J ;;
                          m <- BP_message bp (node j) _J ;;
                          update_edge bp (node j) _J
                            (with_residual (dist_Prob nm m DISTLINF))
                        else Ok bp)
                     bp
                 else Ok bp)
              nbi) with (s := b2) as [b3 [H3 [Hr3 _]]].
  - intros J s HJ [Hrs Hfs].
    destruct (negb (iter J =? _I)%nat); [|eauto].
    pose proof Hrs as [_ [_ [[HnF [HnodeV _]] _]]].
    destruct (get_total (fg_nbF (fg s)) (node J)) as [nbJ HnbJ].
    { rewrite HnF. apply (HnodeV i nbi J); [|exact HJ].
      rewrite (proj1 (proj2 (edge_same_frame b2 s i Hfs))). exact Hnbi. }
    unfold nbF at 1. rewrite HnbJ. cbn [bind].
    destruct (for_each_progress
                (fun t => ready t /\ same_frame s t)
                (fun j bp =>
                   let _J := dual j in
                   if negb (node j =? i)%nat then
                     bp <- BP_calcNewMessage bp (node j) _J ;;
                     nm <- BP_newMessage bp (node j) _J ;;
                     m <- BP_message bp (node j) _J ;;
                     update_edge bp (node j) _J
                       (with_residual (dist_Prob nm m DISTLINF))
                   else Ok bp)
                nbJ) with (s := s) as [s' [Hrun [Hrs' Hfs']]].
    + intros j t Hj [Hrt Hft]. cbv zeta.
      destruct (negb (node j =? i)%nat); [|eauto].
      assert (Hej : is_edge t (node j, dual j)).
      { apply (is_edge_dual t (node J) nbJ j Hrt); [|exact Hj].
        rewrite (proj1 (proj2 (proj2
                   (edge_same_frame s t (node J) Hft)))). exact HnbJ. }
      destruct (residual_update_Ok t (node j) (dual j) Hrt Hej)
        as [t' [Ht' Hrt']].
      exists t'. split; [exact Ht'|]. split; [exact Hrt'|].
      apply (same_frame_trans _ t); [exact Hft|].
      apply (residual_update_frame _ _ _ _ Ht').
    + split; [exact Hrs|apply same_frame_refl].
    + exists s'. split; [exact Hrun|]. split; [exact Hrs'|].
      apply (same_frame_trans _ s); assumption.
  - split; [exact Hr2|apply same_frame_refl].
  - cbv zeta in H3. rewrite H3. cbn [bind]. eauto.
Qed.

Lemma BP_logZ_Ok (KL_dist : Factor -> Factor -> Complex) (bp : BP) :
  ready bp -> exists z, BP_logZ KL_dist bp = Ok z.
Proof.
  intros Hr. pose proof Hr as [_ [_ [_ [Hs _]]]].
  unfold BP_logZ, for_range. cbv zeta.
  destruct (for_each_progress
              (fun _ : Complex => True)
              (fun i sum =>
                 nbi <- nbV bp i ;;
                 b <- BP_beliefV bp i ;;
                 Ok (Cadd sum
                       (Cscale (Complex_of_real (1 - INR (length nbi)))
                               (entropy b))))
              (seq 0 (nrVars bp))) with (s := Complex_of_real 0)
    as [sum [Hsum _]]; [|exact Logic.I|].
  { intros i s Hi _. apply in_seq in Hi.
    destruct (nbV_lt bp i Hs) as [nbi [Hnbi _]]; [lia|].
    destruct (BP_beliefV_Ok bp i Hr) as [b Hb]; [lia|].
    rewrite Hnbi, Hb. cbn [bind]. eauto. }
  rewrite Hsum. cbn [bind].
  destruct (for_each_progress
              (fun _ : Complex => True)
              (fun I sum =>
                 b <- BP_beliefF bp I ;;
                 fI <- factor bp I ;;
                 Ok (Csub sum (KL_dist b fI)))
              (seq 0 (nrFactors bp))) with (s := sum)
    as [z [Hz _]]; [|exact Logic.I|].
  { intros I s HI _. apply in_seq in HI.
    destruct (BP_beliefF_Ok bp I Hr) as [b Hb]; [lia|].
    destruct (get_total (fg_factors (fg bp)) I) as [fI HfI];
      [unfold nrFactors in HI; lia|].
    unfold factor. rewrite Hb, HfI. cbn [bind]. eauto. }
  exists z. exact Hz.
Qed.

Lemma wf_graph_fg1 : wf_graph (mkBP fg1 [] false NORMPROB).
Proof.
  split; [reflexivity|]. split; [|split].
  - split.
    + intros v [<-|[<-|[]]]; simpl; lia.
    + intros v w [<-|[<-|[]]] [<-|[<-|[]]] _; reflexivity.
  - intros f [<-|[]]. split; [reflexivity|].
    simpl. repeat constructor; lra.
  - intros [|i] vi nb nI fI Hvi Hnb HnI HfI; simpl in *.
    + injection Hvi as <-. injection Hnb as <-.
      destruct HnI as [<-|[]]. injection HfI as <-. left. reflexivity.
    + destruct i; discriminate.
Qed.

Lemma wf_links_fg1 : wf_links (mkBP fg1 [] false NORMPROB).
Proof.
  split; [reflexivity|]. split.
  - intros [|i] nb nI Hnb HnI; simpl in *.
    + injection Hnb as <-. destruct HnI as [<-|[]]. unfold nrFactors.
      simpl. lia.
    + destruct i; discriminate.
  - intros [|I] nb j Hnb Hj; simpl in *.
    + injection Hnb as <-. destruct Hj as [<-|[]].
      exists [mkNeighbor 0 0 0], (mkNeighbor 0 0 0). repeat split.
    + destruct I; discriminate.
Qed.

Lemma ready_bn0 : ready bn0.
Proof.
  destruct (ready_after_create_init (mkBP fg1 [] false NORMPROB)
              wf_graph_fg1 wf_nbV_bn0 wf_links_fg1)
    as [bp1 [bp2 [Hc [Hi Hr]]]].
  pose proof BP_create_init_fg1 as H. rewrite Hc in H. cbn [bind] in H.
  rewrite Hi in H. injection H as <-. exact Hr.
Qed.

Lemma is_edge_bn0 : is_edge bn0 (0%nat, 0%nat).
Proof. split; simpl; unfold nrVars, deg; simpl; lia. Qed.

(** X20: on a well-formed graph with strictly positive factors whose two
    sides name each other, [create] followed by [init()] succeeds and gives
    a ready state: an edge table of the shape of the graph whose edges hold
    the index map of their variable into their factor and messages with one
    entry per state, strictly positive in the linear domain. *)
Theorem create_and_init_give_ready_state (bp : BP) :
  wf_graph bp -> wf_nbV bp -> wf_links bp ->
  exists bp1 bp2,
    BP_create bp = Ok bp1 /\ BP_init bp1 = Ok bp2 /\ ready bp2.
Proof. apply ready_after_create_init. Qed.

Lemma create_and_init_give_ready_state_witness :
  exists bp1 bp2,
    BP_create (mkBP fg1 [] false NORMPROB) = Ok bp1 /\
    BP_init bp1 = Ok bp2 /\ ready bp2.
Proof.
  apply (create_and_init_give_ready_state (mkBP fg1 [] false NORMPROB)).
  - exact wf_graph_fg1.
  - exact wf_nbV_bn0.
  - exact wf_links_fg1.
Defined.

(** X21: on a ready state, [calcNewMessage( i, _I )] succeeds for every
    edge [(i, _I)] of the graph, in the linear and in the log domain: no
    read is out of bounds, no two vectors differ in length, the
    normalization does not meet a zero vector; and the state it leaves is
    ready again. *)
Theorem calcNewMessage_succeeds_on_ready_state (bp : BP) (i _I : nat) :
  ready bp -> is_edge bp (i, _I) ->
  exists bp', BP_calcNewMessage bp i _I = Ok bp' /\ ready bp'.
Proof. apply BP_calcNewMessage_Ok. Qed.

Lemma calcNewMessage_succeeds_on_ready_state_witness :
  exists bp', BP_calcNewMessage bn0 0 0 = Ok bp' /\ ready bp'.
Proof.
  apply (calcNewMessage_succeeds_on_ready_state bn0 0 0).
  - exact ready_bn0.
  - exact is_edge_bn0.
Defined.

(** X22: on a ready state, a pass of the PARALL schedule succeeds, and so
    does a sequential pass over any list of edges of the graph; the state
    after either pass is ready again, so any number of passes succeeds. *)
Theorem PARALL_and_sequential_passes_succeed (bp : BP) :
  ready bp ->
  (exists bp', BP_pass_PARALL bp = Ok bp' /\ ready bp') /\
  (forall update_seq,
     (forall e, In e update_seq -> is_edge bp e) ->
     exists bp', BP_pass_SEQ update_seq bp = Ok bp' /\ ready bp').
Proof.
  intros Hr. split.
  - apply (BP_pass_PARALL_Ok bp Hr).
  - intros update_seq. apply (BP_pass_SEQ_Ok update_seq bp Hr).
Qed.

Lemma PARALL_and_sequential_passes_succeed_witness :
  (exists bp', BP_pass_PARALL bn0 = Ok bp' /\ ready bp') /\
  (forall update_seq,
     (forall e, In e update_seq -> is_edge bn0 e) ->
     exists bp', BP_pass_SEQ update_seq bn0 = Ok bp' /\ ready bp').
Proof.
  apply (PARALL_and_sequential_passes_succeed bn0). exact ready_bn0.
Defined.

Lemma BP_pass_SEQMAX_Ok (bp : BP) :
  ready bp -> is_edge bp (0%nat, 0%nat) ->
  exists bp', BP_pass_SEQMAX bp = Ok bp' /\ ready bp'.
Proof.
  intros Hr H0. unfold BP_pass_SEQMAX, for_range.
  destruct (for_each_progress
              (fun s => ready s /\ same_frame bp s)
              (fun (t : nat) bp =>
                 ' (_, bp') <- BP_seqmax_step bp ;; Ok bp')
              (seq 0 (nrEdges bp))) with (s := bp) as [bp' [H [Hr' _]]].
  - intros t s _ [Hs Hf].
    destruct (BP_seqmax_step_Ok s Hs) as [i [_I [s' [Hstep Hs']]]].
    { apply (ready_same_frame_edge bp s _ Hf H0). }
    rewrite Hstep. cbn [bind]. exists s'. split; [reflexivity|].
    split; [exact Hs'|]. apply (same_frame_trans _ s); [exact Hf|].
    apply (BP_seqmax_step_frame s (i, _I) s' Hstep).
  - split; [exact Hr|apply same_frame_refl].
  - exists bp'. split; [exact H|exact Hr'].
Qed.

(** X23: on a ready state, the first pass of the SEQMAX schedule succeeds
    and leaves a ready state; and when variable 0 has a neighbor, a step of
    the SEQMAX schedule and a whole pass of it ([nrEdges()] steps) succeed
    and leave a ready state. *)
Theorem SEQMAX_schedule_succeeds (bp : BP) :
  ready bp ->
  (exists bp', BP_first_pass_SEQMAX bp = Ok bp' /\ ready bp') /\
  (is_edge bp (0%nat, 0%nat) ->
   (exists i _I bp', BP_seqmax_step bp = Ok (i, _I, bp') /\ ready bp') /\
   (exists bp', BP_pass_SEQMAX bp = Ok bp' /\ ready bp')).
Proof.
  intros Hr. split.
  - apply (BP_first_pass_SEQMAX_Ok bp Hr).
  - intros H0. split.
    + apply (BP_seqmax_step_Ok bp Hr H0).
    + apply (BP_pass_SEQMAX_Ok bp Hr H0).
Qed.

Lemma SEQMAX_schedule_succeeds_witness :
  (exists bp', BP_first_pass_SEQMAX bn0 = Ok bp' /\ ready bp') /\
  (exists i _I bp', BP_seqmax_step bn0 = Ok (i, _I, bp') /\ ready bp') /\
  (exists bp', BP_pass_SEQMAX bn0 = Ok bp' /\ ready bp').
Proof.
  destruct (SEQMAX_schedule_succeeds bn0 ready_bn0) as [H1 H2].
  split; [exact H1|]. apply H2. exact is_edge_bn0.
Defined.

(** X24: on a ready state, [beliefV( i )] returns for every variable [i],
    [beliefF( I )] returns for every factor [I], and [logZ()] returns. *)
Theorem beliefs_and_logZ_exist (bp : BP) :
  ready bp ->
  (forall i, (i < nrVars bp)%nat -> exists b, BP_beliefV bp i = Ok b) /\
  (forall I, (I < nrFactors bp)%nat -> exists b, BP_beliefF bp I = Ok b) /\
  (forall KL_dist, exists z, BP_logZ KL_dist bp = Ok z).
Proof.
  intros Hr. split; [|split].
  - intros i. apply (BP_beliefV_Ok bp i Hr).
  - intros I. apply (BP_beliefF_Ok bp I Hr).
  - intros KL_dist. apply (BP_logZ_Ok KL_dist bp Hr).
Qed.

Lemma beliefs_and_logZ_exist_witness :
  (forall i, (i < nrVars bn0)%nat -> exists b, BP_beliefV bn0 i = Ok b) /\
  (forall I, (I < nrFactors bn0)%nat -> exists b, BP_beliefF bn0 I = Ok b) /\
  (forall KL_dist, exists z, BP_logZ KL_dist bn0 = Ok z).
Proof.
  apply (beliefs_and_logZ_exist bn0). exact ready_bn0.
Defined.

(** ** marginal, entry by entry *)

Lemma marginal_loop_entries (idx : list nat) (pf : Prob) (K : nat -> nat) :
  forall (n a : nat) (acc acc' : Prob),
    (forall i, (a <= i < a + n)%nat -> nth_error idx i = Some (K i)) ->
    for_each (seq a n)
      (fun i acc => k <- get idx i ;; x <- get pf i ;; add_at acc k x)
      acc = Ok acc' ->
    forall k,
      nth k acc' 0
      = nth k acc 0
        + fold_left Rplus
            (map (fun i => nth i pf 0)
                 (filter (fun i => (K i =? k)%nat) (seq a n))) 0.
Proof.
  induction n as [|n IH]; intros a acc acc' Hidx H k; simpl in H.
  - injection H as <-. simpl. lra.
  - apply bind_Ok_inv in H. destruct H as [acc1 [H1 H]].
    apply bind_Ok_inv in H1. destruct H1 as [k0 [Hk0 H1]].
    apply bind_Ok_inv in H1. destruct H1 as [x [Hx H1]].
    unfold add_at in H1. apply modify_Ok_inv in H1.
    destruct H1 as [y [y' [Hy [E ->]]]]. injection E as <-.
    apply get_Ok in Hk0. rewrite (Hidx a) in Hk0 by lia.
    injection Hk0 as <-.
    rewrite (IH (S a) _ _ (fun i Hi => Hidx i ltac:(lia)) H k).
    cbn [seq filter].
    assert (Hyk : nth (K a) acc 0 = y) by (apply nth_error_nth; exact Hy).
    assert (Hxa : nth a pf 0 = x) by (apply (get_nth _ _ _ _ Hx)).
    destruct (Nat.eqb_spec (K a) k) as [<-|Hne].
    + rewrite nth_upd_eq by (apply nth_error_Some; congruence).
      cbn [map fold_left].
      rewrite (fold_left_Rplus_acc _ (0 + nth a pf 0)). lra.
    + rewrite nth_upd_ne by exact Hne. reflexivity.
Qed.

(** X25: for a well-formed factor [f] and variables [ns] of one graph,
    [f.marginal( ns, false )] sums out the other variables: its entry [k]
    is the sum of the entries of [f] at the positions whose joint state,
    restricted to the variables of the marginal, has the linear index
    [k]. *)
Theorem marginal_sums_out (f : Factor) (ns : VarSet) :
  wf_factor f -> wf_vars (ns ++ vars f) ->
  exists h,
    marginal f ns false = Ok h /\
    vars h = vs_inter ns (vars f) /\
    forall k, (k < nrStates (vars h))%nat ->
      nth_error (p h) k
      = Some (sum_where
                (fun i => nth i (p f) 0)
                (fun i => (calcState (vars h) (calcStates (vars f) i) =? k)%nat)
                (length (p f))).
Proof.
  intros Hwf HL.
  destruct (marginal_unnormed f ns Hwf HL) as [a [H0 [_ [Hlen _]]]].
  eexists. split; [exact H0|]. simpl. split; [reflexivity|].
  intros k Hk.
  unfold marginal in H0. cbv zeta in H0.
  apply bind_Ok_inv in H0. destruct H0 as [a' [Hloop E]].
  injection E as ->. unfold for_range in Hloop.
  pose proof (marginal_loop_entries
                (IndexFor (vs_inter ns (vars f)) (vars f)) (p f)
                (fun i => calcState (vs_inter ns (vars f))
                            (calcStates (vars f) i))
                (length (p f)) 0
                (p (Factor_const (vs_inter ns (vars f)) 0)) a) as Hent.
  assert (Hidx : forall i, (0 <= i < 0 + length (p f))%nat ->
    nth_error (IndexFor (vs_inter ns (vars f)) (vars f)) i
    = Some (calcState (vs_inter ns (vars f)) (calcStates (vars f) i))).
  { intros i Hi. apply nth_error_IndexFor. unfold wf_factor in Hwf. lia. }
  specialize (Hent Hidx Hloop k).
  simpl in Hent. unfold Prob_const in Hent.
  rewrite nth_repeat in Hent.
  rewrite (nth_error_nth' a 0) by lia. f_equal.
  rewrite Hent. unfold sum_where. lra.
Qed.

Lemma marginal_sums_out_witness :
  exists h,
    marginal f_mul [x0; x1] false = Ok h /\
    vars h = vs_inter [x0; x1] (vars f_mul) /\
    forall k, (k < nrStates (vars h))%nat ->
      nth_error (p h) k
      = Some (sum_where
                (fun i => nth i (p f_mul) 0)
                (fun i =>
                   (calcState (vars h) (calcStates (vars f_mul) i) =? k)%nat)
                (length (p f_mul))).
Proof.
  apply (marginal_sums_out f_mul [x0; x1]).
  - reflexivity.
  - split.
    + intros v [<-|[<-|[<-|[]]]]; simpl; lia.
    + intros v w [<-|[<-|[<-|[]]]] [<-|[<-|[<-|[]]]]; simpl; intros E;
        try reflexivity; discriminate.
Defined.

(** ** The product commutes *)

Lemma vs_union_comm (a : VarSet) :
  forall b : VarSet,
    (forall v w, In v a -> In w b -> label v = label w -> v = w) ->
    vs_union a b = vs_union b a.
Proof.
  induction a as [|x a IHa]; intros b Hc.
  - rewrite vs_union_nil_l, vs_union_nil_r. reflexivity.
  - induction b as [|y b IHb].
    + rewrite vs_union_nil_l, vs_union_nil_r. reflexivity.
    + rewrite !vs_union_cons. unfold var_ltb.
      destruct (Nat.ltb_spec (label x) (label y)) as [Hxy|Hxy].
      * destruct (Nat.ltb_spec (label y) (label x)); [lia|].
        f_equal. apply IHa. intros v w Hv Hw. apply Hc; [right|]; assumption.
      * destruct (Nat.ltb_spec (label y) (label x)) as [Hyx|Hyx].
        -- f_equal. apply IHb. intros v w Hv Hw.
           apply Hc; [|right]; assumption.
        -- assert (E : x = y).
           { apply Hc; [left; reflexivity|left; reflexivity|lia]. }
           subst y. f_equal. apply IHa. intros v w Hv Hw.
           apply Hc; right; assumption.
Qed.

(** X26: the product commutes: for well-formed factors [g] and [f] with
    sorted variables of one graph, [g * f] and [f * g] are the same
    factor. *)
Theorem Factor_mul_commutes (g f : Factor) :
  wf_factor g -> wf_factor f ->
  vs_sorted (vars g) -> vs_sorted (vars f) ->
  wf_vars (vars g ++ vars f) ->
  exists h, Factor_mul g f = Ok h /\ Factor_mul f g = Ok h.
Proof.
  intros Hg Hf Hsg Hsf HL.
  assert (HL' : wf_vars (vars f ++ vars g)).
  { apply (wf_vars_incl (vars g ++ vars f)); [|exact HL].
    intros v Hv. apply in_app_or in Hv. apply in_or_app.
    destruct Hv; [right|left]; assumption. }
  destruct (Factor_mul_at g f Hg Hf HL) as [h1 [H1 [Hv1 [Hw1 Hval1]]]].
  destruct (Factor_mul_at f g Hf Hg HL') as [h2 [H2 [Hv2 [Hw2 Hval2]]]].
  exists h1. split; [exact H1|]. rewrite H2. f_equal.
  assert (Hvars : vars h2 = vars h1).
  { rewrite Hv1, Hv2. apply vs_union_comm. intros v w Hv Hw E.
    destruct HL as [_ Hc].
    assert (Hs : states v = states w).
    { apply Hc; auto; apply in_or_app; [right|left]; assumption. }
    destruct v, w; simpl in *; congruence. }
  destruct h1 as [U p1], h2 as [U2 p2]. simpl in *.
  clear Hv2. subst U2. f_equal.
  assert (HUL : incl U (vars g ++ vars f)).
  { rewrite Hv1. intros v Hv. apply in_or_app. apply vs_union_In. exact Hv. }
  assert (Hnd : NoDup (labels U)).
  { apply vs_sorted_NoDup. rewrite Hv1. apply vs_union_sorted; assumption. }
  apply nth_error_ext. intros k.
  destruct (Nat.lt_ge_cases k (nrStates U)) as [Hk|Hk].
  - pose proof (calcStates_valid (vars g ++ vars f) U U k HL HUL HUL) as Hx.
    pose proof (calcState_calcStates U Hnd
                  (fun v Hv => proj1 HL v (HUL v Hv)) k Hk) as Ek.
    destruct (Hval1 _ Hx) as [a [b [Ha [Hb Hab]]]].
    destruct (Hval2 _ Hx) as [b' [a' [Hb' [Ha' Hba]]]].
    rewrite Ek in Hab, Hba. rewrite Hab, Hba. f_equal.
    assert (a' = a) by congruence. assert (b' = b) by congruence.
    subst. apply Rmult_comm.
  - unfold wf_factor in Hw1, Hw2. simpl in Hw1, Hw2.
    rewrite (proj2 (nth_error_None p2 k)) by lia.
    rewrite (proj2 (nth_error_None p1 k)) by lia. reflexivity.
Qed.

Lemma Factor_mul_commutes_witness :
  exists h, Factor_mul g_mul f_mul = Ok h /\ Factor_mul f_mul g_mul = Ok h.
Proof.
  apply (Factor_mul_commutes g_mul f_mul).
  - reflexivity.
  - reflexivity.
  - unfold vs_sorted. simpl. repeat constructor.
  - unfold vs_sorted. simpl. repeat constructor.
  - exact wf_vars_x0_x1.
Defined.

(** ** beliefs() *)

(** A loop that appends [g i] for [i = a, ..., a + n - 1]. *)
Lemma collect_loop {A : Type} (g : nat -> result A) :
  forall (n a : nat) (r0 r : list A),
    for_each (seq a n) (fun i r => b <- g i ;; Ok (r ++ [b])) r0 = Ok r ->
    exists bs,
      r = r0 ++ bs /\ length bs = n /\
      forall k, (k < n)%nat ->
        exists b, nth_error bs k = Some b /\ g (a + k)%nat = Ok b.
Proof.
  induction n as [|n IH]; intros a r0 r H; simpl in H.
  - injection H as <-. exists []. rewrite app_nil_r.
    split; [reflexivity|]. split; [reflexivity|]. intros; lia.
  - apply bind_Ok_inv in H. destruct H as [r1 [H1 H]].
    apply bind_Ok_inv in H1. destruct H1 as [b [Hb E]]. injection E as <-.
    destruct (IH (S a) _ _ H) as [bs [-> [Hlen Hk]]].
    exists (b :: bs). rewrite <- app_assoc. split; [reflexivity|].
    split; [simpl; lia|].
    intros [|k] Hlt.
    + exists b. rewrite Nat.add_0_r. auto.
    + destruct (Hk k) as [b' [Hb' Hg]]; [lia|].
      exists b'. split; [exact Hb'|].
      rewrite <- Hg. f_equal. lia.
Qed.

(** X27: when [beliefs()] returns, the list holds one belief per variable,
    in the order of the variables, followed by one belief per factor, in
    the order of the factors: entry [i] is [beliefV( i )] and entry
    [nrVars() + I] is [beliefF( I )]; on a ready state it returns. *)
Theorem beliefs_lists_variables_then_factors (bp : BP) :
  (forall bs, BP_beliefs bp = Ok bs ->
     length bs = (nrVars bp + nrFactors bp)%nat /\
     (forall i, (i < nrVars bp)%nat ->
        exists b, nth_error bs i = Some b /\ BP_beliefV bp i = Ok b) /\
     (forall I, (I < nrFactors bp)%nat ->
        exists b, nth_error bs (nrVars bp + I) = Some b /\
                  BP_beliefF bp I = Ok b)) /\
  (ready bp -> exists bs, BP_beliefs bp = Ok bs).
Proof.
  split.
  - intros bs H. unfold BP_beliefs, for_range in H.
    apply bind_Ok_inv in H. destruct H as [r1 [H1 H2]].
    apply collect_loop in H1. destruct H1 as [bV [-> [HlV HV]]].
    apply collect_loop in H2. destruct H2 as [bF [-> [HlF HF]]].
    simpl. split; [rewrite length_app; lia|]. split.
    + intros i Hi. destruct (HV i Hi) as [b [Hb Hg]].
      exists b. split; [|exact Hg].
      rewrite nth_error_app1 by lia. exact Hb.
    + intros I HI. destruct (HF I HI) as [b [Hb Hg]].
      exists b. split; [|exact Hg].
      rewrite nth_error_app2 by lia.
      replace (nrVars bp + I - length bV)%nat with I by lia. exact Hb.
  - intros Hr. unfold BP_beliefs, for_range.
    destruct (for_each_progress (fun _ : list Factor => True)
                (fun i result =>
                   b <- BP_beliefV bp i ;; Ok (result ++ [b]))
                (seq 0 (nrVars bp))) with (s := @nil Factor)
      as [r1 [H1 _]]; [|exact Logic.I|].
    { intros i r Hi _. apply in_seq in Hi.
      destruct (BP_beliefV_Ok bp i Hr) as [b Hb]; [lia|].
      rewrite Hb. cbn [bind]. eauto. }
    rewrite H1. cbn [bind].
    destruct (for_each_progress (fun _ : list Factor => True)
                (fun I result =>
                   b <- BP_beliefF bp I ;; Ok (result ++ [b]))
                (seq 0 (nrFactors bp))) with (s := r1)
      as [r2 [H2 _]]; [|exact Logic.I|].
    { intros I r HI _. apply in_seq in HI.
      destruct (BP_beliefF_Ok bp I Hr) as [b Hb]; [lia|].
      rewrite Hb. cbn [bind]. eauto. }
    exists r2. exact H2.
Qed.

Lemma beliefs_lists_variables_then_factors_witness :
  exists bs,
    BP_beliefs bn0 = Ok bs /\
    length bs = (nrVars bn0 + nrFactors bn0)%nat.
Proof.
  destruct (beliefs_lists_variables_then_factors bn0) as [H1 H2].
  destruct (H2 ready_bn0) as [bs Hbs].
  exists bs. split; [exact Hbs|]. apply (H1 bs Hbs).
Defined.

(** ** slice after embed *)

Lemma vs_sorted_filter (P : Var -> bool) (a : VarSet) :
  vs_sorted a -> vs_sorted (filter P a).
Proof.
  induction a as [|x a IH]; intros H; [exact H|].
  apply vs_sorted_cons in H as H'. destruct H' as [Ha Hx].
  simpl. destruct (P x); [|apply IH; exact Ha].
  unfold vs_sorted. simpl. constructor; [apply IH; exact Ha|].
  apply Forall_forall. intros l Hl. unfold labels in Hl.
  apply in_map_iff in Hl. destruct Hl as [v [<- Hv]].
  apply filter_In in Hv. apply Hx. apply Hv.
Qed.

Lemma vs_diff_self (a : VarSet) : vs_diff a a = [].
Proof.
  unfold vs_diff.
  assert (H : forall b, incl a b ->
            filter (fun v => negb (vs_mem v b)) a = []).
  { induction a as [|x a IH]; intros b Hb; [reflexivity|]. simpl.
    replace (vs_mem x b) with true.
    - simpl. apply IH. intros v Hv. apply Hb. right. exact Hv.
    - symmetry. apply vs_mem_true. exists x. split; [|reflexivity].
      apply Hb. left. reflexivity. }
  apply H. apply incl_refl.
Qed.

(** Taking a sorted VarSet [V] out of a sorted VarSet [ns] that contains it
    and then the rest out of [ns] gives [V] back. *)
Lemma vs_diff_diff (ns : VarSet) :
  forall V : VarSet,
    vs_sorted ns -> vs_sorted V ->
    (forall v w, In v V -> In w ns -> label v = label w -> v = w) ->
    vs_superset ns V = true ->
    vs_diff ns (vs_diff ns V) = V.
Proof.
  induction ns as [|w ns IH]; intros V Hns HV Hc Hsup.
  - destruct V as [|v V]; [reflexivity|]. simpl in Hsup. discriminate.
  - destruct V as [|v V].
    { rewrite vs_diff_nil_r. apply vs_diff_self. }
    apply vs_sorted_cons in Hns. destruct Hns as [Hns Hw].
    apply vs_sorted_cons in HV as HV'. destruct HV' as [HV' Hv].
    unfold vs_superset in Hsup. rewrite forallb_forall in Hsup.
    assert (Hmem : forall u, In u (v :: V) ->
              label u = label w \/ exists t, In t ns /\ label u = label t).
    { intros u Hu. specialize (Hsup u Hu). apply vs_mem_true in Hsup.
      destruct Hsup as [t [[<-|Ht] E]]; [left; exact E|right; eauto]. }
    assert (Hdrop : forall X, vs_diff ns (w :: X) = vs_diff ns X).
    { intros X. unfold vs_diff. apply filter_ext_in. intros u Hu.
      unfold vs_mem. cbn [existsb]. unfold var_eqb at 1.
      specialize (Hw u Hu).
      destruct (Nat.eqb_spec (label u) (label w)); [lia|reflexivity]. }
    assert (Hkeep : forall X, incl X ns ->
              vs_diff (w :: ns) X = w :: vs_diff ns X).
    { intros X HX. unfold vs_diff. cbn [filter].
      rewrite (vs_mem_false w X); [reflexivity|].
      intros u Hu. specialize (Hw u (HX u Hu)). lia. }
    destruct (Nat.eq_dec (label v) (label w)) as [E|Hne].
    + assert (Evw : v = w)
        by (apply Hc; [left; reflexivity|left; reflexivity|exact E]).
      subst w.
      assert (Hd : vs_diff (v :: ns) (v :: V) = vs_diff ns V).
      { unfold vs_diff at 1. cbn [filter].
        replace (vs_mem v (v :: V)) with true
          by (symmetry; apply vs_mem_true; exists v; split;
              [left; reflexivity|reflexivity]).
        cbn [negb]. apply (Hdrop V). }
      rewrite Hd, (Hkeep _ (vs_diff_incl ns V)). f_equal.
      apply IH; auto.
      * intros a b Ha Hb. apply Hc; right; assumption.
      * unfold vs_superset. apply forallb_forall. intros u Hu.
        apply vs_mem_true.
        destruct (Hmem u (or_intror Hu)) as [Eu|[t [Ht Eu]]]; [|eauto].
        specialize (Hv u Hu). lia.
    + assert (Hvw : (label w < label v)%nat).
      { destruct (Hmem v (or_introl eq_refl)) as [Eu|[t [Ht Eu]]];
          [contradiction|]. specialize (Hw t Ht). lia. }
      assert (Hall : forall u, In u (v :: V) -> (label w < label u)%nat).
      { intros u [<-|Hu]; [exact Hvw|]. specialize (Hv u Hu). lia. }
      assert (Hd : vs_diff (w :: ns) (v :: V) = w :: vs_diff ns (v :: V)).
      { unfold vs_diff. cbn [filter].
        rewrite (vs_mem_false w (v :: V)); [reflexivity|].
        intros u Hu. specialize (Hall u Hu). lia. }
      rewrite Hd.
      assert (Hd2 : vs_diff (w :: ns) (w :: vs_diff ns (v :: V))
                    = vs_diff ns (vs_diff ns (v :: V))).
      { unfold vs_diff at 1. cbn [filter].
        replace (vs_mem w (w :: vs_diff ns (v :: V))) with true
          by (symmetry; apply vs_mem_true; exists w; split;
              [left; reflexivity|reflexivity]).
        cbn [negb]. apply (Hdrop (vs_diff ns (v :: V))). }
      rewrite Hd2. apply IH; auto.
      * intros a b Ha Hb. apply Hc; [exact Ha|right; exact Hb].
      * unfold vs_superset. apply forallb_forall. intros u Hu.
        apply vs_mem_true.
        destruct (Hmem u Hu) as [Eu|[t [Ht Eu]]]; [|eauto].
        specialize (Hall u Hu). lia.
Qed.

Lemma vs_diff_not_mem (a b : VarSet) (v : Var) :
  In v (vs_diff a b) -> ~ In (label v) (labels b).
Proof.
  intros Hv Hl. unfold vs_diff in Hv. apply filter_In in Hv.
  destruct Hv as [_ Hm]. unfold labels in Hl. apply in_map_iff in Hl.
  destruct Hl as [w [E Hw]].
  assert (Ht : vs_mem v b = true)
    by (apply vs_mem_true; exists w; split; [exact Hw|congruence]).
  rewrite Ht in Hm. discriminate.
Qed.

(** X28: slicing an embedded factor gives the factor back: for a
    well-formed factor [f] with sorted variables, a sorted VarSet [ns] of
    the same graph that contains them and a joint state [s] of the added
    variables [ns / f.vars()], [f.embed( ns ).slice( ns / f.vars(), s )] is
    [f]. *)
Theorem slice_of_embed_is_identity (f : Factor) (ns : VarSet) (s : nat) :
  wf_factor f -> vs_sorted (vars f) -> vs_sorted ns ->
  wf_vars (ns ++ vars f) ->
  vs_superset ns (vars f) = true ->
  (s < nrStates (vs_diff ns (vars f)))%nat ->
  exists h,
    Factor_embed f ns = Ok h /\
    Factor_slice h (vs_diff ns (vars f)) s = Ok f.
Proof.
  intros Hwf Hsf Hsn HL Hsup Hs.
  set (V := vars f) in *. set (D := vs_diff ns V) in *.
  destruct (proj1 (Factor_embed_spec f ns Hwf Hsf Hsn HL) Hsup)
    as [h [Hh [Hvh [Hwh Hvalh]]]].
  exists h. split; [exact Hh|].
  assert (HDn : incl D ns) by apply vs_diff_incl.
  assert (HLh : wf_vars (vars h ++ D)).
  { rewrite Hvh. apply (wf_vars_incl (ns ++ V)); [|exact HL].
    intros v Hv. apply in_app_or in Hv. apply in_or_app. left.
    destruct Hv as [Hv|Hv]; [exact Hv|apply HDn; exact Hv]. }
  assert (HsupD : vs_superset (vars h) D = true).
  { rewrite Hvh. unfold vs_superset. apply forallb_forall. intros v Hv.
    apply vs_mem_true. exists v. split; [apply HDn; exact Hv|reflexivity]. }
  assert (Hsh : vs_sorted (vars h)) by (rewrite Hvh; exact Hsn).
  destruct (proj1 (Factor_slice_spec h D s Hwh Hsh HLh) HsupD)
    as [g [Hg [Hvg [Hwg Hvalg]]]].
  rewrite Hg. f_equal.
  assert (Hcons : forall v w, In v V -> In w ns -> label v = label w ->
                              v = w).
  { intros v w Hv Hw E. destruct HL as [_ Hc].
    assert (Hst : states v = states w).
    { apply Hc; auto; apply in_or_app; [right|left]; assumption. }
    destruct v, w; simpl in *; congruence. }
  assert (HgV : vars g = V).
  { rewrite Hvg, Hvh. apply vs_diff_diff; assumption. }
  clear Hvg. destruct g as [Vg pg]. destruct f as [Vf pf]. simpl in *.
  unfold V in *. subst Vg. f_equal.
  assert (HVL : incl Vf (ns ++ Vf))
    by (intros v Hv; apply in_or_app; right; exact Hv).
  assert (HnL : incl ns (ns ++ Vf))
    by (intros v Hv; apply in_or_app; left; exact Hv).
  assert (HDL : incl D (ns ++ Vf))
    by (intros v Hv; apply HnL, HDn, Hv).
  assert (HndV : NoDup (labels Vf)) by (apply vs_sorted_NoDup; exact Hsf).
  assert (HndD : NoDup (labels D)).
  { apply vs_sorted_NoDup. unfold D, vs_diff. apply vs_sorted_filter.
    exact Hsn. }
  apply nth_error_ext. intros k.
  unfold wf_factor in Hwf, Hwg. simpl in Hwf, Hwg.
  destruct (Nat.lt_ge_cases k (nrStates Vf)) as [Hk|Hk].
  - set (x := fun l => if existsb (Nat.eqb l) (labels Vf)
                       then calcStates Vf k l else calcStates D s l).
    assert (HxV : forall l, In l (labels Vf) -> x l = calcStates Vf k l).
    { intros l Hl. unfold x.
      replace (existsb (Nat.eqb l) (labels Vf)) with true; [reflexivity|].
      symmetry. apply existsb_exists. exists l. split; [exact Hl|].
      apply Nat.eqb_refl. }
    assert (HxD : forall l, ~ In l (labels Vf) -> x l = calcStates D s l).
    { intros l Hl. unfold x.
      destruct (existsb (Nat.eqb l) (labels Vf)) eqn:E; [|reflexivity].
      apply existsb_exists in E. destruct E as [l' [Hl' E]].
      apply Nat.eqb_eq in E. subst l'. contradiction. }
    assert (Hxn : valid_on ns x).
    { intros v Hv.
      destruct (in_dec Nat.eq_dec (label v) (labels Vf)) as [Hin|Hout].
      - rewrite (HxV _ Hin). apply (calcStates_lt (ns ++ Vf)); auto.
      - rewrite (HxD _ Hout). apply (calcStates_lt (ns ++ Vf)); auto. }
    assert (EV : calcState Vf x = k).
    { rewrite (calcState_ext Vf x (calcStates Vf k) HxV).
      apply calcState_calcStates; auto.
      intros v Hv. apply (proj1 HL). apply HVL. exact Hv. }
    assert (ED : calcState D x = s).
    { rewrite (calcState_ext D x (calcStates D s)).
      - apply calcState_calcStates; auto.
        intros v Hv. apply (proj1 HL). apply HDL. exact Hv.
      - intros l Hl. apply HxD. unfold labels in Hl.
        apply in_map_iff in Hl. destruct Hl as [v [<- Hv]].
        apply (vs_diff_not_mem ns Vf v Hv). }
    rewrite Hvh in Hvalg.
    destruct (Hvalg x Hxn ED) as [a [Ha Hga]].
    destruct (Hvalh x Hxn) as [a' [Hfa Hha]].
    rewrite EV in Hga, Hfa. congruence.
  - rewrite (proj2 (nth_error_None pg k)) by lia.
    rewrite (proj2 (nth_error_None pf k)) by lia. reflexivity.
Qed.

Lemma slice_of_embed_is_identity_witness :
  exists h,
    Factor_embed g_mul [x0; x1] = Ok h /\
    Factor_slice h (vs_diff [x0; x1] (vars g_mul)) 2 = Ok g_mul.
Proof.
  apply (slice_of_embed_is_identity g_mul [x0; x1] 2).
  - reflexivity.
  - unfold vs_sorted. simpl. repeat constructor.
  - unfold vs_sorted. simpl. repeat constructor.
  - split.
    + intros v [<-|[<-|[<-|[]]]]; simpl; lia.
    + intros v w [<-|[<-|[<-|[]]]] [<-|[<-|[<-|[]]]]; simpl; intros E;
        try reflexivity; discriminate.
  - reflexivity.
  - simpl. lia.
Defined.

(** ** The SEQMAX schedule in the two domains *)

(** [calcNewMessage] on the four edges of [fg4] in the linear domain: the
    factor is multiplied by the live message of the other factor into the
    other variable, summed over that variable and normalized. *)
Ltac calc4 Hz :=
  unfold BP_calcNewMessage, st4; simpl;
  unfold Prob_normalize, add_at, for_range; simpl;
  unfold Prob_totalSum; simpl;
  match goal with
  | |- context [Req_dec_T ?z 0] =>
      let E := fresh "E" in
      destruct (Req_dec_T z 0) as [E|E]; [exfalso; apply Hz; lra|];
      cbn [bind];
      unfold update_edge, modify, with_edges, with_newMessage; simpl;
      repeat f_equal;
      apply Rmult_eq_reg_r with (r := z); try exact E;
      unfold Rdiv; rewrite Rmult_assoc, Rinv_l, Rmult_1_r by exact E; lra
  end.

Lemma calc4_00 (e00 e01 e10 : Prob * Prob * R) (m11 n11 : Prob) (r11 c d : R)
  (a b : R) :
  m11 = [c; d] ->
  5 * c + 50 * d + (10 * c + 100 * d) <> 0 ->
  a * (5 * c + 50 * d + (10 * c + 100 * d)) = 5 * c + 50 * d ->
  b * (5 * c + 50 * d + (10 * c + 100 * d)) = 10 * c + 100 * d ->
  BP_calcNewMessage (st4 e00 e01 e10 (m11, n11, r11)) 0 0
  = Ok (st4 (fst (fst e00), [a; b], snd e00) e01 e10 (m11, n11, r11)).
Proof. intros -> Hz Ha Hb. calc4 Hz. Qed.

Lemma calc4_01 (e00 e01 e11 : Prob * Prob * R) (m10 n10 : Prob) (r10 c d : R)
  (a b : R) :
  m10 = [c; d] ->
  100 * c + 4 * d + (5 * c + 5 * d) <> 0 ->
  a * (100 * c + 4 * d + (5 * c + 5 * d)) = 100 * c + 4 * d ->
  b * (100 * c + 4 * d + (5 * c + 5 * d)) = 5 * c + 5 * d ->
  BP_calcNewMessage (st4 e00 e01 (m10, n10, r10) e11) 0 1
  = Ok (st4 e00 (fst (fst e01), [a; b], snd e01) (m10, n10, r10) e11).
Proof. intros -> Hz Ha Hb. calc4 Hz. Qed.

Lemma calc4_10 (e00 e10 e11 : Prob * Prob * R) (m01 n01 : Prob) (r01 c d : R)
  (a b : R) :
  m01 = [c; d] ->
  5 * c + 10 * d + (50 * c + 100 * d) <> 0 ->
  a * (5 * c + 10 * d + (50 * c + 100 * d)) = 5 * c + 10 * d ->
  b * (5 * c + 10 * d + (50 * c + 100 * d)) = 50 * c + 100 * d ->
  BP_calcNewMessage (st4 e00 (m01, n01, r01) e10 e11) 1 0
  = Ok (st4 e00 (m01, n01, r01) (fst (fst e10), [a; b], snd e10) e11).
Proof. intros -> Hz Ha Hb. calc4 Hz. Qed.

Lemma calc4_11 (e01 e10 e11 : Prob * Prob * R) (m00 n00 : Prob) (r00 c d : R)
  (a b : R) :
  m00 = [c; d] ->
  100 * c + 5 * d + (4 * c + 5 * d) <> 0 ->
  a * (100 * c + 5 * d + (4 * c + 5 * d)) = 100 * c + 5 * d ->
  b * (100 * c + 5 * d + (4 * c + 5 * d)) = 4 * c + 5 * d ->
  BP_calcNewMessage (st4 (m00, n00, r00) e01 e10 e11) 1 1
  = Ok (st4 (m00, n00, r00) e01 e10 (fst (fst e11), [a; b], snd e11)).
Proof. intros -> Hz Ha Hb. calc4 Hz. Qed.

(** A step of the SEQMAX schedule at each of the four edges of [fg4] in
    the linear domain: the staged message is committed, and the message of
    the other factor into the other variable is staged anew. *)
Lemma step4_11 (m00 n00 : Prob) (r00 : R) (e01 e10 : Prob * Prob * R)
  (m11 : Prob) (r11 c d a b : R) :
  5 * c + 50 * d + (10 * c + 100 * d) <> 0 ->
  a * (5 * c + 50 * d + (10 * c + 100 * d)) = 5 * c + 50 * d ->
  b * (5 * c + 50 * d + (10 * c + 100 * d)) = 10 * c + 100 * d ->
  BP_seqmax_update (st4 (m00, n00, r00) e01 e10 (m11, [c; d], r11)) 1 1
  = Ok (st4 (m00, [a; b], linf [a; b] m00) e01 e10 ([c; d], [c; d], 0)).
Proof.
  intros Hz Ha Hb. unfold BP_seqmax_update, st4.
  cbn -[BP_calcNewMessage dist_Prob].
  change (BP_calcNewMessage _ 0%nat 0%nat)
    with (BP_calcNewMessage
            (st4 (m00, n00, r00) e01 e10 ([c; d], [c; d], 0)) 0%nat 0%nat).
  rewrite (calc4_00 _ _ _ _ _ _ c d a b); [|reflexivity|lra..].
  reflexivity.
Qed.

Lemma step4_01 (e00 : Prob * Prob * R) (m01 : Prob) (r01 : R)
  (m10 n10 : Prob) (r10 : R) (e11 : Prob * Prob * R) (c d a b : R) :
  5 * c + 10 * d + (50 * c + 100 * d) <> 0 ->
  a * (5 * c + 10 * d + (50 * c + 100 * d)) = 5 * c + 10 * d ->
  b * (5 * c + 10 * d + (50 * c + 100 * d)) = 50 * c + 100 * d ->
  BP_seqmax_update (st4 e00 (m01, [c; d], r01) (m10, n10, r10) e11) 0 1
  = Ok (st4 e00 ([c; d], [c; d], 0) (m10, [a; b], linf [a; b] m10) e11).
Proof.
  intros Hz Ha Hb. unfold BP_seqmax_update, st4.
  cbn -[BP_calcNewMessage dist_Prob].
  change (BP_calcNewMessage _ 1%nat 0%nat)
    with (BP_calcNewMessage
            (st4 e00 ([c; d], [c; d], 0) (m10, n10, r10) e11) 1%nat 0%nat).
  rewrite (calc4_10 _ _ _ _ _ _ c d a b); [|reflexivity|lra..].
  reflexivity.
Qed.

Lemma step4_10 (e00 : Prob * Prob * R) (m01 n01 : Prob) (r01 : R)
  (m10 : Prob) (r10 : R) (e11 : Prob * Prob * R) (c d a b : R) :
  100 * c + 4 * d + (5 * c + 5 * d) <> 0 ->
  a * (100 * c + 4 * d + (5 * c + 5 * d)) = 100 * c + 4 * d ->
  b * (100 * c + 4 * d + (5 * c + 5 * d)) = 5 * c + 5 * d ->
  BP_seqmax_update (st4 e00 (m01, n01, r01) (m10, [c; d], r10) e11) 1 0
  = Ok (st4 e00 (m01, [a; b], linf [a; b] m01) ([c; d], [c; d], 0) e11).
Proof.
  intros Hz Ha Hb. unfold BP_seqmax_update, st4.
  cbn -[BP_calcNewMessage dist_Prob].
  change (BP_calcNewMessage _ 0%nat 1%nat)
    with (BP_calcNewMessage
            (st4 e00 (m01, n01, r01) ([c; d], [c; d], 0) e11) 0%nat 1%nat).
  rewrite (calc4_01 _ _ _ _ _ _ c d a b); [|reflexivity|lra..].
  reflexivity.
Qed.

Lemma step4_00 (m00 : Prob) (r00 : R) (e01 e10 : Prob * Prob * R)
  (m11 n11 : Prob) (r11 c d a b : R) :
  100 * c + 5 * d + (4 * c + 5 * d) <> 0 ->
  a * (100 * c + 5 * d + (4 * c + 5 * d)) = 100 * c + 5 * d ->
  b * (100 * c + 5 * d + (4 * c + 5 * d)) = 4 * c + 5 * d ->
  BP_seqmax_update (st4 (m00, [c; d], r00) e01 e10 (m11, n11, r11)) 0 0
  = Ok (st4 ([c; d], [c; d], 0) e01 e10 (m11, [a; b], linf [a; b] m11)).
Proof.
  intros Hz Ha Hb. unfold BP_seqmax_update, st4.
  cbn -[BP_calcNewMessage dist_Prob].
  change (BP_calcNewMessage _ 1%nat 1%nat)
    with (BP_calcNewMessage
            (st4 ([c; d], [c; d], 0) e01 e10 (m11, n11, r11)) 1%nat 1%nat).
  rewrite (calc4_11 _ _ _ _ _ _ c d a b); [|reflexivity|lra..].
  reflexivity.
Qed.

(** The states of the linear-domain run on [fg4]. *)
Lemma BP_create_init_fg4 :
  (bp <- BP_create (mkBP fg4 [] false NORMPROB) ;; BP_init bp) = Ok s4_init.
Proof.
  unfold BP_create, for_range. simpl.
  unfold BP_init, for_range. simpl.
  unfold update_edge, with_edges, with_message, with_newMessage. simpl.
  reflexivity.
Qed.

Lemma BP_first_pass_SEQMAX_s4 : BP_first_pass_SEQMAX s4_init = Ok s4_first.
Proof.
  unfold BP_first_pass_SEQMAX, for_range.
  change (nrVars s4_init) with 2%nat. cbn [seq for_each].
  change (nbV s4_init 0) with (Ok [mkNeighbor 0 0 0; mkNeighbor 1 1 0]).
  cbn [bind for_each iter].
  unfold s4_init.
  rewrite (calc4_00 _ _ _ _ _ _ 1 1 (1 / 3) (2 / 3)); [|reflexivity|lra..].
  cbn -[BP_calcNewMessage dist_Prob].
  change (BP_calcNewMessage _ 0%nat 1%nat)
    with (BP_calcNewMessage
            (st4 ([1; 1], [1 / 3; 2 / 3], linf [1 / 3; 2 / 3] [1; 1])
                 ([1; 1], [1; 1], 0) ([1; 1], [1; 1], 0)
                 ([1; 1], [1; 1], 0)) 0%nat 1%nat).
  rewrite (calc4_01 _ _ _ _ _ _ 1 1 (52 / 57) (5 / 57)); [|reflexivity|lra..].
  cbn -[BP_calcNewMessage dist_Prob].
  change (BP_calcNewMessage _ 1%nat 0%nat)
    with (BP_calcNewMessage
            (st4 ([1; 1], [1 / 3; 2 / 3], linf [1 / 3; 2 / 3] [1; 1])
                 ([1; 1], [52 / 57; 5 / 57], linf [52 / 57; 5 / 57] [1; 1])
                 ([1; 1], [1; 1], 0)
                 ([1; 1], [1; 1], 0)) 1%nat 0%nat).
  rewrite (calc4_10 _ _ _ _ _ _ 1 1 (1 / 11) (10 / 11)); [|reflexivity|lra..].
  cbn -[BP_calcNewMessage dist_Prob].
  change (BP_calcNewMessage _ 1%nat 1%nat)
    with (BP_calcNewMessage
            (st4 ([1; 1], [1 / 3; 2 / 3], linf [1 / 3; 2 / 3] [1; 1])
                 ([1; 1], [52 / 57; 5 / 57], linf [52 / 57; 5 / 57] [1; 1])
                 ([1; 1], [1 / 11; 10 / 11], linf [1 / 11; 10 / 11] [1; 1])
                 ([1; 1], [1; 1], 0)) 1%nat 1%nat).
  rewrite (calc4_11 _ _ _ _ _ _ 1 1 (35 / 38) (3 / 38)); [|reflexivity|lra..].
  reflexivity.
Qed.

Lemma BP_seqmax_update_s4_first : BP_seqmax_update s4_first 1 1 = Ok s4_step1.
Proof. apply step4_11; lra. Qed.

Lemma BP_seqmax_update_s4_step1 : BP_seqmax_update s4_step1 0 1 = Ok s4_step2.
Proof. apply step4_01; lra. Qed.

Lemma BP_seqmax_update_s4_step2 : BP_seqmax_update s4_step2 1 0 = Ok s4_step3.
Proof. apply step4_10; lra. Qed.

Lemma BP_seqmax_update_s4_step3 : BP_seqmax_update s4_step3 0 0 = Ok s4_step4.
Proof. apply step4_00; lra. Qed.

Lemma BP_seqmax_update_s4_step3_log :
  BP_seqmax_update s4_step3 0 1 = Ok s4_step4_log.
Proof. apply step4_01; lra. Qed.

(** [findMaxResidual] selects the edge whose residual is strictly the
    largest. *)
Lemma BP_findMaxResidual_strict (bp : BP) (i _I : nat) (m : R) :
  wf_nbV bp -> edges_shape bp -> is_edge bp (0%nat, 0%nat) ->
  BP_residual bp i _I = Ok m ->
  (forall e r, is_edge bp e -> e <> (i, _I) ->
               BP_residual bp (fst e) (snd e) = Ok r -> r < m) ->
  BP_findMaxResidual bp = Ok (i, _I).
Proof.
  intros Hw Hs H0 Hm Hlt.
  destruct (BP_findMaxResidual_scan bp Hw Hs H0)
    as [i0 [_I0 [m0 [Hfind [Hm0 [Hedge Hmax]]]]]].
  rewrite Hfind. f_equal.
  destruct (Nat.eq_dec i0 i) as [->|Hi];
    [destruct (Nat.eq_dec _I0 _I) as [->|HI]; [reflexivity|]|].
  - exfalso.
    assert (Hne : (i, _I0) <> (i, _I)) by congruence.
    pose proof (Hlt (i, _I0) m0 Hedge Hne Hm0) as H1.
    pose proof (BP_residual_Ok_inv bp i _I m Hs Hm) as He.
    destruct (Hmax (i, _I) m He Hm) as [H2 _]. lra.
  - exfalso.
    assert (Hne : (i0, _I0) <> (i, _I)) by congruence.
    pose proof (Hlt (i0, _I0) m0 Hedge Hne Hm0) as H1.
    pose proof (BP_residual_Ok_inv bp i _I m Hs Hm) as He.
    destruct (Hmax (i, _I) m He Hm) as [H2 _]. lra.
Qed.

(** On a state over the graph [fg4]: the edge [(i, _I)] is selected when
    its residual is above a threshold that bounds the three others. *)
Lemma BP_findMaxResidual_fg4 (bp : BP) (i _I : nat) (t m : R) :
  fg bp = fg4 -> edges_shape bp ->
  BP_residual bp i _I = Ok m -> t < m ->
  (forall j _J r, (j < 2)%nat -> (_J < 2)%nat -> (j, _J) <> (i, _I) ->
                  BP_residual bp j _J = Ok r -> r <= t) ->
  BP_findMaxResidual bp = Ok (i, _I).
Proof.
  intros Hfg Hs Hm Ht Hle.
  apply (BP_findMaxResidual_strict bp i _I m); auto.
  - intros j nb Hj. rewrite Hfg in Hj.
    destruct j as [|[|j]]; simpl in Hj;
      [injection Hj as <-; reflexivity | injection Hj as <-; reflexivity|].
    destruct j; discriminate.
  - split; unfold nrVars, deg; rewrite Hfg; simpl; lia.
  - intros [j _J] r [Hj HJ] Hne Hr. simpl in *.
    unfold nrVars in Hj. unfold deg in HJ. rewrite Hfg in Hj, HJ.
    simpl in Hj.
    assert (HJ2 : (_J < 2)%nat).
    { destruct j as [|[|j]]; simpl in HJ; lia. }
    apply Rle_lt_trans with t; [|exact Ht].
    apply (Hle j _J r); auto.
Qed.

(** ** The LINF distance of two vectors of two entries, and of their
    logarithms *)

Lemma linf2 (a b c d : R) :
  linf [a; b] [c; d] = Rmax (Rabs (a - c)) (Rabs (b - d)).
Proof.
  unfold linf, dist_Prob. simpl.
  rewrite (Rmax_right 0 (Rabs (a - c))) by apply Rabs_pos. reflexivity.
Qed.

Lemma linf2_le (a b c d u : R) :
  - u <= a - c <= u -> - u <= b - d <= u -> linf [a; b] [c; d] <= u.
Proof.
  intros H1 H2. rewrite linf2. apply Rmax_lub; apply Rabs_le; assumption.
Qed.

Lemma linf2_ge (a b c d l : R) :
  l <= a - c \/ l <= c - a \/ l <= b - d \/ l <= d - b ->
  l <= linf [a; b] [c; d].
Proof.
  intros H. rewrite linf2.
  pose proof (Rmax_l (Rabs (a - c)) (Rabs (b - d))) as Hl.
  pose proof (Rmax_r (Rabs (a - c)) (Rabs (b - d))) as Hr.
  pose proof (Rle_abs (a - c)) as H1.
  pose proof (Rle_abs (b - d)) as H2.
  pose proof (Rle_abs (- (a - c))) as H3. rewrite Rabs_Ropp in H3.
  pose proof (Rle_abs (- (b - d))) as H4. rewrite Rabs_Ropp in H4.
  destruct H as [H|[H|[H|H]]]; lra.
Qed.

Lemma ln_sub_le (x y q : R) :
  0 < x -> 0 < y -> 0 < q -> x <= q * y -> ln x - ln y <= ln q.
Proof.
  intros Hx Hy Hq H.
  assert (E : ln (q * y) = ln q + ln y) by (apply ln_mult; assumption).
  destruct H as [H|H].
  - pose proof (ln_increasing x (q * y) Hx H). lra.
  - rewrite H. lra.
Qed.

Lemma linf2_ln_le (a b c d q : R) :
  0 < a -> 0 < b -> 0 < c -> 0 < d -> 0 < q ->
  a <= q * c -> c <= q * a -> b <= q * d -> d <= q * b ->
  linf (map ln [a; b]) (map ln [c; d]) <= ln q.
Proof.
  intros Ha Hb Hc Hd Hq H1 H2 H3 H4. simpl.
  pose proof (ln_sub_le a c q Ha Hc Hq H1).
  pose proof (ln_sub_le c a q Hc Ha Hq H2).
  pose proof (ln_sub_le b d q Hb Hd Hq H3).
  pose proof (ln_sub_le d b q Hd Hb Hq H4).
  apply linf2_le; lra.
Qed.

Lemma linf2_ln_ge (a b c d q : R) :
  0 < a -> 0 < b -> 0 < c -> 0 < d -> 0 < q ->
  q * a <= c \/ q * c <= a \/ q * b <= d \/ q * d <= b ->
  ln q <= linf (map ln [a; b]) (map ln [c; d]).
Proof.
  intros Ha Hb Hc Hd Hq H. simpl.
  assert (Hx : forall x y, 0 < x -> 0 < y -> q * x <= y ->
                           ln q <= ln y - ln x).
  { intros x y Hx Hy Hxy.
    assert (0 < q * x) by (apply Rmult_lt_0_compat; assumption).
    pose proof (ln_sub_le (q * x) y 1 H0 Hy Rlt_0_1) as E.
    rewrite ln_1, (ln_mult q x Hq Hx) in E. lra. }
  apply linf2_ge.
  destruct H as [H|[H|[H|H]]];
    [right; left | left | right; right; right | right; right; left];
    apply Hx; assumption.
Qed.

(** ** The edges that the linear-domain run selects *)

Ltac residual4 Hr :=
  unfold BP_residual, edge in Hr; cbn [bind] in Hr;
  injection Hr as <-;
  first [apply linf2_le; lra | apply Rle_refl | simpl; lra].

Ltac others4 :=
  let j := fresh "j" in
  let _J := fresh "_J" in
  let r := fresh "r" in
  let Hj := fresh "Hj" in
  let HJ := fresh "HJ" in
  let Hne := fresh "Hne" in
  let Hr := fresh "Hr" in
  intros j _J r Hj HJ Hne Hr;
  destruct j as [|[|j]]; [| |lia];
  (destruct _J as [|[|_J]]; [| |lia]);
  try congruence; residual4 Hr.

Lemma BP_findMaxResidual_s4_first :
  BP_findMaxResidual s4_first = Ok (1%nat, 1%nat).
Proof.
  apply (BP_findMaxResidual_fg4 s4_first 1 1 (183 / 200)
           (linf [35 / 38; 3 / 38] [1; 1])).
  - reflexivity.
  - split; reflexivity.
  - reflexivity.
  - apply Rlt_le_trans with (92 / 100); [lra|apply linf2_ge; lra].
  - others4.
Qed.

Lemma BP_findMaxResidual_s4_step1 :
  BP_findMaxResidual s4_step1 = Ok (0%nat, 1%nat).
Proof.
  apply (BP_findMaxResidual_fg4 s4_step1 0 1 (91 / 100)
           (linf [52 / 57; 5 / 57] [1; 1])).
  - reflexivity.
  - split; reflexivity.
  - reflexivity.
  - apply Rlt_le_trans with (912 / 1000); [lra|apply linf2_ge; lra].
  - others4.
Qed.

Lemma BP_findMaxResidual_s4_step2 :
  BP_findMaxResidual s4_step2 = Ok (1%nat, 0%nat).
Proof.
  apply (BP_findMaxResidual_fg4 s4_step2 1 0 (8 / 10)
           (linf [1 / 11; 10 / 11] [1; 1])).
  - reflexivity.
  - split; reflexivity.
  - reflexivity.
  - apply Rlt_le_trans with (9 / 10); [lra|apply linf2_ge; lra].
  - others4.
Qed.

Lemma BP_findMaxResidual_s4_step3 :
  BP_findMaxResidual s4_step3 = Ok (0%nat, 0%nat).
Proof.
  apply (BP_findMaxResidual_fg4 s4_step3 0 0 (1 / 2)
           (linf [1 / 3; 2 / 3] [1; 1])).
  - reflexivity.
  - split; reflexivity.
  - reflexivity.
  - apply Rlt_le_trans with (6 / 10); [lra|apply linf2_ge; lra].
  - others4.
Qed.

(** The pass of the linear-domain run: the steps at the edges (1,1),
    (0,1), (1,0) and (0,0). *)
Lemma BP_pass_SEQMAX_s4 : BP_pass_SEQMAX s4_first = Ok s4_step4.
Proof.
  unfold BP_pass_SEQMAX, for_range.
  change (nrEdges s4_first) with 4%nat. cbn [seq for_each].
  rewrite (BP_seqmax_step_select _ _ _ BP_findMaxResidual_s4_first),
    BP_seqmax_update_s4_first. cbn [bind].
  rewrite (BP_seqmax_step_select _ _ _ BP_findMaxResidual_s4_step1),
    BP_seqmax_update_s4_step1. cbn [bind].
  rewrite (BP_seqmax_step_select _ _ _ BP_findMaxResidual_s4_step2),
    BP_seqmax_update_s4_step2. cbn [bind].
  rewrite (BP_seqmax_step_select _ _ _ BP_findMaxResidual_s4_step3),
    BP_seqmax_update_s4_step3. cbn [bind].
  reflexivity.
Qed.

Lemma BP_beliefV_s4_step4 :
  BP_beliefV s4_step4 1 = Ok (mkFactor [y1] [11 / 25; 14 / 25]).
Proof.
  unfold BP_beliefV, s4_step4, st4. simpl.
  unfold Prob_normalize, Prob_totalSum. simpl.
  match goal with
  | |- context [Req_dec_T ?z 0] =>
      destruct (Req_dec_T z 0) as [E|E]; [exfalso; lra|]
  end.
  simpl. unfold Factor_var.
  match goal with
  | |- Ok (mkFactor _ [?a; ?b]) = _ =>
      replace a with (11 / 25) by field;
      replace b with (14 / 25) by field
  end.
  reflexivity.
Qed.

Lemma BP_beliefV_s4_step4_log :
  BP_beliefV s4_step4_log 1 = Ok (mkFactor [y1] [7 / 13; 6 / 13]).
Proof.
  unfold BP_beliefV, s4_step4_log, st4. simpl.
  unfold Prob_normalize, Prob_totalSum. simpl.
  match goal with
  | |- context [Req_dec_T ?z 0] =>
      destruct (Req_dec_T z 0) as [E|E]; [exfalso; lra|]
  end.
  simpl. unfold Factor_var.
  match goal with
  | |- Ok (mkFactor _ [?a; ?b]) = _ =>
      replace a with (7 / 13) by field;
      replace b with (6 / 13) by field
  end.
  reflexivity.
Qed.

(** ** The log-domain run next to the linear-domain run *)

Lemma wf_graph_fg4 : wf_graph (mkBP fg4 [] false NORMPROB).
Proof.
  split; [reflexivity|]. split; [|split].
  - split.
    + intros v Hv. simpl in Hv.
      repeat (destruct Hv as [<-|Hv]; [simpl; lia|]). destruct Hv.
    + intros v w Hv Hw. simpl in Hv, Hw.
      repeat (destruct Hv as [<-|Hv];
              [repeat (destruct Hw as [<-|Hw];
                       [simpl; intros; try reflexivity; try discriminate|]);
               destruct Hw|]).
      destruct Hv.
  - intros f [<-|[<-|[]]]; (split; [reflexivity|]);
      simpl; repeat constructor; lra.
  - intros i vi nb nI fI Hvi Hnb HnI HfI.
    destruct i as [|[|i]]; simpl in Hvi, Hnb;
      [| |destruct i; discriminate];
      injection Hvi as <-; injection Hnb as <-;
      destruct HnI as [<-|[<-|[]]]; simpl in HfI; injection HfI as <-;
      simpl; auto.
Qed.

Lemma wf_nbV_fg4 (bp : BP) : fg bp = fg4 -> wf_nbV bp.
Proof.
  intros Hfg j nb Hj. rewrite Hfg in Hj.
  destruct j as [|[|j]]; simpl in Hj;
    [injection Hj as <-; reflexivity | injection Hj as <-; reflexivity|].
  destruct j; discriminate.
Qed.

Lemma Forall2_map_length {A B : Type} (P : A -> B -> Prop)
  (l : list (list A)) (l' : list (list B)) :
  Forall2 (Forall2 P) l l' ->
  map (@length A) l = map (@length B) l'.
Proof.
  intros H. induction H as [|r r' l l' Hr H IH]; simpl; [reflexivity|].
  rewrite IH. f_equal. apply (Forall2_length Hr).
Qed.

(** A log-domain state that stands for a linear-domain state has an edge
    table of the same shape. *)
Lemma corr_edges_shape (bl bn : BP) :
  corr bl bn -> edges_shape bn -> edges_shape bl.
Proof.
  intros [Hfg [_ [_ [_ He]]]] [H1 H2]. unfold edges_shape, nrVars.
  rewrite Hfg. split; [exact H1|].
  rewrite (Forall2_map_length _ _ _ He). exact H2.
Qed.

(** In a log-domain state with up-to-date residuals that stands for a
    linear-domain state, the residual of an edge is the LINF distance of
    the logarithms of the staged and the live message of the linear
    state. *)
Lemma corr_residual (bl bn : BP) (i _I : nat) (en : EdgeProp) :
  corr bl bn -> residuals_consistent bl -> edge bn i _I = Ok en ->
  BP_residual bl i _I
  = Ok (linf (map ln (newMessage en)) (map ln (message en))).
Proof.
  intros Hc Hr Hen. pose proof (corr_edge bl bn i _I Hc) as H.
  rewrite Hen in H. apply rel_result_Ok_r in H.
  destruct H as [el [Hel [_ [Hm Hn]]]].
  unfold BP_residual. rewrite Hel. cbn [bind].
  rewrite (Hr i _I el Hel).
  rewrite (ln_exp_map _ _ Hm), (ln_exp_map _ _ Hn). reflexivity.
Qed.

(** A step of the log-domain run at the edge it selects, next to the step
    of the linear-domain state at that edge. *)
Lemma BP_seqmax_step_log (bl bn bn' : BP) (i _I : nat) :
  paired bl bn -> residuals_consistent bl ->
  BP_findMaxResidual bl = Ok (i, _I) ->
  BP_seqmax_update bn i _I = Ok bn' ->
  exists bl',
    BP_seqmax_step bl = Ok (i, _I, bl') /\
    paired bl' bn' /\ residuals_consistent bl'.
Proof.
  intros Hp Hr Hsel Hn.
  pose proof (BP_seqmax_update_paired bl bn i _I Hp) as H.
  rewrite Hn in H. apply rel_result_Ok_r in H. destruct H as [bl' [Hl Hp']].
  assert (Hstep : BP_seqmax_step bl = Ok (i, _I, bl')).
  { rewrite (BP_seqmax_step_select bl i _I Hsel), Hl. reflexivity. }
  exists bl'. split; [exact Hstep|]. split; [exact Hp'|].
  apply (BP_seqmax_step_consistent bl i _I bl' Hr Hstep).
Qed.

(** The edge that the log-domain run selects in a state that stands for
    the linear-domain state [bn] over [fg4]. *)
Lemma BP_findMaxResidual_log_fg4 (bl bn : BP) (i _I : nat) (q : R)
  (en : EdgeProp) :
  paired bl bn -> residuals_consistent bl ->
  fg bn = fg4 -> edges_shape bn ->
  edge bn i _I = Ok en ->
  ln q < linf (map ln (newMessage en)) (map ln (message en)) ->
  (forall j _J e, (j < 2)%nat -> (_J < 2)%nat -> (j, _J) <> (i, _I) ->
     edge bn j _J = Ok e ->
     linf (map ln (newMessage e)) (map ln (message e)) <= ln q) ->
  BP_findMaxResidual bl = Ok (i, _I).
Proof.
  intros [Hc _] Hr Hfg Hs Hen Hq Hle.
  apply (BP_findMaxResidual_fg4 bl i _I (ln q)
           (linf (map ln (newMessage en)) (map ln (message en)))).
  - rewrite (proj1 Hc). exact Hfg.
  - apply (corr_edges_shape bl bn Hc Hs).
  - apply (corr_residual bl bn i _I en Hc Hr Hen).
  - exact Hq.
  - intros j _J r Hj HJ Hne Hres.
    assert (He : is_edge bn (j, _J)).
    { split; unfold nrVars, deg; rewrite Hfg; simpl; [lia|].
      destruct j as [|[|j]]; simpl; lia. }
    destruct (edge_Ok bn j _J Hs He) as [e Hedge].
    rewrite (corr_residual bl bn j _J e Hc Hr Hedge) in Hres.
    injection Hres as <-. apply (Hle j _J e Hj HJ Hne Hedge).
Qed.

Ltac others4_log :=
  let j := fresh "j" in
  let _J := fresh "_J" in
  let e := fresh "e" in
  let Hj := fresh "Hj" in
  let HJ := fresh "HJ" in
  let Hne := fresh "Hne" in
  let He := fresh "He" in
  intros j _J e Hj HJ Hne He;
  destruct j as [|[|j]]; [| |lia];
  (destruct _J as [|[|_J]]; [| |lia]);
  try congruence;
  unfold edge in He; cbn [bind] in He; injection He as <-;
  cbn [newMessage message fst snd]; apply linf2_ln_le; lra.

Lemma BP_findMaxResidual_log_first (bl : BP) :
  paired bl s4_first -> residuals_consistent bl ->
  BP_findMaxResidual bl = Ok (1%nat, 1%nat).
Proof.
  intros Hp Hr.
  apply (BP_findMaxResidual_log_fg4 bl s4_first 1 1 12 _ Hp Hr eq_refl
           (conj eq_refl eq_refl) eq_refl).
  - cbn [newMessage message fst snd].
    apply Rlt_le_trans with (ln (25 / 2)); [apply ln_increasing; lra|].
    apply linf2_ln_ge; lra.
  - others4_log.
Qed.

Lemma BP_findMaxResidual_log_step1 (bl : BP) :
  paired bl s4_step1 -> residuals_consistent bl ->
  BP_findMaxResidual bl = Ok (0%nat, 1%nat).
Proof.
  intros Hp Hr.
  apply (BP_findMaxResidual_log_fg4 bl s4_step1 0 1 (111 / 10) _ Hp Hr
           eq_refl (conj eq_refl eq_refl) eq_refl).
  - cbn [newMessage message fst snd].
    apply Rlt_le_trans with (ln (113 / 10)); [apply ln_increasing; lra|].
    apply linf2_ln_ge; lra.
  - others4_log.
Qed.

Lemma BP_findMaxResidual_log_step2 (bl : BP) :
  paired bl s4_step2 -> residuals_consistent bl ->
  BP_findMaxResidual bl = Ok (1%nat, 0%nat).
Proof.
  intros Hp Hr.
  apply (BP_findMaxResidual_log_fg4 bl s4_step2 1 0 5 _ Hp Hr
           eq_refl (conj eq_refl eq_refl) eq_refl).
  - cbn [newMessage message fst snd].
    apply Rlt_le_trans with (ln 10); [apply ln_increasing; lra|].
    apply linf2_ln_ge; lra.
  - others4_log.
Qed.

(** In the state after three steps the linear-domain run selects the edge
    (0,0), of residual 2/3 against 48/247 for the edge (0,1); the
    log-domain run selects the edge (0,1), of residual ln(209/65) against
    ln 3 for the edge (0,0). *)
Lemma BP_findMaxResidual_log_step3 (bl : BP) :
  paired bl s4_step3 -> residuals_consistent bl ->
  BP_findMaxResidual bl = Ok (0%nat, 1%nat).
Proof.
  intros Hp Hr.
  apply (BP_findMaxResidual_log_fg4 bl s4_step3 0 1 (31 / 10) _ Hp Hr
           eq_refl (conj eq_refl eq_refl) eq_refl).
  - cbn [newMessage message fst snd].
    apply Rlt_le_trans with (ln (32 / 10)); [apply ln_increasing; lra|].
    apply linf2_ln_ge; lra.
  - others4_log.
Qed.

(** The log-domain run on [fg4]: its state after the pass stands for the
    linear-domain state [s4_step4_log]. *)
Lemma BP_run_SEQMAX_once_log_fg4 :
  exists bl,
    BP_run_SEQMAX_once fg4 true NORMPROB = Ok bl /\
    paired bl s4_step4_log.
Proof.
  pose proof BP_create_init_fg4 as Hn.
  destruct (BP_create (mkBP fg4 [] false NORMPROB)) as [c|] eqn:Hc;
    [|discriminate].
  cbn [bind] in Hn.
  destruct (paired_after_create_init fg4 NORMPROB c wf_graph_fg4
              (wf_nbV_fg4 (mkBP fg4 [] false NORMPROB) eq_refl) Hc)
    as [b1 [b2 [bn2 [Hcl [Hil [Hin Hp0]]]]]].
  rewrite Hn in Hin. injection Hin as <-.
  (* the first pass *)
  pose proof (BP_first_pass_SEQMAX_paired b2 s4_init Hp0) as H.
  rewrite BP_first_pass_SEQMAX_s4 in H. apply rel_result_Ok_r in H.
  destruct H as [b3 [Hfirst Hp1]].
  assert (Hfg2 : fg b2 = fg4) by apply (proj1 (proj1 Hp0)).
  assert (Hr1 : residuals_consistent b3).
  { apply (BP_first_pass_SEQMAX_consistent b2 b3); auto.
    - apply (wf_nbV_fg4 _ Hfg2).
    - apply (corr_edges_shape b2 s4_init (proj1 Hp0)). split; reflexivity. }
  (* the four steps *)
  destruct (BP_seqmax_step_log b3 s4_first s4_step1 1 1 Hp1 Hr1
              (BP_findMaxResidual_log_first b3 Hp1 Hr1)
              BP_seqmax_update_s4_first) as [b4 [Hs1 [Hp2 Hr2]]].
  destruct (BP_seqmax_step_log b4 s4_step1 s4_step2 0 1 Hp2 Hr2
              (BP_findMaxResidual_log_step1 b4 Hp2 Hr2)
              BP_seqmax_update_s4_step1) as [b5 [Hs2 [Hp3 Hr3]]].
  destruct (BP_seqmax_step_log b5 s4_step2 s4_step3 1 0 Hp3 Hr3
              (BP_findMaxResidual_log_step2 b5 Hp3 Hr3)
              BP_seqmax_update_s4_step2) as [b6 [Hs3 [Hp4 Hr4]]].
  destruct (BP_seqmax_step_log b6 s4_step3 s4_step4_log 0 1 Hp4 Hr4
              (BP_findMaxResidual_log_step3 b6 Hp4 Hr4)
              BP_seqmax_update_s4_step3_log) as [b7 [Hs4 [Hp5 Hr5]]].
  exists b7. split; [|exact Hp5].
  unfold BP_run_SEQMAX_once. rewrite Hcl. cbn [bind].
  rewrite Hil. cbn [bind]. rewrite Hfirst. cbn [bind].
  unfold BP_pass_SEQMAX, for_range.
  assert (Hfg3 : fg b3 = fg4) by apply (proj1 (proj1 Hp1)).
  unfold nrEdges. rewrite Hfg3. cbn [fg4 fg_nbV fold_left length Nat.add].
  cbn [seq for_each].
  rewrite Hs1. cbn [bind]. rewrite Hs2. cbn [bind].
  rewrite Hs3. cbn [bind]. rewrite Hs4. reflexivity.
Qed.

Lemma BP_run_SEQMAX_once_fg4 :
  BP_run_SEQMAX_once fg4 false NORMPROB = Ok s4_step4.
Proof.
  pose proof BP_create_init_fg4 as Hn.
  unfold BP_run_SEQMAX_once.
  destruct (BP_create (mkBP fg4 [] false NORMPROB)) as [c|];
    [|discriminate].
  cbn [bind] in Hn |- *. rewrite Hn. cbn [bind].
  rewrite BP_first_pass_SEQMAX_s4. cbn [bind]. apply BP_pass_SEQMAX_s4.
Qed.

(** C7, counterexample: on the well-formed graph [fg4] of two binary
    variables and two strictly positive factors, a run of the SEQMAX
    schedule of one iteration ([create], [init()], the first pass and
    [nrEdges()] steps) succeeds in the log domain and in the linear domain,
    and the belief of variable 1 is [<7/13 6/13>] after the log-domain run
    and [<11/25 14/25>] after the linear-domain run: the fourth step
    commits the edge (0,1) in the log domain and the edge (0,0) in the
    linear domain. *)
Lemma SEQMAX_log_linear_differ :
  wf_graph (mkBP fg4 [] false NORMPROB) /\
  exists bl bn,
    BP_run_SEQMAX_once fg4 true NORMPROB = Ok bl /\
    BP_run_SEQMAX_once fg4 false NORMPROB = Ok bn /\
    BP_beliefV bl 1 = Ok (mkFactor [y1] [7 / 13; 6 / 13]) /\
    BP_beliefV bn 1 = Ok (mkFactor [y1] [11 / 25; 14 / 25]) /\
    BP_beliefV bl 1 <> BP_beliefV bn 1.
Proof.
  split; [exact wf_graph_fg4|].
  destruct BP_run_SEQMAX_once_log_fg4 as [bl [Hl Hp]].
  assert (Hbl : BP_beliefV bl 1 = Ok (mkFactor [y1] [7 / 13; 6 / 13])).
  { pose proof (BP_beliefV_corr bl s4_step4_log 1 (proj1 Hp)) as H.
    rewrite BP_beliefV_s4_step4_log in H. apply rel_result_Ok_r in H.
    destruct H as [b [-> ->]]. reflexivity. }
  exists bl, s4_step4.
  split; [exact Hl|]. split; [exact BP_run_SEQMAX_once_fg4|].
  split; [exact Hbl|]. split; [exact BP_beliefV_s4_step4|].
  rewrite Hbl, BP_beliefV_s4_step4. intros E. injection E as E _. lra.
Qed.
